(** * Import-rewriting scripts of frontend/scripts: a shallow embedding

    The scripts rewrite import statements of TypeScript sources with
    Python's [re] module.  The embedding has three layers:

    - [Re]: the fragment of Python regular expressions the scripts use
      (sequences of single-character classes, each taken once or under a
      greedy [*] / [+], with capture groups over runs of consecutive
      items), matched by backtracking as [re] does, with [re.search] and
      [re.sub];
    - one module per script, holding its table and its [update_file];
    - the file system the scripts read and write, with the failures
      [open], [read] and [write] can raise.

    Text is a list of characters; a character is a code point below 256. *)

From Stdlib Require Import String Ascii Bool Arith Lia NArith List.
Import ListNotations.

Local Open Scope string_scope.
Local Open Scope nat_scope.
Local Open Scope list_scope.

Arguments Ascii.eqb : simpl never.

(** ** Text *)

Definition chars := list ascii.

(** Reading a string literal of the source as text. *)
Definition cs (s : string) : chars := list_ascii_of_string s.

Definition chars_eqb (a b : chars) : bool :=
  if list_eq_dec ascii_dec a b then true else false.

(** ** The regular-expression fragment *)

Module Re.

(** Character classes that occur in the scripts' patterns. *)
Inductive cclass : Type :=
| Lit (a : ascii)      (* a literal character, escaped or not *)
| Space                (* \s *)
| Quote                (* a single or a double quote *)
| NotRBrace            (* [^}] *)
| AnyChar.             (* . *)

Definition code (a : ascii) : N := N_of_ascii a.

(** [\s] on a [str] pattern is [str.isspace] character by character:
    below 256 these are TAB..CR, FS..US, SPACE, NEL and NBSP. *)
Definition is_space (a : ascii) : bool :=
  let n := code a in
  (((9 <=? n) && (n <=? 13)) || ((28 <=? n) && (n <=? 32))
   || (n =? 133) || (n =? 160))%N.

Definition is_quote (a : ascii) : bool :=
  Ascii.eqb a "'" || Ascii.eqb a "034".

Definition accepts (c : cclass) (a : ascii) : bool :=
  match c with
  | Lit b => Ascii.eqb a b
  | Space => is_space a
  | Quote => is_quote a
  | NotRBrace => negb (Ascii.eqb a "}")
  | AnyChar => negb (Ascii.eqb a "010")
  end.

(** One element of a pattern: a class taken once, or under [*] or [+]. *)
Inductive item : Type :=
| One (c : cclass)
| Star (c : cclass)
| Plus (c : cclass).

(** A pattern: its items, and its capture groups as (first item, number
    of items); group [n] of the source is the [n]-th entry, from 1. *)
Record regex : Type := Regex {
  items : list item;
  groups : list (nat * nat)
}.

(** What a successful match returns: the text taken by each item, and the
    text left after the match. *)
Definition capture : Type := (list chars * chars)%type.

(** Length of the longest prefix of [s] within class [c]. *)
Fixpoint run (c : cclass) (s : chars) : nat :=
  match s with
  | a :: s' => if accepts c a then S (run c s') else 0
  | [] => 0
  end.

(** A greedy quantifier: give the item [n] characters and match the rest
    of the pattern; on failure give back one character, down to [lo]. *)
Fixpoint backtrack (k : chars -> option capture) (s : chars) (lo n : nat)
  : option capture :=
  if n <? lo then None
  else match k (skipn n s) with
       | Some (ps, r) => Some (firstn n s :: ps, r)
       | None => match n with
                 | 0 => None
                 | S n' => backtrack k s lo n'
                 end
       end.

(** Matching a sequence of items at the head of [s]. *)
Fixpoint match_items (p : list item) (s : chars) : option capture :=
  match p with
  | [] => Some ([], s)
  | One c :: p' =>
      match s with
      | a :: s' =>
          if accepts c a
          then match match_items p' s' with
               | Some (ps, r) => Some ([a] :: ps, r)
               | None => None
               end
          else None
      | [] => None
      end
  | Star c :: p' => backtrack (match_items p') s 0 (run c s)
  | Plus c :: p' => backtrack (match_items p') s 1 (run c s)
  end.

(** Text of a capture group, from the per-item texts of a match. *)
Definition group_text (ps : list chars) (g : nat * nat) : chars :=
  concat (firstn (snd g) (skipn (fst g) ps)).

(** Replacement templates: literal text and group references [\n]. *)
Inductive tpl_part : Type :=
| TLit (s : chars)
| TGroup (n : nat).

Definition template := list tpl_part.

Definition expand_part (r : regex) (ps : list chars) (t : tpl_part) : chars :=
  match t with
  | TLit s => s
  | TGroup n =>
      match n with
      | 0 => concat ps
      | S i => match nth_error (groups r) i with
               | Some g => group_text ps g
               | None => []
               end
      end
  end.

Definition expand (r : regex) (t : template) (ps : list chars) : chars :=
  flat_map (expand_part r ps) t.

(** [re.search(pattern, s)] as a truth value: is there a position of [s],
    its end included, at which the pattern matches. *)
Fixpoint re_search (r : regex) (s : chars) : bool :=
  match match_items (items r) s with
  | Some _ => true
  | None => match s with
            | [] => false
            | _ :: s' => re_search r s'
            end
  end.

(** [re.sub(pattern, repl, s)]: scan [s] from the left; at each position
    not inside the previous match try the pattern; on a match emit the
    expanded template and resume after it, otherwise copy the character.
    [skip] counts the characters still covered by the previous match. *)
Fixpoint sub_scan (r : regex) (t : template) (s : chars) (skip : nat) : chars :=
  match s with
  | [] =>
      match skip, match_items (items r) [] with
      | 0, Some (ps, _) => expand r t ps
      | _, _ => []
      end
  | a :: s' =>
      match skip with
      | S k => sub_scan r t s' k
      | 0 =>
          match match_items (items r) s with
          | Some (ps, _) =>
              match length (concat ps) with
              | 0 => expand r t ps ++ a :: sub_scan r t s' 0
              | S k => expand r t ps ++ sub_scan r t s' k
              end
          | None => a :: sub_scan r t s' 0
          end
      end
  end.

Definition re_sub (r : regex) (t : template) (s : chars) : chars :=
  sub_scan r t s 0.

(** [re.subn(pattern, repl, s)]: the same scan, returning also the
    number of replacements made. *)
Fixpoint subn_scan (r : regex) (t : template) (s : chars) (skip : nat)
  : chars * nat :=
  match s with
  | [] =>
      match skip, match_items (items r) [] with
      | 0, Some (ps, _) => (expand r t ps, 1)
      | _, _ => ([], 0)
      end
  | a :: s' =>
      match skip with
      | S k => subn_scan r t s' k
      | 0 =>
          match match_items (items r) s with
          | Some (ps, _) =>
              match length (concat ps) with
              | 0 => let '(out, n) := subn_scan r t s' 0 in
                     (expand r t ps ++ a :: out, S n)
              | S k => let '(out, n) := subn_scan r t s' k in
                       (expand r t ps ++ out, S n)
              end
          | None => let '(out, n) := subn_scan r t s' 0 in (a :: out, n)
          end
      end
  end.

Definition re_subn (r : regex) (t : template) (s : chars) : chars * nat :=
  subn_scan r t s 0.

(** The number of replacements alone; it does not depend on the
    template. *)
Fixpoint count_scan (r : regex) (s : chars) (skip : nat) : nat :=
  match s with
  | [] =>
      match skip, match_items (items r) [] with
      | 0, Some _ => 1
      | _, _ => 0
      end
  | a :: s' =>
      match skip with
      | S k => count_scan r s' k
      | 0 =>
          match match_items (items r) s with
          | Some (ps, _) =>
              match length (concat ps) with
              | 0 => S (count_scan r s' 0)
              | S k => S (count_scan r s' k)
              end
          | None => count_scan r s' 0
          end
      end
  end.

Definition count_matches (r : regex) (s : chars) : nat := count_scan r s 0.

(** Literal text as a pattern: one item per character. *)
Definition lits (s : chars) : list item := map (fun a => One (Lit a)) s.

(** A name interpolated into a pattern without [re.escape]: the
    characters are pattern syntax.  [.] is the wildcard; the characters a
    name of the tables can hold (letters, digits, [-], [_], [/], [@]) stand
    for themselves.  The model covers names free of the other
    metacharacters, see [regex_safe]. *)
Definition name_items (s : chars) : list item :=
  map (fun a => if Ascii.eqb a "." then One AnyChar else One (Lit a)) s.

Definition is_meta (a : ascii) : bool :=
  existsb (Ascii.eqb a) (cs "\^$*+?{}[]()|").

Definition regex_safe (s : chars) : bool := forallb (fun a => negb (is_meta a)) s.

(** A pattern [(g1)mid(g2)] with two groups around an uncaptured middle. *)
Definition two_groups (g1 mid g2 : list item) : regex :=
  {| items := g1 ++ mid ++ g2;
     groups := [(0, length g1); (length g1 + length mid, length g2)] |}.

End Re.

Import Re.

(** ** Python string helpers *)

(** [s.split(sep)] for a one-character separator: the pieces between
    the separators, empty pieces included. *)
Fixpoint split_on (sep : ascii) (s : chars) : list chars :=
  match s with
  | [] => [[]]
  | a :: s' =>
      if Ascii.eqb a sep then [] :: split_on sep s'
      else match split_on sep s' with
           | w :: ws => (a :: w) :: ws
           | [] => [[a]]
           end
  end.

Definition is_upper (a : ascii) : bool := ((65 <=? code a) && (code a <=? 90))%N.
Definition is_lower (a : ascii) : bool := ((97 <=? code a) && (code a <=? 122))%N.
Definition is_digit (a : ascii) : bool := ((48 <=? code a) && (code a <=? 57))%N.

Definition upper (a : ascii) : ascii :=
  if is_lower a then ascii_of_N (code a - 32) else a.
Definition lower (a : ascii) : ascii :=
  if is_upper a then ascii_of_N (code a + 32) else a.

(** [word.capitalize()]: first character upper-cased, the others
    lower-cased (on ASCII letters; other characters are kept). *)
Definition capitalize (w : chars) : chars :=
  match w with
  | [] => []
  | a :: w' => upper a :: map lower w'
  end.

(** [''.join(word.capitalize() for word in name.split('-'))]. *)
Definition pascal_case (name : chars) : chars :=
  concat (map capitalize (split_on "-" name)).

(** [old_path.split('/')[-1]]. *)
Definition last_segment (p : chars) : chars := last (split_on "/" p) [].

(** The outcome of an expression that may raise. *)
Inductive outcome (A : Type) : Type :=
| Returns (a : A)
| Raises (exn : string).
Arguments Returns {A} a.
Arguments Raises {A} exn.

(** The binding-name derivation of fix-moved-imports.py and
    fix-remaining-imports.py, lines
    [component_name = old_path.split('/')[-1]] and
    [pascal_name = ''.join(...)]: no statement of it raises. *)
Definition derive_binding_name (stem : chars) : outcome chars :=
  Returns (pascal_case stem).

(** [d[key]] for a dict literal listed in insertion order. *)
Fixpoint dict_get (d : list (string * string)) (key : string) : option string :=
  match d with
  | [] => None
  | (k, v) :: d' =>
      match dict_get d' key with
      | Some v' => Some v'
      | None => if String.eqb k key then Some v else None
      end
  end.

(** ** The file system and the console *)

Module Fs.

Definition path := string.

(** What happens when a file is written: the write goes through, or
    [open(path, 'w')] raises (the file is untouched), or [open] truncates
    the file and [f.write] raises after [kept] characters reached it. *)
Inductive write_mode : Type :=
| WriteOk
| OpenFails
| WriteFails (kept : nat).

(** A file: its text ([None] when [open(path, 'r')] or [read] raises). *)
Record file : Type := File {
  data : option chars;
  wmode : write_mode
}.

Definition fs := path -> file.

Definition set_data (d : fs) (p : path) (c : chars) : fs :=
  fun q => if String.eqb q p then File (Some c) (wmode (d p)) else d q.

(** Lines the scripts print: the error line of [update_file] (with
    the path, where the script prints it), the line of [main] for an
    updated file (with the count, where the script prints one), the
    closing summary with its numbers, and the two fixed lines
    update-imports.py prints behind its summary: the request to review
    the changes with [git diff] and the request to test with
    [npm run build].  The fixed header line a script prints before its
    loop is left out. *)
Inductive line : Type :=
| ErrorLine (p : option path)
| UpdatedLine (p : path) (count : option nat)
| SummaryLine (numbers : list nat)
| ReviewLine
| BuildLine.

Record world : Type := World {
  disk : fs;
  console : list line
}.

Definition print (l : line) (w : world) : world :=
  World (disk w) (console w ++ [l]).

(** [with open(p, 'r') as f: content = f.read()]. *)
Definition read (w : world) (p : path) : outcome chars :=
  match data (disk w p) with
  | Some c => Returns c
  | None => Raises "OSError"
  end.

(** [with open(p, 'w') as f: f.write(content)]. *)
Definition write (w : world) (p : path) (c : chars) : outcome unit * world :=
  match wmode (disk w p) with
  | WriteOk => (Returns tt, World (set_data (disk w) p c) (console w))
  | OpenFails => (Raises "OSError", w)
  | WriteFails kept =>
      (Raises "OSError", World (set_data (disk w) p (firstn kept c)) (console w))
  end.

End Fs.

(** ** update-imports.py *)

Module UpdateImports.

Definition RENAMES : list (string * string) :=
  [ ("AIAssistantFAB", "ai-assistant-fab");
    ("AIAssistantPanel", "ai-assistant-panel");
    ("AIChat", "ai-chat");
    ("ChallengeCard", "challenge-card");
    ("ChallengeForm", "challenge-form");
    ("ChallengeHistory", "challenge-history");
    ("ChallengePanel", "challenge-panel");
    ("ChallengeVotingWidget", "challenge-voting-widget");
    ("Chat", "in-graph-chat");
    ("ClusterView", "cluster-view");
    ("CollaborationPanel", "collaboration-panel");
    ("CommandMenu", "command-menu");
    ("ConsensusVotingWidget", "consensus-voting-widget");
    ("ContextMenu", "context-menu");
    ("CustomNode", "custom-node");
    ("EnhancedGraphCanvas", "enhanced-graph-canvas");
    ("ErrorBoundary", "error-boundary");
    ("FileViewerExample", "file-viewer-example");
    ("FileViewerSidebar", "file-viewer-sidebar");
    ("FilterPanel", "filter-panel");
    ("GraphCanvas", "graph-canvas");
    ("GraphEdge", "graph-edge");
    ("GraphNode", "graph-node");
    ("GraphSidebar", "graph-sidebar");
    ("LayoutControls", "layout-controls");
    ("LoadingStates", "loading-states");
    ("LoginDialog", "login-dialog");
    ("MethodologyProgressPanel", "methodology-progress-panel");
    ("MethodologySelector", "methodology-selector");
    ("Navigation", "navigation");
    ("NotificationBell", "notification-bell");
    ("PerformanceMonitor", "performance-monitor");
    ("PromotionEligibilityBadge", "promotion-eligibility-badge");
    ("PromotionEligibilityDashboard", "promotion-eligibility-dashboard");
    ("PromotionLedgerTable", "promotion-ledger-table");
    ("RemoteCursor", "remote-cursor");
    ("ReputationBadge", "reputation-badge");
    ("ThreadedComments", "threaded-comments");
    ("TimelineView", "timeline-view");
    ("VeracityBadge", "veracity-badge");
    ("VeracityBreakdown", "veracity-breakdown");
    ("VeracityIndicator", "veracity-indicator");
    ("VeracityPanel", "veracity-badge");
    ("VeracityTimeline", "veracity-timeline");
    ("VisualizationControls", "visualization-controls") ].

Definition from_kw : list item := lits (cs "from") ++ [Plus Space; One Quote].
Definition import_kw : list item := lits (cs "import(") ++ [One Quote].
Definition alias_root : list item := lits (cs "@/components/").
Definition dots_slash : list item := [Plus (Lit "."); One (Lit "/")].

(** The four patterns of one table entry; the old name is interpolated
    as pattern text. *)
Definition pattern1 (old_name : chars) : regex :=
  two_groups (from_kw ++ alias_root) (name_items old_name) [One Quote].
Definition pattern2 (old_name : chars) : regex :=
  two_groups (from_kw ++ dots_slash) (name_items old_name) [One Quote].
Definition pattern3 (old_name : chars) : regex :=
  two_groups (import_kw ++ alias_root) (name_items old_name) [One Quote].
Definition pattern4 (old_name : chars) : regex :=
  two_groups (import_kw ++ dots_slash) (name_items old_name) [One Quote].

(** The template [\1{new_name}\2].  The new name is template text: the
    model covers new names that hold no backslash and do not start with
    a digit (which would extend the group number). *)
Definition repl (new_name : chars) : template :=
  [TGroup 1; TLit new_name; TGroup 2].

(** [if re.search(p, content): content = re.sub(p, t, content);
    modified = True]. *)
Definition try_pattern (p : regex) (t : template) (st : chars * bool)
  : chars * bool :=
  let '(content, modified) := st in
  if re_search p content then (re_sub p t content, true)
  else (content, modified).

(** The body of the loop over the table. *)
Definition rename_entry (st : chars * bool) (entry : string * string)
  : chars * bool :=
  let old_name := cs (fst entry) in
  let new_name := cs (snd entry) in
  let st := try_pattern (pattern1 old_name) (repl new_name) st in
  let st := try_pattern (pattern2 old_name) (repl new_name) st in
  let st := try_pattern (pattern3 old_name) (repl new_name) st in
  try_pattern (pattern4 old_name) (repl new_name) st.

(** The text part of [update_file], over a table: the new content and
    the [modified] flag. *)
Definition update_content (table : list (string * string)) (content : chars)
  : chars * bool :=
  fold_left rename_entry table (content, false).

(** [update_file(filepath)]; any exception is caught, printed, and
    answered with [False]. *)
Definition update_file_with (table : list (string * string))
  (p : Fs.path) (w : Fs.world) : bool * Fs.world :=
  match Fs.read w p with
  | Raises _ => (false, Fs.print (Fs.ErrorLine (Some p)) w)
  | Returns content =>
      let '(content', modified) := update_content table content in
      if modified then
        match Fs.write w p content' with
        | (Returns _, w') => (true, w')
        | (Raises _, w') => (false, Fs.print (Fs.ErrorLine (Some p)) w')
        end
      else (false, w)
  end.

Definition update_file := update_file_with RENAMES.

(** The loop of [main] over the files found. *)
Fixpoint main_loop (table : list (string * string)) (files : list Fs.path)
  (updated_count : nat) (w : Fs.world) : nat * Fs.world :=
  match files with
  | [] => (updated_count, w)
  | p :: rest =>
      let '(b, w') := update_file_with table p w in
      if b then main_loop table rest (S updated_count)
                  (Fs.print (Fs.UpdatedLine p None) w')
      else main_loop table rest updated_count w'
  end.

(** [main]: the loop, the summary, and the two closing lines. *)
Definition main_with (table : list (string * string)) (files : list Fs.path)
  (w : Fs.world) : nat * Fs.world :=
  let '(n, w') := main_loop table files 0 w in
  (n, Fs.print Fs.BuildLine
        (Fs.print Fs.ReviewLine
           (Fs.print (Fs.SummaryLine [n; length files]) w'))).

Definition main := main_with RENAMES.

End UpdateImports.

(** ** update-feature-imports.py *)

Module UpdateFeatureImports.

Definition PATH_UPDATES : list (string * string) :=
  [ ("ai-assistant-fab", "ai-assistant/ai-assistant-fab");
    ("ai-assistant-panel", "ai-assistant/ai-assistant-panel");
    ("ai-chat", "ai-assistant/ai-chat");
    ("credibility-badge", "credibility/credibility-badge");
    ("veracity-badge", "credibility/veracity-badge");
    ("veracity-panel", "credibility/veracity-panel");
    ("veracity-timeline", "credibility/veracity-timeline");
    ("veracity-breakdown", "credibility/veracity-breakdown");
    ("veracity-indicator", "credibility/veracity-indicator");
    ("promotion-eligibility-badge", "promotion/promotion-eligibility-badge");
    ("promotion-eligibility-dashboard", "promotion/promotion-eligibility-dashboard");
    ("consensus-voting-widget", "promotion/consensus-voting-widget");
    ("promotion-ledger-table", "promotion/promotion-ledger-table");
    ("methodology-progress-panel", "promotion/methodology-progress-panel");
    ("media-upload-dialog", "media/media-upload-dialog");
    ("media-processing-status", "media/media-processing-status");
    ("file-upload-button", "media/file-upload-button");
    ("file-attachment-list", "media/file-attachment-list");
    ("media-library-integration", "media/media-library-integration");
    ("universal-file-viewer", "media/universal-file-viewer");
    ("file-viewer-example", "media/file-viewer-example");
    ("file-viewer-sidebar", "media/file-viewer-sidebar");
    ("collaboration-panel", "collaboration/collaboration-panel");
    ("remote-cursor", "collaboration/remote-cursor");
    ("in-graph-chat", "collaboration/in-graph-chat");
    ("chat-sidebar", "collaboration/chat-sidebar");
    ("chat-input", "collaboration/chat-input");
    ("chat-message", "collaboration/chat-message");
    ("threaded-comments", "collaboration/threaded-comments");
    ("activity-feed", "collaboration/activity-feed");
    ("activity-post", "collaboration/activity-post");
    ("post-composer", "collaboration/post-composer");
    ("cluster-view", "visualization/cluster-view");
    ("timeline-view", "visualization/timeline-view");
    ("visualization-controls", "visualization/visualization-controls");
    ("layout-controls", "visualization/layout-controls");
    ("methodology-selector", "methodology/methodology-selector");
    ("badge-system", "shared/badge-system");
    ("theme-toggle", "shared/theme-toggle");
    ("logo", "shared/logo");
    ("loading-spinner", "shared/loading-spinner");
    ("error-boundary", "shared/error-boundary");
    ("keyboard-shortcuts", "shared/keyboard-shortcuts");
    ("search-bar", "shared/search-bar");
    ("filter-panel", "shared/filter-panel");
    ("sort-controls", "shared/sort-controls");
    ("pagination", "shared/pagination");
    ("confirmation-dialog", "shared/confirmation-dialog");
    ("node-form", "forms/node-form");
    ("edge-form", "forms/edge-form");
    ("evidence-form", "forms/evidence-form");
    ("citation-form", "forms/citation-form");
    ("hypothesis-form", "forms/hypothesis-form");
    ("inquiry-form", "forms/inquiry-form");
    ("amendment-form", "forms/amendment-form");
    ("challenge-form", "forms/challenge-form");
    ("enriched-content", "content/enriched-content");
    ("markdown-renderer", "content/markdown-renderer");
    ("article-with-badges", "content/article-with-badges") ].

(** The three patterns of one table entry (this script has no pattern
    for a dynamic import of a relative path). *)
Definition pattern1 (old_path : chars) : regex :=
  two_groups (UpdateImports.from_kw ++ UpdateImports.alias_root)
             (name_items old_path) [One Quote].
Definition pattern2 (old_path : chars) : regex :=
  two_groups (UpdateImports.from_kw ++ UpdateImports.dots_slash)
             (name_items old_path) [One Quote].
Definition pattern3 (old_path : chars) : regex :=
  two_groups (UpdateImports.import_kw ++ UpdateImports.alias_root)
             (name_items old_path) [One Quote].

(** The template [\1{new_path}\2].  The new path is template text: the
    model covers new paths that hold no backslash and do not start with
    a digit (which would extend the group number). *)
Definition repl (new_path : chars) : template :=
  [TGroup 1; TLit new_path; TGroup 2].

(** [new_content = re.sub(p, t, content);
    if new_content != content: updated_count += 1; content = new_content].
    The substitution runs without a search before it, so the template
    is read on every pass: the model covers the templates [repl] covers,
    on which [re.sub] does not raise. *)
Definition try_pattern (p : regex) (t : template) (st : chars * nat)
  : chars * nat :=
  let '(content, updated_count) := st in
  let new_content := re_sub p t content in
  if chars_eqb new_content content then (content, updated_count)
  else (new_content, S updated_count).

Definition path_entry (st : chars * nat) (entry : string * string)
  : chars * nat :=
  let old_path := cs (fst entry) in
  let new_path := cs (snd entry) in
  let st := try_pattern (pattern1 old_path) (repl new_path) st in
  let st := try_pattern (pattern2 old_path) (repl new_path) st in
  try_pattern (pattern3 old_path) (repl new_path) st.

(** The loop over the table: final content and [updated_count]. *)
Definition run_table (table : list (string * string)) (content : chars)
  : chars * nat :=
  fold_left path_entry table (content, 0).

(** What [update_file] returns for a file it can read and write:
    [updated_count] when the content changed, [0] otherwise. *)
Definition update_count (table : list (string * string)) (content : chars)
  : nat :=
  let '(content', updated_count) := run_table table content in
  if chars_eqb content' content then 0 else updated_count.

Definition update_file_with (table : list (string * string))
  (p : Fs.path) (w : Fs.world) : nat * Fs.world :=
  match Fs.read w p with
  | Raises _ => (0, Fs.print (Fs.ErrorLine (Some p)) w)
  | Returns content =>
      let '(content', updated_count) := run_table table content in
      if chars_eqb content' content then (0, w)
      else match Fs.write w p content' with
           | (Returns _, w') => (updated_count, w')
           | (Raises _, w') => (0, Fs.print (Fs.ErrorLine (Some p)) w')
           end
  end.

Definition update_file := update_file_with PATH_UPDATES.

(** The loop of [main]: [files_updated] and [total_updates]. *)
Fixpoint main_loop (table : list (string * string)) (files : list Fs.path)
  (files_updated total_updates : nat) (w : Fs.world) : nat * nat * Fs.world :=
  match files with
  | [] => (files_updated, total_updates, w)
  | p :: rest =>
      let '(update_count, w') := update_file_with table p w in
      if 0 <? update_count
      then main_loop table rest (S files_updated) (total_updates + update_count)
             (Fs.print (Fs.UpdatedLine p (Some update_count)) w')
      else main_loop table rest files_updated total_updates w'
  end.

Definition main_with (table : list (string * string)) (files : list Fs.path)
  (w : Fs.world) : nat * nat * Fs.world :=
  let '(n, t, w') := main_loop table files 0 0 w in
  (n, t, Fs.print (Fs.SummaryLine [n; t]) w').

Definition main := main_with PATH_UPDATES.

End UpdateFeatureImports.

(** ** fix-moved-imports.py *)

Module FixMovedImports.

Definition IMPORT_FIXES : list (string * string) :=
  [ ("@/components/challenge-card", "@/components/challenges");
    ("@/components/challenge-form", "@/components/challenges");
    ("@/components/challenge-history", "@/components/challenges");
    ("@/components/challenge-panel", "@/components/challenges");
    ("@/components/challenge-voting-widget", "@/components/challenges");
    ("@/components/enhanced-graph-canvas", "@/components/graph/enhanced-graph-canvas");
    ("@/components/custom-node", "@/components/graph/custom-node");
    ("@/components/context-panel", "@/components/panels");
    ("@/components/filter-panel", "@/components/panels");
    ("@/components/graph-sidebar", "@/components/panels");
    ("@/components/reputation-badge", "@/components/credibility");
    ("@/components/providers", "@/components/layout/providers");
    ("@/components/theme-provider", "@/components/layout/theme-provider") ].

(** The named-import pattern: [import], spaces, an opening brace,
    optional spaces, group 1 (any run of non-closing-brace characters,
    the binding name, any run of non-closing-brace characters), optional
    spaces, a closing brace, spaces, [from], spaces, a quote, the old
    path, a quote.  The binding name is interpolated as pattern text,
    the old path goes through [re.escape]. *)
Definition pattern (pascal_name old_path : chars) : regex :=
  {| items :=
       lits (cs "import") ++ [Plus Space; One (Lit "{"); Star Space]
       ++ ([Star NotRBrace] ++ name_items pascal_name ++ [Star NotRBrace])
       ++ [Star Space; One (Lit "}"); Plus Space]
       ++ lits (cs "from") ++ [Plus Space; One Quote]
       ++ lits old_path ++ [One Quote];
     groups := [(9, length pascal_name + 2)] |}.

(** The template [import { \1 } from 'new_path'].  The new path is
    template text: the model covers new paths that hold no backslash. *)
Definition replacement (new_path : chars) : template :=
  [TLit (cs "import { "); TGroup 1; TLit (cs " } from '" ++ new_path ++ cs "'")].

(** The default-import pattern: [import], spaces, the binding name,
    spaces, [from], spaces, a quote, the old path, a quote. *)
Definition pattern2 (pascal_name old_path : chars) : regex :=
  {| items :=
       lits (cs "import") ++ [Plus Space] ++ name_items pascal_name
       ++ [Plus Space] ++ lits (cs "from") ++ [Plus Space; One Quote]
       ++ lits old_path ++ [One Quote];
     groups := [] |}.

(** The replacement [import Name from 'new_path'], handed to [re.sub]
    as a template: the model covers names and new paths that hold no
    backslash. *)
Definition replacement2 (pascal_name new_path : chars) : template :=
  [TLit (cs "import " ++ pascal_name ++ cs " from '" ++ new_path ++ cs "'")].

(** The body of the loop over the table. *)
Definition fix_entry (content : chars) (entry : string * string) : chars :=
  let old_path := cs (fst entry) in
  let new_path := cs (snd entry) in
  let component_name := last_segment old_path in
  let pascal_name := pascal_case component_name in
  let content := re_sub (pattern pascal_name old_path) (replacement new_path) content in
  re_sub (pattern2 pascal_name old_path) (replacement2 pascal_name new_path) content.

Definition update_content (table : list (string * string)) (content : chars)
  : chars :=
  fold_left fix_entry table content.

(** [update_file(filepath)]: writes and answers [True] when the content
    changed. *)
Definition update_file_with (table : list (string * string))
  (p : Fs.path) (w : Fs.world) : bool * Fs.world :=
  match Fs.read w p with
  | Raises _ => (false, Fs.print (Fs.ErrorLine None) w)
  | Returns content =>
      let content' := update_content table content in
      if chars_eqb content' content then (false, w)
      else match Fs.write w p content' with
           | (Returns _, w') => (true, w')
           | (Raises _, w') => (false, Fs.print (Fs.ErrorLine None) w')
           end
  end.

Definition update_file := update_file_with IMPORT_FIXES.

Fixpoint main_loop (table : list (string * string)) (files : list Fs.path)
  (files_updated : nat) (w : Fs.world) : nat * Fs.world :=
  match files with
  | [] => (files_updated, w)
  | p :: rest =>
      let '(b, w') := update_file_with table p w in
      if b then main_loop table rest (S files_updated)
                  (Fs.print (Fs.UpdatedLine p None) w')
      else main_loop table rest files_updated w'
  end.

Definition main (files : list Fs.path) (w : Fs.world) : nat * Fs.world :=
  let '(n, w') := main_loop IMPORT_FIXES files 0 w in
  (n, Fs.print (Fs.SummaryLine [n]) w').

End FixMovedImports.

(** ** fix-remaining-imports.py *)

Module FixRemainingImports.

Definition IMPORT_FIXES : list (string * string) :=
  [ ("@/components/add-comment-dialog", "@/components/forms");
    ("@/components/add-reference-dialog", "@/components/forms");
    ("@/components/upload-file-dialog", "@/components/forms");
    ("@/components/ai-reference-processor-dialog", "@/components/forms");
    ("@/components/node-link-combobox", "@/components/shared");
    ("@/components/text-selection-menu", "@/components/shared");
    ("@/components/citation-panel", "@/components/content");
    ("@/components/amendment-dialog", "@/components/content");
    ("@/components/node-detail-dialog", "@/components/content");
    ("@/components/veracity-form", "@/components/credibility") ].

(** The named-import pattern of this script: the braces hold the
    binding name alone, between optional spaces. *)
Definition pattern (pascal_name old_path : chars) : regex :=
  {| items :=
       lits (cs "import") ++ [Plus Space; One (Lit "{"); Star Space]
       ++ name_items pascal_name
       ++ [Star Space; One (Lit "}"); Plus Space]
       ++ lits (cs "from") ++ [Plus Space; One Quote]
       ++ lits old_path ++ [One Quote];
     groups := [] |}.

(** The replacement [import { Name } from 'new_path'].  It is handed to
    [re.sub] as a template: the model covers names and new paths that
    hold no backslash. *)
Definition replacement (pascal_name new_path : chars) : template :=
  [TLit (cs "import { " ++ pascal_name ++ cs " } from '" ++ new_path ++ cs "'")].

Definition fix_entry (content : chars) (entry : string * string) : chars :=
  let old_path := cs (fst entry) in
  let new_path := cs (snd entry) in
  let component_name := last_segment old_path in
  let pascal_name := pascal_case component_name in
  let new_content :=
    re_sub (pattern pascal_name old_path) (replacement pascal_name new_path) content in
  if chars_eqb new_content content then content else new_content.

Definition update_content (table : list (string * string)) (content : chars)
  : chars :=
  fold_left fix_entry table content.

(** What this script prints: beside the lines of the other scripts, a
    line [Fixed: name -> new_path] for every rule that changed the
    content. *)
Inductive line : Type :=
| FixedLine (pascal_name new_path : chars)
| Line (l : Fs.line).

Record world : Type := World {
  disk : Fs.fs;
  console : list line
}.

Definition print (l : line) (w : world) : world :=
  World (disk w) (console w ++ [l]).

(** The body of the loop over the table, with what it prints. *)
Definition fix_entry_log (st : chars * list line) (entry : string * string)
  : chars * list line :=
  let '(content, out) := st in
  let old_path := cs (fst entry) in
  let new_path := cs (snd entry) in
  let component_name := last_segment old_path in
  let pascal_name := pascal_case component_name in
  let new_content :=
    re_sub (pattern pascal_name old_path) (replacement pascal_name new_path) content in
  if chars_eqb new_content content then (content, out)
  else (new_content, out ++ [FixedLine pascal_name new_path]).

(** [update_file(filepath)]. *)
Definition update_file_with (table : list (string * string))
  (p : Fs.path) (w : world) : bool * world :=
  match Fs.read (Fs.World (disk w) []) p with
  | Raises _ => (false, print (Line (Fs.ErrorLine (Some p))) w)
  | Returns content =>
      let '(content', out) := fold_left fix_entry_log table (content, console w) in
      if chars_eqb content' content then (false, World (disk w) out)
      else match Fs.write (Fs.World (disk w) []) p content' with
           | (Returns _, w') => (true, World (Fs.disk w') out)
           | (Raises _, w') =>
               (false, World (Fs.disk w') (out ++ [Line (Fs.ErrorLine (Some p))]))
           end
  end.

Definition update_file := update_file_with IMPORT_FIXES.

Fixpoint main_loop (table : list (string * string)) (files : list Fs.path)
  (files_updated : nat) (w : world) : nat * world :=
  match files with
  | [] => (files_updated, w)
  | p :: rest =>
      let '(b, w') := update_file_with table p w in
      if b then main_loop table rest (S files_updated)
                  (print (Line (Fs.UpdatedLine p None)) w')
      else main_loop table rest files_updated w'
  end.

Definition main (files : list Fs.path) (w : world) : nat * world :=
  let '(n, w') := main_loop IMPORT_FIXES files 0 w in
  (n, print (Line (Fs.SummaryLine [n])) w').

End FixRemainingImports.

(** ** rename-components.py *)

Module RenameComponents.

(** The file renames the import updates follow. *)
Definition COMPONENT_RENAMES : list (string * string) :=
  [ ("AIAssistantFAB.tsx", "ai-assistant-fab.tsx");
    ("AIAssistantPanel.tsx", "ai-assistant-panel.tsx");
    ("AIChat.tsx", "ai-chat.tsx");
    ("ChallengeCard.tsx", "challenge-card.tsx");
    ("ChallengeForm.tsx", "challenge-form.tsx");
    ("ChallengeHistory.tsx", "challenge-history.tsx");
    ("ChallengePanel.tsx", "challenge-panel.tsx");
    ("ChallengeVotingWidget.tsx", "challenge-voting-widget.tsx");
    ("Chat.tsx", "in-graph-chat.tsx");
    ("ClusterView.tsx", "cluster-view.tsx");
    ("CollaborationPanel.tsx", "collaboration-panel.tsx");
    ("CommandMenu.tsx", "command-menu.tsx");
    ("ConsensusVotingWidget.tsx", "consensus-voting-widget.tsx");
    ("ContextMenu.tsx", "context-menu.tsx");
    ("CustomNode.tsx", "custom-node.tsx");
    ("EnhancedGraphCanvas.tsx", "enhanced-graph-canvas.tsx");
    ("ErrorBoundary.tsx", "error-boundary.tsx");
    ("FileViewerExample.tsx", "file-viewer-example.tsx");
    ("FileViewerSidebar.tsx", "file-viewer-sidebar.tsx");
    ("FilterPanel.tsx", "filter-panel.tsx");
    ("GraphCanvas.tsx", "graph-canvas.tsx");
    ("GraphEdge.tsx", "graph-edge.tsx");
    ("GraphNode.tsx", "graph-node.tsx");
    ("GraphSidebar.tsx", "graph-sidebar.tsx");
    ("LayoutControls.tsx", "layout-controls.tsx");
    ("LoadingStates.tsx", "loading-states.tsx");
    ("LoginDialog.tsx", "login-dialog.tsx");
    ("MethodologyProgressPanel.tsx", "methodology-progress-panel.tsx");
    ("MethodologySelector.tsx", "methodology-selector.tsx");
    ("Navigation.tsx", "navigation.tsx");
    ("NotificationBell.tsx", "notification-bell.tsx");
    ("PerformanceMonitor.tsx", "performance-monitor.tsx");
    ("PromotionEligibilityBadge.tsx", "promotion-eligibility-badge.tsx");
    ("PromotionEligibilityDashboard.tsx", "promotion-eligibility-dashboard.tsx");
    ("PromotionLedgerTable.tsx", "promotion-ledger-table.tsx");
    ("RemoteCursor.tsx", "remote-cursor.tsx");
    ("ReputationBadge.tsx", "reputation-badge.tsx");
    ("ThreadedComments.tsx", "threaded-comments.tsx");
    ("TimelineView.tsx", "timeline-view.tsx");
    ("VeracityBadge.tsx", "veracity-badge.tsx");
    ("VeracityBreakdown.tsx", "veracity-breakdown.tsx");
    ("VeracityIndicator.tsx", "veracity-indicator.tsx");
    ("VeracityPanel.tsx", "veracity-panel.tsx");
    ("VeracityTimeline.tsx", "veracity-timeline.tsx");
    ("VisualizationControls.tsx", "visualization-controls.tsx") ].

End RenameComponents.
(** ** Vocabulary of the statements *)

(** The word [w] starts the text [s]. *)
Fixpoint starts_with (w s : chars) : bool :=
  match w, s with
  | [], _ => true
  | a :: w', b :: s' => Ascii.eqb b a && starts_with w' s'
  | _ :: _, [] => false
  end.

(** Number of positions of [s] at which the word [w] starts. *)
Fixpoint count_word (w s : chars) : nat :=
  match s with
  | [] => if starts_with w [] then 1 else 0
  | _ :: s' => (if starts_with w s then 1 else 0) + count_word w s'
  end.

(** The piece of text an item may take. *)
Definition fitsb (it : item) (w : chars) : bool :=
  match it with
  | One c => match w with [a] => accepts c a | _ => false end
  | Star c => forallb (accepts c) w
  | Plus c => match w with [] => false | _ => forallb (accepts c) w end
  end.

Definition fits (it : item) (w : chars) : Prop := fitsb it w = true.

(** The pattern matches at the head of [s]. *)
Definition matches_at (r : regex) (s : chars) : Prop :=
  match_items (items r) s <> None.

(** The pattern matches nowhere in [s]. *)
Definition clean (r : regex) (s : chars) : Prop :=
  forall x y, s = x ++ y -> match_items (items r) y = None.

(** Characters of a plain name: letters, digits, [-], [_] and [/]. *)
Definition plain_char (a : ascii) : bool :=
  is_lower a || is_upper a || is_digit a
  || Ascii.eqb a "-" || Ascii.eqb a "_" || Ascii.eqb a "/".

Definition plain (s : chars) : bool := forallb plain_char s.

(** A new name usable in the template [\1 new \2]: plain, and not
    starting with a digit. *)
Definition plain_new (s : chars) : bool :=
  plain s && match s with a :: _ => negb (is_digit a) | [] => true end.

(** A table whose names are plain and in which no new name is also an
    old name. *)
Definition no_chain (table : list (string * string)) : bool :=
  forallb (fun e => negb (existsb (fun e' => String.eqb (snd e) (fst e')) table)) table.

Definition plain_table (table : list (string * string)) : bool :=
  forallb (fun e => plain (cs (fst e)) && plain_new (cs (snd e))) table.

Definition table_ok (table : list (string * string)) : bool :=
  plain_table table && no_chain table.

(** Every new name is strictly longer than its old name. *)
Definition lengthening (table : list (string * string)) : bool :=
  forallb (fun e => length (cs (fst e)) <? length (cs (snd e))) table.

(** A keyword of an import form starts here: [from] and a space, or
    [import] and an opening parenthesis. *)
Definition kw_startb (s : chars) : bool :=
  match s with
  | a :: b :: c :: d :: w :: _ =>
      Ascii.eqb a "f" && Ascii.eqb b "r" && Ascii.eqb c "o" && Ascii.eqb d "m"
      && is_space w
  | _ => false
  end
  || starts_with (cs "import(") s.

(** [import] followed by a space starts here. *)
Definition import_startb (s : chars) : bool :=
  starts_with (cs "import") s
  && match skipn 6 s with w :: _ => is_space w | [] => false end.

(** The file holds no [import] keyword followed by a space. *)
Fixpoint no_import_kw (s : chars) : bool :=
  match s with
  | [] => true
  | _ :: s' => negb (import_startb s) && no_import_kw s'
  end.

(** The import forms of update-imports.py and update-feature-imports.py:
    a keyword part ([from], spaces, a quote; or [import(] and a quote)
    and a root part ([@/components/]; or dots and a slash). *)
Inductive keyword : Type := KFrom | KImport.
Inductive root : Type := RAlias | RDots.

Definition kw_items (k : keyword) : list item :=
  match k with
  | KFrom => UpdateImports.from_kw
  | KImport => UpdateImports.import_kw
  end.

Definition root_items (r : root) : list item :=
  match r with
  | RAlias => UpdateImports.alias_root
  | RDots => UpdateImports.dots_slash
  end.

(** The pattern of a form for an old name; [UpdateImports.pattern1] to
    [pattern4] are its four instances. *)
Definition form (k : keyword) (r : root) (old : chars) : regex :=
  two_groups (kw_items k ++ root_items r) (name_items old) [One Quote].

(** The texts the two parts match. *)
Inductive kw_text : keyword -> chars -> Prop :=
| kw_text_from w q :
    w <> [] -> forallb is_space w = true -> is_quote q = true ->
    kw_text KFrom (cs "from" ++ w ++ [q])
| kw_text_import q :
    is_quote q = true -> kw_text KImport (cs "import(" ++ [q]).

Inductive root_text : root -> chars -> Prop :=
| root_text_alias : root_text RAlias (cs "@/components/")
| root_text_dots d :
    d <> [] -> forallb (fun a => Ascii.eqb a ".") d = true ->
    root_text RDots (d ++ ["/"%char]).

(** An occurrence of a form: keyword text, root text, name, quote. *)
Definition occurrence (k : keyword) (r : root) (name : chars) (m : chars) : Prop :=
  exists h u q, kw_text k h /\ root_text r u /\ is_quote q = true
                /\ m = h ++ u ++ name ++ [q].

(** The steps of a run: one (keyword, root, old, new) per pattern tried,
    in the order the loop tries them. *)
Definition step : Type := (keyword * root * chars * chars)%type.

Definition step_regex (s : step) : regex :=
  let '(k, r, old, _) := s in form k r old.

Definition step_template (s : step) : template :=
  let '(_, _, _, new) := s in [TGroup 1; TLit new; TGroup 2].

Definition apply_step (content : chars) (s : step) : chars :=
  re_sub (step_regex s) (step_template s) content.

Definition apply_steps (steps : list step) (content : chars) : chars :=
  fold_left apply_step steps content.

(** The steps of update-imports.py and of update-feature-imports.py
    for a table. *)
Definition steps4 (table : list (string * string)) : list step :=
  flat_map (fun e => [(KFrom, RAlias, cs (fst e), cs (snd e));
                      (KFrom, RDots, cs (fst e), cs (snd e));
                      (KImport, RAlias, cs (fst e), cs (snd e));
                      (KImport, RDots, cs (fst e), cs (snd e))]) table.

Definition steps3 (table : list (string * string)) : list step :=
  flat_map (fun e => [(KFrom, RAlias, cs (fst e), cs (snd e));
                      (KFrom, RDots, cs (fst e), cs (snd e));
                      (KImport, RAlias, cs (fst e), cs (snd e))]) table.

(** Characters that are neither a space, nor a quote, nor an opening
    parenthesis. *)
Definition safe (a : ascii) : bool :=
  negb (is_space a) && negb (is_quote a) && negb (Ascii.eqb a "(").

(** No keyword of an import form starts inside [A] when [A] is followed
    by [rest]. *)
Definition quiet (A rest : chars) : Prop :=
  forall x y, A = x ++ y -> y <> [] -> kw_startb (y ++ rest) = false.

(** The text before the first quote, and the text after that quote. *)
Fixpoint until_quote (s : chars) : chars * chars :=
  match s with
  | [] => ([], [])
  | a :: s' =>
      if is_quote a then ([], s')
      else let '(u, v) := until_quote s' in (a :: u, v)
  end.

(** The text between the first two quotes: the module specifier of an
    import form that starts here. *)
Definition spec_of (s : chars) : chars :=
  fst (until_quote (snd (until_quote s))).

Definition step_old (s : step) : chars := let '(_, _, old, _) := s in old.
Definition step_new (s : step) : chars := let '(_, _, _, new) := s in new.

(** The steps of a run are well formed: plain names, and no new name
    among the old names. *)
Definition steps_ok (steps : list step) : Prop :=
  (forall s, In s steps -> plain (step_old s) = true /\ plain (step_new s) = true)
  /\ (forall s s', In s steps -> In s' steps -> step_new s <> step_old s').

(** No pattern of the steps matches anywhere in the text. *)
Definition all_clean (steps : list step) (s : chars) : Prop :=
  forall st, In st steps -> clean (step_regex st) s.

(** What [update_file] does to a file, given what the text part decides
    ([Some c'] to write [c'], [None] to leave the file alone). *)
Definition file_after (decision : chars -> option chars) (f : Fs.file) : Fs.file :=
  match Fs.data f with
  | None => f
  | Some c =>
      match decision c with
      | None => f
      | Some c' =>
          match Fs.wmode f with
          | Fs.WriteOk => Fs.File (Some c') (Fs.wmode f)
          | Fs.OpenFails => f
          | Fs.WriteFails kept => Fs.File (Some (firstn kept c')) (Fs.wmode f)
          end
      end
  end.

Definition effect (decision : chars -> option chars) (p : Fs.path) (d : Fs.fs)
  : Fs.fs :=
  fun q => if String.eqb q p then file_after decision (d p) else d q.

Definition effects (decision : chars -> option chars) (files : list Fs.path)
  (d : Fs.fs) : Fs.fs :=
  fold_left (fun d p => effect decision p d) files d.

(** [update_file] fails on this file: reading raises, or there is
    something to write and writing raises. *)
Definition fails_on (decision : chars -> option chars) (f : Fs.file) : Prop :=
  match Fs.data f with
  | None => True
  | Some c => decision c <> None /\ Fs.wmode f <> Fs.WriteOk
  end.

(** The failure leaves the file as it was: reading raised, or [open]
    for writing did. *)
Definition fails_early (decision : chars -> option chars) (f : Fs.file) : Prop :=
  match Fs.data f with
  | None => True
  | Some c => decision c <> None /\ Fs.wmode f = Fs.OpenFails
  end.

(** A file [update_file] reports nothing for and leaves as it is. *)
Definition settled (decision : chars -> option chars) (f : Fs.file) : Prop :=
  match Fs.data f with
  | None => True
  | Some c => Fs.wmode f = Fs.OpenFails \/ decision c = None
  end.

(** The decisions of the two scripts. *)
Definition ui_decide (table : list (string * string)) (c : chars) : option chars :=
  let '(c', modified) := UpdateImports.update_content table c in
  if modified then Some c' else None.

Definition ufi_decide (table : list (string * string)) (c : chars) : option chars :=
  let '(c', _) := UpdateFeatureImports.run_table table c in
  if chars_eqb c' c then None else Some c'.

(** The number of replacements the passes of a run make, each pass
    counted on the content it receives. *)
Fixpoint replacements (steps : list step) (c : chars) : nat :=
  match steps with
  | [] => 0
  | st :: rest =>
      count_matches (step_regex st) c + replacements rest (apply_step c st)
  end.

(** The number of occurrences of the steps' forms in a text. *)
Definition occurrences (steps : list step) (c : chars) : nat :=
  list_sum (map (fun st => count_matches (step_regex st) c) steps).

Definition step_form (s : step) : keyword * root * chars :=
  let '(k, r, old, _) := s in (k, r, old).

(** The old names of a table are pairwise different, as the keys of a
    dict are. *)
Fixpoint keys_distinct (table : list (string * string)) : bool :=
  match table with
  | [] => true
  | e :: rest =>
      negb (existsb (fun e' => String.eqb (fst e) (fst e')) rest)
      && keys_distinct rest
  end.

(** Whether a pass changes the content, as 0 or 1, and the number of
    passes of a run that change the content they receive. *)
Definition changed (c : chars) (st : step) : nat :=
  if chars_eqb (apply_step c st) c then 0 else 1.

Fixpoint fired_count (steps : list step) (c : chars) : nat :=
  match steps with
  | [] => 0
  | st :: rest => changed c st + fired_count rest (apply_step c st)
  end.

(** Every new name of the steps is longer than its old name. *)
Definition steps_grow (steps : list step) : Prop :=
  forall st, In st steps ->
    plain (step_old st) = true /\ plain (step_new st) = true
    /\ length (step_old st) < length (step_new st).

(** The text [X] is matched by the name [o] read as a pattern. *)
Fixpoint name_matchb (o X : chars) : bool :=
  match o, X with
  | [], [] => true
  | a :: o', b :: X' =>
      (if Ascii.eqb a "." then accepts AnyChar b else accepts (Lit a) b)
      && name_matchb o' X'
  | _, _ => false
  end.

(** Number of occurrences of a character in a text. *)
Definition count_char (a : ascii) (s : chars) : nat :=
  length (filter (Ascii.eqb a) s).

(** A text of ASCII characters, the characters [capitalize] is modelled
    on. *)
Definition ascii_text (s : chars) : bool :=
  forallb (fun a => (code a <? 128)%N) s.

(** The alphabet of file stems: letters, digits and dashes. *)
Definition stem_char (a : ascii) : bool :=
  is_lower a || is_upper a || is_digit a || Ascii.eqb a "-".

(** A statement naming two bindings, and the same statement retargeted
    as the run writes it. *)
Definition two_bindings (a b path : chars) : chars :=
  cs "import { " ++ a ++ cs ", " ++ b ++ cs " } from '" ++ path ++ cs "'".

Definition two_bindings_moved (a b path : chars) : chars :=
  cs "import { " ++ a ++ cs ", " ++ b ++ cs "  } from '" ++ path ++ cs "'".

Definition binding_of (e : string * string) : chars :=
  pascal_case (last_segment (cs (fst e))).


(** The word [w] stands between two quotes at the head of [s], and
    somewhere in [s]. *)
Definition quoted_at (w s : chars) : bool :=
  match s with
  | q :: s' =>
      is_quote q && starts_with w s'
      && match skipn (length w) s' with
         | q' :: _ => is_quote q'
         | [] => false
         end
  | [] => false
  end.

Fixpoint has_quoted (w s : chars) : bool :=
  match s with
  | [] => false
  | _ :: s' => quoted_at w s || has_quoted w s'
  end.

(** No old path of the table stands between quotes in the text. *)
Definition no_quoted_path (table : list (string * string)) (s : chars) : bool :=
  forallb (fun e => negb (has_quoted (cs (fst e)) s)) table.

(** The count [update_file] of update-feature-imports.py answers for a
    file, read off the file: the passes that change the content when
    the file can be read and written, zero otherwise. *)
Definition file_count (table : list (string * string)) (f : Fs.file) : nat :=
  match Fs.data f, Fs.wmode f with
  | Some c, Fs.WriteOk => fired_count (steps3 table) c
  | _, _ => 0
  end.

(** The old name [o], read as a pattern, matches the name [N] together
    with the quote that closes it: a match of [o] that starts at [N]
    would go on beyond the reference. *)
Definition reaches (o N : chars) (q : ascii) : bool :=
  name_matchb (firstn (S (length N)) o) (N ++ [q]).

(** The old name [o] matches the name [N] of a reference closed by
    [q], or goes on beyond it. *)
Definition hits (o N : chars) (q : ascii) : bool :=
  name_matchb o N || reaches o N q.

(** The keyword and the root of a step. *)
Definition step_kr (s : step) : keyword * root :=
  let '(k, r, _, _) := s in (k, r).

(** No pattern of the steps matches a text that begins inside [pre],
    whatever follows [pre ++ h]. *)
Definition inert (steps : list step) (pre h : chars) : Prop :=
  forall st, In st steps ->
  forall x y z, pre = x ++ y -> y <> [] ->
    match_items (items (step_regex st)) (y ++ h ++ z) = None.

(** The steps of a table for a list of forms, in the order the loop
    tries them; [steps4] and [steps3] are its instances for the forms
    of the two scripts. *)
Definition forms4 : list (keyword * root) :=
  [(KFrom, RAlias); (KFrom, RDots); (KImport, RAlias); (KImport, RDots)].

Definition forms3 : list (keyword * root) :=
  [(KFrom, RAlias); (KFrom, RDots); (KImport, RAlias)].

Definition steps_of (forms : list (keyword * root))
  (table : list (string * string)) : list step :=
  flat_map (fun e => map (fun kr => (fst kr, snd kr, cs (fst e), cs (snd e))) forms)
           table.

(** Some pass of the run finds a match in the content it receives:
    the flag [modified] of update-imports.py at the end of the loop. *)
Fixpoint searched (steps : list step) (c : chars) : bool :=
  match steps with
  | [] => false
  | st :: rest => re_search (step_regex st) c || searched rest (apply_step c st)
  end.


(** ** Python string helpers, continued *)

(** [s.replace(old, new)]: the occurrences of [old] are replaced from
    the left, an occurrence starting only after the previous one has
    ended.  [skip] counts the characters still covered by the previous
    occurrence.  With an empty [old], [new] is put before every
    character and at the end. *)
Fixpoint replace_scan (old new s : chars) (skip : nat) : chars :=
  match s with
  | [] => []
  | a :: s' =>
      match skip with
      | S k => replace_scan old new s' k
      | 0 =>
          if starts_with old s
          then new ++ replace_scan old new s' (length old - 1)
          else a :: replace_scan old new s' 0
      end
  end.

Definition str_replace (old new s : chars) : chars :=
  match old with
  | [] => new ++ flat_map (fun a => a :: new) s
  | _ :: _ => replace_scan old new s 0
  end.

(** [s.count(old)] for a non-empty [old]: the number of occurrences
    [replace] replaces. *)
Fixpoint count_scan_str (old s : chars) (skip : nat) : nat :=
  match s with
  | [] => 0
  | _ :: s' =>
      match skip with
      | S k => count_scan_str old s' k
      | 0 =>
          if starts_with old s
          then S (count_scan_str old s' (length old - 1))
          else count_scan_str old s' 0
      end
  end.

Definition str_count (old s : chars) : nat := count_scan_str old s 0.

(** [s.endswith(suffix)]. *)
Definition ends_with (suffix s : string) : bool :=
  starts_with (rev (cs suffix)) (rev (cs s)).

(** ** fix-all-remaining-imports.py *)

Module FixAllRemainingImports.

Definition FIXES : list (string * string) :=
  [ ("@/components/create-article-dialog", "@/components/forms");
    ("@/components/login-dialog", "@/components/forms");
    ("./create-node-relationship-dialog", "../forms/create-node-relationship-dialog") ].

(** The pattern of the first branch: the braces hold the binding name
    alone (the pattern of fix-remaining-imports.py). *)
Definition pattern (pascal_name old_path : chars) : regex :=
  FixRemainingImports.pattern pascal_name old_path.

(** The replacement [import { Name } from 'new_path'], handed to
    [re.sub] as a template: the model covers names and new paths that
    hold no backslash. *)
Definition replacement (pascal_name new_path : chars) : template :=
  [TLit (cs "import { " ++ pascal_name ++ cs " } from '" ++ new_path ++ cs "'")].

(** The pattern of the second branch: [import], spaces, an opening
    brace, optional spaces, group 1 (one or more characters other than
    a closing brace), optional spaces, a closing brace, spaces, [from],
    spaces, a quote, the old path through [re.escape], a quote. *)
Definition relative_pattern (old_path : chars) : regex :=
  {| items :=
       lits (cs "import")
       ++ [Plus Space; One (Lit "{"); Star Space; Plus NotRBrace;
           Star Space; One (Lit "}"); Plus Space]
       ++ lits (cs "from") ++ [Plus Space; One Quote]
       ++ lits old_path ++ [One Quote];
     groups := [(9, 1)] |}.

(** The template [import { \1 } from 'new_path'].  The new path is
    template text: the model covers new paths that hold no backslash. *)
Definition relative_replacement (new_path : chars) : template :=
  [TLit (cs "import { "); TGroup 1; TLit (cs " } from '" ++ new_path ++ cs "'")].

(** The body of the loop over [FIXES]. *)
Definition fix_entry (content : chars) (entry : string * string) : chars :=
  let old_path := cs (fst entry) in
  let new_path := cs (snd entry) in
  if starts_with (cs "@/components/") old_path then
    let component_name := last_segment old_path in
    let pascal_name := pascal_case component_name in
    re_sub (pattern pascal_name old_path) (replacement pascal_name new_path) content
  else
    re_sub (relative_pattern old_path) (relative_replacement new_path) content.

Definition update_content (table : list (string * string)) (content : chars)
  : chars :=
  fold_left fix_entry table content.

Definition update_file_with (table : list (string * string))
  (p : Fs.path) (w : Fs.world) : bool * Fs.world :=
  match Fs.read w p with
  | Raises _ => (false, Fs.print (Fs.ErrorLine None) w)
  | Returns content =>
      let content' := update_content table content in
      if chars_eqb content' content then (false, w)
      else match Fs.write w p content' with
           | (Returns _, w') => (true, w')
           | (Raises _, w') => (false, Fs.print (Fs.ErrorLine None) w')
           end
  end.

Definition update_file := update_file_with FIXES.

Fixpoint main_loop (table : list (string * string)) (files : list Fs.path)
  (files_updated : nat) (w : Fs.world) : nat * Fs.world :=
  match files with
  | [] => (files_updated, w)
  | p :: rest =>
      let '(b, w') := update_file_with table p w in
      if b then main_loop table rest (S files_updated)
                  (Fs.print (Fs.UpdatedLine p None) w')
      else main_loop table rest files_updated w'
  end.

Definition main (files : list Fs.path) (w : Fs.world) : nat * Fs.world :=
  let '(n, w') := main_loop FIXES files 0 w in
  (n, Fs.print (Fs.SummaryLine [n]) w').

End FixAllRemainingImports.

(** ** fix-barrel-exports.py *)

Module FixBarrelExports.

Definition FILES_TO_FIX : list (string * list (string * string)) :=
  [ ("src/components/ai-assistant/index.ts", [("./ai-assistant/", "./")]);
    ("src/components/collaboration/index.ts", [("./collaboration/", "./")]);
    ("src/components/media/index.ts", [("./media/", "./")]);
    ("src/components/promotion/index.ts", [("./promotion/", "./")]);
    ("src/components/credibility/index.ts", [("./credibility/", "./")]) ].

(** [content.replace(f"from '{old_path}", f"from '{new_path}")]. *)
Definition fix_one (content : chars) (r : string * string) : chars :=
  str_replace (cs "from '" ++ cs (fst r)) (cs "from '" ++ cs (snd r)) content.

(** The loop of [fix_file] over the replacements. *)
Definition fix_content (replacements : list (string * string)) (content : chars)
  : chars :=
  fold_left fix_one replacements content.

(** [fix_file(filepath, replacements)]. *)
Definition fix_file (p : Fs.path) (replacements : list (string * string))
  (w : Fs.world) : bool * Fs.world :=
  match Fs.read w p with
  | Raises _ => (false, Fs.print (Fs.ErrorLine None) w)
  | Returns content =>
      let content' := fix_content replacements content in
      if chars_eqb content' content then (false, w)
      else match Fs.write w p content' with
           | (Returns _, w') => (true, w')
           | (Raises _, w') => (false, Fs.print (Fs.ErrorLine None) w')
           end
  end.

(** The loop of [main]; [present p] is the answer of
    [os.path.exists(p)]. *)
Fixpoint main_loop (present : Fs.path -> bool)
  (todo : list (string * list (string * string)))
  (files_updated : nat) (w : Fs.world) : nat * Fs.world :=
  match todo with
  | [] => (files_updated, w)
  | (p, replacements) :: rest =>
      if present p then
        let '(b, w') := fix_file p replacements w in
        if b then main_loop present rest (S files_updated)
                    (Fs.print (Fs.UpdatedLine p None) w')
        else main_loop present rest files_updated w'
      else main_loop present rest files_updated w
  end.

Definition main (present : Fs.path -> bool) (w : Fs.world) : nat * Fs.world :=
  let '(n, w') := main_loop present FILES_TO_FIX 0 w in
  (n, Fs.print (Fs.SummaryLine [n]) w').

End FixBarrelExports.

(** ** remove-inline-styles.py *)

Module RemoveInlineStyles.

(** The pattern of [remove_border_width_styles]: optional spaces,
    [style={{], optional spaces, [borderWidth:], optional spaces, a
    quote, [1px], a quote, optional spaces, [}}]. *)
Definition border_width_pattern : regex :=
  {| items :=
       [Star Space] ++ lits (cs "style={{") ++ [Star Space]
       ++ lits (cs "borderWidth:") ++ [Star Space; One Quote]
       ++ lits (cs "1px") ++ [One Quote; Star Space] ++ lits (cs "}}");
     groups := [] |}.

(** [re.sub(pattern, '', content)]. *)
Definition remove_border_width_styles (content : chars) : chars :=
  re_sub border_width_pattern [] content.

Definition update_file (p : Fs.path) (w : Fs.world) : bool * Fs.world :=
  match Fs.read w p with
  | Raises _ => (false, Fs.print (Fs.ErrorLine None) w)
  | Returns content =>
      let content' := remove_border_width_styles content in
      if chars_eqb content' content then (false, w)
      else match Fs.write w p content' with
           | (Returns _, w') => (true, w')
           | (Raises _, w') => (false, Fs.print (Fs.ErrorLine None) w')
           end
  end.

Definition target_files : list Fs.path :=
  [ "src/components/credibility/credibility-badge.tsx";
    "src/components/promotion/promotion-eligibility-badge.tsx";
    "src/components/promotion/consensus-voting-widget.tsx";
    "src/components/promotion/methodology-progress-panel.tsx" ].

Fixpoint main_loop (present : Fs.path -> bool) (files : list Fs.path)
  (files_updated : nat) (w : Fs.world) : nat * Fs.world :=
  match files with
  | [] => (files_updated, w)
  | p :: rest =>
      if present p then
        let '(b, w') := update_file p w in
        if b then main_loop present rest (S files_updated)
                    (Fs.print (Fs.UpdatedLine p None) w')
        else main_loop present rest files_updated w'
      else main_loop present rest files_updated w
  end.

Definition main (present : Fs.path -> bool) (w : Fs.world) : nat * Fs.world :=
  let '(n, w') := main_loop present target_files 0 w in
  (n, Fs.print (Fs.SummaryLine [n]) w').

End RemoveInlineStyles.

(** ** The directory tree and the search for files *)

Module Tree.

(** A directory tree: files, and directories with their entries in the
    order the directory is scanned.  Symbolic links are left out. *)
#[local] Set Warnings "-register-all".
Inductive node : Type :=
| File
| Dir (entries : list (string * node)).
#[local] Set Warnings "register-all".

Definition is_dir (n : node) : bool :=
  match n with
  | Dir _ => true
  | File => false
  end.

Definition dirs_of (entries : list (string * node)) : list string :=
  map fst (filter (fun e => is_dir (snd e)) entries).

Definition files_of (entries : list (string * node)) : list string :=
  map fst (filter (fun e => negb (is_dir (snd e))) entries).

(** [os.path.join(a, b)]. *)
Definition path_join (a b : string) : string :=
  if starts_with (cs "/") (cs b) then b
  else if String.eqb a "" || ends_with "/" a then a ++ b
  else a ++ "/" ++ b.

(** [l.remove(x)] for an [x] of the list: its first occurrence goes. *)
Fixpoint remove_first (x : string) (l : list string) : list string :=
  match l with
  | [] => []
  | y :: l' => if String.eqb y x then l' else y :: remove_first x l'
  end.

(** [os.walk(top)], top-down: for every directory reached, the triple
    (path, directories, other entries); [prune] is what the loop body
    does to the list of directories before they are entered.  The
    entries of a directory bear pairwise different names, so that
    entering the kept directories in the order of the entries is
    entering them in the order of the list. *)
Fixpoint walk (prune : list string -> list string) (top : string) (n : node)
  : list (string * list string * list string) :=
  match n with
  | File => []
  | Dir entries =>
      let dirs := dirs_of entries in
      (top, dirs, files_of entries)
      :: (fix enter (es : list (string * node)) :=
            match es with
            | [] => []
            | (name, sub) :: es' =>
                (if is_dir sub && existsb (String.eqb name) (prune dirs)
                 then walk prune (path_join top name) sub
                 else [])
                ++ enter es'
            end) entries
  end.

(** [if 'node_modules' in dirs: dirs.remove('node_modules')]. *)
Definition prune_node_modules (dirs : list string) : list string :=
  if existsb (String.eqb "node_modules") dirs
  then remove_first "node_modules" dirs
  else dirs.

(** [file.endswith(('.ts', '.tsx'))]. *)
Definition ts_file (name : string) : bool :=
  ends_with ".ts" name || ends_with ".tsx" name.

(** The files the loops over [os.walk("src")] hand to [update_file], in
    order: [os.path.join(root, file)] for the entries of each directory
    reached that are not directories and end with [.ts] or [.tsx]. *)
Definition walk_ts_files (top : string) (n : node) : list Fs.path :=
  flat_map (fun '(root, _, files) => map (path_join root) (filter ts_file files))
           (walk prune_node_modules top n).

(** [Path(top).rglob('*' + suffix)]: the entries, files and directories
    alike, of the directory and of every directory below it whose name
    ends with the suffix. *)
Fixpoint rglob (suffix : string) (top : string) (n : node) : list Fs.path :=
  match n with
  | File => []
  | Dir entries =>
      map (fun e => path_join top (fst e))
          (filter (fun e => ends_with suffix (fst e)) entries)
      ++ (fix enter (es : list (string * node)) :=
            match es with
            | [] => []
            | (name, sub) :: es' =>
                (if is_dir sub then rglob suffix (path_join top name) sub else [])
                ++ enter es'
            end) entries
  end.

(** The patterns [*.ts], [*.tsx], [*.js], [*.jsx] of update-imports.py,
    as suffixes. *)
Definition extensions : list string := [".ts"; ".tsx"; ".js"; ".jsx"].

(** [files_to_check] of update-imports.py. *)
Definition files_to_check (n : node) : list Fs.path :=
  flat_map (fun ext => rglob ext "src" n) extensions.

End Tree.

(** The [main] functions on a directory tree [src]. *)
Module OnTree.

Definition update_imports_main (src : Tree.node) (w : Fs.world) :=
  UpdateImports.main (Tree.files_to_check src) w.

Definition update_feature_imports_main (src : Tree.node) (w : Fs.world) :=
  UpdateFeatureImports.main (Tree.walk_ts_files "src" src) w.

Definition fix_moved_imports_main (src : Tree.node) (w : Fs.world) :=
  FixMovedImports.main (Tree.walk_ts_files "src" src) w.

Definition fix_remaining_imports_main (src : Tree.node)
  (w : FixRemainingImports.world) :=
  FixRemainingImports.main (Tree.walk_ts_files "src" src) w.

Definition fix_all_remaining_imports_main (src : Tree.node) (w : Fs.world) :=
  FixAllRemainingImports.main (Tree.walk_ts_files "src" src) w.

End OnTree.

(** ** Vocabulary of the further properties *)

(** No keyword of an import form ([from] and a space, [import] and an
    opening parenthesis) starts anywhere in the text. *)
Fixpoint no_kw_start (s : chars) : bool :=
  match s with
  | [] => true
  | _ :: s' => negb (kw_startb s) && no_kw_start s'
  end.

(** The old names of the table hold no metacharacter: the names the
    embedding of the interpolated patterns covers. *)
Definition safe_names (table : list (string * string)) : bool :=
  forallb (fun e => regex_safe (cs (fst e))) table.

(** A text that stands for itself inside a [re.sub] template: it holds
    no backslash, the one character a template reads as more than
    itself. *)
Definition literal_text (s : chars) : bool :=
  forallb (fun a => negb (Ascii.eqb a "092")) s.

(** A new name that stands for itself in the template [\1 new \2]: it
    holds no backslash and does not begin with a digit, which the
    template would read as part of the group number. *)
Definition template_name (s : chars) : bool :=
  literal_text s && match s with a :: _ => negb (is_digit a) | [] => true end.

Definition template_names (table : list (string * string)) : bool :=
  forallb (fun e => template_name (cs (snd e))) table.



(** The class [c] does not go on at the head of [s]. *)
Definition stops (c : cclass) (s : chars) : Prop :=
  match s with
  | [] => True
  | a :: _ => accepts c a = false
  end.

Definition spaces (w : chars) : bool := forallb is_space w.

(** Characters of a module path: the plain characters, [@] and [.]. *)
Definition path_char (a : ascii) : bool :=
  plain_char a || Ascii.eqb a "@" || Ascii.eqb a ".".

Definition path_text (s : chars) : bool := forallb path_char s.

(** Nothing that [start] holds of begins inside [w] when [w] is
    followed by [rest]. *)
Definition still (start : chars -> Prop) (w rest : chars) : Prop :=
  forall x y, w = x ++ y -> y <> [] -> ~ start (y ++ rest).

(** The named import of one binding, as the pattern of
    fix-remaining-imports.py reads it: [import], spaces, an opening
    brace, optional spaces, the name, optional spaces, a closing brace,
    spaces, [from], spaces, a quote, the path, a quote. *)
Inductive named_import (N old : chars) : chars -> Prop :=
| named_import_intro w1 w2 w3 w4 w5 q q' :
    w1 <> [] -> spaces w1 = true -> spaces w2 = true -> spaces w3 = true ->
    w4 <> [] -> spaces w4 = true -> w5 <> [] -> spaces w5 = true ->
    is_quote q = true -> is_quote q' = true ->
    named_import N old
      (cs "import" ++ w1 ++ "{"%char :: w2 ++ N ++ w3 ++ "}"%char :: w4
       ++ cs "from" ++ w5 ++ q :: old ++ [q']).

(** The statement the script writes for a binding and a path. *)
Definition normal_import (N path : chars) : chars :=
  cs "import { " ++ N ++ cs " } from '" ++ path ++ cs "'".

(** A named import starts here: [import], spaces, an opening brace. *)
Definition named_start (s : chars) : Prop :=
  exists w rest, w <> [] /\ spaces w = true
                 /\ s = cs "import" ++ w ++ "{"%char :: rest.

(** A table of fix-remaining-imports.py the properties cover: every
    binding name derived is a non-empty plain name, the paths are
    module paths, and no new path is an old path. *)
Definition named_table_ok (table : list (string * string)) : bool :=
  forallb (fun e => plain (binding_of e)
                    && negb (Nat.eqb (length (binding_of e)) 0)
                    && path_text (cs (fst e)) && path_text (cs (snd e))) table
  && no_chain table.

(** The pattern of fix-remaining-imports.py for a table entry, and the
    texts in which no pattern of a table matches anywhere. *)
Definition named_pattern (e : string * string) : regex :=
  FixRemainingImports.pattern (binding_of e) (cs (fst e)).

Definition named_template (e : string * string) : template :=
  FixRemainingImports.replacement (binding_of e) (cs (snd e)).

Definition named_clean (table : list (string * string)) (c : chars) : Prop :=
  forall e, In e table -> clean (named_pattern e) c.

(** A named import around a binding list [g], as the patterns of
    fix-moved-imports.py and fix-all-remaining-imports.py read it:
    [import], spaces, an opening brace, optional spaces, the list, a
    closing brace, spaces, [from], spaces, a quote, the path, a
    quote. *)
Inductive list_import (old g : chars) : chars -> Prop :=
| list_import_intro w1 w2 w4 w5 q q' :
    w1 <> [] -> spaces w1 = true -> spaces w2 = true ->
    w4 <> [] -> spaces w4 = true -> w5 <> [] -> spaces w5 = true ->
    is_quote q = true -> is_quote q' = true ->
    list_import old g
      (cs "import" ++ w1 ++ "{"%char :: w2 ++ g ++ "}"%char :: w4
       ++ cs "from" ++ w5 ++ q :: old ++ [q']).

(** A binding list: no closing brace, and a first character that is no
    white space. *)
Definition binding_list (g : chars) : bool :=
  forallb (fun a => negb (Ascii.eqb a "}")) g
  && match g with
     | a :: _ => negb (is_space a)
     | [] => false
     end.

(** A default import, as the second pattern of fix-moved-imports.py
    reads it: [import], spaces, the name, spaces, [from], spaces, a
    quote, the path, a quote. *)
Inductive default_import (N old : chars) : chars -> Prop :=
| default_import_intro w1 w4 w5 q q' :
    w1 <> [] -> spaces w1 = true -> w4 <> [] -> spaces w4 = true ->
    w5 <> [] -> spaces w5 = true -> is_quote q = true -> is_quote q' = true ->
    default_import N old
      (cs "import" ++ w1 ++ N ++ w4 ++ cs "from" ++ w5 ++ q :: old ++ [q']).

(** The default import the script writes. *)
Definition normal_default (N path : chars) : chars :=
  cs "import " ++ N ++ cs " from '" ++ path ++ cs "'".

(** [s] is [t] with some characters left out. *)
Inductive subseq : chars -> chars -> Prop :=
| subseq_nil : subseq [] []
| subseq_keep a s t : subseq s t -> subseq (a :: s) (a :: t)
| subseq_drop a s t : subseq s t -> subseq s (a :: t).

(** The word occurs nowhere in the text. *)
Definition absent (w s : chars) : bool := Nat.eqb (count_word w s) 0.

(** The attribute [remove_border_width_styles] removes, with the white
    space before it: optional spaces, [style={{], optional spaces,
    [borderWidth:], optional spaces, a quote, [1px], a quote, optional
    spaces, [}}]. *)
Inductive border_attr : chars -> Prop :=
| border_attr_intro w0 w1 w2 w3 q q' :
    spaces w0 = true -> spaces w1 = true -> spaces w2 = true -> spaces w3 = true ->
    is_quote q = true -> is_quote q' = true ->
    border_attr (w0 ++ cs "style={{" ++ w1 ++ cs "borderWidth:" ++ w2
                 ++ q :: cs "1px" ++ q' :: w3 ++ cs "}}").

(** What the text part of each [update_file] decides for a content:
    [Some c'] to write [c'], [None] to leave the file alone. *)
Definition changed_to (c' c : chars) : option chars :=
  if chars_eqb c' c then None else Some c'.

Definition fmi_decide (table : list (string * string)) (c : chars) : option chars :=
  changed_to (FixMovedImports.update_content table c) c.

Definition fri_decide (table : list (string * string)) (c : chars) : option chars :=
  changed_to (FixRemainingImports.update_content table c) c.

Definition fari_decide (table : list (string * string)) (c : chars) : option chars :=
  changed_to (FixAllRemainingImports.update_content table c) c.

Definition barrel_decide (replacements : list (string * string)) (c : chars)
  : option chars :=
  changed_to (FixBarrelExports.fix_content replacements c) c.

Definition styles_decide (c : chars) : option chars :=
  changed_to (RemoveInlineStyles.remove_border_width_styles c) c.

(** The effect of a run over a list of files, each with its own
    decision, on the files [os.path.exists] answers for. *)
Definition effects_present (present : Fs.path -> bool)
  (todo : list (Fs.path * (chars -> option chars))) (d : Fs.fs) : Fs.fs :=
  fold_left (fun d pd => if present (fst pd) then effect (snd pd) (fst pd) d else d)
            todo d.

Definition barrel_todo : list (Fs.path * (chars -> option chars)) :=
  map (fun pr => (fst pr, barrel_decide (snd pr))) FixBarrelExports.FILES_TO_FIX.

Definition styles_todo : list (Fs.path * (chars -> option chars)) :=
  map (fun p => (p, styles_decide)) RemoveInlineStyles.target_files.

(** ** Paths in a directory tree *)

(** A file name: not empty, and without slash. *)
Definition name_ok (s : string) : bool :=
  negb (String.eqb s "") && forallb (fun a => negb (Ascii.eqb a "/")) (cs s).

Fixpoint names_distinct (l : list string) : bool :=
  match l with
  | [] => true
  | x :: l' => negb (existsb (String.eqb x) l') && names_distinct l'
  end.

(** A directory tree as a file system holds it: in every directory the
    names are file names and pairwise different. *)
Fixpoint wf (n : Tree.node) : bool :=
  match n with
  | Tree.File => true
  | Tree.Dir es =>
      names_distinct (map fst es) && forallb name_ok (map fst es)
      && forallb (fun e => wf (snd e)) es
  end.

Fixpoint find_entry (name : string) (es : list (string * Tree.node))
  : option Tree.node :=
  match es with
  | [] => None
  | (n, sub) :: es' => if String.eqb n name then Some sub else find_entry name es'
  end.

(** The node a list of names leads to, from a node. *)
Fixpoint resolve (n : Tree.node) (names : list string) : option Tree.node :=
  match names with
  | [] => Some n
  | c :: rest =>
      match n with
      | Tree.Dir es =>
          match find_entry c es with
          | Some sub => resolve sub rest
          | None => None
          end
      | Tree.File => None
      end
  end.

(** The path of a list of names below [top]. *)
Definition path_of (top : string) (names : list string) : string :=
  fold_left (fun a c => (a ++ "/" ++ c)%string) names top.

(** The files [os.walk] with the pruning of [node_modules] hands over,
    as lists of names: in every directory the files with the extension
    first, then the directories in turn. *)
Fixpoint walk_names (n : Tree.node) : list (list string) :=
  match n with
  | Tree.File => []
  | Tree.Dir es =>
      map (fun name => [name]) (filter Tree.ts_file (Tree.files_of es))
      ++ flat_map (fun e =>
                     if Tree.is_dir (snd e)
                        && negb (String.eqb (fst e) "node_modules")
                     then map (cons (fst e)) (walk_names (snd e))
                     else []) es
  end.

(** The entries [rglob] yields, as lists of names. *)
Fixpoint rglob_names (suffix : string) (n : Tree.node) : list (list string) :=
  match n with
  | Tree.File => []
  | Tree.Dir es =>
      map (fun e => [fst e]) (filter (fun e => ends_with suffix (fst e)) es)
      ++ flat_map (fun e =>
                     if Tree.is_dir (snd e)
                     then map (cons (fst e)) (rglob_names suffix (snd e))
                     else []) es
  end.

(** A directory path to join names to: not empty, and not ending with a
    slash. *)
Definition proper (top : string) : bool :=
  negb (String.eqb top "") && negb (ends_with "/" top).

(** ** Lines of a run *)

(** The lines of [main] for updated files among the lines printed, each
    with the count it shows (none, where the script prints none). *)
Definition updated_lines (out : list Fs.line) : list (Fs.path * option nat) :=
  flat_map (fun l => match l with
                     | Fs.UpdatedLine p c => [(p, c)]
                     | _ => []
                     end) out.

Definition count_of (pc : Fs.path * option nat) : nat :=
  match snd pc with
  | Some c => c
  | None => 0
  end.

(** ** Names *)

Definition letter_or_digit (a : ascii) : bool :=
  is_lower a || is_upper a || is_digit a.

(** A kebab-case name: letters, digits and dashes, not dashes only. *)
Definition kebab (s : chars) : bool :=
  forallb stem_char s && existsb (fun a => negb (Ascii.eqb a "-")) s.

(** ** Import statements, piece by piece *)

Definition no_rbrace (g : chars) : bool :=
  forallb (fun a => negb (Ascii.eqb a "}")) g.

(** The word stands somewhere in the text. *)
Definition occurs (w s : chars) : Prop := exists x z, s = x ++ w ++ z.

(** The end of every import pattern of the fix scripts: spaces, [from],
    spaces, a quote, the path, a quote. *)
Inductive from_tail (old : chars) : chars -> Prop :=
| from_tail_intro w4 w5 q q' :
    w4 <> [] -> spaces w4 = true -> w5 <> [] -> spaces w5 = true ->
    is_quote q = true -> is_quote q' = true ->
    from_tail old (w4 ++ cs "from" ++ w5 ++ q :: old ++ [q']).

(** An import with braces, as every pattern with braces reads it:
    [import], spaces, an opening brace, a text [G] without closing
    brace, the closing brace, and the end. *)
Inductive braced_import (old G : chars) : chars -> Prop :=
| braced_import_intro w1 t :
    w1 <> [] -> spaces w1 = true -> no_rbrace G = true -> from_tail old t ->
    braced_import old G (cs "import" ++ w1 ++ "{"%char :: G ++ "}"%char :: t).

(** An import without braces: [import], spaces, the name, and the
    end. *)
Inductive bare_import (N old : chars) : chars -> Prop :=
| bare_import_intro w1 t :
    w1 <> [] -> spaces w1 = true -> from_tail old t ->
    bare_import N old (cs "import" ++ w1 ++ N ++ t).

Definition no_upper (s : chars) : bool := forallb (fun a => negb (is_upper a)) s.

(** A component name: letters and digits, the first an upper-case
    letter. *)
Definition name_like (N : chars) : bool :=
  forallb letter_or_digit N
  && match N with
     | a :: _ => is_upper a
     | [] => false
     end.

(** ** Runs of passes *)

(** A pass: a pattern and the template [re.sub] replaces its matches
    with. *)
Definition pass : Type := regex * template.

Definition run_passes (l : list pass) (c : chars) : chars :=
  fold_left (fun c p => re_sub (fst p) (snd p) c) l c.

(** No pattern of the passes matches anywhere in the text. *)
Definition passes_clean (l : list pass) (c : chars) : Prop :=
  forall p, In p l -> clean (fst p) c.

(** The two passes of a rule of fix-moved-imports.py, and the passes of
    a table. *)
Definition moved_pass1 (e : string * string) : pass :=
  (FixMovedImports.pattern (binding_of e) (cs (fst e)),
   FixMovedImports.replacement (cs (snd e))).

Definition moved_pass2 (e : string * string) : pass :=
  (FixMovedImports.pattern2 (binding_of e) (cs (fst e)),
   FixMovedImports.replacement2 (binding_of e) (cs (snd e))).

Definition moved_passes (table : list (string * string)) : list pass :=
  flat_map (fun e => [moved_pass1 e; moved_pass2 e]) table.

(** A table of fix-moved-imports.py the properties cover: every binding
    name derived is a component name, the paths are module paths, the
    new paths hold no upper-case letter, and no new path is an old
    path. *)
Definition moved_table_ok (table : list (string * string)) : bool :=
  forallb (fun e => name_like (binding_of e)
                    && path_text (cs (fst e)) && path_text (cs (snd e))
                    && no_upper (cs (snd e))) table
  && no_chain table.

(** The pass of a rule of fix-all-remaining-imports.py. *)
Definition fix_all_pass (e : string * string) : pass :=
  if starts_with (cs "@/components/") (cs (fst e))
  then (FixAllRemainingImports.pattern (binding_of e) (cs (fst e)),
        FixAllRemainingImports.replacement (binding_of e) (cs (snd e)))
  else (FixAllRemainingImports.relative_pattern (cs (fst e)),
        FixAllRemainingImports.relative_replacement (cs (snd e))).

Definition fix_all_passes (table : list (string * string)) : list pass :=
  map fix_all_pass table.

(** A table of fix-all-remaining-imports.py the properties cover: the
    binding name derived for a rule of the first branch is a non-empty
    plain name, the paths are module paths, and no new path is an old
    path. *)
Definition fix_all_table_ok (table : list (string * string)) : bool :=
  forallb (fun e => (negb (starts_with (cs "@/components/") (cs (fst e)))
                     || (plain (binding_of e)
                         && negb (Nat.eqb (length (binding_of e)) 0)))
                    && path_text (cs (fst e)) && path_text (cs (snd e))) table
  && no_chain table.
(** ** The matcher: soundness and completeness *)

Section Matcher.

Lemma run_le_length c s : run c s <= length s.
Proof.
  induction s as [|a s IH]; simpl; [lia|].
  destruct (accepts c a); simpl; lia.
Qed.

Lemma run_firstn c s : forall n, n <= run c s ->
  forallb (accepts c) (firstn n s) = true.
Proof.
  induction s as [|a s IH]; intros n H; simpl in *.
  - rewrite firstn_nil. reflexivity.
  - destruct n as [|n]; [reflexivity|]. simpl.
    destruct (accepts c a) eqn:E; [|lia].
    simpl. apply IH. lia.
Qed.

Lemma run_app c w r : forallb (accepts c) w = true -> length w <= run c (w ++ r).
Proof.
  induction w as [|a w IH]; simpl; intros H; [lia|].
  apply andb_true_iff in H as [Ha Hw]. rewrite Ha. specialize (IH Hw). lia.
Qed.

Lemma backtrack_eq k s lo n :
  backtrack k s lo n =
  if n <? lo then None
  else match k (skipn n s) with
       | Some (ps, r) => Some (firstn n s :: ps, r)
       | None => match n with
                 | 0 => None
                 | S n' => backtrack k s lo n'
                 end
       end.
Proof. destruct n; reflexivity. Qed.

Lemma backtrack_sound k s lo : forall n ps r,
  backtrack k s lo n = Some (ps, r) ->
  exists m ps', lo <= m /\ m <= n /\ ps = firstn m s :: ps'
                /\ k (skipn m s) = Some (ps', r).
Proof.
  induction n as [|n IH]; intros ps r H; rewrite backtrack_eq in H.
  - destruct (Nat.ltb_spec 0 lo); [discriminate|].
    destruct (k (skipn 0 s)) as [[ps' r']|] eqn:E; [|discriminate].
    inversion H; subst. exists 0, ps'. repeat split; auto.
  - destruct (Nat.ltb_spec (S n) lo); [discriminate|].
    destruct (k (skipn (S n) s)) as [[ps' r']|] eqn:E.
    + inversion H; subst. exists (S n), ps'. repeat split; auto.
    + destruct (IH _ _ H) as (m & ps' & ? & ? & ? & ?).
      exists m, ps'. repeat split; auto.
Qed.

Lemma backtrack_complete k s lo m : forall n,
  lo <= m -> m <= n -> k (skipn m s) <> None -> backtrack k s lo n <> None.
Proof.
  induction n as [|n IH]; intros Hlo Hn Hk; rewrite backtrack_eq.
  - assert (m = 0) by lia; subst.
    destruct (Nat.ltb_spec 0 lo); [lia|].
    destruct (k (skipn 0 s)) as [[? ?]|]; [discriminate|contradiction].
  - destruct (Nat.ltb_spec (S n) lo); [lia|].
    destruct (k (skipn (S n) s)) as [[? ?]|] eqn:E; [discriminate|].
    destruct (Nat.eq_dec m (S n)) as [->|Hne]; [congruence|].
    apply IH; auto; lia.
Qed.

(** A match splits the text into pieces that fit the items. *)
Lemma match_sound : forall p s ps r,
  match_items p s = Some (ps, r) -> Forall2 fits p ps /\ s = concat ps ++ r.
Proof.
  induction p as [|it p IH]; intros s ps r H; simpl in H.
  - inversion H; subst. split; [constructor|reflexivity].
  - destruct it as [c|c|c].
    + destruct s as [|a s]; [discriminate|].
      destruct (accepts c a) eqn:Ea; [|discriminate].
      destruct (match_items p s) as [[ps' r']|] eqn:E; [|discriminate].
      inversion H; subst. destruct (IH _ _ _ E) as [F ->].
      split; [constructor; auto|reflexivity].
    + apply backtrack_sound in H as (m & ps' & _ & Hm & -> & Hk).
      destruct (IH _ _ _ Hk) as [F Hs]. split.
      * constructor; auto. apply run_firstn; auto.
      * simpl. rewrite <- app_assoc, <- Hs. symmetry. apply firstn_skipn.
    + apply backtrack_sound in H as (m & ps' & Hlo & Hm & -> & Hk).
      destruct (IH _ _ _ Hk) as [F Hs]. split.
      * constructor; auto. unfold fits; simpl.
        pose proof (run_le_length c s).
        destruct (firstn m s) eqn:Ef.
        -- apply (f_equal (@length _)) in Ef. rewrite length_firstn in Ef.
           simpl in Ef. lia.
        -- rewrite <- Ef. apply run_firstn; auto.
      * simpl. rewrite <- app_assoc, <- Hs. symmetry. apply firstn_skipn.
Qed.

Lemma skipn_length_app {A : Type} (w r : list A) : skipn (length w) (w ++ r) = r.
Proof. induction w; simpl; auto. Qed.

Lemma firstn_length_app {A : Type} (w r : list A) : firstn (length w) (w ++ r) = w.
Proof. induction w; simpl; congruence. Qed.

(** A text that splits into fitting pieces is matched. *)
Lemma match_complete : forall p ps r,
  Forall2 fits p ps -> match_items p (concat ps ++ r) <> None.
Proof.
  induction p as [|it p IH]; intros ps r F; inversion F as [|? w ? ps' Hw F']; subst.
  - simpl. discriminate.
  - specialize (IH ps' r F'). simpl concat. rewrite <- app_assoc.
    destruct it as [c|c|c]; unfold fits in Hw; simpl in Hw.
    + destruct w as [|a [|? ?]]; try discriminate. simpl. rewrite Hw.
      destruct (match_items p (concat ps' ++ r)) as [[? ?]|]; [discriminate|contradiction].
    + simpl. apply backtrack_complete with (m := length w).
      * lia.
      * apply run_app; auto.
      * rewrite skipn_length_app. auto.
    + simpl. apply backtrack_complete with (m := length w).
      * destruct w; [discriminate|simpl; lia].
      * apply run_app. destruct w; [discriminate|auto].
      * rewrite skipn_length_app. auto.
Qed.

(** Whether a pattern matches at the head depends on the matched text
    only. *)
Lemma matches_at_prefix r s ps rest rest' :
  match_items (items r) s = Some (ps, rest) ->
  matches_at r (concat ps ++ rest').
Proof.
  intros H. apply match_sound in H as [F _]. apply match_complete; auto.
Qed.

End Matcher.

(** ** Scanning: [re.search] and [re.sub] *)

Section Scanning.

Variable r : regex.
Variable t : template.

Lemma clean_tail a s : clean r (a :: s) -> clean r s.
Proof. intros H x y E. apply (H (a :: x) y). simpl. congruence. Qed.

Lemma clean_head s : clean r s -> match_items (items r) s = None.
Proof. intros H. apply (H [] s). reflexivity. Qed.

Lemma clean_cons a s :
  match_items (items r) (a :: s) = None -> clean r s -> clean r (a :: s).
Proof.
  intros H0 H x y E. destruct x as [|b x]; simpl in E.
  - subst. assumption.
  - inversion E; subst. apply (H x y). reflexivity.
Qed.

Lemma clean_suffix x y : clean r (x ++ y) -> clean r y.
Proof. intros H u v E. apply (H (x ++ u) v). rewrite E, app_assoc. reflexivity. Qed.

Lemma clean_prefix x y : clean r (x ++ y) -> clean r x.
Proof.
  intros H u v E.
  destruct (match_items (items r) v) as [[ps rest]|] eqn:M; auto.
  exfalso. apply (matches_at_prefix r v ps rest (rest ++ y) M).
  destruct (match_sound _ _ _ _ M) as [_ Ev].
  apply (H u (concat ps ++ rest ++ y)).
  rewrite E, Ev, <- !app_assoc. reflexivity.
Qed.

(** [re.search] finds nothing exactly when the pattern matches nowhere. *)
Lemma re_search_false s : re_search r s = false <-> clean r s.
Proof.
  induction s as [|a s IH]; simpl.
  - destruct (match_items (items r) []) eqn:E; split; intros H;
      try discriminate; try reflexivity.
    + specialize (H [] [] eq_refl). congruence.
    + intros x y Exy. symmetry in Exy. apply app_eq_nil in Exy as [-> ->]. assumption.
  - destruct (match_items (items r) (a :: s)) eqn:E; split; intros H;
      try discriminate.
    + apply clean_head in H. congruence.
    + apply clean_cons; auto. apply IH; auto.
    + apply IH. eapply clean_tail; eauto.
Qed.

Lemma re_search_true s :
  re_search r s = true <-> exists x y, s = x ++ y /\ matches_at r y.
Proof.
  split.
  - induction s as [|a s IH]; simpl; intros H.
    + destruct (match_items (items r) []) eqn:E; [|discriminate].
      exists [], []. split; auto. unfold matches_at. congruence.
    + destruct (match_items (items r) (a :: s)) eqn:E.
      * exists [], (a :: s). split; auto. unfold matches_at. congruence.
      * destruct (IH H) as (x & y & -> & M). exists (a :: x), y. split; auto.
  - intros (x & y & -> & M). destruct (re_search r (x ++ y)) eqn:E; auto.
    apply re_search_false in E. apply clean_suffix, clean_head in E. contradiction.
Qed.

Lemma sub_scan_skip x : forall rest,
  sub_scan r t (x ++ rest) (length x) = sub_scan r t rest 0.
Proof. induction x as [|a x IH]; intros rest; simpl; auto. Qed.

(** No match at the head: the character is copied. *)
Lemma re_sub_miss a s :
  match_items (items r) (a :: s) = None ->
  re_sub r t (a :: s) = a :: re_sub r t s.
Proof. unfold re_sub. simpl. intros ->. reflexivity. Qed.

(** A non-empty match at the head: the expanded template, then the scan
    resumes after the match. *)
Lemma re_sub_hit s ps rest :
  match_items (items r) s = Some (ps, rest) -> concat ps <> [] ->
  re_sub r t s = expand r t ps ++ re_sub r t rest.
Proof.
  intros H Hne. destruct (match_sound _ _ _ _ H) as [_ Hs].
  destruct (concat ps) as [|a m] eqn:Em; [contradiction|].
  unfold re_sub. subst s. simpl. simpl in H. rewrite H, Em. simpl.
  rewrite sub_scan_skip. reflexivity.
Qed.

(** Where the pattern matches nowhere, [re.sub] returns its input. *)
Lemma re_sub_clean s : clean r s -> re_sub r t s = s.
Proof.
  induction s as [|a s IH]; intros H.
  - unfold re_sub. simpl. rewrite (clean_head _ H). reflexivity.
  - rewrite re_sub_miss by (apply clean_head; auto).
    rewrite IH; auto. eapply clean_tail; eauto.
Qed.

Lemma count_clean s : clean r s -> count_matches r s = 0.
Proof.
  unfold count_matches. induction s as [|a s IH]; intros H; simpl.
  - rewrite (clean_head _ H). reflexivity.
  - rewrite (clean_head _ H). apply IH. eapply clean_tail; eauto.
Qed.

End Scanning.

(** ** Counting replacements *)

Section Counting.

Variable r : regex.

Lemma count_scan_skip x : forall rest,
  count_scan r (x ++ rest) (length x) = count_scan r rest 0.
Proof. induction x as [|a x IH]; intros rest; simpl; auto. Qed.

Lemma count_miss a s :
  match_items (items r) (a :: s) = None ->
  count_matches r (a :: s) = count_matches r s.
Proof. unfold count_matches. simpl. intros ->. reflexivity. Qed.

Lemma count_hit s ps rest :
  match_items (items r) s = Some (ps, rest) -> concat ps <> [] ->
  count_matches r s = S (count_matches r rest).
Proof.
  intros H Hne. destruct (match_sound _ _ _ _ H) as [_ Hs].
  destruct (concat ps) as [|a m] eqn:Em; [contradiction|].
  unfold count_matches. subst s. simpl. simpl in H. rewrite H, Em.
  change (S (count_scan r (m ++ rest) (length m)) = S (count_scan r rest 0)).
  rewrite count_scan_skip. reflexivity.
Qed.

(** [re.subn] returns the text of [re.sub] and the count. *)
Lemma subn_scan_split t s : forall skip,
  subn_scan r t s skip = (sub_scan r t s skip, count_scan r s skip).
Proof.
  induction s as [|a s IH]; intros skip; simpl.
  - destruct skip; [|reflexivity].
    destruct (match_items (items r) []) as [[ps rest]|]; reflexivity.
  - destruct skip as [|k]; [|apply IH].
    destruct (match_items (items r) (a :: s)) as [[ps rest]|].
    + destruct (length (concat ps)); rewrite IH; reflexivity.
    + rewrite IH. reflexivity.
Qed.

Lemma re_subn_split t s : re_subn r t s = (re_sub r t s, count_matches r s).
Proof. apply subn_scan_split. Qed.

(** A pattern that is replaced nowhere matches nowhere. *)
Lemma count_zero_clean s : count_matches r s = 0 -> clean r s.
Proof.
  unfold count_matches. induction s as [|a s IH]; simpl; intros H.
  - intros x y E. symmetry in E. apply app_eq_nil in E as [_ ->].
    destruct (match_items (items r) []) as [[? ?]|]; [discriminate|reflexivity].
  - destruct (match_items (items r) (a :: s)) as [[ps rest]|] eqn:M.
    + destruct (length (concat ps)); discriminate.
    + apply clean_cons; auto.
Qed.

(** Text in which no match starts is skipped by the count and copied by
    the substitution. *)
Lemma count_skip w : forall rest,
  (forall x y, w = x ++ y -> y <> [] -> match_items (items r) (y ++ rest) = None) ->
  count_matches r (w ++ rest) = count_matches r rest.
Proof.
  induction w as [|a w IH]; intros rest H; simpl; auto.
  rewrite count_miss by (apply (H [] (a :: w)); [reflexivity|discriminate]).
  apply IH. intros x y E Hy. apply (H (a :: x) y); auto. simpl. congruence.
Qed.

Lemma sub_copy t w : forall rest,
  (forall x y, w = x ++ y -> y <> [] -> match_items (items r) (y ++ rest) = None) ->
  re_sub r t (w ++ rest) = w ++ re_sub r t rest.
Proof.
  induction w as [|a w IH]; intros rest H; simpl; auto.
  rewrite re_sub_miss by (apply (H [] (a :: w)); [reflexivity|discriminate]).
  f_equal. apply IH. intros x y E Hy. apply (H (a :: x) y); auto. simpl. congruence.
Qed.

End Counting.


(** ** The import forms, as texts *)

Section Forms.

Lemma fits_lits w : forall ps, Forall2 fits (lits w) ps -> concat ps = w.
Proof.
  induction w as [|a w IH]; intros ps F; inversion F as [|? p ? ps' Hp F']; subst.
  - reflexivity.
  - unfold fits in Hp; simpl in Hp.
    destruct p as [|b [|? ?]]; try discriminate.
    apply Ascii.eqb_eq in Hp; subst. simpl. f_equal. apply IH; auto.
Qed.

Lemma lits_fit w : Forall2 fits (lits w) (map (fun a => [a]) w).
Proof.
  induction w as [|a w IH]; simpl; constructor; auto.
  unfold fits; simpl. apply Ascii.eqb_refl.
Qed.

Lemma concat_singletons (w : chars) : concat (map (fun a => [a]) w) = w.
Proof. induction w; simpl; congruence. Qed.

Lemma plain_char_not_dot a : plain_char a = true -> Ascii.eqb a "." = false.
Proof.
  intros H. destruct (Ascii.eqb a ".") eqn:E; auto.
  apply Ascii.eqb_eq in E; subst. discriminate.
Qed.

(** A plain name is literal pattern text. *)
Lemma name_items_plain w : plain w = true -> name_items w = lits w.
Proof.
  unfold plain, name_items, lits. induction w as [|a w IH]; simpl; intros H; auto.
  apply andb_true_iff in H as [Ha Hw]. rewrite (plain_char_not_dot _ Ha).
  f_equal; auto.
Qed.

Ltac inv_fits :=
  repeat match goal with
         | H : Forall2 _ (_ :: _) _ |- _ => inversion H; subst; clear H
         | H : Forall2 _ [] _ |- _ => inversion H; subst; clear H
         end.

Lemma fits_one_quote ps :
  Forall2 fits [One Quote] ps -> exists q, ps = [[q]] /\ is_quote q = true.
Proof.
  intros F. inv_fits.
  match goal with H : fits _ ?p |- _ =>
    unfold fits in H; simpl in H; destruct p as [|q [|? ?]]; try discriminate;
    exists q; auto end.
Qed.

Lemma fits_kw k ps : Forall2 fits (kw_items k) ps -> kw_text k (concat ps).
Proof.
  destruct k; simpl; unfold UpdateImports.from_kw, UpdateImports.import_kw; intros F.
  - apply Forall2_app_inv_l in F as (p1 & p2 & F1 & F2 & ->).
    apply fits_lits in F1. rewrite concat_app, F1. inv_fits.
    match goal with
    | K1 : fits (Plus Space) ?w, K2 : fits (One Quote) ?p |- _ =>
        rename K1 into H1; rename K2 into H2;
        unfold fits in H1, H2; simpl in H1, H2;
        destruct p as [|q [|? ?]]; try discriminate;
        destruct w as [|b w']; try discriminate
    end.
    simpl concat. apply (kw_text_from (b :: w') q); [discriminate|exact H1|exact H2].
  - apply Forall2_app_inv_l in F as (p1 & p2 & F1 & F2 & ->).
    apply fits_lits in F1. rewrite concat_app, F1.
    apply fits_one_quote in F2 as (q & -> & Hq). simpl concat.
    apply kw_text_import; auto.
Qed.

Lemma fits_root r ps : Forall2 fits (root_items r) ps -> root_text r (concat ps).
Proof.
  destruct r; simpl; unfold UpdateImports.alias_root, UpdateImports.dots_slash; intros F.
  - apply fits_lits in F. rewrite F. constructor.
  - inv_fits.
    match goal with
    | K1 : fits (Plus _) ?w, K2 : fits (One (Lit _)) ?p |- _ =>
        rename K1 into H1; rename K2 into H2;
        unfold fits in H1, H2; simpl in H1, H2;
        destruct p as [|q [|? ?]]; try discriminate;
        destruct w as [|b w']; try discriminate;
        apply Ascii.eqb_eq in H2; subst
    end.
    simpl concat. apply (root_text_dots (b :: w')); [discriminate|exact H1].
Qed.

Lemma kw_fit k h : kw_text k h ->
  exists ps, Forall2 fits (kw_items k) ps /\ concat ps = h.
Proof.
  intros [w q Hne Hw Hq | q Hq].
  - exists (map (fun a => [a]) (cs "from") ++ [w; [q]]). split.
    + apply Forall2_app; [apply lits_fit|].
      constructor; [|constructor; [|constructor]].
      * unfold fits; simpl. destruct w; [contradiction|auto].
      * unfold fits; simpl; auto.
    + rewrite concat_app, concat_singletons. simpl. rewrite ?app_nil_r. reflexivity.
  - exists (map (fun a => [a]) (cs "import(") ++ [[q]]). split.
    + apply Forall2_app; [apply lits_fit|].
      constructor; [|constructor]. unfold fits; simpl; auto.
    + rewrite concat_app, concat_singletons. reflexivity.
Qed.

Lemma root_fit r u : root_text r u ->
  exists ps, Forall2 fits (root_items r) ps /\ concat ps = u.
Proof.
  intros [|d Hne Hd].
  - exists (map (fun a => [a]) (cs "@/components/")). split.
    + apply lits_fit.
    + apply concat_singletons.
  - exists [d; ["/"%char]]. split.
    + constructor; [|constructor; [|constructor]].
      * unfold fits; simpl. destruct d; [contradiction|auto].
      * unfold fits; simpl; auto.
    + simpl. rewrite ?app_nil_r. reflexivity.
Qed.

(** What a match of a form looks like, and what the template
    [\1 new \2] expands to on it. *)
Lemma form_sound k r old s ps rest :
  plain old = true ->
  match_items (items (form k r old)) s = Some (ps, rest) ->
  exists h u q,
    kw_text k h /\ root_text r u /\ is_quote q = true
    /\ concat ps = h ++ u ++ old ++ [q]
    /\ s = (h ++ u ++ old ++ [q]) ++ rest
    /\ forall new, expand (form k r old) [TGroup 1; TLit new; TGroup 2] ps
                   = h ++ u ++ new ++ [q].
Proof.
  intros Hp H. apply match_sound in H as [F Hs].
  unfold form, two_groups in F; simpl items in F.
  rewrite name_items_plain in F by assumption.
  apply Forall2_app_inv_l in F as (p1 & p23 & F1 & F23 & ->).
  apply Forall2_app_inv_l in F23 as (p2 & p3 & F2 & F3 & ->).
  pose proof (Forall2_length F1) as L1.
  pose proof (Forall2_length F2) as L2.
  apply Forall2_app_inv_l in F1 as (pk & pr & Fk & Fr & ->).
  apply fits_kw in Fk. apply fits_root in Fr.
  apply fits_lits in F2. apply fits_one_quote in F3 as (q & -> & Hq).
  exists (concat pk), (concat pr), q.
  assert (Hc : concat ((pk ++ pr) ++ p2 ++ [[q]])
               = concat pk ++ concat pr ++ old ++ [q]).
  { rewrite !concat_app, F2. simpl. rewrite <- app_assoc. reflexivity. }
  repeat split; auto.
  - rewrite Hs, Hc. reflexivity.
  - intros new. unfold expand, form, two_groups. simpl.
    unfold group_text. simpl fst. simpl snd.
    rewrite name_items_plain by assumption.
    rewrite L1, L2. simpl skipn at 1.
    rewrite firstn_length_app.
    replace (length (pk ++ pr) + length p2) with (length ((pk ++ pr) ++ p2))
      by (rewrite (length_app (pk ++ pr)); reflexivity).
    rewrite (app_assoc (pk ++ pr)), skipn_length_app. simpl.
    rewrite concat_app, ?app_nil_r, <- ?app_assoc. reflexivity.
Qed.

Lemma fits_name old : forall ps,
  Forall2 fits (name_items old) ps -> name_matchb old (concat ps) = true.
Proof.
  induction old as [|a old IH]; intros ps F; inversion F as [|? p ? ps' Hp F']; subst.
  - reflexivity.
  - specialize (IH ps' F'). simpl.
    destruct (Ascii.eqb a "."); unfold fits in Hp; simpl in Hp;
      destruct p as [|b [|? ?]]; try discriminate; simpl; rewrite Hp, IH; reflexivity.
Qed.

Lemma name_fit old : forall X,
  name_matchb old X = true -> Forall2 fits (name_items old) (map (fun a => [a]) X).
Proof.
  induction old as [|a old IH]; intros [|b X] H; simpl in H; try discriminate.
  - constructor.
  - apply andb_true_iff in H as [Hb HX]. simpl. constructor; auto.
    destruct (Ascii.eqb a "."); exact Hb.
Qed.

Lemma name_match_length old : forall X,
  name_matchb old X = true -> length X = length old.
Proof.
  induction old as [|a old IH]; intros [|b X] H; simpl in H; try discriminate; auto.
  apply andb_true_iff in H as [_ HX]. simpl. f_equal. auto.
Qed.

(** What a match of a form looks like when the old name may hold
    wildcards. *)
Lemma form_sound_gen k r old s ps rest :
  match_items (items (form k r old)) s = Some (ps, rest) ->
  exists h u X q,
    kw_text k h /\ root_text r u /\ is_quote q = true
    /\ name_matchb old X = true
    /\ concat ps = h ++ u ++ X ++ [q]
    /\ s = (h ++ u ++ X ++ [q]) ++ rest
    /\ forall new, expand (form k r old) [TGroup 1; TLit new; TGroup 2] ps
                   = h ++ u ++ new ++ [q].
Proof.
  intros H. apply match_sound in H as [F Hs].
  unfold form, two_groups in F; simpl items in F.
  apply Forall2_app_inv_l in F as (p1 & p23 & F1 & F23 & ->).
  apply Forall2_app_inv_l in F23 as (p2 & p3 & F2 & F3 & ->).
  pose proof (Forall2_length F1) as L1.
  pose proof (Forall2_length F2) as L2.
  apply Forall2_app_inv_l in F1 as (pk & pr & Fk & Fr & ->).
  apply fits_kw in Fk. apply fits_root in Fr.
  apply fits_name in F2. apply fits_one_quote in F3 as (q & -> & Hq).
  exists (concat pk), (concat pr), (concat p2), q.
  assert (Hc : concat ((pk ++ pr) ++ p2 ++ [[q]])
               = concat pk ++ concat pr ++ concat p2 ++ [q]).
  { rewrite !concat_app. simpl. rewrite <- app_assoc. reflexivity. }
  repeat split; auto.
  - rewrite Hs, Hc. reflexivity.
  - intros new. unfold expand, form, two_groups. simpl.
    unfold group_text. simpl fst. simpl snd.
    rewrite L1, L2. simpl skipn at 1.
    rewrite firstn_length_app.
    replace (length (pk ++ pr) + length p2) with (length ((pk ++ pr) ++ p2))
      by (rewrite (length_app (pk ++ pr)); reflexivity).
    rewrite (app_assoc (pk ++ pr)), skipn_length_app. simpl.
    rewrite concat_app, ?app_nil_r, <- ?app_assoc. reflexivity.
Qed.

End Forms.

(** ** Occurrences of the forms in a text *)

Section Texts.

Lemma form_complete k r old h u q rest :
  plain old = true -> kw_text k h -> root_text r u -> is_quote q = true ->
  matches_at (form k r old) ((h ++ u ++ old ++ [q]) ++ rest).
Proof.
  intros Hp Hk Hr Hq.
  destruct (kw_fit k h Hk) as (pk & Fk & <-).
  destruct (root_fit r u Hr) as (pr & Fr & <-).
  unfold matches_at, form, two_groups; simpl items.
  rewrite name_items_plain by assumption.
  replace (concat pk ++ concat pr ++ old ++ [q])
    with (concat ((pk ++ pr) ++ map (fun a => [a]) old ++ [[q]])).
  - apply match_complete.
    apply Forall2_app; [apply Forall2_app; assumption|].
    apply Forall2_app; [apply lits_fit|].
    constructor; [|constructor]. unfold fits; simpl; auto.
  - rewrite !concat_app, concat_singletons. simpl. rewrite <- app_assoc. reflexivity.
Qed.

Lemma form_nil k r old : match_items (items (form k r old)) [] = None.
Proof. destruct k; reflexivity. Qed.

Lemma plain_char_safe a : plain_char a = true -> safe a = true.
Proof.
  intros H. destruct a as [[] [] [] [] [] [] [] []];
    solve [reflexivity | discriminate H].
Qed.

Lemma plain_safe w : plain w = true -> forallb safe w = true.
Proof.
  unfold plain. induction w as [|a w IH]; simpl; auto.
  intros H. apply andb_true_iff in H as [Ha Hw].
  rewrite (plain_char_safe _ Ha). auto.
Qed.

Lemma safe_not_quote a : safe a = true -> is_quote a = false.
Proof.
  unfold safe. intros H. destruct (is_quote a); auto.
  rewrite andb_false_r in H. discriminate.
Qed.

Lemma safe_not_space a : safe a = true -> is_space a = false.
Proof. unfold safe. intros H. destruct (is_space a); auto. Qed.

Lemma safe_not_paren a : safe a = true -> Ascii.eqb a "(" = false.
Proof.
  unfold safe. intros H. destruct (Ascii.eqb a "("); auto.
  rewrite andb_false_r in H. discriminate.
Qed.

Lemma root_text_safe r u : root_text r u -> forallb safe u = true.
Proof.
  intros [|d _ Hd]; [reflexivity|].
  rewrite forallb_app. apply andb_true_iff. split; [|reflexivity].
  induction d as [|a d IH]; simpl in *; auto.
  apply andb_true_iff in Hd as [Ha Hd]. apply Ascii.eqb_eq in Ha; subst.
  simpl. auto.
Qed.

(** *** Keyword starts *)

Lemma kw_start_first a s :
  kw_startb (a :: s) = true -> a = "f"%char \/ a = "i"%char.
Proof.
  unfold kw_startb. intros H. apply orb_true_iff in H as [H|H].
  - destruct s as [|b [|c [|d [|w s]]]]; try discriminate.
    repeat (apply andb_true_iff in H as [H ?]).
    apply Ascii.eqb_eq in H. auto.
  - simpl in H. apply andb_true_iff in H as [H _].
    apply Ascii.eqb_eq in H. auto.
Qed.

Lemma kw_text_start k h X : kw_text k h -> kw_startb (h ++ X) = true.
Proof.
  intros [w q Hne Hw Hq | q Hq].
  - destruct w as [|b w]; [contradiction|]. simpl in Hw.
    apply andb_true_iff in Hw as [Hb _].
    unfold kw_startb. simpl. rewrite Hb. reflexivity.
  - reflexivity.
Qed.

Lemma quiet_nil rest : quiet [] rest.
Proof.
  intros x y E Hy. symmetry in E. apply app_eq_nil in E as [_ ->]. contradiction.
Qed.

Lemma quiet_cons a A rest :
  kw_startb (a :: A ++ rest) = false -> quiet A rest -> quiet (a :: A) rest.
Proof.
  intros H0 H x y E Hy. destruct x as [|b x]; simpl in E.
  - subst y. assumption.
  - inversion E; subst. eapply H; eauto.
Qed.

Lemma quiet_tail a A rest : quiet (a :: A) rest -> quiet A rest.
Proof. intros H x y E Hy. apply (H (a :: x) y); auto. simpl. congruence. Qed.

Lemma quiet_head A rest : quiet A rest -> A <> [] -> kw_startb (A ++ rest) = false.
Proof. intros H Hne. apply (H [] A); auto. Qed.

Lemma quiet_app A B rest : quiet A (B ++ rest) -> quiet B rest -> quiet (A ++ B) rest.
Proof.
  induction A as [|a A IH]; intros HA HB; simpl; auto.
  apply quiet_cons.
  - rewrite <- app_assoc. apply (HA [] (a :: A)); auto. discriminate.
  - apply IH; auto. eapply quiet_tail; eauto.
Qed.

(** Text made of characters other than [f] and [i] holds no keyword
    start. *)
Lemma quiet_inert A rest :
  Forall (fun a => a <> "f"%char /\ a <> "i"%char) A -> quiet A rest.
Proof.
  induction 1 as [|a A [Hf Hi] HA IH]; [apply quiet_nil|].
  apply quiet_cons; auto.
  destruct (kw_startb (a :: A ++ rest)) eqn:E; auto.
  apply kw_start_first in E as [?|?]; contradiction.
Qed.

Lemma spaces_inert w :
  forallb is_space w = true -> Forall (fun a => a <> "f"%char /\ a <> "i"%char) w.
Proof.
  induction w as [|a w IH]; simpl; intros H; constructor.
  - apply andb_true_iff in H as [Ha _]. split; intros ->; discriminate.
  - apply andb_true_iff in H as [_ Hw]. auto.
Qed.

Lemma quote_inert q :
  is_quote q = true -> q <> "f"%char /\ q <> "i"%char.
Proof. intros H. split; intros ->; discriminate. Qed.

(** Safe text closed by a quote starts no keyword: the space or the
    parenthesis a keyword needs is missing. *)
Lemma safe_no_kw_start B q rest :
  forallb safe B = true -> is_quote q = true -> kw_startb (B ++ q :: rest) = false.
Proof.
  intros HB Hq.
  assert (Hqs : is_space q = false).
  { destruct q as [[] [] [] [] [] [] [] []]; try discriminate Hq; reflexivity. }
  assert (Hqp : Ascii.eqb q "(" = false).
  { destruct q as [[] [] [] [] [] [] [] []]; try discriminate Hq; reflexivity. }
  assert (Hqe : forall c, is_quote c = false -> Ascii.eqb q c = false).
  { intros c Hc. destruct (Ascii.eqb q c) eqn:E; auto.
    apply Ascii.eqb_eq in E; subst. congruence. }
  unfold kw_startb. apply orb_false_iff. split.
  - destruct B as [|b1 [|b2 [|b3 [|b4 [|b5 B]]]]]; simpl in *;
      repeat match goal with
             | H : _ && _ = true |- _ => apply andb_true_iff in H as [? ?]
             end.
    + destruct rest as [|? [|? [|? [|? ?]]]]; auto.
      rewrite (Hqe "f"%char); auto.
    + destruct rest as [|? [|? [|? ?]]]; auto.
      rewrite (Hqe "r"%char); auto. rewrite andb_false_r. auto.
    + destruct rest as [|? [|? ?]]; auto.
      rewrite (Hqe "o"%char); auto. rewrite !andb_false_r. auto.
    + destruct rest as [|? ?]; auto.
      rewrite (Hqe "m"%char); auto. rewrite !andb_false_r. auto.
    + rewrite Hqs. rewrite !andb_false_r. auto.
    + rewrite (safe_not_space b5); auto. rewrite !andb_false_r. auto.
  - destruct B as [|b1 [|b2 [|b3 [|b4 [|b5 [|b6 [|b7 B]]]]]]]; simpl in *;
      repeat match goal with
             | H : _ && _ = true |- _ => apply andb_true_iff in H as [? ?]
             end.
    + rewrite (Hqe "i"%char); auto.
    + rewrite (Hqe "m"%char); auto. rewrite ?andb_false_r. auto.
    + rewrite (Hqe "p"%char); auto. rewrite ?andb_false_r. auto.
    + rewrite (Hqe "o"%char); auto. rewrite ?andb_false_r. auto.
    + rewrite (Hqe "r"%char); auto. rewrite ?andb_false_r. auto.
    + rewrite (Hqe "t"%char); auto. rewrite ?andb_false_r. auto.
    + rewrite Hqp. rewrite ?andb_false_r. auto.
    + rewrite (safe_not_paren b7); auto. rewrite ?andb_false_r. auto.
Qed.

Lemma quiet_safe B q rest :
  forallb safe B = true -> is_quote q = true -> quiet (B ++ [q]) rest.
Proof.
  induction B as [|b B IH]; intros HB Hq.
  - simpl. apply quiet_cons; [|apply quiet_nil].
    simpl. apply (safe_no_kw_start [] q rest); auto.
  - simpl in HB. apply andb_true_iff in HB as [Hb HB'].
    simpl. apply quiet_cons; auto.
    rewrite <- app_assoc. simpl.
    apply (safe_no_kw_start (b :: B) q rest); auto.
    simpl. rewrite Hb. auto.
Qed.

(** No keyword starts inside an occurrence, past its first character. *)
Lemma occurrence_quiet k r name a M rest :
  plain name = true -> occurrence k r name (a :: M) -> quiet M rest.
Proof.
  intros Hp (h & u & q & Hk & Hr & Hq & E).
  assert (Hb : forallb safe (u ++ name) = true).
  { rewrite forallb_app, (root_text_safe r u Hr), (plain_safe _ Hp). reflexivity. }
  assert (Hbody : quiet ((u ++ name) ++ [q]) rest) by (apply quiet_safe; auto).
  destruct Hk as [w q0 Hne Hw Hq0 | q0 Hq0];
    rewrite <- !app_assoc in E; simpl in E; inversion E; subst; clear E.
  - change (quiet (cs "rom" ++ w ++ [q0] ++ u ++ name ++ [q]) rest).
    apply quiet_app; [apply quiet_inert; repeat constructor; discriminate|].
    apply quiet_app; [apply quiet_inert, spaces_inert; auto|].
    apply quiet_app; [apply quiet_inert; constructor; [apply quote_inert; auto|constructor]|].
    rewrite app_assoc. assumption.
  - change (quiet (cs "mport(" ++ [q0] ++ u ++ name ++ [q]) rest).
    apply quiet_app; [apply quiet_inert; repeat constructor; discriminate|].
    apply quiet_app; [apply quiet_inert; constructor; [apply quote_inert; auto|constructor]|].
    rewrite app_assoc. assumption.
Qed.

Lemma occurrence_cons k r name m : occurrence k r name m -> exists a M, m = a :: M.
Proof.
  intros (h & u & q & Hk & _ & _ & ->).
  destruct Hk; simpl; eauto.
Qed.

Lemma occurrence_kw_start k r name m X :
  occurrence k r name m -> kw_startb (m ++ X) = true.
Proof.
  intros (h & u & q & Hk & _ & _ & ->). rewrite <- app_assoc.
  apply kw_text_start with (k := k); auto.
Qed.

(** *** The specifier of an occurrence *)

Lemma until_quote_app A q rest :
  forallb (fun a => negb (is_quote a)) A = true -> is_quote q = true ->
  until_quote (A ++ q :: rest) = (A, rest).
Proof.
  induction A as [|a A IH]; simpl; intros HA Hq.
  - rewrite Hq. reflexivity.
  - apply andb_true_iff in HA as [Ha HA]. apply negb_true_iff in Ha.
    rewrite Ha, IH; auto.
Qed.

Lemma safe_no_quote B : forallb safe B = true ->
  forallb (fun a => negb (is_quote a)) B = true.
Proof.
  induction B as [|b B IH]; simpl; auto. intros H.
  apply andb_true_iff in H as [Hb HB]. rewrite (safe_not_quote _ Hb). auto.
Qed.

Lemma spaces_no_quote w : forallb is_space w = true ->
  forallb (fun a => negb (is_quote a)) w = true.
Proof.
  induction w as [|a w IH]; simpl; auto. intros H.
  apply andb_true_iff in H as [Ha Hw]. rewrite (IH Hw), andb_true_r.
  destruct a as [[] [] [] [] [] [] [] []]; try discriminate Ha; reflexivity.
Qed.

Lemma spec_of_occurrence k r name m rest :
  plain name = true -> occurrence k r name m ->
  exists u, root_text r u /\ spec_of (m ++ rest) = u ++ name.
Proof.
  intros Hp (h & u & q & Hk & Hr & Hq & ->). exists u. split; auto.
  assert (Hb : forallb (fun a => negb (is_quote a)) (u ++ name) = true).
  { apply safe_no_quote. rewrite forallb_app, (root_text_safe r u Hr), (plain_safe _ Hp).
    reflexivity. }
  unfold spec_of. destruct Hk as [w q0 Hne Hw Hq0 | q0 Hq0].
  - replace (((cs "from" ++ w ++ [q0]) ++ u ++ name ++ [q]) ++ rest)
      with ((cs "from" ++ w) ++ q0 :: ((u ++ name) ++ q :: rest))
      by (repeat (rewrite <- app_assoc; simpl); reflexivity).
    rewrite until_quote_app; auto.
    + simpl snd. rewrite until_quote_app; auto.
    + rewrite forallb_app, (spaces_no_quote _ Hw). reflexivity.
  - replace (((cs "import(" ++ [q0]) ++ u ++ name ++ [q]) ++ rest)
      with (cs "import(" ++ q0 :: ((u ++ name) ++ q :: rest))
      by (repeat (rewrite <- app_assoc; simpl); reflexivity).
    rewrite until_quote_app; auto.
    simpl snd. rewrite until_quote_app; auto.
Qed.

Lemma split_unique (P : ascii -> bool) : forall A A' b b' X X',
  forallb P A = true -> forallb P A' = true -> P b = false -> P b' = false ->
  A ++ b :: X = A' ++ b' :: X' -> A = A' /\ b = b' /\ X = X'.
Proof.
  induction A as [|a A IH]; intros [|a' A'] b b' X X' HA HA' Hb Hb' E;
    simpl in *; inversion E; subst.
  - auto.
  - apply andb_true_iff in HA' as [? _]. congruence.
  - apply andb_true_iff in HA as [? _]. congruence.
  - apply andb_true_iff in HA as [_ HA]. apply andb_true_iff in HA' as [_ HA'].
    destruct (IH A' b b' X X' HA HA' Hb Hb' H1) as (-> & -> & ->). auto.
Qed.

(** Two specifiers are equal only for the same root and the same name. *)
Lemma body_eq r r' u u' n n' :
  root_text r u -> root_text r' u' -> u ++ n = u' ++ n' -> r = r' /\ n = n'.
Proof.
  intros [|d Hne Hd] [|d' Hne' Hd'] E.
  - apply app_inv_head in E. auto.
  - destruct d' as [|a d']; [contradiction|]. simpl in Hd'.
    apply andb_true_iff in Hd' as [Ha _]. apply Ascii.eqb_eq in Ha; subst.
    simpl in E. discriminate.
  - destruct d as [|a d]; [contradiction|]. simpl in Hd.
    apply andb_true_iff in Hd as [Ha _]. apply Ascii.eqb_eq in Ha; subst.
    simpl in E. discriminate.
  - rewrite <- !app_assoc in E. simpl in E.
    apply (split_unique (fun a => Ascii.eqb a ".")) in E as (_ & _ & ->); auto.
Qed.

(** An occurrence, cut at its two quotes. *)
Lemma occurrence_cut k r name m :
  plain name = true -> occurrence k r name m ->
  exists pre q0 u q,
    m = pre ++ q0 :: (u ++ name) ++ [q]
    /\ forallb (fun a => negb (is_quote a)) pre = true
    /\ forallb (fun a => negb (is_quote a)) (u ++ name) = true
    /\ is_quote q0 = true /\ is_quote q = true /\ root_text r u
    /\ (pre = cs "from" ++ skipn 4 pre /\ k = KFrom \/ pre = cs "import(" /\ k = KImport).
Proof.
  intros Hp (h & u & q & Hk & Hr & Hq & ->).
  assert (Hb : forallb (fun a => negb (is_quote a)) (u ++ name) = true).
  { apply safe_no_quote. rewrite forallb_app, (root_text_safe r u Hr), (plain_safe _ Hp).
    reflexivity. }
  destruct Hk as [w q0 Hne Hw Hq0 | q0 Hq0].
  - exists (cs "from" ++ w), q0, u, q. repeat split; auto.
    + repeat (rewrite <- app_assoc; simpl). reflexivity.
    + rewrite forallb_app, (spaces_no_quote _ Hw). reflexivity.
  - exists (cs "import("), q0, u, q. repeat split; auto.
    repeat (rewrite <- app_assoc; simpl). reflexivity.
Qed.

Lemma not_quote_false a : negb (is_quote a) = false <-> is_quote a = true.
Proof. destruct (is_quote a); simpl; split; auto. Qed.

(** Two occurrences that start at the same place are occurrences of the
    same form and name, and are the same text. *)
Lemma occurrence_same_start k r n m k' r' n' m' x x' :
  plain n = true -> plain n' = true ->
  occurrence k r n m -> occurrence k' r' n' m' -> m ++ x = m' ++ x' ->
  k = k' /\ r = r' /\ n = n' /\ m = m' /\ x = x'.
Proof.
  intros Hp Hp' O O' E.
  destruct (occurrence_cut k r n m Hp O)
    as (pre & q0 & u & q & -> & Hpre & Hb & Hq0 & Hq & Hr & Hkw).
  destruct (occurrence_cut k' r' n' m' Hp' O')
    as (pre' & q0' & u' & q' & -> & Hpre' & Hb' & Hq0' & Hq' & Hr' & Hkw').
  repeat (rewrite <- app_assoc in E; simpl in E).
  apply (split_unique (fun a => negb (is_quote a))) in E
    as (E1 & E2 & E3); auto; try (apply not_quote_false; assumption).
  rewrite !app_assoc in E3.
  apply (split_unique (fun a => negb (is_quote a))) in E3
    as (E4 & E5 & E6); auto; try (apply not_quote_false; assumption).
  destruct (body_eq _ _ _ _ _ _ Hr Hr' E4) as [Er En].
  subst n'. apply app_inv_tail in E4. subst.
  repeat split; auto.
  destruct Hkw as [[Ea ->]|[Ea ->]], Hkw' as [[Eb ->]|[Eb ->]]; auto.
  - rewrite Ea in Eb. discriminate.
  - rewrite Eb in Ea. discriminate.
Qed.

End Texts.

(** ** One substitution pass of a form *)

Section OneStep.

Variables (k : keyword) (r : root) (old new : chars).
Hypothesis Hold : plain old = true.
Hypothesis Hnew : plain new = true.

Let K : regex := form k r old.
Let T : template := [TGroup 1; TLit new; TGroup 2].

(** A match at the head is an occurrence of the old name; the pass
    writes the same occurrence with the new name and resumes after it. *)
Lemma sub_hit_form s ps rest :
  match_items (items K) s = Some (ps, rest) ->
  exists h u q,
    kw_text k h /\ root_text r u /\ is_quote q = true
    /\ s = (h ++ u ++ old ++ [q]) ++ rest
    /\ re_sub K T s = (h ++ u ++ new ++ [q]) ++ re_sub K T rest.
Proof.
  intros H. destruct (form_sound k r old s ps rest Hold H)
    as (h & u & q & Hk & Hr & Hq & Hc & Hs & He).
  exists h, u, q. repeat split; auto.
  unfold K, T. rewrite (re_sub_hit _ _ _ _ _ H).
  - rewrite He. reflexivity.
  - rewrite Hc. destruct Hk; discriminate.
Qed.

Lemma sub_nil : re_sub K T [] = [].
Proof. unfold re_sub, K. cbn [sub_scan]. rewrite form_nil. reflexivity. Qed.

(** A stretch of the output that holds no keyword start was copied from
    the input. *)
Lemma pull_back : forall w s rest',
  re_sub K T s = w ++ rest' -> quiet w rest' -> exists rest, s = w ++ rest.
Proof.
  induction w as [|a w IH]; intros s rest' E Hq.
  - exists s. reflexivity.
  - destruct s as [|b s]; [rewrite sub_nil in E; discriminate|].
    destruct (match_items (items K) (b :: s)) as [[ps rest]|] eqn:M.
    + destruct (sub_hit_form _ _ _ M) as (h & u & q & Hk & Hr & Hq' & Hs & Hsub).
      exfalso.
      assert (Hst : kw_startb ((a :: w) ++ rest') = true).
      { rewrite <- E, Hsub, <- app_assoc. apply kw_text_start with (k := k); auto. }
      rewrite (quiet_head _ _ Hq) in Hst; discriminate.
    + unfold K, T in E. rewrite re_sub_miss in E by exact M.
      simpl in E. inversion E; subst.
      destruct (IH s rest' H1 (quiet_tail _ _ _ Hq)) as (rest & ->).
      exists rest. reflexivity.
Qed.

Lemma count_hit_form s ps rest :
  match_items (items K) s = Some (ps, rest) ->
  count_matches K s = S (count_matches K rest).
Proof.
  intros H. apply count_hit with (ps := ps); auto.
  destruct (form_sound k r old s ps rest Hold H)
    as (h & u & q & Hk & _ & _ & Hc & _ & _).
  rewrite Hc. destruct Hk; discriminate.
Qed.

(** Each replacement changes the length by the difference of the two
    names. *)
Lemma sub_length : forall s,
  length (re_sub K T s) + count_matches K s * length old
  = length s + count_matches K s * length new.
Proof.
  intros s. remember (length s) as n eqn:En. revert s En.
  induction n as [n IH] using lt_wf_ind. intros s En.
  destruct s as [|a s].
  - rewrite sub_nil. unfold count_matches, K.
    cbn [count_scan]. rewrite form_nil. simpl in En. subst. reflexivity.
  - destruct (match_items (items K) (a :: s)) as [[ps rest]|] eqn:M.
    + rewrite (count_hit_form _ _ _ M).
      destruct (sub_hit_form _ _ _ M)
        as (h & u & q & Hk & Hr & Hq & E & Hsub).
      rewrite Hsub.
      assert (L : length rest < n).
      { rewrite En, E, length_app. destruct Hk; simpl; lia. }
      specialize (IH (length rest) L rest eq_refl).
      rewrite En, E. rewrite !length_app in *. simpl. lia.
    + unfold K, T. rewrite re_sub_miss by exact M.
      rewrite count_miss by exact M.
      simpl in En. assert (L : length s < n) by lia.
      specialize (IH (length s) L s eq_refl). unfold K, T in IH.
      simpl length. lia.
Qed.

Section Against.

(** A second form, for a name [old'] the new name differs from. *)
Variables (k' : keyword) (r' : root) (old' : chars).
Hypothesis Hold' : plain old' = true.
Hypothesis Hdiff : new <> old'.

Let Q : regex := form k' r' old'.

(** The rewritten occurrence is not an occurrence of [old']. *)
Lemma rewritten_no_match h u q rest :
  kw_text k h -> root_text r u -> is_quote q = true ->
  match_items (items Q) ((h ++ u ++ new ++ [q]) ++ rest) = None.
Proof.
  intros Hk Hr Hq.
  destruct (match_items (items Q) ((h ++ u ++ new ++ [q]) ++ rest))
    as [[ps rest']|] eqn:M; auto.
  exfalso.
  destruct (form_sound k' r' old' _ ps rest' Hold' M)
    as (h' & u' & q' & Hk' & Hr' & Hq'' & _ & Hs & _).
  assert (O1 : occurrence k r new (h ++ u ++ new ++ [q])) by (exists h, u, q; auto).
  assert (O2 : occurrence k' r' old' (h' ++ u' ++ old' ++ [q'])) by (exists h', u', q'; auto).
  destruct (spec_of_occurrence k r new _ rest Hnew O1) as (v & Hv & S1).
  destruct (spec_of_occurrence k' r' old' _ rest' Hold' O2) as (v' & Hv' & S2).
  rewrite Hs, S2 in S1.
  destruct (body_eq _ _ _ _ _ _ Hv' Hv S1) as [_ E]. congruence.
Qed.

(** No match of any form starts inside an occurrence, past its first
    character. *)
Lemma inside_no_match name a x y o :
  plain name = true -> occurrence k r name (a :: x ++ y) -> y <> [] ->
  match_items (items Q) (y ++ o) = None.
Proof.
  intros Hp O Hy.
  destruct (match_items (items Q) (y ++ o)) as [[ps rest']|] eqn:M; auto.
  exfalso.
  destruct (form_sound k' r' old' _ ps rest' Hold' M)
    as (h' & u' & q' & Hk' & Hr' & Hq'' & _ & Hs & _).
  assert (Hst : kw_startb (y ++ o) = true).
  { rewrite Hs, <- app_assoc. apply kw_text_start with (k := k'); auto. }
  pose proof (occurrence_quiet k r name a (x ++ y) o Hp O) as Hq1.
  rewrite (Hq1 x y) in Hst; [discriminate|reflexivity|assumption].
Qed.

(** No match of [old'] starts in the rewritten occurrence. *)
Lemma rewritten_inside h u q o x y :
  kw_text k h -> root_text r u -> is_quote q = true ->
  h ++ u ++ new ++ [q] = x ++ y -> y <> [] ->
  match_items (items Q) (y ++ o) = None.
Proof.
  intros Hk Hr Hq E Hy. destruct x as [|a x].
  - simpl in E. subst y. apply rewritten_no_match; auto.
  - apply inside_no_match with (name := new) (a := a) (x := x); auto.
    exists h, u, q. repeat split; auto.
Qed.

(** No match of [old'] lies in the rewritten occurrence or straddles
    its end. *)
Lemma rewritten_clean h u q o :
  kw_text k h -> root_text r u -> is_quote q = true ->
  clean Q o -> clean Q ((h ++ u ++ new ++ [q]) ++ o).
Proof.
  intros Hk Hr Hq Ho x y E.
  apply app_eq_app in E as [l [[E1 E2]|[E1 E2]]].
  - subst y. destruct l as [|b l]; [apply (Ho [] o); reflexivity|].
    apply rewritten_inside with (h := h) (u := u) (q := q) (x := x); auto.
    discriminate.
  - apply (Ho l y). assumption.
Qed.

(** A match of [old'] at the head of the output, where the pass copied
    the first character, was already in the input. *)
Lemma head_pulled a s :
  match_items (items K) (a :: s) = None ->
  matches_at Q (a :: re_sub K T s) -> matches_at Q (a :: s).
Proof.
  intros M MQ.
  destruct (match_items (items Q) (a :: re_sub K T s)) as [[qs rest']|] eqn:E;
    [|contradiction MQ; reflexivity].
  destruct (form_sound k' r' old' _ qs rest' Hold' E)
    as (h' & u' & q' & Hk' & Hr' & Hq' & _ & Hs' & _).
  assert (O : occurrence k' r' old' (h' ++ u' ++ old' ++ [q']))
    by (exists h', u', q'; auto).
  destruct (occurrence_cons _ _ _ _ O) as (a' & M1 & EM).
  rewrite EM in Hs', O. simpl in Hs'. inversion Hs'; subst a'.
  destruct (pull_back M1 s rest' H1
              (occurrence_quiet k' r' old' a M1 rest' Hold' O))
    as (rest'' & ->).
  change (matches_at Q ((a :: M1) ++ rest'')). rewrite <- EM.
  apply form_complete; auto.
Qed.

(** The pass creates no match of [old']: if every match of [old'] in
    the input is also a match of the pass's own pattern, the output holds
    no match of [old']. *)
Lemma no_new_match : forall s,
  (forall x y, s = x ++ y -> matches_at Q y -> matches_at K y) ->
  clean Q (re_sub K T s).
Proof.
  intros s. remember (length s) as n eqn:En. revert s En.
  induction n as [n IH] using lt_wf_ind. intros s En Hs.
  destruct s as [|a s].
  - rewrite sub_nil. intros x y E. symmetry in E.
    apply app_eq_nil in E as [_ ->]. unfold Q. apply form_nil.
  - destruct (match_items (items K) (a :: s)) as [[ps rest]|] eqn:M.
    + destruct (sub_hit_form _ _ _ M) as (h & u & q & Hk & Hr & Hq & E & Hsub).
      rewrite Hsub. apply rewritten_clean; auto.
      apply (IH (length rest)) with (s := rest); auto.
      * rewrite En, E, length_app.
        destruct Hk; simpl; lia.
      * intros x y Exy. apply (Hs ((h ++ u ++ old ++ [q]) ++ x) y).
        rewrite E, Exy, app_assoc. reflexivity.
    + unfold K, T. rewrite re_sub_miss by exact M.
      apply clean_cons.
      * destruct (match_items (items Q) (a :: re_sub (form k r old) T s))
          as [[qs rest']|] eqn:MQ; auto.
        exfalso.
        assert (MK : matches_at K (a :: s)).
        { apply (Hs [] (a :: s)); [reflexivity|].
          apply head_pulled; auto. unfold matches_at, K. rewrite MQ. discriminate. }
        apply MK. exact M.
      * apply (IH (length s)) with (s := s); auto.
        -- rewrite En. simpl. lia.
        -- intros x y Exy. apply (Hs (a :: x) y). rewrite Exy. reflexivity.
Qed.

(** In particular a pattern that matched nowhere still matches nowhere. *)
Lemma clean_preserved s : clean Q s -> clean Q (re_sub K T s).
Proof.
  intros H. apply no_new_match. intros x y E M.
  exfalso. apply M. apply (H x y E).
Qed.

(** *** Matches of another form are neither lost nor created *)

Hypothesis Hother : (k, r, old) <> (k', r', old').

Lemma count_preserved : forall s,
  count_matches Q (re_sub K T s) = count_matches Q s.
Proof.
  intros s. remember (length s) as n eqn:En. revert s En.
  induction n as [n IH] using lt_wf_ind. intros s En.
  destruct s as [|a s]; [rewrite sub_nil; reflexivity|].
  destruct (match_items (items K) (a :: s)) as [[ps rest]|] eqn:M.
  - destruct (sub_hit_form _ _ _ M) as (h & u & q & Hk & Hr & Hq & E & Hsub).
    rewrite Hsub, E.
    rewrite count_skip, (count_skip Q (h ++ u ++ old ++ [q])).
    + apply (IH (length rest)); auto.
      rewrite En, E, length_app. destruct Hk; simpl; lia.
    + intros x y Exy Hy. destruct x as [|b x].
      * simpl in Exy. subst y.
        destruct (match_items (items Q) ((h ++ u ++ old ++ [q]) ++ rest))
          as [[qs rest']|] eqn:MQ; auto.
        exfalso.
        destruct (form_sound k' r' old' _ qs rest' Hold' MQ)
          as (h' & u' & q' & Hk' & Hr' & Hq' & _ & Hs' & _).
        assert (O : occurrence k r old (h ++ u ++ old ++ [q]))
          by (exists h, u, q; auto).
        assert (O' : occurrence k' r' old' (h' ++ u' ++ old' ++ [q']))
          by (exists h', u', q'; auto).
        destruct (occurrence_same_start _ _ _ _ _ _ _ _ _ _ Hold Hold' O O' Hs')
          as (-> & -> & -> & _). apply Hother. reflexivity.
      * apply inside_no_match with (name := old) (a := b) (x := x); auto.
        exists h, u, q. repeat split; auto.
    + intros x y Exy Hy.
      apply rewritten_inside with (h := h) (u := u) (q := q) (x := x); auto.
  - unfold K, T. rewrite re_sub_miss by exact M. fold K T.
    destruct (match_items (items Q) (a :: s)) as [[qs restQ]|] eqn:MQ.
    + destruct (form_sound k' r' old' _ qs restQ Hold' MQ)
        as (h' & u' & q' & Hk' & Hr' & Hq' & Hc & Hs' & _).
      assert (O' : occurrence k' r' old' (h' ++ u' ++ old' ++ [q']))
        by (exists h', u', q'; auto).
      assert (L : length restQ < n).
      { rewrite En, Hs', length_app. destruct Hk'; simpl; lia. }
      assert (Hcopy : re_sub K T (a :: s)
                      = (h' ++ u' ++ old' ++ [q']) ++ re_sub K T restQ).
      { rewrite Hs'. apply sub_copy. intros x y Exy Hy.
        destruct x as [|b x].
        - simpl in Exy. subst y. rewrite <- Hs'. exact M.
        - destruct (match_items (items K) (y ++ restQ)) as [[ps rest']|] eqn:MK; auto.
          exfalso.
          destruct (form_sound k r old _ ps rest' Hold MK)
            as (h & u & q & Hk & _ & _ & _ & Hs & _).
          assert (Hst : kw_startb (y ++ restQ) = true).
          { rewrite Hs, <- app_assoc. apply kw_text_start with (k := k); auto. }
          rewrite Exy in O'.
          pose proof (occurrence_quiet k' r' old' b (x ++ y) restQ Hold' O') as Hq1.
          rewrite (Hq1 x y) in Hst; [discriminate|reflexivity|assumption]. }
      unfold K, T in Hcopy. rewrite re_sub_miss in Hcopy by exact M.
      fold K T in Hcopy. rewrite Hcopy.
      rewrite (count_hit Q (a :: s) qs restQ MQ)
        by (rewrite Hc; destruct Hk'; discriminate).
      pose proof (form_complete k' r' old' h' u' q' (re_sub K T restQ)
                    Hold' Hk' Hr' Hq') as MC.
      fold Q in MC. unfold matches_at in MC.
      destruct (match_items (items Q) ((h' ++ u' ++ old' ++ [q']) ++ re_sub K T restQ))
        as [[qs2 rest2]|] eqn:M2; [|contradiction MC; reflexivity].
      destruct (form_sound k' r' old' _ qs2 rest2 Hold' M2)
        as (h2 & u2 & q2 & Hk2 & Hr2 & Hq2 & Hc2 & Hs2 & _).
      assert (O2 : occurrence k' r' old' (h2 ++ u2 ++ old' ++ [q2]))
        by (exists h2, u2, q2; auto).
      destruct (occurrence_same_start _ _ _ _ _ _ _ _ _ _ Hold' Hold' O' O2 Hs2)
        as (_ & _ & _ & _ & <-).
      rewrite (count_hit Q _ qs2 (re_sub K T restQ) M2)
        by (rewrite Hc2; destruct Hk2; discriminate).
      f_equal. apply (IH (length restQ)); auto.
    + rewrite (count_miss Q a s MQ).
      rewrite count_miss.
      * apply (IH (length s)); auto. rewrite En. simpl. lia.
      * destruct (match_items (items Q) (a :: re_sub K T s)) as [[? ?]|] eqn:MQ'; auto.
        exfalso. apply (head_pulled a s M).
        -- unfold matches_at. rewrite MQ'. discriminate.
        -- exact MQ.
Qed.

End Against.

End OneStep.

(** After its own pass, a pattern matches nowhere. *)
Lemma pass_clean k r old new s :
  plain old = true -> plain new = true -> new <> old ->
  clean (form k r old) (re_sub (form k r old) [TGroup 1; TLit new; TGroup 2] s).
Proof.
  intros Ho Hn Hd. apply no_new_match; auto.
Qed.

(** ** A whole run over a table *)

Section Runs.

Lemma apply_steps_app s1 s2 c :
  apply_steps (s1 ++ s2) c = apply_steps s2 (apply_steps s1 c).
Proof. unfold apply_steps. apply fold_left_app. Qed.

Lemma all_clean_id steps c : all_clean steps c -> apply_steps steps c = c.
Proof.
  induction steps as [|st steps IH]; intros H; simpl; auto.
  unfold apply_step at 1. rewrite re_sub_clean.
  - apply IH. intros st' I. apply H. right; auto.
  - apply H. left; auto.
Qed.

(** Once a step has run, its pattern matches nowhere, and the later
    steps keep it so. *)
Lemma run_cleans (U : list step) (HU : steps_ok U) :
  forall steps done c,
    incl steps U -> incl done U ->
    all_clean done c -> all_clean (done ++ steps) (apply_steps steps c).
Proof.
  destruct HU as [Hplain Hdiff].
  induction steps as [|st steps IH]; intros done c Hs Hd Hc.
  - rewrite app_nil_r. exact Hc.
  - simpl. replace (done ++ st :: steps) with ((done ++ [st]) ++ steps)
      by (rewrite <- app_assoc; reflexivity).
    assert (Ist : In st U) by (apply Hs; left; auto).
    apply IH.
    + intros x I. apply Hs. right; auto.
    + intros x I. apply in_app_or in I as [I|[<-|[]]]; auto.
    + intros x I. destruct st as [[[k r] old] new].
      destruct (Hplain _ Ist) as [Po Pn]. simpl in Po, Pn.
      unfold apply_step, step_regex at 2, step_template.
      apply in_app_or in I as [I|[<-|[]]].
      * destruct x as [[[k' r'] old'] new']. simpl.
        apply clean_preserved; auto.
        -- destruct (Hplain _ (Hd _ I)) as [Po' _]. exact Po'.
        -- apply (Hdiff _ _ Ist (Hd _ I)).
        -- apply (Hc _ I).
      * simpl. apply pass_clean; auto. apply (Hdiff _ _ Ist Ist).
Qed.

(** After a run, no pattern of the run matches anywhere. *)
Lemma run_all_clean steps c :
  steps_ok steps -> all_clean steps (apply_steps steps c).
Proof.
  intros H. apply (run_cleans steps H steps [] c).
  - apply incl_refl.
  - intros x [].
  - intros x [].
Qed.

(** Tables that pass [table_ok] give well-formed steps. *)
Lemma cs_inj a b : cs a = cs b -> a = b.
Proof.
  intros H. apply (f_equal string_of_list_ascii) in H.
  unfold cs in H. rewrite !string_of_list_ascii_of_string in H. exact H.
Qed.

Lemma in_steps4 table st :
  In st (steps4 table) ->
  exists e, In e table /\ step_old st = cs (fst e) /\ step_new st = cs (snd e).
Proof.
  unfold steps4. intros H. apply in_flat_map in H as (e & I & H).
  exists e. split; auto.
  simpl in H. destruct H as [<-|[<-|[<-|[<-|[]]]]]; auto.
Qed.

Lemma in_steps3 table st :
  In st (steps3 table) ->
  exists e, In e table /\ step_old st = cs (fst e) /\ step_new st = cs (snd e).
Proof.
  unfold steps3. intros H. apply in_flat_map in H as (e & I & H).
  exists e. split; auto.
  simpl in H. destruct H as [<-|[<-|[<-|[]]]]; auto.
Qed.

Lemma table_ok_entries table :
  table_ok table = true ->
  (forall e, In e table -> plain (cs (fst e)) = true /\ plain (cs (snd e)) = true)
  /\ (forall e e', In e table -> In e' table -> snd e <> fst e').
Proof.
  unfold table_ok, plain_table, no_chain. intros H.
  apply andb_true_iff in H as [Hp Hc].
  rewrite forallb_forall in Hp, Hc. split.
  - intros e I. specialize (Hp e I). apply andb_true_iff in Hp as [Po Pn].
    unfold plain_new in Pn. apply andb_true_iff in Pn as [Pn _]. auto.
  - intros e e' I I' E. specialize (Hc e I). apply negb_true_iff in Hc.
    assert (X : existsb (fun e'0 => (snd e =? fst e'0)%string) table = true).
    { apply existsb_exists. exists e'. split; auto. apply String.eqb_eq. exact E. }
    congruence.
Qed.

Lemma steps_ok_of (steps : list step) table :
  (forall st, In st steps ->
     exists e, In e table /\ step_old st = cs (fst e) /\ step_new st = cs (snd e)) ->
  table_ok table = true -> steps_ok steps.
Proof.
  intros Hin H. destruct (table_ok_entries table H) as [Hp Hc]. split.
  - intros st I. destruct (Hin st I) as (e & Ie & -> & ->). auto.
  - intros st st' I I' E.
    destruct (Hin st I) as (e & Ie & _ & En).
    destruct (Hin st' I') as (e' & Ie' & Eo & _).
    rewrite En, Eo in E. apply cs_inj in E. apply (Hc e e' Ie Ie' E).
Qed.

Lemma steps4_ok table : table_ok table = true -> steps_ok (steps4 table).
Proof. apply steps_ok_of. apply in_steps4. Qed.

Lemma steps3_ok table : table_ok table = true -> steps_ok (steps3 table).
Proof. apply steps_ok_of. apply in_steps3. Qed.

(** *** update-imports.py *)

Lemma ui_try_fst p t c m :
  fst (UpdateImports.try_pattern p t (c, m)) = re_sub p t c.
Proof.
  unfold UpdateImports.try_pattern.
  destruct (re_search p c) eqn:E; simpl; auto.
  symmetry. apply re_sub_clean. apply re_search_false. exact E.
Qed.

Lemma ui_try_clean p t c m :
  clean p c -> UpdateImports.try_pattern p t (c, m) = (c, m).
Proof.
  intros H. unfold UpdateImports.try_pattern.
  apply re_search_false in H. rewrite H. reflexivity.
Qed.

Lemma ui_entry_fst st e :
  fst (UpdateImports.rename_entry st e) = apply_steps (steps4 [e]) (fst st).
Proof.
  unfold UpdateImports.rename_entry. destruct st as [c m].
  repeat match goal with
         | |- context [UpdateImports.try_pattern ?p ?t (?c, ?m)] =>
             let X := fresh "X" in
             let E := fresh "E" in
             destruct (UpdateImports.try_pattern p t (c, m)) as [? ?] eqn:E;
             apply (f_equal fst) in E; rewrite ui_try_fst in E; simpl in E; subst
         end.
  reflexivity.
Qed.

Lemma ui_fold_fst table : forall st,
  fst (fold_left UpdateImports.rename_entry table st)
  = apply_steps (steps4 table) (fst st).
Proof.
  induction table as [|e table IH]; intros st; simpl; auto.
  rewrite IH, ui_entry_fst. reflexivity.
Qed.

(** The content [update_file] computes is the result of the passes. *)
Lemma ui_content table c :
  fst (UpdateImports.update_content table c) = apply_steps (steps4 table) c.
Proof. unfold UpdateImports.update_content. apply ui_fold_fst. Qed.

Lemma ui_entry_clean e c m :
  all_clean (steps4 [e]) c -> UpdateImports.rename_entry (c, m) e = (c, m).
Proof.
  intros H. unfold UpdateImports.rename_entry.
  rewrite (ui_try_clean (UpdateImports.pattern1 _)).
  rewrite (ui_try_clean (UpdateImports.pattern2 _)).
  rewrite (ui_try_clean (UpdateImports.pattern3 _)).
  rewrite (ui_try_clean (UpdateImports.pattern4 _)).
  reflexivity.
  all: match goal with
       | |- clean (UpdateImports.pattern4 _) _ =>
           apply (H (KImport, RDots, cs (fst e), cs (snd e)))
       | |- clean (UpdateImports.pattern3 _) _ =>
           apply (H (KImport, RAlias, cs (fst e), cs (snd e)))
       | |- clean (UpdateImports.pattern2 _) _ =>
           apply (H (KFrom, RDots, cs (fst e), cs (snd e)))
       | |- clean (UpdateImports.pattern1 _) _ =>
           apply (H (KFrom, RAlias, cs (fst e), cs (snd e)))
       end; simpl; auto 10.
Qed.

(** On a text no pattern matches, the run changes nothing and leaves
    [modified] as it was. *)
Lemma ui_fold_clean table c m :
  all_clean (steps4 table) c ->
  fold_left UpdateImports.rename_entry table (c, m) = (c, m).
Proof.
  induction table as [|e table IH]; intros H; simpl; auto.
  rewrite ui_entry_clean.
  - apply IH. intros st I. apply H.
    change (steps4 (e :: table)) with (steps4 [e] ++ steps4 table).
    apply in_or_app; auto.
  - intros st I. apply H.
    change (steps4 (e :: table)) with (steps4 [e] ++ steps4 table).
    apply in_or_app; auto.
Qed.

(** *** update-feature-imports.py *)

Lemma chars_eqb_eq a b : chars_eqb a b = true <-> a = b.
Proof. unfold chars_eqb. destruct (list_eq_dec ascii_dec a b); split; auto; discriminate. Qed.

Lemma chars_eqb_refl a : chars_eqb a a = true.
Proof. apply chars_eqb_eq. reflexivity. Qed.

Lemma ufi_try_fst p t c n :
  fst (UpdateFeatureImports.try_pattern p t (c, n)) = re_sub p t c.
Proof.
  unfold UpdateFeatureImports.try_pattern.
  destruct (chars_eqb (re_sub p t c) c) eqn:E; simpl; auto.
  apply chars_eqb_eq in E. auto.
Qed.

Lemma ufi_try_clean p t c n :
  clean p c -> UpdateFeatureImports.try_pattern p t (c, n) = (c, n).
Proof.
  intros H. unfold UpdateFeatureImports.try_pattern.
  rewrite (re_sub_clean p t c H), chars_eqb_refl. reflexivity.
Qed.

Lemma ufi_entry_fst st e :
  fst (UpdateFeatureImports.path_entry st e) = apply_steps (steps3 [e]) (fst st).
Proof.
  unfold UpdateFeatureImports.path_entry. destruct st as [c m].
  repeat match goal with
         | |- context [UpdateFeatureImports.try_pattern ?p ?t (?c, ?m)] =>
             let E := fresh "E" in
             destruct (UpdateFeatureImports.try_pattern p t (c, m)) as [? ?] eqn:E;
             apply (f_equal fst) in E; rewrite ufi_try_fst in E; simpl in E; subst
         end.
  reflexivity.
Qed.

Lemma ufi_fold_fst table : forall st,
  fst (fold_left UpdateFeatureImports.path_entry table st)
  = apply_steps (steps3 table) (fst st).
Proof.
  induction table as [|e table IH]; intros st; simpl; auto.
  rewrite IH, ufi_entry_fst. reflexivity.
Qed.

Lemma ufi_content table c :
  fst (UpdateFeatureImports.run_table table c) = apply_steps (steps3 table) c.
Proof. unfold UpdateFeatureImports.run_table. apply ufi_fold_fst. Qed.

Lemma ufi_entry_clean e c n :
  all_clean (steps3 [e]) c -> UpdateFeatureImports.path_entry (c, n) e = (c, n).
Proof.
  intros H. unfold UpdateFeatureImports.path_entry.
  rewrite (ufi_try_clean (UpdateFeatureImports.pattern1 _)).
  rewrite (ufi_try_clean (UpdateFeatureImports.pattern2 _)).
  rewrite (ufi_try_clean (UpdateFeatureImports.pattern3 _)).
  reflexivity.
  all: match goal with
       | |- clean (UpdateFeatureImports.pattern3 _) _ =>
           apply (H (KImport, RAlias, cs (fst e), cs (snd e)))
       | |- clean (UpdateFeatureImports.pattern2 _) _ =>
           apply (H (KFrom, RDots, cs (fst e), cs (snd e)))
       | |- clean (UpdateFeatureImports.pattern1 _) _ =>
           apply (H (KFrom, RAlias, cs (fst e), cs (snd e)))
       end; simpl; auto 10.
Qed.

Lemma ufi_fold_clean table c n :
  all_clean (steps3 table) c ->
  fold_left UpdateFeatureImports.path_entry table (c, n) = (c, n).
Proof.
  induction table as [|e table IH]; intros H; simpl; auto.
  rewrite ufi_entry_clean.
  - apply IH. intros st I. apply H.
    change (steps3 (e :: table)) with (steps3 [e] ++ steps3 table).
    apply in_or_app; auto.
  - intros st I. apply H.
    change (steps3 (e :: table)) with (steps3 [e] ++ steps3 table).
    apply in_or_app; auto.
Qed.

End Runs.

(** ** Files and batches *)

Section Batches.

Variable decision : chars -> option chars.

Lemma effect_same p d : effect decision p d p = file_after decision (d p).
Proof. unfold effect. rewrite String.eqb_refl. reflexivity. Qed.

Lemma effect_other p q d : q <> p -> effect decision p d q = d q.
Proof.
  intros H. unfold effect. destruct (String.eqb_spec q p); [contradiction|reflexivity].
Qed.

Lemma effect_ext p d1 d2 :
  (forall q, d1 q = d2 q) -> forall q, effect decision p d1 q = effect decision p d2 q.
Proof. intros H q. unfold effect. rewrite (H p), (H q). reflexivity. Qed.

Lemma effects_ext files : forall d1 d2,
  (forall q, d1 q = d2 q) ->
  forall q, effects decision files d1 q = effects decision files d2 q.
Proof.
  induction files as [|p files IH]; intros d1 d2 H q; simpl; auto.
  apply IH. apply effect_ext. exact H.
Qed.

(** Files outside the batch are not touched. *)
Lemma effects_frame files : forall d q,
  ~ In q files -> effects decision files d q = d q.
Proof.
  induction files as [|p files IH]; intros d q H; simpl; auto.
  rewrite IH by (intros I; apply H; right; exact I).
  apply effect_other. intros ->. apply H. left; reflexivity.
Qed.

(** Each file of the batch ends as if it had been processed alone. *)
Lemma effects_each files : forall d p,
  NoDup files -> In p files ->
  effects decision files d p = file_after decision (d p).
Proof.
  induction files as [|q files IH]; intros d p ND I; [destruct I|].
  inversion ND as [|? ? Hq ND']; subst. simpl.
  destruct I as [->|I].
  - rewrite effects_frame by assumption. apply effect_same.
  - rewrite IH by assumption.
    rewrite effect_other; [reflexivity|]. intros ->. contradiction.
Qed.

Lemma file_after_wmode f : Fs.wmode (file_after decision f) = Fs.wmode f.
Proof.
  unfold file_after. destruct (Fs.data f); auto.
  destruct (decision c); auto. destruct (Fs.wmode f) eqn:W; simpl; auto.
Qed.

Lemma settled_fixed f : settled decision f -> file_after decision f = f.
Proof.
  unfold settled, file_after. destruct (Fs.data f); auto.
  intros [->| ->]; auto. destruct (decision c); auto.
Qed.

(** When what is written (in full or in part) calls for no further
    write, a processed file is settled. *)
Hypothesis decided_once :
  forall c c', decision c = Some c' -> forall kept, decision (firstn kept c') = None.

Lemma file_after_settled f : settled decision (file_after decision f).
Proof.
  unfold file_after, settled.
  destruct (Fs.data f) as [c|] eqn:D; [|rewrite D; exact I].
  destruct (decision c) as [c'|] eqn:E.
  - destruct (Fs.wmode f) eqn:W; simpl.
    + right. rewrite <- (firstn_all c'). eapply decided_once; eauto.
    + rewrite D, W. left; reflexivity.
    + right. eapply decided_once; eauto.
  - rewrite D, E. right; reflexivity.
Qed.

Lemma effects_settled files : forall d,
  (forall p, settled decision (d p)) ->
  forall p, settled decision (effects decision files d p).
Proof.
  induction files as [|q files IH]; intros d H p; simpl; auto.
  apply IH. intros p'. unfold effect.
  destruct (String.eqb p' q); auto. apply file_after_settled.
Qed.

Lemma effects_settle files : forall d p,
  In p files -> settled decision (effects decision files d p).
Proof.
  induction files as [|q files IH]; intros d p I; [destruct I|]. simpl.
  destruct (in_dec string_dec p files) as [I'|N].
  - apply IH; auto.
  - destruct I as [->|I]; [|contradiction].
    rewrite effects_frame by assumption. rewrite effect_same.
    apply file_after_settled.
Qed.

End Batches.

(** ** The two scripts on files *)

Section UpdateImportsFiles.

Variable table : list (string * string).

Let decide := ui_decide table.

Lemma ui_update_disk p w q :
  Fs.disk (snd (UpdateImports.update_file_with table p w)) q
  = effect decide p (Fs.disk w) q.
Proof.
  unfold UpdateImports.update_file_with, effect, file_after, decide, ui_decide,
    Fs.read, Fs.write.
  destruct (Fs.data (Fs.disk w p)) as [c|] eqn:D.
  - destruct (UpdateImports.update_content table c) as [c' m].
    destruct m.
    + destruct (Fs.wmode (Fs.disk w p)) eqn:W; simpl; unfold Fs.set_data;
        destruct (String.eqb_spec q p); subst; auto; rewrite ?W; auto.
    + simpl. destruct (String.eqb_spec q p); subst; auto.
  - simpl. destruct (String.eqb_spec q p); subst; auto.
Qed.

Lemma ui_update_console p w l :
  In l (Fs.console w) ->
  In l (Fs.console (snd (UpdateImports.update_file_with table p w))).
Proof.
  intros H. unfold UpdateImports.update_file_with, Fs.read, Fs.write.
  destruct (Fs.data (Fs.disk w p)) as [c|].
  - destruct (UpdateImports.update_content table c) as [c' m].
    destruct m; auto.
    destruct (Fs.wmode (Fs.disk w p)); simpl; auto;
      apply in_or_app; auto.
  - simpl. apply in_or_app; auto.
Qed.

(** A failure on a file is printed. *)
Lemma ui_update_error p w :
  fails_on decide (Fs.disk w p) ->
  In (Fs.ErrorLine (Some p)) (Fs.console (snd (UpdateImports.update_file_with table p w))).
Proof.
  unfold fails_on, decide, ui_decide, UpdateImports.update_file_with, Fs.read, Fs.write.
  destruct (Fs.data (Fs.disk w p)) as [c|].
  - destruct (UpdateImports.update_content table c) as [c' m].
    destruct m; intros [H1 H2]; [|contradiction].
    destruct (Fs.wmode (Fs.disk w p)); [contradiction| |];
      simpl; apply in_or_app; right; left; reflexivity.
  - intros _. simpl. apply in_or_app; right; left; reflexivity.
Qed.

(** A settled file is answered with [False]. *)
Lemma ui_update_settled p w :
  settled decide (Fs.disk w p) ->
  fst (UpdateImports.update_file_with table p w) = false.
Proof.
  unfold settled, decide, ui_decide, UpdateImports.update_file_with, Fs.read, Fs.write.
  destruct (Fs.data (Fs.disk w p)) as [c|]; auto.
  destruct (UpdateImports.update_content table c) as [c' m].
  destruct m; auto. intros [->|H]; [reflexivity|discriminate].
Qed.

Lemma ui_loop_disk files : forall n w q,
  Fs.disk (snd (UpdateImports.main_loop table files n w)) q
  = effects decide files (Fs.disk w) q.
Proof.
  induction files as [|p files IH]; intros n w q; simpl; auto.
  destruct (UpdateImports.update_file_with table p w) as [b w'] eqn:E.
  assert (H : forall q, Fs.disk w' q = effect decide p (Fs.disk w) q).
  { intros q'. rewrite <- ui_update_disk, E. reflexivity. }
  destruct b; rewrite IH; apply effects_ext; auto.
Qed.

Lemma ui_loop_console files : forall n w l,
  In l (Fs.console w) ->
  In l (Fs.console (snd (UpdateImports.main_loop table files n w))).
Proof.
  induction files as [|p files IH]; intros n w l H; simpl; auto.
  destruct (UpdateImports.update_file_with table p w) as [b w'] eqn:E.
  assert (H' : In l (Fs.console w')).
  { replace w' with (snd (UpdateImports.update_file_with table p w))
      by (rewrite E; reflexivity).
    apply ui_update_console; auto. }
  destruct b; apply IH; auto. simpl. apply in_or_app; auto.
Qed.

Lemma ui_loop_error files : forall n w p,
  NoDup files -> In p files -> fails_on decide (Fs.disk w p) ->
  In (Fs.ErrorLine (Some p)) (Fs.console (snd (UpdateImports.main_loop table files n w))).
Proof.
  induction files as [|q files IH]; intros n w p ND I F; [destruct I|].
  inversion ND as [|? ? Hq ND']; subst. simpl.
  destruct (UpdateImports.update_file_with table q w) as [b w'] eqn:E.
  assert (Ew : w' = snd (UpdateImports.update_file_with table q w))
    by (rewrite E; reflexivity).
  destruct I as [->|I].
  - assert (H : In (Fs.ErrorLine (Some p)) (Fs.console w')).
    { rewrite Ew. apply ui_update_error; auto. }
    destruct b; apply ui_loop_console; auto. simpl. apply in_or_app; auto.
  - assert (D : Fs.disk w' p = Fs.disk w p).
    { rewrite Ew, ui_update_disk. apply effect_other. intros ->. contradiction. }
    destruct b; apply IH; auto; simpl; rewrite D; auto.
Qed.

(** A batch of settled files: nothing is counted, nothing is written. *)
Lemma ui_loop_settled files : forall n w,
  (forall p, In p files -> settled decide (Fs.disk w p)) ->
  fst (UpdateImports.main_loop table files n w) = n
  /\ forall q, Fs.disk (snd (UpdateImports.main_loop table files n w)) q = Fs.disk w q.
Proof.
  induction files as [|p files IH]; intros n w H; simpl; auto.
  pose proof (ui_update_settled p w (H p (or_introl eq_refl))) as Hb.
  assert (Hd : forall q, Fs.disk (snd (UpdateImports.update_file_with table p w)) q
                         = Fs.disk w q).
  { intros q. rewrite ui_update_disk. unfold effect.
    destruct (String.eqb_spec q p); subst; auto.
    apply settled_fixed. apply H. left; reflexivity. }
  destruct (UpdateImports.update_file_with table p w) as [b w']. simpl in Hb, Hd.
  subst b. destruct (IH n w') as [IH1 IH2].
  - intros q I. rewrite Hd. apply H. right; auto.
  - split; auto. intros q. rewrite IH2. apply Hd.
Qed.

End UpdateImportsFiles.

Section UpdateFeatureImportsFiles.

Variable table : list (string * string).

Let decide := ufi_decide table.

Lemma ufi_update_disk p w q :
  Fs.disk (snd (UpdateFeatureImports.update_file_with table p w)) q
  = effect decide p (Fs.disk w) q.
Proof.
  unfold UpdateFeatureImports.update_file_with, effect, file_after, decide,
    ufi_decide, Fs.read, Fs.write.
  destruct (Fs.data (Fs.disk w p)) as [c|] eqn:D.
  - destruct (UpdateFeatureImports.run_table table c) as [c' m].
    destruct (chars_eqb c' c).
    + simpl. destruct (String.eqb_spec q p); subst; auto.
    + destruct (Fs.wmode (Fs.disk w p)) eqn:W; simpl; unfold Fs.set_data;
        destruct (String.eqb_spec q p); subst; auto; rewrite ?W; auto.
  - simpl. destruct (String.eqb_spec q p); subst; auto.
Qed.

Lemma ufi_update_console p w l :
  In l (Fs.console w) ->
  In l (Fs.console (snd (UpdateFeatureImports.update_file_with table p w))).
Proof.
  intros H. unfold UpdateFeatureImports.update_file_with, Fs.read, Fs.write.
  destruct (Fs.data (Fs.disk w p)) as [c|].
  - destruct (UpdateFeatureImports.run_table table c) as [c' m].
    destruct (chars_eqb c' c); auto.
    destruct (Fs.wmode (Fs.disk w p)); simpl; auto;
      apply in_or_app; auto.
  - simpl. apply in_or_app; auto.
Qed.

Lemma ufi_update_error p w :
  fails_on decide (Fs.disk w p) ->
  In (Fs.ErrorLine (Some p))
     (Fs.console (snd (UpdateFeatureImports.update_file_with table p w))).
Proof.
  unfold fails_on, decide, ufi_decide, UpdateFeatureImports.update_file_with,
    Fs.read, Fs.write.
  destruct (Fs.data (Fs.disk w p)) as [c|].
  - destruct (UpdateFeatureImports.run_table table c) as [c' m].
    destruct (chars_eqb c' c); intros [H1 H2]; [contradiction|].
    destruct (Fs.wmode (Fs.disk w p)); [contradiction| |];
      simpl; apply in_or_app; right; left; reflexivity.
  - intros _. simpl. apply in_or_app; right; left; reflexivity.
Qed.

Lemma ufi_update_settled p w :
  settled decide (Fs.disk w p) ->
  fst (UpdateFeatureImports.update_file_with table p w) = 0.
Proof.
  unfold settled, decide, ufi_decide, UpdateFeatureImports.update_file_with,
    Fs.read, Fs.write.
  destruct (Fs.data (Fs.disk w p)) as [c|]; auto.
  destruct (UpdateFeatureImports.run_table table c) as [c' m].
  destruct (chars_eqb c' c); auto. intros [->|H]; [reflexivity|discriminate].
Qed.

Lemma ufi_loop_disk files : forall n t w q,
  Fs.disk (snd (UpdateFeatureImports.main_loop table files n t w)) q
  = effects decide files (Fs.disk w) q.
Proof.
  induction files as [|p files IH]; intros n t w q; simpl; auto.
  destruct (UpdateFeatureImports.update_file_with table p w) as [b w'] eqn:E.
  assert (H : forall q, Fs.disk w' q = effect decide p (Fs.disk w) q).
  { intros q'. rewrite <- ufi_update_disk, E. reflexivity. }
  destruct (0 <? b); rewrite IH; apply effects_ext; auto.
Qed.

Lemma ufi_loop_console files : forall n t w l,
  In l (Fs.console w) ->
  In l (Fs.console (snd (UpdateFeatureImports.main_loop table files n t w))).
Proof.
  induction files as [|p files IH]; intros n t w l H; simpl; auto.
  destruct (UpdateFeatureImports.update_file_with table p w) as [b w'] eqn:E.
  assert (H' : In l (Fs.console w')).
  { replace w' with (snd (UpdateFeatureImports.update_file_with table p w))
      by (rewrite E; reflexivity).
    apply ufi_update_console; auto. }
  destruct (0 <? b); apply IH; auto. simpl. apply in_or_app; auto.
Qed.

Lemma ufi_loop_error files : forall n t w p,
  NoDup files -> In p files -> fails_on decide (Fs.disk w p) ->
  In (Fs.ErrorLine (Some p))
     (Fs.console (snd (UpdateFeatureImports.main_loop table files n t w))).
Proof.
  induction files as [|q files IH]; intros n t w p ND I F; [destruct I|].
  inversion ND as [|? ? Hq ND']; subst. simpl.
  destruct (UpdateFeatureImports.update_file_with table q w) as [b w'] eqn:E.
  assert (Ew : w' = snd (UpdateFeatureImports.update_file_with table q w))
    by (rewrite E; reflexivity).
  destruct I as [->|I].
  - assert (H : In (Fs.ErrorLine (Some p)) (Fs.console w')).
    { rewrite Ew. apply ufi_update_error; auto. }
    destruct (0 <? b); apply ufi_loop_console; auto. simpl. apply in_or_app; auto.
  - assert (D : Fs.disk w' p = Fs.disk w p).
    { rewrite Ew, ufi_update_disk. apply effect_other. intros ->. contradiction. }
    destruct (0 <? b); apply IH; auto; simpl; rewrite D; auto.
Qed.

Lemma ufi_loop_settled files : forall n t w,
  (forall p, In p files -> settled decide (Fs.disk w p)) ->
  fst (UpdateFeatureImports.main_loop table files n t w) = (n, t)
  /\ forall q, Fs.disk (snd (UpdateFeatureImports.main_loop table files n t w)) q
               = Fs.disk w q.
Proof.
  induction files as [|p files IH]; intros n t w H; simpl; auto.
  pose proof (ufi_update_settled p w (H p (or_introl eq_refl))) as Hb.
  assert (Hd : forall q, Fs.disk (snd (UpdateFeatureImports.update_file_with table p w)) q
                         = Fs.disk w q).
  { intros q. rewrite ufi_update_disk. unfold effect.
    destruct (String.eqb_spec q p); subst; auto.
    apply settled_fixed. apply H. left; reflexivity. }
  destruct (UpdateFeatureImports.update_file_with table p w) as [b w']. simpl in Hb, Hd.
  subst b. simpl. destruct (IH n t w') as [IH1 IH2].
  - intros q I. rewrite Hd. apply H. right; auto.
  - split; auto. intros q. rewrite IH2. apply Hd.
Qed.

End UpdateFeatureImportsFiles.

(** On a well-formed table, what a run writes calls for no further
    write, even when only a part of it reached the file. *)
Lemma all_clean_prefix steps x y : all_clean steps (x ++ y) -> all_clean steps x.
Proof. intros H st I. eapply clean_prefix. apply (H st I). Qed.

Lemma ui_decided_once table :
  table_ok table = true ->
  forall c c', ui_decide table c = Some c' ->
  forall kept, ui_decide table (firstn kept c') = None.
Proof.
  intros Hok c c' H kept. unfold ui_decide in H.
  pose proof (ui_content table c) as Hc.
  destruct (UpdateImports.update_content table c) as [c1 m]. simpl in Hc.
  destruct m; [|discriminate]. inversion H; subst c'. clear H.
  assert (Hcl : all_clean (steps4 table) (firstn kept c1)).
  { apply all_clean_prefix with (y := skipn kept c1). rewrite firstn_skipn, Hc.
    apply run_all_clean. apply steps4_ok. exact Hok. }
  unfold ui_decide, UpdateImports.update_content.
  rewrite ui_fold_clean by exact Hcl. reflexivity.
Qed.

Lemma ufi_decided_once table :
  table_ok table = true ->
  forall c c', ufi_decide table c = Some c' ->
  forall kept, ufi_decide table (firstn kept c') = None.
Proof.
  intros Hok c c' H kept. unfold ufi_decide in H.
  pose proof (ufi_content table c) as Hc.
  destruct (UpdateFeatureImports.run_table table c) as [c1 m]. simpl in Hc.
  destruct (chars_eqb c1 c); [discriminate|]. inversion H; subst c'. clear H.
  assert (Hcl : all_clean (steps3 table) (firstn kept c1)).
  { apply all_clean_prefix with (y := skipn kept c1). rewrite firstn_skipn, Hc.
    apply run_all_clean. apply steps3_ok. exact Hok. }
  unfold ufi_decide, UpdateFeatureImports.run_table.
  rewrite ufi_fold_clean by exact Hcl. rewrite chars_eqb_refl. reflexivity.
Qed.

(** The whole of [main]. *)
Lemma ui_main_fst table files w :
  fst (UpdateImports.main_with table files w)
  = fst (UpdateImports.main_loop table files 0 w).
Proof.
  unfold UpdateImports.main_with.
  destruct (UpdateImports.main_loop table files 0 w); reflexivity.
Qed.

Lemma ui_main_disk table files w q :
  Fs.disk (snd (UpdateImports.main_with table files w)) q
  = effects (ui_decide table) files (Fs.disk w) q.
Proof.
  rewrite <- (ui_loop_disk table files 0 w q). unfold UpdateImports.main_with.
  destruct (UpdateImports.main_loop table files 0 w); reflexivity.
Qed.

Lemma ui_main_console table files w l :
  In l (Fs.console (snd (UpdateImports.main_loop table files 0 w))) ->
  In l (Fs.console (snd (UpdateImports.main_with table files w))).
Proof.
  unfold UpdateImports.main_with.
  destruct (UpdateImports.main_loop table files 0 w). simpl.
  intros H. repeat (apply in_or_app; left). exact H.
Qed.

Lemma ufi_main_fst table files w :
  fst (UpdateFeatureImports.main_with table files w)
  = fst (UpdateFeatureImports.main_loop table files 0 0 w).
Proof.
  unfold UpdateFeatureImports.main_with.
  destruct (UpdateFeatureImports.main_loop table files 0 0 w) as [[? ?] ?]; reflexivity.
Qed.

Lemma ufi_main_disk table files w q :
  Fs.disk (snd (UpdateFeatureImports.main_with table files w)) q
  = effects (ufi_decide table) files (Fs.disk w) q.
Proof.
  rewrite <- (ufi_loop_disk table files 0 0 w q). unfold UpdateFeatureImports.main_with.
  destruct (UpdateFeatureImports.main_loop table files 0 0 w) as [[? ?] ?]; reflexivity.
Qed.

Lemma ufi_main_console table files w l :
  In l (Fs.console (snd (UpdateFeatureImports.main_loop table files 0 0 w))) ->
  In l (Fs.console (snd (UpdateFeatureImports.main_with table files w))).
Proof.
  unfold UpdateFeatureImports.main_with.
  destruct (UpdateFeatureImports.main_loop table files 0 0 w) as [[? ?] ?]. simpl.
  intros H. apply in_or_app; auto.
Qed.

(** ** The tables of the repository *)

(** The two tables are well formed. *)
Lemma renames_ok : table_ok UpdateImports.RENAMES = true.
Proof. vm_compute. reflexivity. Qed.

Lemma path_updates_ok : table_ok UpdateFeatureImports.PATH_UPDATES = true.
Proof. vm_compute. reflexivity. Qed.


(** ** Every occurrence is rewritten once *)

Section Once.

Lemma steps_ok_tail st steps : steps_ok (st :: steps) -> steps_ok steps.
Proof.
  intros [H1 H2]. split.
  - intros s I. apply H1. right; auto.
  - intros s s' I I'. apply H2; right; auto.
Qed.

Lemma occurrences_preserved st steps c :
  steps_ok (st :: steps) -> ~ In (step_form st) (map step_form steps) ->
  occurrences steps (apply_step c st) = occurrences steps c.
Proof.
  intros [Hp Hd] Hn. unfold occurrences. f_equal.
  apply map_ext_in. intros st' I.
  destruct st as [[[k r] old] new]. destruct st' as [[[k' r'] old'] new'] eqn:Est.
  unfold apply_step. simpl.
  destruct (Hp (k, r, old, new) (or_introl eq_refl)) as [Po Pn].
  destruct (Hp (k', r', old', new') (or_intror I)) as [Po' _].
  apply count_preserved; [exact Po|exact Pn|exact Po'| |].
  - apply (Hd (k, r, old, new) (k', r', old', new')); [left; auto|right; auto].
  - intros E. apply Hn. apply in_map_iff. exists (k', r', old', new').
    split; [simpl; congruence|exact I].
Qed.

(** The passes of a run make as many replacements as the input holds
    occurrences. *)
Lemma replacements_occurrences steps : forall c,
  steps_ok steps -> NoDup (map step_form steps) ->
  replacements steps c = occurrences steps c.
Proof.
  induction steps as [|st steps IH]; intros c Hok ND; [reflexivity|].
  simpl in ND. inversion ND as [|? ? Hn ND']; subst.
  simpl. rewrite IH; auto.
  - rewrite occurrences_preserved; auto.
  - eapply steps_ok_tail; eauto.
Qed.

Lemma keys_distinct_NoDup table :
  keys_distinct table = true -> NoDup (map fst table).
Proof.
  induction table as [|e table IH]; simpl; intros H; constructor.
  - apply andb_true_iff in H as [H _]. apply negb_true_iff in H.
    intros I. apply in_map_iff in I as (e' & E & I).
    assert (X : existsb (fun e'0 => (fst e =? fst e'0)%string) table = true).
    { apply existsb_exists. exists e'. split; auto. apply String.eqb_eq. auto. }
    congruence.
  - apply andb_true_iff in H as [_ H]. auto.
Qed.

Lemma forms_distinct (f : string * string -> list step) table :
  (forall e, NoDup (map step_form (f e))) ->
  (forall e st, In st (f e) -> step_old st = cs (fst e)) ->
  NoDup (map fst table) -> NoDup (map step_form (flat_map f table)).
Proof.
  intros Hf Ho. induction table as [|e table IH]; intros ND; simpl; [constructor|].
  inversion ND as [|? ? Hn ND']; subst.
  rewrite map_app. apply NoDup_app; auto.
  intros x I1 I2.
  apply in_map_iff in I1 as (st & <- & I1).
  apply in_map_iff in I2 as (st' & E & I2).
  apply in_flat_map in I2 as (e' & Ie' & I2).
  apply Hn. apply in_map_iff. exists e'. split; auto.
  apply Ho in I1. apply Ho in I2.
  apply cs_inj. rewrite <- I1, <- I2.
  destruct st as [[[? ?] ?] ?], st' as [[[? ?] ?] ?]. simpl in *. congruence.
Qed.

Lemma steps4_distinct table :
  keys_distinct table = true -> NoDup (map step_form (steps4 table)).
Proof.
  intros H. apply forms_distinct.
  - intros e. simpl. repeat constructor; simpl; intuition discriminate.
  - intros e st I. simpl in I. destruct I as [<-|[<-|[<-|[<-|[]]]]]; reflexivity.
  - apply keys_distinct_NoDup; auto.
Qed.

Lemma steps3_distinct table :
  keys_distinct table = true -> NoDup (map step_form (steps3 table)).
Proof.
  intros H. apply forms_distinct.
  - intros e. simpl. repeat constructor; simpl; intuition discriminate.
  - intros e st I. simpl in I. destruct I as [<-|[<-|[<-|[]]]]; reflexivity.
  - apply keys_distinct_NoDup; auto.
Qed.

End Once.

(** ** The count of update-feature-imports.py *)

Section Fired.

Lemma changed_le_1 c st : changed c st <= 1.
Proof. unfold changed. destruct (chars_eqb _ _); lia. Qed.

Lemma fired_count_le steps : forall c, fired_count steps c <= length steps.
Proof.
  induction steps as [|st steps IH]; intros c; simpl; auto.
  pose proof (changed_le_1 c st). specialize (IH (apply_step c st)). lia.
Qed.

Lemma fired_count_app s1 s2 c :
  fired_count (s1 ++ s2) c = fired_count s1 c + fired_count s2 (apply_steps s1 c).
Proof.
  revert c. induction s1 as [|st s1 IH]; intros c; simpl; auto.
  rewrite IH. lia.
Qed.

Lemma ufi_try_form k r old new c n :
  UpdateFeatureImports.try_pattern (form k r old) [TGroup 1; TLit new; TGroup 2] (c, n)
  = (apply_step c (k, r, old, new), n + changed c (k, r, old, new)).
Proof.
  unfold UpdateFeatureImports.try_pattern, changed, apply_step. simpl.
  destruct (chars_eqb _ _) eqn:E.
  - apply chars_eqb_eq in E. rewrite E, Nat.add_0_r. reflexivity.
  - rewrite Nat.add_1_r. reflexivity.
Qed.

Lemma ufi_pattern1 o : UpdateFeatureImports.pattern1 o = form KFrom RAlias o.
Proof. reflexivity. Qed.
Lemma ufi_pattern2 o : UpdateFeatureImports.pattern2 o = form KFrom RDots o.
Proof. reflexivity. Qed.
Lemma ufi_pattern3 o : UpdateFeatureImports.pattern3 o = form KImport RAlias o.
Proof. reflexivity. Qed.

Lemma ufi_entry_snd e c n :
  snd (UpdateFeatureImports.path_entry (c, n) e)
  = n + fired_count (steps3 [e]) c.
Proof.
  unfold UpdateFeatureImports.path_entry, UpdateFeatureImports.repl.
  rewrite ufi_pattern1, ufi_pattern2, ufi_pattern3.
  rewrite !ufi_try_form. simpl. lia.
Qed.

Lemma ufi_fold_snd table : forall c n,
  snd (fold_left UpdateFeatureImports.path_entry table (c, n))
  = n + fired_count (steps3 table) c.
Proof.
  induction table as [|e table IH]; intros c n; simpl fold_left.
  - simpl. lia.
  - destruct (UpdateFeatureImports.path_entry (c, n) e) as [c1 n1] eqn:E.
    pose proof (f_equal fst E) as F. rewrite ufi_entry_fst in F.
    pose proof (f_equal snd E) as S. rewrite ufi_entry_snd in S.
    simpl fst in F. simpl snd in S. subst c1 n1. rewrite IH.
    change (steps3 (e :: table)) with (steps3 [e] ++ steps3 table).
    rewrite fired_count_app. lia.
Qed.

(** A pass over longer new names never shortens the content, and
    lengthens it when it changes it. *)
Lemma step_grows st c :
  plain (step_old st) = true -> plain (step_new st) = true ->
  length (step_old st) < length (step_new st) ->
  length c + changed c st <= length (apply_step c st).
Proof.
  destruct st as [[[k r] old] new]. simpl. intros Po Pn L.
  pose proof (sub_length k r old new Po c) as H.
  unfold changed, apply_step. simpl.
  destruct (chars_eqb _ _) eqn:E.
  - apply chars_eqb_eq in E. rewrite E. lia.
  - destruct (count_matches (form k r old) c) eqn:C.
    + apply count_zero_clean in C.
      rewrite (re_sub_clean _ [TGroup 1; TLit new; TGroup 2] c C) in E.
      rewrite chars_eqb_refl in E. discriminate.
    + nia.
Qed.

Lemma run_grows steps : forall c,
  steps_grow steps ->
  length c + fired_count steps c <= length (apply_steps steps c).
Proof.
  induction steps as [|st steps IH]; intros c H; simpl; [lia|].
  destruct (H st (or_introl eq_refl)) as (Po & Pn & L).
  pose proof (step_grows st c Po Pn L).
  assert (H' : steps_grow steps) by (intros s I; apply H; right; auto).
  specialize (IH (apply_step c st) H'). lia.
Qed.

Lemma steps3_grow table :
  plain_table table = true -> lengthening table = true -> steps_grow (steps3 table).
Proof.
  unfold plain_table, lengthening. intros Hp Hl st I.
  rewrite forallb_forall in Hp, Hl.
  destruct (in_steps3 table st I) as (e & Ie & -> & ->).
  specialize (Hp e Ie). specialize (Hl e Ie).
  apply andb_true_iff in Hp as [Po Pn]. unfold plain_new in Pn.
  apply andb_true_iff in Pn as [Pn _]. repeat split; auto.
  apply Nat.ltb_lt in Hl. exact Hl.
Qed.

(** When new names are longer, the count [update_file] returns is the
    number of passes that changed the content. *)
Lemma ufi_count_fired table c :
  plain_table table = true -> lengthening table = true ->
  UpdateFeatureImports.update_count table c = fired_count (steps3 table) c.
Proof.
  intros Hp Hl. unfold UpdateFeatureImports.update_count.
  pose proof (ufi_content table c) as F.
  pose proof (ufi_fold_snd table c 0) as S.
  unfold UpdateFeatureImports.run_table in *.
  destruct (fold_left UpdateFeatureImports.path_entry table (c, 0)) as [c' n].
  simpl in F, S. subst.
  pose proof (run_grows (steps3 table) c (steps3_grow table Hp Hl)) as G.
  destruct (chars_eqb _ _) eqn:E; auto.
  apply chars_eqb_eq in E. rewrite E in G. lia.
Qed.

End Fired.

(** ** Two rules that match one specifier *)

Section FirstRule.

Lemma form_complete_gen k r old X h u q rest :
  name_matchb old X = true -> kw_text k h -> root_text r u -> is_quote q = true ->
  matches_at (form k r old) ((h ++ u ++ X ++ [q]) ++ rest).
Proof.
  intros Hm Hk Hr Hq.
  destruct (kw_fit k h Hk) as (pk & Fk & <-).
  destruct (root_fit r u Hr) as (pr & Fr & <-).
  unfold matches_at, form, two_groups; simpl items.
  replace (concat pk ++ concat pr ++ X ++ [q])
    with (concat ((pk ++ pr) ++ map (fun a => [a]) X ++ [[q]])).
  - apply match_complete.
    apply Forall2_app; [apply Forall2_app; assumption|].
    apply Forall2_app; [apply name_fit; assumption|].
    constructor; [|constructor]. unfold fits; simpl; auto.
  - rewrite !concat_app, concat_singletons. simpl. rewrite <- app_assoc. reflexivity.
Qed.

Lemma quote_not_space q : is_quote q = true -> is_space q = false.
Proof.
  intros Hq. destruct q as [[] [] [] [] [] [] [] []]; try discriminate Hq; reflexivity.
Qed.

(** The keyword part and the root part of a text are determined. *)
Lemma kw_text_unique k k' h h' A A' :
  kw_text k h -> kw_text k' h' -> h ++ A = h' ++ A' -> k = k' /\ h = h' /\ A = A'.
Proof.
  intros [w q Hne Hw Hq | q Hq] [w' q' Hne' Hw' Hq' | q' Hq'] E;
    repeat (rewrite <- app_assoc in E; simpl in E); try discriminate.
  - inversion E as [E'].
    apply (split_unique is_space) in E' as (-> & -> & ->); auto using quote_not_space.
  - inversion E; subst. auto.
Qed.

Lemma root_text_unique r r' u u' A A' :
  root_text r u -> root_text r' u' -> u ++ A = u' ++ A' -> r = r' /\ u = u' /\ A = A'.
Proof.
  intros [|d Hne Hd] [|d' Hne' Hd'] E.
  - apply app_inv_head in E. auto.
  - destruct d' as [|a d']; [contradiction|]. simpl in Hd'.
    apply andb_true_iff in Hd' as [Ha _]. apply Ascii.eqb_eq in Ha; subst.
    simpl in E. discriminate.
  - destruct d as [|a d]; [contradiction|]. simpl in Hd.
    apply andb_true_iff in Hd as [Ha _]. apply Ascii.eqb_eq in Ha; subst.
    simpl in E. discriminate.
  - rewrite <- !app_assoc in E. simpl in E.
    apply (split_unique (fun a => Ascii.eqb a ".")) in E as (-> & _ & ->); auto.
Qed.

Lemma match_kw_start k r old y ps rest :
  match_items (items (form k r old)) y = Some (ps, rest) -> kw_startb y = true.
Proof.
  intros M. destruct (form_sound_gen k r old y ps rest M)
    as (h & u & X & q & Hk & _ & _ & _ & _ & -> & _).
  rewrite <- app_assoc. apply kw_text_start with (k := k). exact Hk.
Qed.

Lemma plain_no_quote N : plain N = true ->
  forallb (fun a => negb (is_quote a)) N = true.
Proof. intros H. apply safe_no_quote, plain_safe, H. Qed.

(** In a text that is one occurrence of a plain name, a form matches
    only at the start, and only if it is the occurrence's form and its
    name matches the occurrence's. *)
Lemma head_match_same k r N h u q k' r' o ps rest :
  plain N = true -> kw_text k h -> root_text r u -> is_quote q = true ->
  match_items (items (form k' r' o)) (h ++ u ++ N ++ [q]) = Some (ps, rest) ->
  k' = k /\ r' = r /\ name_matchb o N = true /\ rest = []
  /\ forall new, expand (form k' r' o) [TGroup 1; TLit new; TGroup 2] ps
                 = h ++ u ++ new ++ [q].
Proof.
  intros Hp Hk Hr Hq M.
  destruct (form_sound_gen k' r' o _ ps rest M)
    as (h' & u' & X & q' & Hk' & Hr' & Hq' & Hm & _ & E & He).
  rewrite <- !app_assoc in E.
  destruct (kw_text_unique _ _ _ _ _ _ Hk Hk' E) as (<- & <- & E1).
  destruct (root_text_unique _ _ _ _ _ _ Hr Hr' E1) as (<- & <- & E2).
  assert (EX : X = N /\ rest = []).
  { apply app_eq_app in E2 as [l [[E3 E4]|[E3 E4]]].
    - destruct l as [|b l].
      + rewrite app_nil_r in E3. simpl in E4. inversion E4. auto.
      + exfalso. pose proof (plain_no_quote N Hp) as Hn. rewrite E3 in Hn.
        simpl in E4. inversion E4; subst b.
        rewrite forallb_app in Hn. simpl in Hn. rewrite Hq' in Hn.
        simpl in Hn. rewrite andb_false_r in Hn. discriminate.
    - destruct l as [|b l].
      + rewrite app_nil_r in E3. simpl in E4. inversion E4. auto.
      + exfalso. apply (f_equal (@length _)) in E4. simpl in E4.
        rewrite length_app in E4. simpl in E4. lia. }
  destruct EX as [-> ->]. apply app_inv_head in E2. inversion E2; subst q'.
  repeat split; auto.
Qed.

Lemma occurrence_clean k r N h u q k' r' o :
  plain N = true -> kw_text k h -> root_text r u -> is_quote q = true ->
  (k', r') <> (k, r) \/ name_matchb o N = false ->
  clean (form k' r' o) (h ++ u ++ N ++ [q]).
Proof.
  intros Hp Hk Hr Hq Hd x y E.
  destruct (match_items (items (form k' r' o)) y) as [[ps rest]|] eqn:M; auto.
  exfalso. destruct x as [|a x].
  - simpl in E. subst y.
    destruct (head_match_same k r N h u q k' r' o ps rest Hp Hk Hr Hq M)
      as (-> & -> & Hm & _).
    destruct Hd as [Hd|Hd]; [apply Hd; reflexivity|congruence].
  - destruct y as [|b y]; [rewrite form_nil in M; discriminate|].
    pose proof (match_kw_start _ _ _ _ _ _ M) as Hst.
    assert (O : occurrence k r N (a :: x ++ b :: y)).
    { exists h, u, q. repeat split; auto. }
    pose proof (occurrence_quiet k r N a (x ++ b :: y) [] Hp O) as Hq1.
    rewrite <- (app_nil_r (b :: y)) in Hst.
    rewrite (Hq1 x (b :: y)) in Hst; [discriminate|reflexivity|discriminate].
Qed.

End FirstRule.

(** The old names of each table are pairwise different, and every new
    path of PATH_UPDATES is longer than its old path. *)
Lemma renames_distinct : keys_distinct UpdateImports.RENAMES = true.
Proof. vm_compute. reflexivity. Qed.


Lemma path_updates_plain : plain_table UpdateFeatureImports.PATH_UPDATES = true.
Proof. vm_compute. reflexivity. Qed.

Lemma path_updates_lengthening : lengthening UpdateFeatureImports.PATH_UPDATES = true.
Proof. vm_compute. reflexivity. Qed.


(** ** The scripts on small files *)

(** Double quotes are kept, and the space after [from] may be a line
    break. *)
Example double_quotes_kept :
  UpdateImports.update_content UpdateImports.RENAMES
    (cs "export * from" ++ ["010"; "034"]%char ++ cs "../Chat" ++ ["034"]%char)
  = (cs "export * from" ++ ["010"; "034"]%char ++ cs "../in-graph-chat" ++ ["034"]%char,
     true).
Proof. vm_compute. reflexivity. Qed.

(** A longer name that ends with an old name is not an occurrence. *)
Example longer_name_untouched :
  UpdateImports.update_content UpdateImports.RENAMES
    (cs "import { LiveChat } from '@/components/LiveChat'")
  = (cs "import { LiveChat } from '@/components/LiveChat'", false).
Proof. vm_compute. reflexivity. Qed.

(** Dynamic imports: update-imports.py rewrites alias and relative
    paths, update-feature-imports.py alias paths only. *)
Example dynamic_imports :
  UpdateImports.update_content UpdateImports.RENAMES
    (cs "const a = import('@/components/AIChat'); const b = import('./AIChat')")
  = (cs "const a = import('@/components/ai-chat'); const b = import('./ai-chat')", true)
  /\ UpdateFeatureImports.run_table UpdateFeatureImports.PATH_UPDATES
       (cs "const a = import('@/components/ai-chat'); const b = import('./ai-chat')")
     = (cs "const a = import('@/components/ai-assistant/ai-chat'); const b = import('./ai-chat')",
        1).
Proof. split; vm_compute; reflexivity. Qed.

(** The default-import pattern of fix-moved-imports.py. *)
Example default_import_moved :
  FixMovedImports.update_content FixMovedImports.IMPORT_FIXES
    (cs "import Providers from '@/components/providers'")
  = cs "import Providers from '@/components/layout/providers'".
Proof. vm_compute. reflexivity. Qed.
(** ** A reference and the text around it *)

Lemma kw_text_cons k h : kw_text k h -> exists a h', h = a :: h'.
Proof. intros [w q _ _ _|q _]; simpl; eauto. Qed.

Section Around.

Variables (k : keyword) (r : root) (h u : chars) (q : ascii).
Hypothesis Hk : kw_text k h.
Hypothesis Hr : root_text r u.
Hypothesis Hq : is_quote q = true.

Lemma name_matchb_firstn : forall o X n,
  name_matchb o X = true -> name_matchb (firstn n o) (firstn n X) = true.
Proof.
  induction o as [|a o IH]; intros [|b X] n H; simpl in H; try discriminate.
  - destruct n; reflexivity.
  - apply andb_true_iff in H as [H1 H2].
    destruct n as [|n]; [reflexivity|]. simpl. rewrite H1. simpl. apply IH. exact H2.
Qed.

Lemma firstn_succ_app (N : chars) a l :
  firstn (S (length N)) (N ++ a :: l) = N ++ [a].
Proof.
  induction N as [|b N IH]; [reflexivity|].
  change (firstn (S (length (b :: N))) ((b :: N) ++ a :: l))
    with (b :: firstn (S (length N)) (N ++ a :: l)).
  rewrite IH. reflexivity.
Qed.

Lemma reaches_short o N : length o <= length N -> reaches o N q = false.
Proof.
  intros L. unfold reaches.
  destruct (name_matchb _ _) eqn:E; auto.
  apply name_match_length in E. rewrite length_app, length_firstn in E.
  cbn [length] in E. lia.
Qed.

Lemma plain_name_match : forall o N,
  plain o = true -> name_matchb o N = true -> N = o.
Proof.
  induction o as [|a o IH]; intros [|b N] P H; simpl in H; try discriminate; auto.
  simpl in P. apply andb_true_iff in P as [Pa Po].
  apply andb_true_iff in H as [H1 H2].
  rewrite (plain_char_not_dot a Pa) in H1. simpl in H1.
  apply Ascii.eqb_eq in H1. subst b. f_equal. apply IH; auto.
Qed.

Lemma plain_reaches o N : plain o = true -> reaches o N q = false.
Proof.
  intros P. unfold reaches.
  destruct (name_matchb _ _) eqn:E; auto.
  assert (Pf : plain (firstn (S (length N)) o) = true).
  { unfold plain in *. rewrite <- (firstn_skipn (S (length N)) o) in P.
    rewrite forallb_app in P. apply andb_true_iff in P as [P _]. exact P. }
  apply (plain_name_match _ _ Pf) in E.
  rewrite <- E in Pf. unfold plain in Pf. rewrite forallb_app in Pf.
  apply andb_true_iff in Pf as [_ Pq]. simpl in Pq.
  apply andb_true_iff in Pq as [Pq _].
  pose proof (plain_no_quote [q]) as NQ. unfold plain in NQ. simpl in NQ.
  rewrite Pq, Hq in NQ. simpl in NQ. discriminate NQ. reflexivity.
Qed.

Lemma plain_hits o N :
  plain o = true -> o <> N -> hits o N q = false.
Proof.
  intros P D. unfold hits. rewrite (plain_reaches o N P), orb_false_r.
  destruct (name_matchb o N) eqn:E; auto.
  apply (plain_name_match _ _ P) in E. congruence.
Qed.

(** A match that starts where the reference starts is a match of the
    reference's form; it takes the reference and nothing more, or its
    name goes on beyond the closing quote. *)
Lemma at_reference k' r' o N rest ps rest' :
  plain N = true ->
  match_items (items (form k' r' o)) ((h ++ u ++ N ++ [q]) ++ rest)
  = Some (ps, rest') ->
  k' = k /\ r' = r
  /\ ((name_matchb o N = true /\ rest' = rest
       /\ forall new, expand (form k' r' o) [TGroup 1; TLit new; TGroup 2] ps
                      = h ++ u ++ new ++ [q])
      \/ reaches o N q = true).
Proof.
  intros HN M.
  destruct (form_sound_gen _ _ _ _ _ _ M)
    as (h' & u' & X' & q' & Hk' & Hr' & Hq' & Hm & Hc & Hs & He).
  rewrite <- !app_assoc in Hs.
  destruct (kw_text_unique _ _ _ _ _ _ Hk Hk' Hs) as (<- & <- & Hs1).
  destruct (root_text_unique _ _ _ _ _ _ Hr Hr' Hs1) as (<- & <- & Hs2).
  split; [reflexivity|]. split; [reflexivity|].
  destruct (app_eq_app _ _ _ _ Hs2) as [l [[E1 E2]|[E1 E2]]].
  - destruct l as [|a l].
    + rewrite app_nil_r in E1. subst X'. simpl in E2. injection E2 as <- <-.
      left. auto.
    + exfalso. simpl in E2. injection E2 as <- E2.
      pose proof (plain_no_quote N HN) as NQ. rewrite E1 in NQ.
      rewrite forallb_app in NQ. apply andb_true_iff in NQ as [_ NQ].
      simpl in NQ. rewrite Hq' in NQ. discriminate.
  - destruct l as [|a l].
    + rewrite app_nil_r in E1. subst X'. simpl in E2. injection E2 as <- <-.
      left. auto.
    + right. simpl in E2. injection E2 as <- E2. unfold reaches.
      pose proof (name_matchb_firstn _ _ (S (length N)) Hm) as F.
      rewrite E1 in F.
      rewrite firstn_succ_app in F. exact F.
Qed.

Lemma ref_nonempty N : h ++ u ++ N ++ [q] <> [].
Proof.
  destruct (kw_text_cons k h Hk) as (a & h' & ->). discriminate.
Qed.

(** The pass of a rule whose name matches rewrites the reference, and
    goes on behind it. *)
Lemma pass_ref_hit o new N rest :
  plain N = true -> name_matchb o N = true ->
  re_sub (form k r o) [TGroup 1; TLit new; TGroup 2] ((h ++ u ++ N ++ [q]) ++ rest)
  = (h ++ u ++ new ++ [q])
    ++ re_sub (form k r o) [TGroup 1; TLit new; TGroup 2] rest.
Proof.
  intros HN Hm.
  pose proof (form_complete_gen k r o N h u q rest Hm Hk Hr Hq) as MC.
  unfold matches_at in MC.
  destruct (match_items (items (form k r o)) ((h ++ u ++ N ++ [q]) ++ rest))
    as [[ps rest']|] eqn:M; [|contradiction MC; reflexivity].
  destruct (at_reference _ _ _ _ _ _ _ HN M) as (_ & _ & [(_ & -> & He)|R]).
  - rewrite (re_sub_hit _ _ _ _ _ M), He; [reflexivity|].
    destruct (form_sound_gen _ _ _ _ _ _ M)
      as (h' & u' & X' & q' & Hk' & _ & _ & _ & Hc & _).
    rewrite Hc. destruct (kw_text_cons _ _ Hk') as (a & h'' & ->). discriminate.
  - rewrite reaches_short in R; [discriminate|].
    rewrite (name_match_length _ _ Hm). lia.
Qed.

(** No match starts inside the reference. *)
Lemma inside_ref k' r' o N rest a x y :
  plain N = true -> h ++ u ++ N ++ [q] = a :: x ++ y -> y <> [] ->
  match_items (items (form k' r' o)) (y ++ rest) = None.
Proof.
  intros HN E Hy.
  destruct (match_items _ (y ++ rest)) as [[ps rest']|] eqn:M; auto.
  pose proof (match_kw_start _ _ _ _ _ _ M) as S.
  assert (O : occurrence k r N (a :: x ++ y)).
  { exists h, u, q. rewrite E. auto. }
  pose proof (occurrence_quiet k r N a (x ++ y) rest HN O x y eq_refl Hy) as Q.
  congruence.
Qed.

(** The pass of another form, or of a rule that does not match the
    name, copies the reference and goes on behind it. *)
Lemma pass_ref_keep k' r' o new N rest :
  plain N = true ->
  (k', r') <> (k, r) \/ hits o N q = false ->
  re_sub (form k' r' o) [TGroup 1; TLit new; TGroup 2] ((h ++ u ++ N ++ [q]) ++ rest)
  = (h ++ u ++ N ++ [q])
    ++ re_sub (form k' r' o) [TGroup 1; TLit new; TGroup 2] rest.
Proof.
  intros HN Hd. apply sub_copy. intros x y E Hy.
  destruct x as [|a x].
  - simpl in E. subst y.
    destruct (match_items _ _) as [[ps rest']|] eqn:M; auto. exfalso.
    destruct (at_reference _ _ _ _ _ _ _ HN M) as (-> & -> & H).
    destruct Hd as [Hd|Hd]; [apply Hd; reflexivity|].
    unfold hits in Hd. apply orb_false_iff in Hd as [H1 H2].
    destruct H as [(H & _)|H]; congruence.
  - apply (inside_ref k' r' o N rest a x y HN E Hy).
Qed.

(** A text in which no pattern of the steps can start a match is
    copied by the run, whatever follows. *)
Lemma inert_copy st steps pre z :
  inert steps pre h -> In st steps ->
  re_sub (step_regex st) (step_template st) (pre ++ h ++ z)
  = pre ++ re_sub (step_regex st) (step_template st) (h ++ z).
Proof.
  intros I Hin. apply sub_copy. intros x y E Hy. apply (I st Hin x y z E Hy).
Qed.

Lemma keep_run_inert pre N : forall steps rest,
  plain N = true -> inert steps pre h ->
  (forall st, In st steps -> step_kr st <> (k, r) \/ hits (step_old st) N q = false) ->
  apply_steps steps (pre ++ (h ++ u ++ N ++ [q]) ++ rest)
  = pre ++ (h ++ u ++ N ++ [q]) ++ apply_steps steps rest.
Proof.
  induction steps as [|st steps IH]; intros rest HN I Hd; [reflexivity|].
  change (apply_steps (st :: steps) (pre ++ (h ++ u ++ N ++ [q]) ++ rest))
    with (apply_steps steps (apply_step (pre ++ (h ++ u ++ N ++ [q]) ++ rest) st)).
  change (apply_steps (st :: steps) rest)
    with (apply_steps steps (apply_step rest st)).
  assert (E : pre ++ (h ++ u ++ N ++ [q]) ++ rest
              = pre ++ h ++ (u ++ N ++ [q] ++ rest))
    by (rewrite <- !app_assoc; reflexivity).
  assert (E' : h ++ (u ++ N ++ [q] ++ rest) = (h ++ u ++ N ++ [q]) ++ rest)
    by (rewrite <- !app_assoc; reflexivity).
  unfold apply_step.
  rewrite E, (inert_copy st (st :: steps) pre _ I (or_introl eq_refl)), E'.
  destruct st as [[[k' r'] o] new].
  unfold step_regex, step_template.
  rewrite (pass_ref_keep k' r' o new N rest HN (Hd _ (or_introl eq_refl))).
  apply IH; auto.
  - intros st Hin. apply I. right. exact Hin.
  - intros st Hin. apply Hd. right. exact Hin.
Qed.

End Around.

Section Splitting.

Variables (k' : keyword) (r' : root) (o new : chars).
Hypothesis Ho : plain o = true.

Let K : regex := form k' r' o.
Let T : template := [TGroup 1; TLit new; TGroup 2].

(** A match of a plain name that begins before a keyword ends before
    it: the pass treats what stands before a keyword and what starts
    with it apart. *)
Lemma sub_split_plain : forall n pre s,
  length pre <= n -> kw_startb s = true ->
  re_sub K T (pre ++ s) = re_sub K T pre ++ re_sub K T s.
Proof.
  induction n as [|n IH]; intros pre s L S.
  - destruct pre; [|simpl in L; lia]. unfold K, T. rewrite sub_nil. reflexivity.
  - destruct pre as [|a p]; [unfold K, T; rewrite sub_nil; reflexivity|].
    simpl in L.
    destruct (match_items (items K) ((a :: p) ++ s)) as [[ps r0]|] eqn:M.
    + destruct (sub_hit_form k' r' o new Ho _ _ _ M)
        as (h1 & u1 & q1 & Hk1 & Hr1 & Hq1 & Es & Esub).
      fold K T in Esub. rewrite Esub.
      destruct (app_eq_app _ _ _ _ Es) as [l [[E1 E2]|[E1 E2]]].
      * (* the match lies before the keyword *)
        pose proof (form_complete k' r' o h1 u1 q1 l Ho Hk1 Hr1 Hq1) as MC.
        unfold matches_at in MC. fold K in MC. rewrite <- E1 in MC.
        destruct (match_items (items K) (a :: p)) as [[ps2 r2]|] eqn:M2;
          [|contradiction MC; reflexivity].
        destruct (sub_hit_form k' r' o new Ho _ _ _ M2)
          as (h2 & u2 & q2 & Hk2 & Hr2 & Hq2 & Es2 & Esub2).
        fold K T in Esub2. rewrite Esub2.
        rewrite E1 in Es2. rewrite <- !app_assoc in Es2.
        destruct (kw_text_unique _ _ _ _ _ _ Hk1 Hk2 Es2) as (_ & <- & Es3).
        destruct (root_text_unique _ _ _ _ _ _ Hr1 Hr2 Es3) as (_ & <- & Es4).
        apply app_inv_head in Es4. simpl in Es4. injection Es4 as <- <-.
        rewrite E2, <- (app_assoc (h1 ++ u1 ++ new ++ [q1])). apply f_equal.
        apply IH; auto.
        assert (L1 : length (a :: p) = length ((h1 ++ u1 ++ o ++ [q1]) ++ l))
          by (rewrite E1; reflexivity).
        destruct (kw_text_cons _ _ Hk1) as (b & h' & ->).
        rewrite length_app in L1. simpl in L1. lia.
      * (* the match would take the keyword in *)
        destruct l as [|b l].
        -- rewrite app_nil_r in E1. simpl in E2. subst r0.
           pose proof (form_complete k' r' o h1 u1 q1 [] Ho Hk1 Hr1 Hq1) as MC.
           unfold matches_at in MC. fold K in MC.
           rewrite app_nil_r, E1 in MC.
           destruct (match_items (items K) (a :: p)) as [[ps2 r2]|] eqn:M2;
             [|contradiction MC; reflexivity].
           destruct (sub_hit_form k' r' o new Ho _ _ _ M2)
             as (h2 & u2 & q2 & Hk2 & Hr2 & Hq2 & Es2 & Esub2).
           fold K T in Esub2. rewrite Esub2.
           rewrite <- E1 in Es2.
           assert (Es2' : (h1 ++ u1 ++ o ++ [q1]) ++ [] = (h2 ++ u2 ++ o ++ [q2]) ++ r2)
             by (rewrite app_nil_r; exact Es2).
           rewrite <- !app_assoc in Es2'.
           destruct (kw_text_unique _ _ _ _ _ _ Hk1 Hk2 Es2') as (_ & <- & Es3).
           destruct (root_text_unique _ _ _ _ _ _ Hr1 Hr2 Es3) as (_ & <- & Es4).
           apply app_inv_head in Es4. simpl in Es4. injection Es4 as <- <-.
           unfold K, T. rewrite sub_nil, app_nil_r. reflexivity.
        -- exfalso.
           assert (O : occurrence k' r' o (a :: p ++ b :: l)).
           { exists h1, u1, q1. rewrite E1. auto. }
           pose proof (occurrence_quiet k' r' o a (p ++ b :: l) r0 Ho O
                         p (b :: l) eq_refl ltac:(discriminate)) as Q.
           rewrite <- E2 in Q. congruence.
    + assert (M2 : match_items (items K) (a :: p) = None).
      { destruct (match_items (items K) (a :: p)) as [[ps2 r2]|] eqn:M2; auto.
        exfalso.
        pose proof (matches_at_prefix K _ _ _ (r2 ++ s) M2) as MP.
        destruct (match_sound _ _ _ _ M2) as [_ Es2].
        rewrite app_assoc, <- Es2 in MP. apply MP. exact M. }
      change ((a :: p) ++ s) with (a :: p ++ s) in *.
      rewrite (re_sub_miss K T a (p ++ s) M), (re_sub_miss K T a p M2).
      simpl. f_equal. apply IH; auto. lia.
Qed.

End Splitting.

Section AroundPlain.

Variables (k : keyword) (r : root) (h u : chars) (q : ascii).
Hypothesis Hk : kw_text k h.
Hypothesis Hr : root_text r u.
Hypothesis Hq : is_quote q = true.

(** On steps of plain names of which none rewrites the reference, the
    run treats the text before the reference, the reference and the
    text behind it apart. *)
Lemma keep_run_plain N : forall steps pre rest,
  plain N = true ->
  (forall st, In st steps ->
     plain (step_old st) = true
     /\ (step_kr st <> (k, r) \/ step_old st <> N)) ->
  apply_steps steps (pre ++ (h ++ u ++ N ++ [q]) ++ rest)
  = apply_steps steps pre ++ (h ++ u ++ N ++ [q]) ++ apply_steps steps rest.
Proof.
  induction steps as [|st steps IH]; intros pre rest HN Hd; [reflexivity|].
  change (apply_steps (st :: steps) (pre ++ (h ++ u ++ N ++ [q]) ++ rest))
    with (apply_steps steps (apply_step (pre ++ (h ++ u ++ N ++ [q]) ++ rest) st)).
  change (apply_steps (st :: steps) rest)
    with (apply_steps steps (apply_step rest st)).
  change (apply_steps (st :: steps) pre)
    with (apply_steps steps (apply_step pre st)).
  destruct (Hd st (or_introl eq_refl)) as [Po Hst].
  destruct st as [[[k' r'] o] new].
  unfold apply_step, step_regex, step_template. simpl in Po, Hst.
  rewrite (sub_split_plain k' r' o new Po (length pre) pre _ (le_n _)).
  - rewrite (pass_ref_keep k r h u q Hk Hr Hq k' r' o new N rest HN).
    + apply IH; auto. intros st Hin. apply Hd. right. exact Hin.
    + destruct Hst as [Hst|Hst]; [left; exact Hst|right].
      apply (plain_hits q Hq); auto.
  - rewrite <- !app_assoc. apply kw_text_start with (k := k). exact Hk.
Qed.

End AroundPlain.

Lemma inert_incl steps steps' pre h :
  incl steps' steps -> inert steps pre h -> inert steps' pre h.
Proof. intros I H st Hin. apply H. apply I. exact Hin. Qed.

(** The steps of a table, form by form. *)
Lemma steps4_of table : steps4 table = steps_of forms4 table.
Proof. reflexivity. Qed.

Lemma steps3_of table : steps3 table = steps_of forms3 table.
Proof. reflexivity. Qed.

Lemma steps_of_app forms t1 t2 :
  steps_of forms (t1 ++ t2) = steps_of forms t1 ++ steps_of forms t2.
Proof. unfold steps_of. apply flat_map_app. Qed.

Lemma in_steps_of forms table st :
  In st (steps_of forms table) ->
  exists e, In e table /\ In (step_kr st) forms
            /\ step_old st = cs (fst e) /\ step_new st = cs (snd e).
Proof.
  unfold steps_of. intros H. apply in_flat_map in H as (e & He & H).
  apply in_map_iff in H as ([k r] & <- & H). exists e. simpl. auto.
Qed.

Lemma plain_name_refl : forall o, plain o = true -> name_matchb o o = true.
Proof.
  induction o as [|a o IH]; intros P; [reflexivity|].
  simpl in P. apply andb_true_iff in P as [Pa Po]. simpl.
  rewrite (plain_char_not_dot a Pa). simpl. rewrite Ascii.eqb_refl. simpl. auto.
Qed.

Lemma forms4_distinct : NoDup forms4.
Proof.
  unfold forms4. repeat constructor; simpl; intuition discriminate.
Qed.

Lemma forms3_distinct : NoDup forms3.
Proof.
  unfold forms3. repeat constructor; simpl; intuition discriminate.
Qed.

Lemma in_forms4 k r : In (k, r) forms4.
Proof. destruct k, r; simpl; auto. Qed.

Lemma in_forms3 k r : (k, r) <> (KImport, RDots) -> In (k, r) forms3.
Proof.
  intros H. destruct k, r; simpl; auto; exfalso; apply H; reflexivity.
Qed.

(** The flag of update-imports.py. *)
Lemma ui_pattern1 o : UpdateImports.pattern1 o = form KFrom RAlias o.
Proof. reflexivity. Qed.
Lemma ui_pattern2 o : UpdateImports.pattern2 o = form KFrom RDots o.
Proof. reflexivity. Qed.
Lemma ui_pattern3 o : UpdateImports.pattern3 o = form KImport RAlias o.
Proof. reflexivity. Qed.
Lemma ui_pattern4 o : UpdateImports.pattern4 o = form KImport RDots o.
Proof. reflexivity. Qed.

Section Flag4.

Lemma ui_try_step k r o n c m :
  UpdateImports.try_pattern (form k r o) [TGroup 1; TLit n; TGroup 2] (c, m)
  = (apply_step c (k, r, o, n), re_search (form k r o) c || m).
Proof.
  unfold UpdateImports.try_pattern, apply_step, step_regex, step_template.
  destruct (re_search (form k r o) c) eqn:S; [reflexivity|].
  apply re_search_false in S. rewrite (re_sub_clean _ _ _ S). reflexivity.
Qed.

Lemma ui_entry_step e c m :
  UpdateImports.rename_entry (c, m) e
  = (apply_steps (steps4 [e]) c, searched (steps4 [e]) c || m).
Proof.
  unfold UpdateImports.rename_entry, UpdateImports.repl. cbv zeta.
  rewrite ui_pattern1, ui_pattern2, ui_pattern3, ui_pattern4.
  rewrite !ui_try_step. simpl. f_equal.
  repeat match goal with
         | |- context [re_search ?p ?x] =>
             let b := fresh "b" in generalize (re_search p x); intros b
         end.
  destruct b, b0, b1, b2, m; reflexivity.
Qed.

Lemma searched_app s1 : forall s2 c,
  searched (s1 ++ s2) c = searched s1 c || searched s2 (apply_steps s1 c).
Proof.
  induction s1 as [|st s1 IH]; intros s2 c; [reflexivity|].
  simpl. rewrite IH, orb_assoc. reflexivity.
Qed.

Lemma ui_fold_step table : forall c m,
  fold_left UpdateImports.rename_entry table (c, m)
  = (apply_steps (steps4 table) c, searched (steps4 table) c || m).
Proof.
  induction table as [|e table IH]; intros c m; [reflexivity|].
  simpl fold_left. rewrite ui_entry_step, IH.
  change (steps4 (e :: table)) with (steps4 [e] ++ steps4 table).
  rewrite apply_steps_app, searched_app, orb_assoc.
  f_equal. f_equal. apply orb_comm.
Qed.

(** The content and the flag of update-imports.py, from the steps. *)
Lemma ui_content_flag table c :
  UpdateImports.update_content table c
  = (apply_steps (steps4 table) c, searched (steps4 table) c).
Proof.
  unfold UpdateImports.update_content. rewrite ui_fold_step, orb_false_r.
  reflexivity.
Qed.

End Flag4.


(** * The claims *)

(** ** C1: running the pass a second time *)

(** C1, as stated, fails: with the table that renames [view] to [panel]
    and then [card] to [view], the first run rewrites an import of
    [card] to [view] and the second run rewrites it again, to [panel],
    and reports the file as updated. *)
Lemma rerun_differs_on_chained_table :
  let table := [("view", "panel"); ("card", "view")] in
  UpdateImports.update_content table (cs "import x from './card'")
  = (cs "import x from './view'", true)
  /\ UpdateImports.update_content table (cs "import x from './view'")
  = (cs "import x from './panel'", true).
Proof. split; vm_compute; reflexivity. Qed.

(** C1 (amended): for every table whose names are plain (letters,
    digits, dash, underscore, slash), whose new names do not begin with
    a digit and in which no new name is also an old name (the tables
    RENAMES and PATH_UPDATES are such tables), running the
    import-rewriting pass a second time changes nothing: on the text of a file the second run finds no match,
    (no pattern of the table matches anywhere in the output of the
    first run), returns the text as it is and reports it unmodified
    (count 0), and
    on any file set the second batch leaves every file as the first left
    it and reports zero files updated, whatever files fail to be read or
    written. *)
Theorem second_run_changes_nothing (table : list (string * string)) :
  table_ok table = true ->
  (forall content,
     let once := fst (UpdateImports.update_content table content) in
     all_clean (steps4 table) once
     /\ UpdateImports.update_content table once = (once, false))
  /\ (forall content,
     let once := fst (UpdateFeatureImports.run_table table content) in
     all_clean (steps3 table) once
     /\ UpdateFeatureImports.run_table table once = (once, 0)
     /\ UpdateFeatureImports.update_count table once = 0)
  /\ (forall files w,
     let w1 := snd (UpdateImports.main_with table files w) in
     fst (UpdateImports.main_with table files w1) = 0
     /\ forall p, Fs.disk (snd (UpdateImports.main_with table files w1)) p
                  = Fs.disk w1 p)
  /\ (forall files w,
     let w1 := snd (UpdateFeatureImports.main_with table files w) in
     fst (UpdateFeatureImports.main_with table files w1) = (0, 0)
     /\ forall p, Fs.disk (snd (UpdateFeatureImports.main_with table files w1)) p
                  = Fs.disk w1 p).
Proof.
  intros Hok.
  assert (C4 : forall c, all_clean (steps4 table)
                 (fst (UpdateImports.update_content table c))).
  { intros c. rewrite ui_content. apply run_all_clean, steps4_ok, Hok. }
  assert (C3 : forall c, all_clean (steps3 table)
                 (fst (UpdateFeatureImports.run_table table c))).
  { intros c. rewrite ufi_content. apply run_all_clean, steps3_ok, Hok. }
  split; [|split; [|split]].
  - intros content once. split; [apply C4|].
    unfold UpdateImports.update_content at 1.
    apply ui_fold_clean. apply C4.
  - intros content once. split; [apply C3|].
    assert (E : UpdateFeatureImports.run_table table once = (once, 0)).
    { unfold UpdateFeatureImports.run_table at 1. apply ufi_fold_clean. apply C3. }
    split; auto. unfold UpdateFeatureImports.update_count. rewrite E.
    rewrite chars_eqb_refl. reflexivity.
  - intros files w w1.
    assert (S : forall p, In p files -> settled (ui_decide table) (Fs.disk w1 p)).
    { intros p I. unfold w1. rewrite ui_main_disk.
      apply effects_settle; auto. apply ui_decided_once, Hok. }
    destruct (ui_loop_settled table files 0 w1 S) as [N D].
    rewrite ui_main_fst. split; auto.
    intros p. rewrite ui_main_disk, <- (ui_loop_disk table files 0 w1 p). apply D.
  - intros files w w1.
    assert (S : forall p, In p files -> settled (ufi_decide table) (Fs.disk w1 p)).
    { intros p I. unfold w1. rewrite ufi_main_disk.
      apply effects_settle; auto. apply ufi_decided_once, Hok. }
    destruct (ufi_loop_settled table files 0 0 w1 S) as [N D].
    rewrite ufi_main_fst. split; auto.
    intros p. rewrite ufi_main_disk, <- (ufi_loop_disk table files 0 0 w1 p). apply D.
Qed.

Lemma second_run_changes_nothing_witness :
  table_ok UpdateImports.RENAMES = true
  /\ table_ok UpdateFeatureImports.PATH_UPDATES = true
  /\ (forall content,
        let once := fst (UpdateImports.update_content UpdateImports.RENAMES content) in
        UpdateImports.update_content UpdateImports.RENAMES once = (once, false))
  /\ (forall content,
        let once := fst (UpdateFeatureImports.run_table
                           UpdateFeatureImports.PATH_UPDATES content) in
        UpdateFeatureImports.update_count UpdateFeatureImports.PATH_UPDATES once = 0).
Proof.
  split; [vm_compute; reflexivity|].
  split; [vm_compute; reflexivity|].
  split.
  - intros content.
    apply (proj1 (second_run_changes_nothing UpdateImports.RENAMES renames_ok)
             content).
  - intros content.
    apply (proj1 (proj2 (second_run_changes_nothing
                           UpdateFeatureImports.PATH_UPDATES path_updates_ok))
             content).
Defined.

(** ** C2: the challenge-card scenario *)

(** C2: on the file whose content is the single statement importing
    [ChallengeCard] from [@/components/challenge-card], the run of
    fix-moved-imports.py rewrites the one occurrence and reports the
    file as updated, but the text it writes holds two spaces before the
    closing brace, because the captured binding list takes the space
    that precedes the brace: it is not, byte for byte, the expected
    statement.  fix-remaining-imports.py, whose pattern captures
    nothing, writes its own statements with single spaces. *)
Theorem challenge_card_scenario :
  let content := cs "import { ChallengeCard } from '@/components/challenge-card'" in
  let expected := cs "import { ChallengeCard } from '@/components/challenges'" in
  let w := Fs.World (fun _ => Fs.File (Some content) Fs.WriteOk) [] in
  FixMovedImports.update_content FixMovedImports.IMPORT_FIXES content
  = cs "import { ChallengeCard  } from '@/components/challenges'"
  /\ FixMovedImports.update_content FixMovedImports.IMPORT_FIXES content <> expected
  /\ count_matches
       (FixMovedImports.pattern (cs "ChallengeCard") (cs "@/components/challenge-card"))
       content = 1
  /\ fst (FixMovedImports.main ["a.tsx"] w) = 1
  /\ FixRemainingImports.update_content FixRemainingImports.IMPORT_FIXES
       (cs "import { CitationPanel } from '@/components/citation-panel'")
     = cs "import { CitationPanel } from '@/components/content'".
Proof.
  vm_compute. repeat split; try reflexivity. discriminate.
Qed.

(** ** C3: two rules that match the same specifier *)

Section FirstRule2.

Variables (k : keyword) (r : root) (h u : chars) (q : ascii).
Hypothesis Hk : kw_text k h.
Hypothesis Hr : root_text r u.
Hypothesis Hq : is_quote q = true.

(** A run in which the pass [(k, r, o, n)] is the first to match the
    reference, and no later pass matches the rewritten reference. *)
Lemma run_first_rule s1 s2 o n pre X rest :
  plain X = true -> plain n = true ->
  inert (s1 ++ (k, r, o, n) :: s2) pre h ->
  (forall st, In st s1 -> step_kr st <> (k, r) \/ hits (step_old st) X q = false) ->
  name_matchb o X = true ->
  (forall st, In st s2 -> step_kr st <> (k, r) \/ hits (step_old st) n q = false) ->
  apply_steps (s1 ++ (k, r, o, n) :: s2) (pre ++ (h ++ u ++ X ++ [q]) ++ rest)
  = pre ++ (h ++ u ++ n ++ [q])
    ++ apply_steps (s1 ++ (k, r, o, n) :: s2) rest
  /\ searched (s1 ++ (k, r, o, n) :: s2) (pre ++ (h ++ u ++ X ++ [q]) ++ rest)
     = true.
Proof.
  intros HX Hn I H1 Hm H2.
  assert (I1 : inert s1 pre h).
  { apply (inert_incl _ _ _ _ (incl_appl _ (incl_refl s1)) I). }
  assert (I2 : inert s2 pre h).
  { apply (inert_incl (s1 ++ (k, r, o, n) :: s2)); auto.
    intros st Hin. apply in_or_app. right. right. exact Hin. }
  assert (Ist : In (k, r, o, n) (s1 ++ (k, r, o, n) :: s2)).
  { apply in_or_app. right. left. reflexivity. }
  assert (E1 : apply_steps s1 (pre ++ (h ++ u ++ X ++ [q]) ++ rest)
               = pre ++ (h ++ u ++ X ++ [q]) ++ apply_steps s1 rest).
  { apply (keep_run_inert k r h u q Hk Hr Hq); auto. }
  assert (A : forall N z, pre ++ (h ++ u ++ N ++ [q]) ++ z
                          = pre ++ h ++ (u ++ N ++ [q] ++ z))
    by (intros; rewrite <- !app_assoc; reflexivity).
  assert (A' : forall N z, h ++ (u ++ N ++ [q] ++ z) = (h ++ u ++ N ++ [q]) ++ z)
    by (intros; rewrite <- !app_assoc; reflexivity).
  assert (E2 : forall z,
            apply_step (pre ++ (h ++ u ++ X ++ [q]) ++ z) (k, r, o, n)
            = pre ++ (h ++ u ++ n ++ [q]) ++ apply_step z (k, r, o, n)).
  { intros z. unfold apply_step.
    rewrite A, (inert_copy h (k, r, o, n) _ pre _ I Ist), A'.
    unfold step_regex, step_template.
    rewrite (pass_ref_hit k r h u q Hk Hr Hq o n X _ HX Hm). reflexivity. }
  split.
  - rewrite !apply_steps_app, E1.
    change (apply_steps ((k, r, o, n) :: s2) ?c)
      with (apply_steps s2 (apply_step c (k, r, o, n))).
    rewrite E2.
    apply (keep_run_inert k r h u q Hk Hr Hq); auto.
  - rewrite searched_app, E1. simpl.
    replace (re_search (form k r o)
               (pre ++ (h ++ u ++ X ++ [q]) ++ apply_steps s1 rest)) with true;
      [rewrite orb_true_r; reflexivity|].
    symmetry. apply re_search_true.
    exists pre, ((h ++ u ++ X ++ [q]) ++ apply_steps s1 rest). split; auto.
    apply form_complete_gen; auto.
Qed.

End FirstRule2.

Lemma steps4_split t1 o1 n1 t2 f1 k r f2 :
  forms4 = f1 ++ (k, r) :: f2 ->
  steps4 (t1 ++ (o1, n1) :: t2)
  = (steps4 t1 ++ map (fun kr => (fst kr, snd kr, cs o1, cs n1)) f1)
    ++ (k, r, cs o1, cs n1)
    :: (map (fun kr => (fst kr, snd kr, cs o1, cs n1)) f2 ++ steps4 t2).
Proof.
  intros E. rewrite !steps4_of.
  change ((o1, n1) :: t2) with ([(o1, n1)] ++ t2).
  rewrite !steps_of_app.
  replace (steps_of forms4 [(o1, n1)])
    with (map (fun kr => (fst kr, snd kr, cs o1, cs n1)) forms4) by reflexivity.
  assert (Em : map (fun kr => (fst kr, snd kr, cs o1, cs n1)) forms4
               = map (fun kr => (fst kr, snd kr, cs o1, cs n1)) f1
                 ++ (k, r, cs o1, cs n1)
                 :: map (fun kr => (fst kr, snd kr, cs o1, cs n1)) f2)
    by (rewrite E, map_app; reflexivity).
  rewrite Em, <- !app_assoc. reflexivity.
Qed.

(** C3, as stated, fails: the table below has two rules ([Cha.], whose
    dot is a wildcard of the unescaped pattern, and [Chat]) whose
    patterns both match the specifier [@/components/Chat]; the run
    raises nothing, prints no error and rewrites the import with the
    rule that comes first in the table. *)
Lemma two_matching_rules_rewrite :
  let table := [("Cha.", "talk"); ("Chat", "in-graph-chat")] in
  let content := cs "import { Chat } from '@/components/Chat'" in
  let w := Fs.World (fun _ => Fs.File (Some content) Fs.WriteOk) [] in
  re_search (UpdateImports.pattern1 (cs "Cha.")) content = true
  /\ re_search (UpdateImports.pattern1 (cs "Chat")) content = true
  /\ UpdateImports.update_content table content
     = (cs "import { Chat } from '@/components/talk'", true)
  /\ fst (UpdateImports.update_file_with table "a.tsx" w) = true
  /\ Fs.data (Fs.disk (snd (UpdateImports.update_file_with table "a.tsx" w)) "a.tsx")
     = Some (cs "import { Chat } from '@/components/talk'")
  /\ Fs.console (snd (UpdateImports.update_file_with table "a.tsx" w)) = [].
Proof. repeat split; vm_compute; reflexivity. Qed.

(** C3 (amended): when two rules both match the same module specifier,
    no ambiguity is detected and nothing fails: the rules are tried in
    table order, and the first rule of the table that matches the
    specifier rewrites the reference to its new name; the rules behind
    it are tried on the rewritten text and leave the reference alone
    unless one of them matches the new name; the file is written and
    reported as updated, and no error is printed.

    The table is any table whose old names hold no metacharacter other
    than the dot and whose new names hold no backslash and do not begin
    with a digit; the new name of the rule that rewrites is plain.  The
    reference is an import form (keyword part [h], root [u], a plain
    name [X], a quote [q]) anywhere in a file, provided no pattern of
    the table can match from a place before it ([inert]); the text
    behind it is arbitrary.  A rule matches a name when its old name,
    read as a pattern, matches the name, or matches the name and its
    closing quote and goes on ([hits]).  The output is the text before
    the reference, the reference with the new name of the first
    matching rule, and what the run makes of the text behind it; the
    patterns of the later rules that match the specifier do match the
    file as read, and nothing is made of it. *)
Theorem first_matching_rule_rewrites
  (t1 t2 : list (string * string)) (o1 n1 : string)
  (k : keyword) (r : root) (pre h u X : chars) (q : ascii) (rest : chars) :
  let table := t1 ++ (o1, n1) :: t2 in
  let content := pre ++ (h ++ u ++ X ++ [q]) ++ rest in
  let rewritten := pre ++ (h ++ u ++ cs n1 ++ [q])
                   ++ fst (UpdateImports.update_content table rest) in
  safe_names table = true -> template_names table = true ->
  plain (cs n1) = true -> plain X = true ->
  kw_text k h -> root_text r u -> is_quote q = true ->
  inert (steps4 table) pre h ->
  (forall e, In e t1 -> hits (cs (fst e)) X q = false) ->
  name_matchb (cs o1) X = true ->
  (forall e, In e t2 -> hits (cs (fst e)) (cs n1) q = false) ->
  UpdateImports.update_content table content = (rewritten, true)
  /\ re_search (form k r (cs o1)) content = true
  /\ (forall e, In e t2 -> name_matchb (cs (fst e)) X = true ->
        re_search (form k r (cs (fst e))) content = true)
  /\ forall p w,
       Fs.data (Fs.disk w p) = Some content ->
       Fs.wmode (Fs.disk w p) = Fs.WriteOk ->
       fst (UpdateImports.update_file_with table p w) = true
       /\ Fs.data (Fs.disk (snd (UpdateImports.update_file_with table p w)) p)
          = Some rewritten
       /\ Fs.console (snd (UpdateImports.update_file_with table p w)) = Fs.console w.
Proof.
  intros table content rewritten _ _ Hn HX Hk Hr Hq I H1 Hm H2.
  assert (S : forall o, name_matchb o X = true ->
                        re_search (form k r o) content = true).
  { intros o Ho. apply re_search_true.
    exists pre, ((h ++ u ++ X ++ [q]) ++ rest). split; [reflexivity|].
    apply form_complete_gen; auto. }
  assert (E : UpdateImports.update_content table content = (rewritten, true)).
  { destruct (in_split _ _ (in_forms4 k r)) as (f1 & f2 & Ef).
    pose proof forms4_distinct as ND. rewrite Ef in ND.
    apply NoDup_remove_2 in ND.
    rewrite ui_content_flag. unfold rewritten. rewrite ui_content.
    unfold content, table in *.
    rewrite (steps4_split t1 o1 n1 t2 f1 k r f2 Ef) in *.
    destruct (run_first_rule k r h u q Hk Hr Hq _ _ (cs o1) (cs n1) pre X rest
                HX Hn I) as [Ea Eb]; auto.
    - intros st Hin. apply in_app_or in Hin as [Hin|Hin].
      + right. apply in_steps4 in Hin as (e & He & -> & _). apply H1. exact He.
      + left. apply in_map_iff in Hin as ([k' r'] & <- & Hin). simpl.
        intros Eq. apply ND. apply in_or_app. left. rewrite <- Eq. exact Hin.
    - intros st Hin. apply in_app_or in Hin as [Hin|Hin].
      + left. apply in_map_iff in Hin as ([k' r'] & <- & Hin). simpl.
        intros Eq. apply ND. apply in_or_app. right. rewrite <- Eq. exact Hin.
      + right. apply in_steps4 in Hin as (e & He & -> & _). apply H2. exact He.
    - f_equal; [exact Ea|exact Eb]. }
  split; [exact E|]. split; [apply S; exact Hm|].
  split; [intros e _ He; apply S; exact He|].
  intros p w D W. unfold UpdateImports.update_file_with, Fs.read, Fs.write.
  rewrite D, E, W. simpl. unfold Fs.set_data. rewrite String.eqb_refl. auto.
Qed.

(** The text before the reference of the example below: an import of a
    package, and the binding of the reference.  No pattern of the table
    can match from a place in it. *)
Lemma example_pre_inert :
  inert (steps4 [("Card", "tile"); ("Cha.", "talk"); ("Chat", "in-graph-chat")])
        (cs "import React from 'react'; import { Chat } ") (cs "from '").
Proof.
  intros st Hin x y z E Hy.
  assert (G : forall y', In y' (map (fun n => skipn n (cs "import React from 'react'; import { Chat } "))
                              (seq 0 43)) ->
              match_items (items (step_regex st)) (y' ++ cs "from '" ++ z) = None).
  { simpl in Hin.
    repeat (destruct Hin as [<-|Hin];
            [intros y' Hy';
             repeat (destruct Hy' as [<-|Hy']; [vm_compute; reflexivity|]);
             destruct Hy'|]).
    destruct Hin. }
  apply G. clear G Hin.
  assert (L : length x < 43).
  { assert (L0 : length (x ++ y) = 43) by (rewrite <- E; reflexivity).
    rewrite length_app in L0. destruct y; [contradiction Hy; reflexivity|].
    simpl in L0. lia. }
  apply in_map_iff. exists (length x). split.
  - rewrite E. rewrite skipn_app, skipn_all, Nat.sub_diag. reflexivity.
  - apply in_seq. lia.
Qed.

Lemma first_matching_rule_rewrites_witness :
  let table := [("Card", "tile"); ("Cha.", "talk"); ("Chat", "in-graph-chat")] in
  let pre := cs "import React from 'react'; import { Chat } " in
  let rest := cs "; import b from './Chat'" in
  UpdateImports.update_content table
    (pre ++ (cs "from '" ++ cs "@/components/" ++ cs "Chat" ++ ["'"%char]) ++ rest)
  = (pre ++ (cs "from '" ++ cs "@/components/" ++ cs "talk" ++ ["'"%char])
     ++ fst (UpdateImports.update_content table rest), true).
Proof.
  intros table pre rest.
  refine (proj1 (first_matching_rule_rewrites
                   [("Card", "tile")] [("Chat", "in-graph-chat")] "Cha." "talk"
                   KFrom RAlias pre (cs "from '") (cs "@/components/") (cs "Chat")
                   "'"%char rest _ _ _ _ _ _ _ _ _ _ _)).
  - vm_compute. reflexivity.
  - vm_compute. reflexivity.
  - vm_compute. reflexivity.
  - vm_compute. reflexivity.
  - apply (kw_text_from [" "%char] "'"%char); [discriminate|reflexivity|reflexivity].
  - apply root_text_alias.
  - reflexivity.
  - exact example_pre_inert.
  - intros e [<-|[]]. vm_compute. reflexivity.
  - vm_compute. reflexivity.
  - intros e [<-|[]]. vm_compute. reflexivity.
Defined.

(** The file of the example, as the run leaves it: the first matching
    rule has rewritten both references. *)
Example first_rule_on_a_file :
  UpdateImports.update_content
    [("Card", "tile"); ("Cha.", "talk"); ("Chat", "in-graph-chat")]
    (cs "import React from 'react'; import { Chat } from '@/components/Chat'; import b from './Chat'")
  = (cs "import React from 'react'; import { Chat } from '@/components/talk'; import b from './talk'",
     true).
Proof. vm_compute. reflexivity. Qed.

(** ** C4: one statement naming two moved components *)

(** C4, as stated, fails: the statement that names [ChallengeCard]
    (moved to [@/components/challenges]) and [FilterPanel] (moved to
    [@/components/panels]) is rewritten to one statement, which carries
    both bindings to the destination of the rule its specifier
    matches. *)
Lemma two_bindings_stay_together :
  let out := FixMovedImports.update_content FixMovedImports.IMPORT_FIXES
               (cs "import { ChallengeCard, FilterPanel } from '@/components/challenge-card'") in
  out = cs "import { ChallengeCard, FilterPanel  } from '@/components/challenges'"
  /\ count_word (cs "import") out = 1
  /\ count_word (cs "@/components/panels") out = 0.
Proof. vm_compute. repeat split; reflexivity. Qed.

Lemma no_pair_is_split :
  forallb (fun e1 => forallb (fun e2 =>
    chars_eqb
      (FixMovedImports.update_content FixMovedImports.IMPORT_FIXES
         (two_bindings (binding_of e1) (binding_of e2) (cs (fst e1))))
      (two_bindings_moved (binding_of e1) (binding_of e2) (cs (snd e1)))
    && chars_eqb
      (FixMovedImports.update_content FixMovedImports.IMPORT_FIXES
         (two_bindings (binding_of e2) (binding_of e1) (cs (fst e1))))
      (two_bindings_moved (binding_of e2) (binding_of e1) (cs (snd e1)))
    && (count_word (cs "import")
          (FixMovedImports.update_content FixMovedImports.IMPORT_FIXES
             (two_bindings (binding_of e1) (binding_of e2) (cs (fst e1)))) =? 1)
    && (count_word (cs "import")
          (FixMovedImports.update_content FixMovedImports.IMPORT_FIXES
             (two_bindings (binding_of e2) (binding_of e1) (cs (fst e1)))) =? 1))
    FixMovedImports.IMPORT_FIXES) FixMovedImports.IMPORT_FIXES = true.
Proof. vm_compute. reflexivity. Qed.

(** C4 (amended): given one import statement naming two bound names
    whose rules of IMPORT_FIXES target different destinations, written
    with the old path of one of the two rules, the output is one import
    statement: the statement is not split, and both bindings go to the
    destination of the rule whose old path the statement names. *)
Theorem statement_is_not_split (e1 e2 : string * string) :
  In e1 FixMovedImports.IMPORT_FIXES -> In e2 FixMovedImports.IMPORT_FIXES ->
  snd e1 <> snd e2 ->
  let run := FixMovedImports.update_content FixMovedImports.IMPORT_FIXES in
  let a := binding_of e1 in
  let b := binding_of e2 in
  run (two_bindings a b (cs (fst e1))) = two_bindings_moved a b (cs (snd e1))
  /\ run (two_bindings b a (cs (fst e1))) = two_bindings_moved b a (cs (snd e1))
  /\ count_word (cs "import") (run (two_bindings a b (cs (fst e1)))) = 1
  /\ count_word (cs "import") (run (two_bindings b a (cs (fst e1)))) = 1.
Proof.
  intros I1 I2 _. cbv zeta.
  pose proof no_pair_is_split as H.
  rewrite forallb_forall in H. specialize (H e1 I1).
  rewrite forallb_forall in H. specialize (H e2 I2).
  cbv beta in H.
  apply andb_true_iff in H as [H H4]. apply andb_true_iff in H as [H H3].
  apply andb_true_iff in H as [H1 H2].
  apply chars_eqb_eq in H1. apply chars_eqb_eq in H2.
  apply Nat.eqb_eq in H3. apply Nat.eqb_eq in H4.
  exact (conj H1 (conj H2 (conj H3 H4))).
Qed.

Lemma statement_is_not_split_witness :
  FixMovedImports.update_content FixMovedImports.IMPORT_FIXES
    (two_bindings (cs "ChallengeCard") (cs "FilterPanel")
       (cs "@/components/challenge-card"))
  = two_bindings_moved (cs "ChallengeCard") (cs "FilterPanel")
      (cs "@/components/challenges").
Proof.
  apply (statement_is_not_split
           ("@/components/challenge-card", "@/components/challenges")
           ("@/components/filter-panel", "@/components/panels")).
  - left. reflexivity.
  - do 8 right. left. reflexivity.
  - discriminate.
Defined.

(** ** C5: a file without import statements *)

(** A pattern that begins with [import] and spaces matches only where
    [import] and a space start. *)
Lemma import_match_start p y ps rest :
  match_items (lits (cs "import") ++ Plus Space :: p) y = Some (ps, rest) ->
  import_startb y = true.
Proof.
  intros M. apply match_sound in M as [F ->].
  apply Forall2_app_inv_l in F as (p1 & p2 & F1 & F2 & ->).
  apply fits_lits in F1. rewrite concat_app, F1.
  inversion F2 as [|? w ? ps' Hw F']; subst.
  unfold fits in Hw; simpl in Hw. destruct w as [|b w]; [discriminate|].
  simpl in Hw. apply andb_true_iff in Hw as [Hb _].
  unfold import_startb. simpl. rewrite Hb. reflexivity.
Qed.

Lemma no_import_kw_suffix : forall x y,
  no_import_kw (x ++ y) = true -> import_startb y = false.
Proof.
  induction x as [|a x IH]; intros y H; simpl in H.
  - destruct y as [|b y]; [reflexivity|].
    simpl in H. apply andb_true_iff in H as [H _].
    apply negb_true_iff in H. exact H.
  - apply andb_true_iff in H as [_ H]. apply IH. exact H.
Qed.

Lemma no_import_clean r p c :
  items r = lits (cs "import") ++ Plus Space :: p ->
  no_import_kw c = true -> clean r c.
Proof.
  intros E H x y Exy. rewrite E.
  destruct (match_items _ y) as [[ps rest]|] eqn:M; auto.
  apply import_match_start in M. subst c.
  rewrite (no_import_kw_suffix x y H) in M. discriminate.
Qed.

Lemma fmi_entry_no_import e c :
  no_import_kw c = true -> FixMovedImports.fix_entry c e = c.
Proof.
  intros H. unfold FixMovedImports.fix_entry.
  rewrite (re_sub_clean (FixMovedImports.pattern _ _)).
  - apply re_sub_clean. eapply no_import_clean; eauto. reflexivity.
  - eapply no_import_clean; eauto. reflexivity.
Qed.

Lemma fmi_no_import table c :
  no_import_kw c = true -> FixMovedImports.update_content table c = c.
Proof.
  unfold FixMovedImports.update_content.
  induction table as [|e table IH]; intros H; simpl; auto.
  rewrite fmi_entry_no_import by assumption. auto.
Qed.

Lemma starts_with_app w rest : starts_with w (w ++ rest) = true.
Proof.
  induction w as [|a w IH]; simpl; auto. rewrite Ascii.eqb_refl. auto.
Qed.

Lemma has_quoted_suffix w : forall x y,
  has_quoted w y = true -> has_quoted w (x ++ y) = true.
Proof.
  induction x as [|a x IH]; intros y H; simpl; auto.
  rewrite (IH y H). apply orb_true_r.
Qed.

Lemma has_quoted_here w q q' rest :
  is_quote q = true -> is_quote q' = true ->
  has_quoted w (q :: w ++ q' :: rest) = true.
Proof.
  intros Hq Hq'. simpl. rewrite Hq, starts_with_app, skipn_length_app, Hq'.
  reflexivity.
Qed.

(** A pattern that ends with a quote, the old path and a quote matches
    only a text that holds the old path between quotes. *)
Lemma quoted_match_start p w y ps rest :
  match_items (p ++ One Quote :: lits w ++ [One Quote]) y = Some (ps, rest) ->
  has_quoted w y = true.
Proof.
  intros M. apply match_sound in M as [F ->].
  apply Forall2_app_inv_l in F as (p1 & p2 & _ & F2 & ->).
  inversion F2 as [|? pq ? p3 Hq F3]; subst.
  apply Forall2_app_inv_l in F3 as (pw & pe & Fw & Fe & ->).
  apply fits_lits in Fw. apply fits_one_quote in Fe as (q' & -> & Hq').
  unfold fits in Hq; simpl in Hq. destruct pq as [|q [|? ?]]; try discriminate.
  rewrite concat_app, <- app_assoc. apply has_quoted_suffix.
  match goal with |- has_quoted w ?t = true =>
    assert (E : t = q :: w ++ q' :: rest)
  end.
  { cbn [concat app]. rewrite concat_app, Fw. cbn [concat app].
    rewrite <- app_assoc. reflexivity. }
  rewrite E. apply has_quoted_here; auto.
Qed.

Lemma no_quoted_clean r p w c :
  items r = p ++ One Quote :: lits w ++ [One Quote] ->
  has_quoted w c = false -> clean r c.
Proof.
  intros E H x y Exy. rewrite E.
  destruct (match_items _ y) as [[ps rest]|] eqn:M; auto.
  apply quoted_match_start in M. subst c.
  rewrite (has_quoted_suffix w x y M) in H. discriminate.
Qed.

Lemma fmi_pattern_tail pn old :
  items (FixMovedImports.pattern pn old)
  = (lits (cs "import") ++ [Plus Space; One (Lit "{"); Star Space]
     ++ ([Star NotRBrace] ++ name_items pn ++ [Star NotRBrace])
     ++ [Star Space; One (Lit "}"); Plus Space]
     ++ lits (cs "from") ++ [Plus Space])
    ++ One Quote :: lits old ++ [One Quote].
Proof.
  unfold FixMovedImports.pattern. cbn [items].
  repeat rewrite <- app_assoc. reflexivity.
Qed.

Lemma fmi_pattern2_tail pn old :
  items (FixMovedImports.pattern2 pn old)
  = (lits (cs "import") ++ [Plus Space] ++ name_items pn
     ++ [Plus Space] ++ lits (cs "from") ++ [Plus Space])
    ++ One Quote :: lits old ++ [One Quote].
Proof.
  unfold FixMovedImports.pattern2. cbn [items].
  repeat rewrite <- app_assoc. reflexivity.
Qed.

Lemma fmi_entry_no_quoted e c :
  has_quoted (cs (fst e)) c = false -> FixMovedImports.fix_entry c e = c.
Proof.
  intros H. unfold FixMovedImports.fix_entry.
  rewrite (re_sub_clean (FixMovedImports.pattern _ _)).
  - apply re_sub_clean. eapply no_quoted_clean; eauto. apply fmi_pattern2_tail.
  - eapply no_quoted_clean; eauto. apply fmi_pattern_tail.
Qed.

Lemma fmi_no_quoted table c :
  no_quoted_path table c = true -> FixMovedImports.update_content table c = c.
Proof.
  unfold FixMovedImports.update_content, no_quoted_path.
  induction table as [|e table IH]; intros H; simpl; auto.
  simpl in H. apply andb_true_iff in H as [He Ht].
  apply negb_true_iff in He.
  rewrite fmi_entry_no_quoted by assumption. auto.
Qed.

(** C5, as stated, fails: the patterns are matched on the text, so a
    comment that holds a whole import statement - a file with no actual
    import statement - is rewritten like an import statement. *)
Lemma commented_out_import_is_rewritten :
  let content := cs "// import {ChallengeCard} from '@/components/challenge-card'" in
  FixMovedImports.update_content
    [("@/components/challenge-card", "@/components/challenges")] content
  = cs "// import { ChallengeCard } from '@/components/challenges'"
  /\ FixMovedImports.update_content FixMovedImports.IMPORT_FIXES content <> content.
Proof. split; [vm_compute; reflexivity|vm_compute; discriminate]. Qed.

(** C5 (amended): a file in which the keyword [import] followed by a
    space occurs nowhere, or in which no old path of the table stands
    between quotes - such as a file whose whole content is a comment
    with the text [@/components/challenge-card] - is left byte for byte
    as it is by a run of fix-moved-imports.py with the rule from
    [@/components/challenge-card] to [@/components/challenges], alone
    or with any other rules of the script's table: the content computed
    is the content read, nothing is written or printed, and the file is
    not reported as updated. *)
Theorem file_without_import_untouched
  (table : list (string * string)) (content : chars) :
  incl table FixMovedImports.IMPORT_FIXES ->
  no_import_kw content = true \/ no_quoted_path table content = true ->
  FixMovedImports.update_content table content = content
  /\ forall p w,
       Fs.data (Fs.disk w p) = Some content ->
       FixMovedImports.update_file_with table p w = (false, w).
Proof.
  intros _ H.
  assert (E : FixMovedImports.update_content table content = content).
  { destruct H as [H|H]; [apply fmi_no_import|apply fmi_no_quoted]; exact H. }
  split; auto.
  intros p w D. unfold FixMovedImports.update_file_with, Fs.read.
  rewrite D, E, chars_eqb_refl. reflexivity.
Qed.

Lemma file_without_import_untouched_witness :
  FixMovedImports.update_content
    [("@/components/challenge-card", "@/components/challenges")]
    (cs "// moved: @/components/challenge-card")
  = cs "// moved: @/components/challenge-card".
Proof.
  apply (file_without_import_untouched
           [("@/components/challenge-card", "@/components/challenges")]
           (cs "// moved: @/components/challenge-card")).
  - intros e [<-|[]]. left. reflexivity.
  - left. vm_compute. reflexivity.
Defined.

(** A comment that speaks of importing, without a quoted path, is
    covered by the second condition. *)
Example prose_comment_untouched :
  FixMovedImports.update_content FixMovedImports.IMPORT_FIXES
    (cs "// we import ChallengeCard from @/components/challenge-card now")
  = cs "// we import ChallengeCard from @/components/challenge-card now".
Proof.
  apply fmi_no_quoted. vm_compute. reflexivity.
Qed.
(** ** C6: every occurrence is rewritten, once *)

Section OneReference.

Variables (k : keyword) (r : root) (h u : chars) (q : ascii).
Hypothesis Hk : kw_text k h.
Hypothesis Hr : root_text r u.
Hypothesis Hq : is_quote q = true.

(** The steps of one rule on a reference to its old name: the pass of
    the reference's form rewrites it, the other passes leave it. *)
Lemma entry_rewrites forms old new pre rest :
  NoDup forms -> In (k, r) forms ->
  plain (cs old) = true -> plain (cs new) = true ->
  apply_steps (steps_of forms [(old, new)])
    (pre ++ (h ++ u ++ cs old ++ [q]) ++ rest)
  = apply_steps (steps_of forms [(old, new)]) pre
    ++ (h ++ u ++ cs new ++ [q])
    ++ apply_steps (steps_of forms [(old, new)]) rest.
Proof.
  intros ND I Po Pn.
  destruct (in_split _ _ I) as (f1 & f2 & ->).
  apply NoDup_remove_2 in ND.
  assert (E : steps_of (f1 ++ (k, r) :: f2) [(old, new)]
              = map (fun kr => (fst kr, snd kr, cs old, cs new)) f1
                ++ (k, r, cs old, cs new)
                :: map (fun kr => (fst kr, snd kr, cs old, cs new)) f2).
  { unfold steps_of. simpl. rewrite app_nil_r, map_app. reflexivity. }
  rewrite E.
  assert (Keep : forall f N st,
            ~ In (k, r) f ->
            In st (map (fun kr => (fst kr, snd kr, cs old, cs new)) f) ->
            plain (step_old st) = true
            /\ (step_kr st <> (k, r) \/ step_old st <> N)).
  { intros f N st Hn Hin. apply in_map_iff in Hin as ([k' r'] & <- & Hin).
    simpl. split; [exact Po|]. left. intros Eq. apply Hn. rewrite <- Eq. exact Hin. }
  rewrite !apply_steps_app.
  rewrite (keep_run_plain k r h u q Hk Hr Hq (cs old)) by
    (auto; intros st Hin; apply (Keep f1); auto;
     intros Hin'; apply ND; apply in_or_app; left; exact Hin').
  set (s1 := map (fun kr => (fst kr, snd kr, cs old, cs new)) f1).
  set (s2 := map (fun kr => (fst kr, snd kr, cs old, cs new)) f2).
  change (apply_steps ((k, r, cs old, cs new) :: s2) ?c)
    with (apply_steps s2 (apply_step c (k, r, cs old, cs new))).
  unfold apply_step, step_regex, step_template.
  rewrite (sub_split_plain k r (cs old) (cs new) Po
             (length (apply_steps s1 pre)) _ _ (le_n _))
    by (rewrite <- !app_assoc; apply kw_text_start with (k := k); exact Hk).
  rewrite (pass_ref_hit k r h u q Hk Hr Hq (cs old) (cs new) (cs old) _ Po
             (plain_name_refl _ Po)).
  unfold s2.
  rewrite (keep_run_plain k r h u q Hk Hr Hq (cs new)); auto.
  intros st Hin. apply (Keep f2); auto.
  intros Hin'. apply ND. apply in_or_app. right. exact Hin'.
Qed.

(** The whole table on a reference to the old name of one of its
    rules. *)
Lemma table_rewrites forms table old new pre rest :
  NoDup forms -> In (k, r) forms ->
  table_ok table = true -> keys_distinct table = true ->
  In (old, new) table ->
  apply_steps (steps_of forms table)
    (pre ++ (h ++ u ++ cs old ++ [q]) ++ rest)
  = apply_steps (steps_of forms table) pre
    ++ (h ++ u ++ cs new ++ [q])
    ++ apply_steps (steps_of forms table) rest.
Proof.
  intros ND I Hok Hd Hin.
  destruct (table_ok_entries table Hok) as [Hp Hc].
  destruct (Hp _ Hin) as [Po Pn]. simpl in Po, Pn.
  apply keys_distinct_NoDup in Hd.
  destruct (in_split _ _ Hin) as (t1 & t2 & Et).
  rewrite Et in Hd. rewrite map_app in Hd. simpl in Hd.
  apply NoDup_remove_2 in Hd.
  assert (Eo : forall e, In e t1 \/ In e t2 -> cs (fst e) <> cs old).
  { intros e He Eq. apply cs_inj in Eq. apply Hd. rewrite <- Eq.
    apply in_or_app. destruct He as [He|He]; [left|right];
      apply in_map; exact He. }
  assert (En : forall e, In e table -> cs (fst e) <> cs new).
  { intros e He Eq. apply cs_inj in Eq.
    apply (Hc (old, new) e Hin He). simpl. congruence. }
  replace (steps_of forms table)
    with (steps_of forms t1 ++ steps_of forms [(old, new)] ++ steps_of forms t2).
  2:{ rewrite Et. change ((old, new) :: t2) with ([(old, new)] ++ t2).
      rewrite !steps_of_app. reflexivity. }
  rewrite !apply_steps_app.
  rewrite (keep_run_plain k r h u q Hk Hr Hq (cs old)); auto.
  2:{ intros st Hs. apply in_steps_of in Hs as (e & He & _ & Es & _).
      rewrite Es. split.
      - apply (Hp e). rewrite Et. apply in_or_app. left. exact He.
      - right. apply Eo. left. exact He. }
  rewrite (entry_rewrites forms old new _ _ ND I Po Pn).
  rewrite (keep_run_plain k r h u q Hk Hr Hq (cs new)); auto.
  intros st Hs. apply in_steps_of in Hs as (e & He & _ & Es & _).
  assert (Ie : In e table).
  { rewrite Et. apply in_or_app. right. right. exact He. }
  rewrite Es. split; [apply (Hp e Ie)|]. right. apply En. exact Ie.
Qed.

(** A text no pattern of the steps matches in holds no occurrence of a
    form of a rule. *)
Lemma no_occurrence_left forms table old new out x m y :
  In (k, r) forms -> In (old, new) table -> plain (cs old) = true ->
  all_clean (steps_of forms table) out ->
  out = x ++ m ++ y -> m <> h ++ u ++ cs old ++ [q].
Proof.
  intros I Hin Po C E Em.
  assert (Hs : In (k, r, cs old, cs new) (steps_of forms table)).
  { unfold steps_of. apply in_flat_map. exists (old, new). split; auto.
    apply in_map_iff. exists (k, r). auto. }
  pose proof (C _ Hs x (m ++ y) E) as M. simpl in M.
  pose proof (form_complete k r (cs old) h u q y Po Hk Hr Hq) as MC.
  apply MC. rewrite <- Em. exact M.
Qed.

End OneReference.

(** C6, as stated, fails.  A static import whose relative path is more
    than one directory deep holds the old name of a rule in an import
    form and is left as it is by both scripts, whose relative pattern
    reads dots, one slash and the name; update-feature-imports.py,
    which has no pattern for it, leaves a dynamic import of a relative
    path as it is; and with a table in which the new name of a rule is
    the old name of a later rule, one run rewrites the same import
    twice. *)
Lemma deeper_import_is_kept :
  UpdateImports.update_content UpdateImports.RENAMES
    (cs "import Chat from '../../Chat'")
  = (cs "import Chat from '../../Chat'", false)
  /\ UpdateFeatureImports.run_table UpdateFeatureImports.PATH_UPDATES
       (cs "export * from '../../logo'")
     = (cs "export * from '../../logo'", 0)
  /\ UpdateFeatureImports.run_table UpdateFeatureImports.PATH_UPDATES
       (cs "const m = import('./ai-chat')")
     = (cs "const m = import('./ai-chat')", 0)
  /\ UpdateImports.update_content [("card", "view"); ("view", "panel")]
       (cs "import x from './card'")
     = (cs "import x from './panel'", true).
Proof. repeat split; vm_compute; reflexivity. Qed.

(** C6 (amended): in a single run of update-imports.py or of
    update-feature-imports.py over the text of one file, with a table
    of plain names whose keys are distinct, whose new names do not
    begin with a digit and in which no new name is an old name (as
    RENAMES and PATH_UPDATES), every occurrence of a rule's old name in
    one of the import forms the script's patterns read - a keyword part
    ([from], white space and a quote, or [import(] and a quote), a root
    ([@/components/], or dots and one slash), the old name and a quote;
    update-feature-imports.py has no pattern for [import(] with dots -
    is rewritten, and rewritten once: in the output the occurrence
    stands with the new name in place of the old, between what the run
    makes of the text before it and what it makes of the text behind
    it; the output holds no occurrence of an old name in such a form;
    and the passes make as many replacements as the input holds
    occurrences. *)
Theorem every_occurrence_rewritten_once (table : list (string * string)) :
  table_ok table = true -> keys_distinct table = true ->
  (forall old new k r h u q pre rest,
     In (old, new) table -> kw_text k h -> root_text r u -> is_quote q = true ->
     let m := h ++ u ++ cs old ++ [q] in
     let m' := h ++ u ++ cs new ++ [q] in
     fst (UpdateImports.update_content table (pre ++ m ++ rest))
     = fst (UpdateImports.update_content table pre) ++ m'
       ++ fst (UpdateImports.update_content table rest)
     /\ ((k, r) <> (KImport, RDots) ->
         fst (UpdateFeatureImports.run_table table (pre ++ m ++ rest))
         = fst (UpdateFeatureImports.run_table table pre) ++ m'
           ++ fst (UpdateFeatureImports.run_table table rest)))
  /\ (forall content old new k r m x y,
        In (old, new) table -> occurrence k r (cs old) m ->
        fst (UpdateImports.update_content table content) <> x ++ m ++ y
        /\ ((k, r) <> (KImport, RDots) ->
            fst (UpdateFeatureImports.run_table table content) <> x ++ m ++ y))
  /\ (forall content,
        replacements (steps4 table) content = occurrences (steps4 table) content
        /\ replacements (steps3 table) content = occurrences (steps3 table) content).
Proof.
  intros Hok Hd. split; [|split].
  - intros old new k r h u q pre rest Hin Hk Hr Hq m m'.
    rewrite !ui_content, !ufi_content, steps4_of, steps3_of. split.
    + apply (table_rewrites k r h u q Hk Hr Hq);
        auto using forms4_distinct, in_forms4.
    + intros Hf. apply (table_rewrites k r h u q Hk Hr Hq);
        auto using forms3_distinct, in_forms3.
  - intros content old new k r m x y Hin (h & u & q & Hk & Hr & Hq & ->).
    destruct (table_ok_entries table Hok) as [Hp _].
    destruct (Hp _ Hin) as [Po _]. simpl in Po.
    rewrite ui_content, ufi_content. split.
    + intros E.
      apply (no_occurrence_left k r h u q Hk Hr Hq forms4 table old new _ x _ y
               (in_forms4 k r) Hin Po
               (run_all_clean _ content (steps4_ok table Hok)) E).
      reflexivity.
    + intros Hf E.
      apply (no_occurrence_left k r h u q Hk Hr Hq forms3 table old new _ x _ y
               (in_forms3 k r Hf) Hin Po
               (run_all_clean _ content (steps3_ok table Hok)) E).
      reflexivity.
  - intros content. split.
    + apply replacements_occurrences;
        [apply steps4_ok|apply steps4_distinct]; auto.
    + apply replacements_occurrences;
        [apply steps3_ok|apply steps3_distinct]; auto.
Qed.

Lemma every_occurrence_rewritten_once_witness :
  let pre := cs "import a " in
  let m := cs "from '" ++ cs "./" ++ cs "Chat" ++ ["'"%char] in
  let m' := cs "from '" ++ cs "./" ++ cs "in-graph-chat" ++ ["'"%char] in
  let rest := cs "; import b from '../Chat'" in
  fst (UpdateImports.update_content UpdateImports.RENAMES (pre ++ m ++ rest))
  = fst (UpdateImports.update_content UpdateImports.RENAMES pre) ++ m'
    ++ fst (UpdateImports.update_content UpdateImports.RENAMES rest).
Proof.
  intros pre m m' rest.
  refine (proj1 (proj1 (every_occurrence_rewritten_once UpdateImports.RENAMES
                          renames_ok renames_distinct)
                   "Chat" "in-graph-chat" KFrom RDots (cs "from '") (cs "./")
                   "'"%char pre rest _ _ _ _)).
  - vm_compute. auto 40.
  - apply (kw_text_from [" "%char] "'"%char); [discriminate|reflexivity|reflexivity].
  - apply (root_text_dots ["."%char]); [discriminate|reflexivity].
  - reflexivity.
Defined.

(** Two occurrences of one old name are both rewritten, by one pass. *)
Example both_occurrences_rewritten :
  UpdateImports.update_content UpdateImports.RENAMES
    (cs "import a from './Chat'; import b from '../Chat'")
  = (cs "import a from './in-graph-chat'; import b from '../in-graph-chat'", true)
  /\ occurrences (steps4 UpdateImports.RENAMES)
       (cs "import a from './Chat'; import b from '../Chat'") = 2.
Proof. split; vm_compute; reflexivity. Qed.

(** ** C7: a failure on one file *)

Lemma file_after_early decision f :
  fails_early decision f -> file_after decision f = f.
Proof.
  unfold fails_early, file_after. destruct (Fs.data f); auto.
  intros [_ ->]. destruct (decision c); auto.
Qed.

(** C7, as stated, fails for a failure while writing: [open(path, 'w')]
    has truncated the file when [f.write] raises, so the file does not
    keep its content (here nothing of the new content reached the file:
    it is left empty); the error is printed and the run goes on. *)
Lemma failed_write_loses_content :
  let content := cs "import x from './Chat'" in
  let w := Fs.World
             (fun p => if String.eqb p "a.tsx"
                       then Fs.File (Some content) (Fs.WriteFails 0)
                       else Fs.File (Some content) Fs.WriteOk) [] in
  let w' := snd (UpdateImports.main ["a.tsx"; "b.tsx"] w) in
  Fs.data (Fs.disk w' "a.tsx") = Some []
  /\ Fs.data (Fs.disk w' "a.tsx") <> Some content
  /\ In (Fs.ErrorLine (Some "a.tsx")) (Fs.console w')
  /\ Fs.data (Fs.disk w' "b.tsx") = Some (cs "import x from './in-graph-chat'").
Proof.
  vm_compute. repeat split; try reflexivity; try discriminate.
  left. reflexivity.
Qed.

(** C7 (amended): a read or write failure on one file does not abort
    the batch of update-imports.py or of update-feature-imports.py:
    every file of the file set, before and after the failing one, ends
    exactly as if [update_file] had been run on it alone; the failure
    is printed; and the failing file keeps its content when the failure
    is a read failure or a failure to open the file for writing. *)
Theorem failure_does_not_abort_batch (files : list Fs.path) (w : Fs.world) :
  NoDup files ->
  (forall p, In p files ->
     Fs.disk (snd (UpdateImports.main files w)) p
     = Fs.disk (snd (UpdateImports.update_file p w)) p)
  /\ (forall p, In p files ->
        fails_on (ui_decide UpdateImports.RENAMES) (Fs.disk w p) ->
        In (Fs.ErrorLine (Some p)) (Fs.console (snd (UpdateImports.main files w))))
  /\ (forall p, In p files ->
        fails_early (ui_decide UpdateImports.RENAMES) (Fs.disk w p) ->
        Fs.disk (snd (UpdateImports.main files w)) p = Fs.disk w p)
  /\ (forall p, In p files ->
        Fs.disk (snd (UpdateFeatureImports.main files w)) p
        = Fs.disk (snd (UpdateFeatureImports.update_file p w)) p)
  /\ (forall p, In p files ->
        fails_on (ufi_decide UpdateFeatureImports.PATH_UPDATES) (Fs.disk w p) ->
        In (Fs.ErrorLine (Some p)) (Fs.console (snd (UpdateFeatureImports.main files w))))
  /\ (forall p, In p files ->
        fails_early (ufi_decide UpdateFeatureImports.PATH_UPDATES) (Fs.disk w p) ->
        Fs.disk (snd (UpdateFeatureImports.main files w)) p = Fs.disk w p).
Proof.
  intros ND.
  unfold UpdateImports.main, UpdateImports.update_file,
    UpdateFeatureImports.main, UpdateFeatureImports.update_file.
  repeat split; intros p I.
  - rewrite ui_main_disk, ui_update_disk, effect_same. apply effects_each; auto.
  - intros F. apply ui_main_console. apply ui_loop_error; auto.
  - intros F. rewrite ui_main_disk, effects_each by assumption.
    apply file_after_early; auto.
  - rewrite ufi_main_disk, ufi_update_disk, effect_same. apply effects_each; auto.
  - intros F. apply ufi_main_console. apply ufi_loop_error; auto.
  - intros F. rewrite ufi_main_disk, effects_each by assumption.
    apply file_after_early; auto.
Qed.

Lemma failure_does_not_abort_batch_witness :
  let content := cs "import x from './Chat'" in
  let w := Fs.World
             (fun p => if String.eqb p "a.tsx"
                       then Fs.File None Fs.WriteOk
                       else Fs.File (Some content) Fs.WriteOk) [] in
  NoDup ["a.tsx"; "b.tsx"]
  /\ Fs.disk (snd (UpdateImports.main ["a.tsx"; "b.tsx"] w)) "b.tsx"
     = Fs.disk (snd (UpdateImports.update_file "b.tsx" w)) "b.tsx".
Proof.
  intros content w.
  assert (ND : NoDup ["a.tsx"; "b.tsx"]).
  { constructor; [simpl; intros [H|[]]; discriminate H|].
    constructor; [simpl; intros []|constructor]. }
  split; [exact ND|].
  exact (proj1 (failure_does_not_abort_batch ["a.tsx"; "b.tsx"] w ND)
           "b.tsx" (or_intror (or_introl eq_refl))).
Defined.

(** ** C8: the binding-name derivation *)

Lemma upper_dash a : upper a = "-"%char -> a = "-"%char.
Proof.
  destruct a as [[] [] [] [] [] [] [] []]; vm_compute; intros H;
    solve [reflexivity | discriminate H].
Qed.

Lemma lower_dash a : lower a = "-"%char -> a = "-"%char.
Proof.
  destruct a as [[] [] [] [] [] [] [] []]; vm_compute; intros H;
    solve [reflexivity | discriminate H].
Qed.

Lemma split_on_cons sep s : exists w ws, split_on sep s = w :: ws.
Proof.
  induction s as [|a s (w & ws & E)]; simpl; eauto.
  destruct (Ascii.eqb a sep); eauto. rewrite E. eauto.
Qed.

Lemma split_on_no_sep sep s : forall w, In w (split_on sep s) -> ~ In sep w.
Proof.
  induction s as [|a s IH]; simpl; intros w I.
  - destruct I as [<-|[]]. intros [].
  - destruct (Ascii.eqb a sep) eqn:E.
    + destruct I as [<-|I]; [intros []|auto].
    + destruct (split_on_cons sep s) as (w0 & ws & Es). rewrite Es in *.
      destruct I as [<-|I].
      * intros [->|I]; [rewrite Ascii.eqb_refl in E; discriminate|].
        apply (IH w0); [left; reflexivity|assumption].
      * apply IH. right. assumption.
Qed.

Lemma split_on_length sep s :
  length (concat (split_on sep s)) + count_char sep s = length s.
Proof.
  unfold count_char. induction s as [|a s IH]; simpl; auto.
  rewrite (Ascii.eqb_sym sep a).
  destruct (Ascii.eqb a sep) eqn:E; simpl.
  - lia.
  - destruct (split_on_cons sep s) as (w0 & ws & Es). rewrite Es in *.
    simpl in *. lia.
Qed.

Lemma capitalize_length w : length (capitalize w) = length w.
Proof. destruct w; simpl; auto. rewrite length_map. reflexivity. Qed.

Lemma capitalize_no_dash w : ~ In "-"%char w -> ~ In "-"%char (capitalize w).
Proof.
  destruct w as [|a w]; simpl; auto. intros H [E|I].
  - apply upper_dash in E. auto.
  - apply in_map_iff in I as (b & E & I). apply lower_dash in E. subst. auto.
Qed.

Lemma pascal_case_no_dash s : ~ In "-"%char (pascal_case s).
Proof.
  unfold pascal_case. intros I. apply in_concat in I as (w & Iw & I).
  apply in_map_iff in Iw as (v & <- & Iv).
  revert I. apply capitalize_no_dash. apply split_on_no_sep with (s := s). exact Iv.
Qed.

Lemma pascal_case_length s :
  length (pascal_case s) + count_char "-" s = length s.
Proof.
  unfold pascal_case. rewrite <- (split_on_length "-" s). f_equal.
  induction (split_on "-" s) as [|w ws IH]; simpl; auto.
  rewrite !length_app, capitalize_length, IH. reflexivity.
Qed.

(** C8, as stated, fails: the derivation has no failure: on a stem with
    a character outside letters, digits and dashes (here an underscore)
    it returns a name. *)
Lemma stem_outside_alphabet_is_accepted :
  forallb stem_char (cs "graph_canvas") = false
  /\ derive_binding_name (cs "graph_canvas") = Returns (cs "Graph_canvas").
Proof. split; vm_compute; reflexivity. Qed.

(** C8 (amended): the binding-name derivation never fails: for every
    ASCII stem, within the alphabet of letters, digits and dashes or
    not, it returns a name, and only one; the name holds no dash and has
    one character per character of the stem that is not a dash;
    [ai-assistant-panel] gives [AiAssistantPanel]. *)
Theorem binding_name_always_returned (stem : chars) :
  ascii_text stem = true ->
  exists name,
    derive_binding_name stem = Returns name
    /\ (forall other, derive_binding_name stem = Returns other -> other = name)
    /\ (forall exn, derive_binding_name stem <> Raises exn)
    /\ ~ In "-"%char name
    /\ length name + count_char "-" stem = length stem
    /\ derive_binding_name (cs "ai-assistant-panel") = Returns (cs "AiAssistantPanel").
Proof.
  intros _. exists (pascal_case stem). unfold derive_binding_name.
  repeat split.
  - intros other H. inversion H. reflexivity.
  - intros exn H. discriminate H.
  - apply pascal_case_no_dash.
  - apply pascal_case_length.
Qed.

Lemma binding_name_always_returned_witness :
  exists name,
    derive_binding_name (cs "graph_canvas") = Returns name
    /\ (forall other,
          derive_binding_name (cs "graph_canvas") = Returns other -> other = name)
    /\ (forall exn, derive_binding_name (cs "graph_canvas") <> Raises exn)
    /\ ~ In "-"%char name
    /\ length name + count_char "-" (cs "graph_canvas") = length (cs "graph_canvas")
    /\ derive_binding_name (cs "ai-assistant-panel") = Returns (cs "AiAssistantPanel").
Proof.
  apply (binding_name_always_returned (cs "graph_canvas")).
  vm_compute. reflexivity.
Defined.

(** ** C9: the collapse in the rename table *)

Lemma dict_get_in d k v : dict_get d k = Some v -> In (k, v) d.
Proof.
  induction d as [|[k' v'] d IH]; simpl; [discriminate|].
  destruct (dict_get d k) as [v0|] eqn:E.
  - intros H. inversion H; subst. right. apply IH. reflexivity.
  - destruct (String.eqb_spec k' k); [|discriminate].
    intros H. inversion H; subst. left. reflexivity.
Qed.

Lemma renames_to_veracity_badge :
  filter (fun e => String.eqb (snd e) "veracity-badge") UpdateImports.RENAMES
  = [("VeracityBadge", "veracity-badge"); ("VeracityPanel", "veracity-badge")].
Proof. vm_compute. reflexivity. Qed.

(** C9, as stated, fails: [VeracityTimeline] maps to
    [veracity-timeline], not to [veracity-badge]. *)
Lemma veracity_timeline_keeps_its_name :
  dict_get UpdateImports.RENAMES "VeracityTimeline" = Some "veracity-timeline"
  /\ dict_get UpdateImports.RENAMES "VeracityTimeline" <> Some "veracity-badge".
Proof. split; [vm_compute; reflexivity|vm_compute; discriminate]. Qed.

(** C9 (amended): in the rename table RENAMES the two distinct old names
    [VeracityBadge] and [VeracityPanel] both map to the replacement
    specifier [veracity-badge], and they are the only two that do;
    [VeracityTimeline] maps to [veracity-timeline]. *)
Theorem veracity_badge_collapse :
  dict_get UpdateImports.RENAMES "VeracityBadge" = Some "veracity-badge"
  /\ dict_get UpdateImports.RENAMES "VeracityPanel" = Some "veracity-badge"
  /\ dict_get UpdateImports.RENAMES "VeracityTimeline" = Some "veracity-timeline"
  /\ forall k, dict_get UpdateImports.RENAMES k = Some "veracity-badge" ->
               k = "VeracityBadge" \/ k = "VeracityPanel".
Proof.
  repeat split; try (vm_compute; reflexivity).
  intros k H. apply dict_get_in in H.
  pose proof renames_to_veracity_badge as F.
  assert (I : In (k, "veracity-badge")
                (filter (fun e => String.eqb (snd e) "veracity-badge") UpdateImports.RENAMES)).
  { apply filter_In. split; auto. }
  rewrite F in I. destruct I as [E|[E|[]]]; inversion E; auto.
Qed.

(** The file rename behind the [VeracityPanel] entry keeps the name:
    rename-components.py renames the file to [veracity-panel.tsx]. *)
Example veracity_panel_file_rename :
  dict_get RenameComponents.COMPONENT_RENAMES "VeracityPanel.tsx"
  = Some "veracity-panel.tsx".
Proof. vm_compute. reflexivity. Qed.

(** ** C10: what the count of update-feature-imports.py counts *)

Lemma steps3_length table : length (steps3 table) = 3 * length table.
Proof.
  unfold steps3. induction table as [|e table IH]; simpl; auto.
  simpl in IH. rewrite IH. lia.
Qed.

(** What [update_file] answers, from the file alone. *)
Lemma ufi_file_count table p w :
  plain_table table = true -> lengthening table = true ->
  fst (UpdateFeatureImports.update_file_with table p w)
  = file_count table (Fs.disk w p).
Proof.
  intros Hp Hl. unfold UpdateFeatureImports.update_file_with, file_count, Fs.read.
  destruct (Fs.data (Fs.disk w p)) as [c|] eqn:D; [|reflexivity].
  rewrite <- (ufi_count_fired table c Hp Hl).
  unfold UpdateFeatureImports.update_count, Fs.write.
  destruct (UpdateFeatureImports.run_table table c) as [c' n].
  destruct (chars_eqb c' c); [destruct (Fs.wmode (Fs.disk w p)); reflexivity|].
  destruct (Fs.wmode (Fs.disk w p)); reflexivity.
Qed.

(** The two numbers of [main], from the files as the run finds them. *)
Lemma ufi_loop_totals table :
  plain_table table = true -> lengthening table = true ->
  forall files n t w, NoDup files ->
  fst (UpdateFeatureImports.main_loop table files n t w)
  = (n + length (filter (fun p => 0 <? file_count table (Fs.disk w p)) files),
     t + list_sum (map (fun p => file_count table (Fs.disk w p)) files)).
Proof.
  intros Hp Hl. induction files as [|p files IH]; intros n t w ND.
  - simpl. f_equal; lia.
  - inversion ND as [|? ? Hn ND']; subst.
    cbn [UpdateFeatureImports.main_loop filter map list_sum fold_right].
    pose proof (ufi_file_count table p w Hp Hl) as Ec.
    pose proof (ufi_update_disk table p w) as Ed.
    destruct (UpdateFeatureImports.update_file_with table p w) as [cnt w'].
    cbn [fst snd] in Ec, Ed. rewrite <- Ec.
    assert (F : forall w2, (forall q, Fs.disk w2 q = Fs.disk w' q) ->
              forall q, In q files ->
              file_count table (Fs.disk w2 q) = file_count table (Fs.disk w q)).
    { intros w2 E q I. rewrite E, Ed, effect_other; auto.
      intros ->. contradiction. }
    destruct (0 <? cnt) eqn:Pos.
    + rewrite IH by exact ND'.
      set (w2 := Fs.print (Fs.UpdatedLine p (Some cnt)) w').
      rewrite (filter_ext_in _ (fun p => 0 <? file_count table (Fs.disk w p)) files),
              (map_ext_in _ (fun p => file_count table (Fs.disk w p)) files).
      * cbn [length]. unfold list_sum. f_equal; lia.
      * intros q I. apply (F w2); auto.
      * intros q I. rewrite (F w2); auto.
    + rewrite IH by exact ND'.
      rewrite (filter_ext_in _ (fun p => 0 <? file_count table (Fs.disk w p)) files),
              (map_ext_in _ (fun p => file_count table (Fs.disk w p)) files).
      * apply Nat.ltb_ge in Pos. unfold list_sum. f_equal; lia.
      * intros q I. apply (F w'); auto.
      * intros q I. rewrite (F w'); auto.
Qed.

(** C10: for every file text, the count the feature-path updater's
    [update_file] returns is the number of (rule, pattern kind) passes
    whose substitution changed the content: each pass adds at most one,
    each rule at most three, whatever the number of occurrences the pass
    replaced - a file with three occurrences of one form of one rule
    counts 1 for 3 replacements.  So the numbers [main] reports count
    passes, not occurrences: over files that are pairwise different,
    [total_updates] is the sum over the files of the passes that
    changed the file's content (zero for a file that cannot be read or
    written), [files_updated] is the number of files in which some pass
    did, and the summary line shows these two numbers. *)
Theorem count_is_passes_that_changed (content : chars) :
  let table := UpdateFeatureImports.PATH_UPDATES in
  UpdateFeatureImports.update_count table content
  = fired_count (steps3 table) content
  /\ (forall c st, changed c st <= 1)
  /\ (forall e c, fired_count (steps3 [e]) c <= 3)
  /\ UpdateFeatureImports.update_count table content <= 3 * length table
  /\ (forall p w,
        Fs.data (Fs.disk w p) = Some content ->
        Fs.wmode (Fs.disk w p) = Fs.WriteOk ->
        fst (UpdateFeatureImports.update_file p w)
        = fired_count (steps3 table) content)
  /\ (let three := cs "import a from './logo'; import b from '../logo'; export * from './logo'" in
      UpdateFeatureImports.update_count table three = 1
      /\ replacements (steps3 table) three = 3)
  /\ (forall files w, NoDup files ->
        let files_updated :=
          length (filter (fun p => 0 <? file_count table (Fs.disk w p)) files) in
        let total_updates :=
          list_sum (map (fun p => file_count table (Fs.disk w p)) files) in
        fst (UpdateFeatureImports.main files w) = (files_updated, total_updates)
        /\ In (Fs.SummaryLine [files_updated; total_updates])
              (Fs.console (snd (UpdateFeatureImports.main files w))))
  /\ (let three := cs "import a from './logo'; import b from '../logo'; export * from './logo'" in
      let w := Fs.World (fun _ => Fs.File (Some three) Fs.WriteOk) [] in
      UpdateFeatureImports.main ["a.tsx"] w
      = (1, 1,
         Fs.World
           (Fs.set_data (Fs.disk w) "a.tsx"
              (cs "import a from './shared/logo'; import b from '../shared/logo'; export * from './shared/logo'"))
           [Fs.UpdatedLine "a.tsx" (Some 1); Fs.SummaryLine [1; 1]])).
Proof.
  intros table.
  pose proof (ufi_count_fired table content path_updates_plain
                path_updates_lengthening) as E.
  split; [exact E|]. split; [apply changed_le_1|].
  split; [intros e c; apply (fired_count_le (steps3 [e]) c)|].
  split; [rewrite E, <- steps3_length; apply fired_count_le|].
  split; [|split; [split; vm_compute; reflexivity|split]].
  - intros p w D W.
    unfold UpdateFeatureImports.update_file, UpdateFeatureImports.update_file_with,
      Fs.read, Fs.write.
    rewrite D. fold table. rewrite <- E. unfold UpdateFeatureImports.update_count.
    destruct (UpdateFeatureImports.run_table table content) as [c' n].
    destruct (chars_eqb c' content); auto. rewrite W. reflexivity.
  - intros files w ND files_updated total_updates.
    pose proof (ufi_loop_totals table path_updates_plain path_updates_lengthening
                  files 0 0 w ND) as T.
    unfold UpdateFeatureImports.main, UpdateFeatureImports.main_with. fold table.
    destruct (UpdateFeatureImports.main_loop table files 0 0 w) as [[n t] w'].
    cbn [fst] in T. injection T as -> ->. cbn [fst snd Nat.add].
    split; [reflexivity|].
    unfold Fs.print. cbn [Fs.console]. apply in_or_app. right. left. reflexivity.
  - unfold UpdateFeatureImports.main, UpdateFeatureImports.main_with.
    vm_compute. reflexivity.
Qed.


(** * Further properties *)

(** ** update-imports.py and update-feature-imports.py *)

Section Flag.

Lemma ui_try_keep p t st :
  snd (UpdateImports.try_pattern p t st) = false ->
  UpdateImports.try_pattern p t st = st.
Proof.
  destruct st as [c m]. unfold UpdateImports.try_pattern.
  destruct (re_search p c); simpl; [discriminate|intros ->; reflexivity].
Qed.

Lemma ui_entry_keep e st :
  snd (UpdateImports.rename_entry st e) = false ->
  UpdateImports.rename_entry st e = st.
Proof.
  unfold UpdateImports.rename_entry. cbv zeta. intros H.
  pose proof (ui_try_keep _ _ _ H) as E4. rewrite E4 in H |- *.
  pose proof (ui_try_keep _ _ _ H) as E3. rewrite E3 in H |- *.
  pose proof (ui_try_keep _ _ _ H) as E2. rewrite E2 in H |- *.
  apply ui_try_keep. exact H.
Qed.

(** A run that leaves the flag down has left the content as it was. *)
Lemma ui_fold_keep table : forall st,
  snd (fold_left UpdateImports.rename_entry table st) = false ->
  fold_left UpdateImports.rename_entry table st = st.
Proof.
  induction table as [|e table IH]; intros st H; simpl in *; auto.
  pose proof (IH _ H) as E. rewrite E in H |- *.
  apply ui_entry_keep. exact H.
Qed.

End Flag.

Section Weights.



End Weights.

Section Quiet.

Lemma no_kw_start_suffix : forall x y,
  no_kw_start (x ++ y) = true -> y <> [] -> kw_startb y = false.
Proof.
  induction x as [|a x IH]; intros y H Hy; simpl in H.
  - destruct y as [|b y]; [contradiction|].
    simpl in H. apply andb_true_iff in H as [H _].
    apply negb_true_iff in H. exact H.
  - apply andb_true_iff in H as [_ H]. auto.
Qed.

Lemma no_kw_start_clean k r old c :
  no_kw_start c = true -> clean (form k r old) c.
Proof.
  intros H x y E.
  destruct (match_items _ y) as [[ps rest]|] eqn:M; auto.
  pose proof (match_kw_start _ _ _ _ _ _ M) as S.
  destruct y as [|b y]; [rewrite form_nil in M; discriminate|].
  subst c. rewrite (no_kw_start_suffix x (b :: y) H) in S; discriminate.
Qed.

Lemma no_kw_start_all_clean steps c :
  no_kw_start c = true -> all_clean steps c.
Proof.
  intros H [[[k r] old] new] _. apply no_kw_start_clean. exact H.
Qed.

End Quiet.

Section FiredAndFound.



End FiredAndFound.

(** X1: update-imports.py writes a file exactly when its content
    changes.  For a table of plain names in which no new name is an old
    name (as [RENAMES]), the flag [modified] of [update_file] is up at
    the end of the loop if and only if the content computed differs
    from the content read; so for a file that can be read and written,
    [update_file] answers [True] if and only if the file on disk has
    changed. *)
Theorem file_written_iff_content_changes
  (table : list (string * string)) (content : chars) :
  table_ok table = true ->
  (snd (UpdateImports.update_content table content) = true
   <-> fst (UpdateImports.update_content table content) <> content)
  /\ forall p w,
       Fs.data (Fs.disk w p) = Some content ->
       Fs.wmode (Fs.disk w p) = Fs.WriteOk ->
       (fst (UpdateImports.update_file_with table p w) = true
        <-> Fs.data (Fs.disk (snd (UpdateImports.update_file_with table p w)) p)
            <> Some content).
Proof.
  intros Hok.
  assert (A : snd (UpdateImports.update_content table content) = true
              <-> fst (UpdateImports.update_content table content) <> content).
  { split.
    - intros M E.
      pose proof (run_all_clean (steps4 table) content (steps4_ok table Hok)) as C.
      rewrite <- ui_content, E in C.
      unfold UpdateImports.update_content in M.
      rewrite (ui_fold_clean table content false C) in M. discriminate.
    - intros N.
      destruct (snd (UpdateImports.update_content table content)) eqn:M; auto.
      exfalso. apply N. unfold UpdateImports.update_content in *.
      rewrite (ui_fold_keep table _ M). reflexivity. }
  split; [exact A|].
  intros p w D W. unfold UpdateImports.update_file_with, Fs.read. rewrite D.
  destruct (UpdateImports.update_content table content) as [c' m] eqn:E.
  simpl in A. destruct m.
  - unfold Fs.write. rewrite W. simpl. unfold Fs.set_data.
    rewrite String.eqb_refl. simpl. split; [|reflexivity].
    intros _ X. inversion X. apply (proj1 A); auto.
  - simpl. rewrite D. split; [discriminate|].
    intros N. exfalso. apply N. reflexivity.
Qed.

Lemma file_written_iff_content_changes_witness :
  snd (UpdateImports.update_content UpdateImports.RENAMES
         (cs "import Chat from '@/components/Chat'")) = true
  <-> fst (UpdateImports.update_content UpdateImports.RENAMES
             (cs "import Chat from '@/components/Chat'"))
      <> cs "import Chat from '@/components/Chat'".
Proof.
  exact (proj1 (file_written_iff_content_changes UpdateImports.RENAMES
                  (cs "import Chat from '@/components/Chat'") renames_ok)).
Defined.





(** X4: a file without import keyword is out of reach of
    update-imports.py and update-feature-imports.py.  For a table whose
    old names are free of metacharacters, and a content in which
    neither [from] followed by a white space nor [import(] occurs:
    update-imports.py, which searches before it substitutes, returns
    the content as it is with the flag down, and neither writes nor
    reports the file; update-feature-imports.py, which substitutes
    without searching and so reads every template, does the same with
    a count of zero when moreover no new name holds a backslash or
    begins with a digit. *)
Theorem file_without_keyword_untouched
  (table : list (string * string)) (content : chars) :
  safe_names table = true -> no_kw_start content = true ->
  UpdateImports.update_content table content = (content, false)
  /\ (forall p w,
        Fs.data (Fs.disk w p) = Some content ->
        UpdateImports.update_file_with table p w = (false, w))
  /\ (template_names table = true ->
      UpdateFeatureImports.run_table table content = (content, 0)
      /\ forall p w,
           Fs.data (Fs.disk w p) = Some content ->
           UpdateFeatureImports.update_file_with table p w = (0, w)).
Proof.
  intros _ H.
  assert (A : UpdateImports.update_content table content = (content, false)).
  { apply ui_fold_clean. apply no_kw_start_all_clean. exact H. }
  assert (B : UpdateFeatureImports.run_table table content = (content, 0)).
  { apply ufi_fold_clean. apply no_kw_start_all_clean. exact H. }
  split; [exact A|]. split.
  - intros p w D. unfold UpdateImports.update_file_with, Fs.read.
    rewrite D, A. reflexivity.
  - intros _. split; [exact B|]. intros p w D.
    unfold UpdateFeatureImports.update_file_with, Fs.read.
    rewrite D, B, chars_eqb_refl. reflexivity.
Qed.

Lemma file_without_keyword_untouched_witness :
  let c := cs "export const Chat = '@/components/Chat'" in
  UpdateImports.update_content UpdateImports.RENAMES c = (c, false)
  /\ UpdateFeatureImports.run_table UpdateImports.RENAMES c = (c, 0).
Proof.
  intros c.
  pose proof (file_without_keyword_untouched UpdateImports.RENAMES c
                ltac:(vm_compute; reflexivity) ltac:(vm_compute; reflexivity))
    as (A & _ & B).
  split; [exact A|].
  exact (proj1 (B ltac:(vm_compute; reflexivity))).
Defined.

(** ** Greedy matching, item by item *)

Section Greedy.

Lemma run_exact c w s :
  forallb (accepts c) w = true -> stops c s -> run c (w ++ s) = length w.
Proof.
  induction w as [|a w IH]; simpl; intros H S.
  - destruct s as [|b s]; simpl; auto. simpl in S. rewrite S. reflexivity.
  - apply andb_true_iff in H as [Ha Hw]. rewrite Ha, IH; auto.
Qed.

Lemma match_one c a p s ps r :
  accepts c a = true -> match_items p s = Some (ps, r) ->
  match_items (One c :: p) (a :: s) = Some ([a] :: ps, r).
Proof. intros A M. simpl. rewrite A, M. reflexivity. Qed.

Lemma match_lits w p s ps r :
  match_items p s = Some (ps, r) ->
  match_items (lits w ++ p) (w ++ s) = Some (map (fun a => [a]) w ++ ps, r).
Proof.
  intros M. induction w as [|a w IH]; [exact M|].
  change (match_items (One (Lit a) :: (lits w ++ p)) (a :: (w ++ s))
          = Some ([a] :: (map (fun a => [a]) w ++ ps), r)).
  apply match_one; [apply Ascii.eqb_refl|exact IH].
Qed.

(** A greedy item takes the whole run when the rest of the pattern
    matches behind it. *)
Lemma match_star c w p s ps r :
  forallb (accepts c) w = true -> stops c s ->
  match_items p s = Some (ps, r) ->
  match_items (Star c :: p) (w ++ s) = Some (w :: ps, r).
Proof.
  intros W St M. cbn [match_items]. rewrite run_exact by assumption.
  rewrite backtrack_eq. simpl Nat.ltb.
  rewrite skipn_length_app, M, firstn_length_app. reflexivity.
Qed.

Lemma match_plus c w p s ps r :
  forallb (accepts c) w = true -> w <> [] -> stops c s ->
  match_items p s = Some (ps, r) ->
  match_items (Plus c :: p) (w ++ s) = Some (w :: ps, r).
Proof.
  intros W N St M. cbn [match_items]. rewrite run_exact by assumption.
  rewrite backtrack_eq.
  assert (L : (length w <? 1) = false).
  { destruct w; [contradiction N; reflexivity|reflexivity]. }
  rewrite L, skipn_length_app, M, firstn_length_app. reflexivity.
Qed.

Lemma stops_space_plain a s : plain_char a = true -> stops Space (a :: s).
Proof.
  intros H. simpl. apply safe_not_space. apply plain_char_safe. exact H.
Qed.

Lemma stops_space_quote q s : is_quote q = true -> stops Space (q :: s).
Proof. intros H. simpl. apply quote_not_space. exact H. Qed.

End Greedy.

(** ** A pass creates no match: the general argument *)

Section Pulling.

Variables (K : regex) (T : template) (start : chars -> Prop).

Hypothesis K_nil : match_items (items K) [] = None.
Hypothesis K_grows : forall s ps rest,
  match_items (items K) s = Some (ps, rest) -> concat ps <> [].
Hypothesis exp_start : forall s ps rest X,
  match_items (items K) s = Some (ps, rest) -> start (expand K T ps ++ X).

Lemma sub_nil_gen : re_sub K T [] = [].
Proof. unfold re_sub. cbn [sub_scan]. rewrite K_nil. reflexivity. Qed.

(** A stretch of the output in which nothing starts was copied from
    the input. *)
Lemma pull_back_gen : forall w s rest',
  re_sub K T s = w ++ rest' -> still start w rest' -> exists rest, s = w ++ rest.
Proof.
  induction w as [|a w IH]; intros s rest' E Hq.
  - exists s. reflexivity.
  - destruct s as [|b s]; [rewrite sub_nil_gen in E; discriminate|].
    destruct (match_items (items K) (b :: s)) as [[ps rest]|] eqn:M.
    + exfalso. apply (Hq [] (a :: w) eq_refl); [discriminate|].
      rewrite <- E, (re_sub_hit K T _ _ _ M (K_grows _ _ _ M)).
      eapply exp_start; eauto.
    + rewrite re_sub_miss in E by exact M.
      simpl in E. inversion E; subst.
      destruct (IH s rest' H1) as (rest & ->).
      * intros x y Exy Hy. apply (Hq (a :: x) y); [rewrite Exy; reflexivity|exact Hy].
      * exists rest. reflexivity.
Qed.

Section Against.

Variable Q : regex.

Hypothesis Q_nil : match_items (items Q) [] = None.
Hypothesis Q_still : forall s qs rest a M,
  match_items (items Q) s = Some (qs, rest) -> concat qs = a :: M ->
  forall rest', still start M rest'.
Hypothesis Q_grows : forall s qs rest,
  match_items (items Q) s = Some (qs, rest) -> concat qs <> [].
Hypothesis exp_clean : forall s ps rest o,
  match_items (items K) s = Some (ps, rest) ->
  clean Q o -> clean Q (expand K T ps ++ o).

(** A match of [Q] at the head of the output, where the pass copied
    the first character, was already in the input. *)
Lemma head_pulled_gen a s :
  match_items (items K) (a :: s) = None ->
  matches_at Q (a :: re_sub K T s) -> matches_at Q (a :: s).
Proof.
  intros M MQ.
  destruct (match_items (items Q) (a :: re_sub K T s)) as [[qs rest']|] eqn:E;
    [|contradiction MQ; reflexivity].
  destruct (match_sound _ _ _ _ E) as [_ Hs].
  destruct (concat qs) as [|a' M1] eqn:C; [exfalso; eapply Q_grows; eauto|].
  simpl in Hs. inversion Hs; subst a'.
  destruct (pull_back_gen M1 s rest' H1 (Q_still _ _ _ _ _ E C rest'))
    as (rest'' & ->).
  change (matches_at Q ((a :: M1) ++ rest'')). rewrite <- C.
  eapply matches_at_prefix; eauto.
Qed.

Lemma no_new_match_gen : forall s,
  (forall x y, s = x ++ y -> matches_at Q y -> matches_at K y) ->
  clean Q (re_sub K T s).
Proof.
  intros s. remember (length s) as n eqn:En. revert s En.
  induction n as [n IH] using lt_wf_ind. intros s En Hs.
  destruct s as [|a s].
  - rewrite sub_nil_gen. intros x y E. symmetry in E.
    apply app_eq_nil in E as [_ ->]. apply Q_nil.
  - destruct (match_items (items K) (a :: s)) as [[ps rest]|] eqn:M.
    + rewrite (re_sub_hit K T _ _ _ M (K_grows _ _ _ M)).
      eapply exp_clean; eauto.
      destruct (match_sound _ _ _ _ M) as [_ E].
      apply (IH (length rest)) with (s := rest); auto.
      * rewrite En, E, length_app.
        pose proof (K_grows _ _ _ M) as G.
        destruct (concat ps); [contradiction G; reflexivity|simpl; lia].
      * intros x y Exy. apply (Hs (concat ps ++ x) y).
        rewrite E, Exy, app_assoc. reflexivity.
    + rewrite re_sub_miss by exact M.
      apply clean_cons.
      * destruct (match_items (items Q) (a :: re_sub K T s))
          as [[qs rest']|] eqn:MQ; auto.
        exfalso.
        assert (MK : matches_at K (a :: s)).
        { apply (Hs [] (a :: s)); [reflexivity|].
          apply head_pulled_gen; auto. unfold matches_at. rewrite MQ. discriminate. }
        apply MK. exact M.
      * apply (IH (length s)) with (s := s); auto.
        -- rewrite En. simpl. lia.
        -- intros x y Exy. apply (Hs (a :: x) y). rewrite Exy. reflexivity.
Qed.

Lemma clean_preserved_gen s : clean Q s -> clean Q (re_sub K T s).
Proof.
  intros H. apply no_new_match_gen. intros x y E M.
  exfalso. apply M. apply (H x y E).
Qed.

End Against.

End Pulling.

(** ** fix-remaining-imports.py: the named import of one binding *)

Section Named.

Lemma fits_plus_space w : fits (Plus Space) w -> w <> [] /\ spaces w = true.
Proof.
  unfold fits. simpl. destruct w; [discriminate|].
  intros H. split; [discriminate|exact H].
Qed.

Lemma fits_star_space w : fits (Star Space) w -> spaces w = true.
Proof. unfold fits. simpl. intros H. exact H. Qed.

Lemma fits_one_lit a w : fits (One (Lit a)) w -> w = [a].
Proof.
  unfold fits. simpl. destruct w as [|b [|? ?]]; try discriminate.
  intros H. apply Ascii.eqb_eq in H. subst. reflexivity.
Qed.

Lemma fits_one_q w : fits (One Quote) w -> exists q, w = [q] /\ is_quote q = true.
Proof.
  unfold fits. simpl. destruct w as [|b [|? ?]]; try discriminate.
  intros H. exists b. split; auto.
Qed.

Ltac fcons F w H :=
  let F' := fresh "F" in
  inversion F as [|? w ? ? H F']; subst; clear F; rename F' into F.

Lemma named_shape (Li LN Lf Lo : list item) ps :
  Forall2 fits
    (Li ++ [Plus Space; One (Lit "{"); Star Space] ++ LN
     ++ [Star Space; One (Lit "}"); Plus Space] ++ Lf
     ++ [Plus Space; One Quote] ++ Lo ++ [One Quote]) ps ->
  exists p1 w1 w2 pN w3 w4 pf w5 q po q',
    ps = p1 ++ w1 :: ["{"%char] :: w2 :: pN ++ w3 :: ["}"%char] :: w4
         :: pf ++ w5 :: [q] :: po ++ [[q']]
    /\ Forall2 fits Li p1 /\ Forall2 fits LN pN
    /\ Forall2 fits Lf pf /\ Forall2 fits Lo po
    /\ w1 <> [] /\ spaces w1 = true /\ spaces w2 = true /\ spaces w3 = true
    /\ w4 <> [] /\ spaces w4 = true /\ w5 <> [] /\ spaces w5 = true
    /\ is_quote q = true /\ is_quote q' = true.
Proof.
  intros F.
  apply Forall2_app_inv_l in F as (p1 & r1 & F1 & F & ->).
  cbn [app] in F.
  fcons F w1 H1. fcons F b1 Hb1. fcons F w2 H2.
  apply Forall2_app_inv_l in F as (pN & r2 & FN & F & ->).
  cbn [app] in F.
  fcons F w3 H3. fcons F b2 Hb2. fcons F w4 H4.
  apply Forall2_app_inv_l in F as (pf & r3 & Ff & F & ->).
  cbn [app] in F.
  fcons F w5 H5. fcons F q1 Hq1.
  apply Forall2_app_inv_l in F as (po & r4 & Fo & F & ->).
  fcons F q2 Hq2. inversion F; subst; clear F.
  apply fits_plus_space in H1 as [N1 S1]. apply fits_one_lit in Hb1.
  apply fits_star_space in H2. apply fits_star_space in H3.
  apply fits_one_lit in Hb2. apply fits_plus_space in H4 as [N4 S4].
  apply fits_plus_space in H5 as [N5 S5].
  apply fits_one_q in Hq1 as (q & -> & Q1). apply fits_one_q in Hq2 as (q' & -> & Q2).
  subst b1 b2.
  exists p1, w1, w2, pN, w3, w4, pf, w5, q, po, q'.
  repeat split; auto.
Qed.

Lemma named_concat (p1 pN pf po : list chars) w1 w2 w3 w4 w5 q q' :
  concat (p1 ++ w1 :: ["{"%char] :: w2 :: pN ++ w3 :: ["}"%char] :: w4
          :: pf ++ w5 :: [q] :: po ++ [[q']])
  = concat p1 ++ w1 ++ "{"%char :: w2 ++ concat pN ++ w3 ++ "}"%char :: w4
    ++ concat pf ++ w5 ++ q :: concat po ++ [q'].
Proof.
  rewrite concat_app. f_equal. cbn [concat]. f_equal.
  cbn [app]. f_equal. f_equal.
  rewrite concat_app. f_equal. cbn [concat]. f_equal.
  cbn [app]. f_equal. f_equal.
  rewrite concat_app. f_equal. cbn [concat]. f_equal.
  cbn [app]. f_equal.
  rewrite concat_app. f_equal.
Qed.

Lemma named_items N old :
  plain N = true ->
  items (FixRemainingImports.pattern N old)
  = lits (cs "import") ++ [Plus Space; One (Lit "{"); Star Space] ++ lits N
    ++ [Star Space; One (Lit "}"); Plus Space] ++ lits (cs "from")
    ++ [Plus Space; One Quote] ++ lits old ++ [One Quote].
Proof.
  intros PN. unfold FixRemainingImports.pattern. cbn [items].
  rewrite (name_items_plain N PN). reflexivity.
Qed.

Lemma named_sound N old s ps rest :
  plain N = true ->
  match_items (items (FixRemainingImports.pattern N old)) s = Some (ps, rest) ->
  exists m, named_import N old m /\ s = m ++ rest /\ concat ps = m.
Proof.
  intros PN M. apply match_sound in M as [F ->].
  rewrite (named_items N old PN) in F.
  apply named_shape in F
    as (p1 & w1 & w2 & pN & w3 & w4 & pf & w5 & q & po & q' & -> & F1 & FN & Ff & Fo
        & N1 & S1 & S2 & S3 & N4 & S4 & N5 & S5 & Q1 & Q2).
  apply fits_lits in F1, FN, Ff, Fo.
  rewrite named_concat, F1, FN, Ff, Fo.
  eexists. split; [|split; reflexivity].
  exact (named_import_intro N old w1 w2 w3 w4 w5 q q' N1 S1 S2 S3 N4 S4 N5 S5 Q1 Q2).
Qed.

Lemma named_complete N old m rest :
  plain N = true -> named_import N old m ->
  matches_at (FixRemainingImports.pattern N old) (m ++ rest).
Proof.
  intros PN H. destruct H as [w1 w2 w3 w4 w5 q q' N1 S1 S2 S3 N4 S4 N5 S5 Q1 Q2].
  unfold matches_at. rewrite (named_items N old PN).
  assert (E : cs "import" ++ w1 ++ "{"%char :: w2 ++ N ++ w3 ++ "}"%char :: w4
              ++ cs "from" ++ w5 ++ q :: old ++ [q']
              = concat (map (fun a => [a]) (cs "import") ++ w1 :: ["{"%char] :: w2
                        :: map (fun a => [a]) N ++ w3 :: ["}"%char] :: w4
                        :: map (fun a => [a]) (cs "from") ++ w5 :: [q]
                        :: map (fun a => [a]) old ++ [[q']])).
  { rewrite named_concat, !concat_singletons. reflexivity. }
  rewrite E. apply match_complete.
  apply Forall2_app; [apply lits_fit|]. cbn [app].
  constructor; [unfold fits; simpl; destruct w1; [contradiction N1; reflexivity|exact S1]|].
  constructor; [reflexivity|].
  constructor; [exact S2|].
  apply Forall2_app; [apply lits_fit|]. cbn [app].
  constructor; [exact S3|].
  constructor; [reflexivity|].
  constructor; [unfold fits; simpl; destruct w4; [contradiction N4; reflexivity|exact S4]|].
  apply Forall2_app; [apply lits_fit|]. cbn [app].
  constructor; [unfold fits; simpl; destruct w5; [contradiction N5; reflexivity|exact S5]|].
  constructor; [exact Q1|].
  apply Forall2_app; [apply lits_fit|].
  constructor; [exact Q2|constructor].
Qed.

Lemma two_runs_unique (P : ascii -> bool) : forall A A' B B',
  forallb P A = true -> forallb P A' = true ->
  forallb (fun a => negb (P a)) B = true ->
  forallb (fun a => negb (P a)) B' = true ->
  A ++ B = A' ++ B' -> A = A' /\ B = B'.
Proof.
  induction A as [|a A IH]; intros [|a' A'] B B' HA HA' HB HB' E; simpl in *.
  - auto.
  - subst B. simpl in HB. apply andb_true_iff in HA' as [X _].
    apply andb_true_iff in HB as [Y _]. rewrite X in Y. discriminate.
  - subst B'. simpl in HB'. apply andb_true_iff in HA as [X _].
    apply andb_true_iff in HB' as [Y _]. rewrite X in Y. discriminate.
  - inversion E; subst.
    apply andb_true_iff in HA as [_ HA]. apply andb_true_iff in HA' as [_ HA'].
    destruct (IH A' B B' HA HA' HB HB' H1) as [-> ->]. auto.
Qed.

Lemma prefix_before (P : ascii -> bool) : forall y A b r0 rest,
  forallb P y = true -> P b = false -> y ++ rest = A ++ b :: r0 ->
  exists z, A = y ++ z.
Proof.
  induction y as [|c y IH]; intros A b r0 rest Hy Hb E.
  - exists A. reflexivity.
  - simpl in Hy. apply andb_true_iff in Hy as [Hc Hy].
    destruct A as [|c' A]; simpl in E; inversion E; subst.
    + rewrite Hc in Hb. discriminate.
    + destruct (IH A b r0 rest Hy Hb H1) as (z & ->). exists z. reflexivity.
Qed.

Lemma space_not_plain a : is_space a = true -> plain_char a = false.
Proof.
  intros H. destruct (plain_char a) eqn:P; auto.
  apply plain_char_safe, safe_not_space in P. congruence.
Qed.

Lemma spaces_not_plain w :
  spaces w = true -> forallb (fun a => negb (plain_char a)) w = true.
Proof.
  unfold spaces. induction w as [|a w IH]; simpl; auto.
  intros H. apply andb_true_iff in H as [Ha Hw].
  rewrite (space_not_plain a Ha). simpl. auto.
Qed.

Lemma path_char_facts a :
  path_char a = true ->
  is_quote a = false /\ is_space a = false
  /\ Ascii.eqb a "{" = false /\ Ascii.eqb a "}" = false.
Proof.
  unfold path_char, plain_char, is_lower, is_upper, is_digit, is_quote, is_space, code.
  destruct a as [[] [] [] [] [] [] [] []]; vm_compute; intros H;
    try discriminate H; repeat split; reflexivity.
Qed.

Lemma plain_path_char a : plain_char a = true -> path_char a = true.
Proof. unfold path_char. intros ->. reflexivity. Qed.

Lemma plain_path w : plain w = true -> path_text w = true.
Proof.
  unfold plain, path_text. induction w as [|a w IH]; simpl; auto.
  intros H. apply andb_true_iff in H as [Ha Hw].
  rewrite (plain_path_char a Ha). simpl. auto.
Qed.

Lemma space_facts a :
  is_space a = true ->
  is_quote a = false /\ Ascii.eqb a "{" = false /\ Ascii.eqb a "}" = false
  /\ a <> "i"%char.
Proof.
  unfold is_quote, is_space, code.
  destruct a as [[] [] [] [] [] [] [] []]; vm_compute; intros H;
    try discriminate H; repeat split; try reflexivity; discriminate.
Qed.

Lemma quote_facts a :
  is_quote a = true ->
  Ascii.eqb a "{" = false /\ Ascii.eqb a "}" = false /\ is_space a = false.
Proof.
  unfold is_quote, is_space, code.
  destruct a as [[] [] [] [] [] [] [] []]; vm_compute; intros H;
    try discriminate H; repeat split; reflexivity.
Qed.

Lemma forallb_weaken (P Q : ascii -> bool) w :
  (forall a, P a = true -> Q a = true) -> forallb P w = true -> forallb Q w = true.
Proof.
  intros H. induction w as [|a w IH]; simpl; auto.
  intros X. apply andb_true_iff in X as [Xa Xw]. rewrite (H a Xa). simpl. auto.
Qed.

(** Two named imports that start at the same place are the same. *)
Lemma named_same_start N old m N' old' m' x x' :
  plain N = true -> N <> [] -> plain N' = true -> N' <> [] ->
  path_text old = true -> path_text old' = true ->
  named_import N old m -> named_import N' old' m' -> m ++ x = m' ++ x' ->
  N = N' /\ old = old' /\ m = m' /\ x = x'.
Proof.
  intros PN NN PN' NN' Po Po' H H' E.
  destruct H as [w1 w2 w3 w4 w5 q q' N1 S1 S2 S3 N4 S4 N5 S5 Q1 Q2].
  destruct H' as [v1 v2 v3 v4 v5 p p' M1 T1 T2 T3 M4 T4 M5 T5 R1 R2].
  repeat (rewrite <- ?app_assoc, <- ?app_comm_cons in E).
  apply app_inv_head in E.
  apply (split_unique is_space) in E as (-> & _ & E); auto.
  destruct N as [|n N]; [contradiction NN; reflexivity|].
  destruct N' as [|n' N']; [contradiction NN'; reflexivity|].
  simpl in PN, PN'. apply andb_true_iff in PN as [Pn PN].
  apply andb_true_iff in PN' as [Pn' PN'].
  repeat (rewrite <- ?app_assoc, <- ?app_comm_cons in E).
  apply (split_unique is_space) in E as (-> & -> & E); auto;
    try (apply safe_not_space, plain_char_safe; assumption).
  rewrite (app_assoc N w3), (app_assoc N' v3) in E.
  apply (split_unique (fun a => negb (Ascii.eqb a "}"))) in E as (E1 & _ & E); auto.
  2:{ rewrite forallb_app. apply andb_true_iff. split.
      - eapply forallb_weaken; [|exact PN]. intros a Ha.
        apply plain_path_char, path_char_facts in Ha as (_ & _ & _ & ->). reflexivity.
      - eapply forallb_weaken; [|exact S3]. intros a Ha.
        apply space_facts in Ha as (_ & _ & -> & _). reflexivity. }
  2:{ rewrite forallb_app. apply andb_true_iff. split.
      - eapply forallb_weaken; [|exact PN']. intros a Ha.
        apply plain_path_char, path_char_facts in Ha as (_ & _ & _ & ->). reflexivity.
      - eapply forallb_weaken; [|exact T3]. intros a Ha.
        apply space_facts in Ha as (_ & _ & -> & _). reflexivity. }
  apply (two_runs_unique plain_char) in E1 as [-> ->]; auto;
    try (apply spaces_not_plain; assumption).
  change (cs "from") with ("f"%char :: cs "rom") in E.
  repeat (rewrite <- ?app_assoc, <- ?app_comm_cons in E).
  apply (split_unique is_space) in E as (-> & _ & E); auto.
  apply app_inv_head in E.
  apply (split_unique is_space) in E as (-> & -> & E); auto;
    try (apply quote_not_space; assumption).
  assert (Ho : forallb (fun a => negb (is_quote a)) old = true).
  { eapply forallb_weaken; [|exact Po]. intros a Ha.
    apply path_char_facts in Ha as (-> & _). reflexivity. }
  assert (Ho' : forallb (fun a => negb (is_quote a)) old' = true).
  { eapply forallb_weaken; [|exact Po']. intros a Ha.
    apply path_char_facts in Ha as (-> & _). reflexivity. }
  assert (Hq : negb (is_quote q') = false) by (rewrite Q2; reflexivity).
  assert (Hp : negb (is_quote p') = false) by (rewrite R2; reflexivity).
  destruct (split_unique _ _ _ _ _ _ _ Ho Ho' Hq Hp E) as (-> & -> & E3).
  simpl in E3. subst x'. auto.
Qed.

Lemma forallb_cons (P : ascii -> bool) a l :
  forallb P (a :: l) = P a && forallb P l.
Proof. reflexivity. Qed.

Lemma named_start_of N old m X : named_import N old m -> named_start (m ++ X).
Proof.
  intros [w1 w2 w3 w4 w5 q q' N1 S1 S2 S3 N4 S4 N5 S5 Q1 Q2].
  exists w1. eexists. split; [exact N1|]. split; [exact S1|].
  repeat (rewrite <- ?app_assoc, <- ?app_comm_cons). reflexivity.
Qed.

Lemma named_nonempty N old m : named_import N old m -> exists M, m = "i"%char :: M.
Proof. intros []. eexists. reflexivity. Qed.

(** No named import starts inside a named import, past its first
    character, whatever follows. *)
Lemma named_still_tail N old w1 w2 w3 w4 w5 q q' rest :
  plain N = true -> path_text old = true ->
  w1 <> [] -> spaces w1 = true -> spaces w2 = true -> spaces w3 = true ->
  w4 <> [] -> spaces w4 = true -> w5 <> [] -> spaces w5 = true ->
  is_quote q = true -> is_quote q' = true ->
  still named_start
    (cs "mport" ++ w1 ++ "{"%char :: w2 ++ N ++ w3 ++ "}"%char :: w4
     ++ cs "from" ++ w5 ++ q :: old ++ [q']) rest.
Proof.
  intros PN Po N1 S1 S2 S3 N4 S4 N5 S5 Q1 Q2.
  set (B0 := w2 ++ N ++ w3 ++ "}"%char :: w4 ++ cs "from" ++ w5 ++ q :: old) in *.
  assert (EB : w2 ++ N ++ w3 ++ "}"%char :: w4 ++ cs "from" ++ w5 ++ q :: old ++ [q']
               = B0 ++ [q']).
  { unfold B0. repeat (rewrite <- ?app_assoc, <- ?app_comm_cons). reflexivity. }
  rewrite EB.
  assert (NB : forallb (fun c => negb (Ascii.eqb c "{")) (B0 ++ [q']) = true).
  { unfold B0. change (cs "from") with ("f"%char :: cs "rom").
    repeat (rewrite ?forallb_app, ?forallb_cons).
    destruct (quote_facts q Q1) as (-> & _). destruct (quote_facts q' Q2) as (-> & _).
    repeat (apply andb_true_iff; split); try reflexivity;
      try (eapply forallb_weaken; [|eassumption]; intros c Hc;
           first [ apply space_facts in Hc as (_ & -> & _); reflexivity
                 | apply plain_path_char, path_char_facts in Hc as (_ & _ & -> & _);
                   reflexivity
                 | apply path_char_facts in Hc as (_ & _ & -> & _); reflexivity ]). }
  intros x y Exy Hy (w & r0 & Nw & Sw & Es).
  assert (NI : forallb (fun c => negb (Ascii.eqb c "{")) (cs "import" ++ w) = true).
  { rewrite forallb_app. apply andb_true_iff. split; [reflexivity|].
    eapply forallb_weaken; [|exact Sw]. intros c Hc.
    apply space_facts in Hc as (_ & -> & _). reflexivity. }
  assert (Ni : ~ In "i"%char (cs "mport" ++ w1)).
  { intros I. apply in_app_or in I as [I|I].
    - simpl in I. intuition discriminate.
    - unfold spaces in S1. rewrite forallb_forall in S1.
      apply S1 in I. apply space_facts in I as (_ & _ & _ & I). apply I. reflexivity. }
  rewrite app_assoc in Exy. symmetry in Exy.
  apply app_eq_app in Exy as [l [[E1 E2]|[E1 E2]]].
  - (* [y] starts after the brace or at it *)
    destruct l as [|b l].
    + simpl in E2. subst y. simpl in Es. inversion Es.
    + simpl in E2. inversion E2 as [[Eb EBy]]. clear E2.
      assert (Ny : forallb (fun c => negb (Ascii.eqb c "{")) y = true).
      { rewrite EBy, forallb_app in NB. apply andb_true_iff in NB as [_ NB]. exact NB. }
      destruct (prefix_before _ y (cs "import" ++ w) "{"%char r0 rest Ny eq_refl)
        as (z & Ez).
      { rewrite Es. rewrite <- app_assoc. reflexivity. }
      destruct (exists_last Hy) as (y0 & c & Ey). subst y.
      rewrite app_assoc in EBy. apply app_inj_tail in EBy as [_ Ec]. subst c.
      assert (I : In q' (cs "import" ++ w)).
      { rewrite Ez. apply in_or_app. left. apply in_or_app. right. left. reflexivity. }
      apply in_app_or in I as [I|I].
      * simpl in I.
        destruct I as [<-|[<-|[<-|[<-|[<-|[<-|[]]]]]]]; discriminate Q2.
      * unfold spaces in Sw. rewrite forallb_forall in Sw. apply Sw in I.
        apply quote_facts in Q2 as (_ & _ & Q2). congruence.
  - (* [y] holds the brace *)
    subst y. rewrite <- app_assoc, <- app_comm_cons in Es.
    assert (Nl : forallb (fun c => negb (Ascii.eqb c "{")) l = true).
    { assert (X : forallb (fun c => negb (Ascii.eqb c "{")) (cs "mport" ++ w1) = true).
      { rewrite forallb_app. apply andb_true_iff. split; [reflexivity|].
        eapply forallb_weaken; [|exact S1]. intros c Hc.
        apply space_facts in Hc as (_ & -> & _). reflexivity. }
      rewrite E1, forallb_app in X. apply andb_true_iff in X as [_ X]. exact X. }
    rewrite (app_assoc (cs "import") w) in Es.
    apply (split_unique (fun c => negb (Ascii.eqb c "{"))) in Es as (El & _ & _); auto.
    apply Ni. rewrite E1, El. apply in_or_app. right. left. reflexivity.
Qed.

Lemma named_still N old a M rest :
  plain N = true -> path_text old = true ->
  named_import N old (a :: M) -> still named_start M rest.
Proof.
  intros PN Po H. inversion H as [w1 w2 w3 w4 w5 q q' N1 S1 S2 S3 N4 S4 N5 S5 Q1 Q2 E].
  exact (named_still_tail N old w1 w2 w3 w4 w5 q q' rest
           PN Po N1 S1 S2 S3 N4 S4 N5 S5 Q1 Q2).
Qed.

Lemma normal_named N new : named_import N new (normal_import N new).
Proof.
  exact (named_import_intro N new [" "%char] [" "%char] [" "%char] [" "%char]
           [" "%char] "'"%char "'"%char
           ltac:(discriminate) eq_refl eq_refl eq_refl
           ltac:(discriminate) eq_refl ltac:(discriminate) eq_refl eq_refl eq_refl).
Qed.

Lemma named_expand N old new ps :
  expand (FixRemainingImports.pattern N old)
         (FixRemainingImports.replacement N new) ps
  = normal_import N new.
Proof.
  unfold expand, FixRemainingImports.replacement, normal_import.
  cbn [flat_map expand_part]. apply app_nil_r.
Qed.

Lemma named_nil N old :
  plain N = true ->
  match_items (items (FixRemainingImports.pattern N old)) [] = None.
Proof.
  intros _. reflexivity.
Qed.

Lemma named_grows N old s ps rest :
  plain N = true ->
  match_items (items (FixRemainingImports.pattern N old)) s = Some (ps, rest) ->
  concat ps <> [].
Proof.
  intros PN M.
  destruct (named_sound N old _ _ _ PN M) as (m & H & _ & ->).
  destruct (named_nonempty _ _ _ H) as (M' & ->). discriminate.
Qed.

Section NamedPass.

Variables (N old new N' old' : chars).
Hypothesis PN : plain N = true.
Hypothesis NN : N <> [].
Hypothesis PN' : plain N' = true.
Hypothesis NN' : N' <> [].
Hypothesis Pnew : path_text new = true.
Hypothesis Pold' : path_text old' = true.
Hypothesis Hdiff : new <> old'.

Let K := FixRemainingImports.pattern N old.
Let T := FixRemainingImports.replacement N new.
Let Q := FixRemainingImports.pattern N' old'.

Lemma named_exp_clean s ps rest o :
  match_items (items K) s = Some (ps, rest) ->
  clean Q o -> clean Q (expand K T ps ++ o).
Proof.
  intros _ Ho. unfold K, T. rewrite named_expand.
  intros x y E.
  destruct (match_items (items Q) y) as [[qs rest']|] eqn:MQ; auto. exfalso.
  destruct (named_sound N' old' _ _ _ PN' MQ) as (m' & H' & Ey & _).
  apply app_eq_app in E as [l [[E1 E2]|[E1 E2]]].
  - subst y. destruct l as [|b l].
    + change ([] ++ o) with o in MQ.
      rewrite (Ho [] o eq_refl) in MQ. discriminate.
    + destruct x as [|a x].
      * simpl in E1. rewrite <- E1 in Ey.
        destruct (named_same_start N new _ N' old' m' o rest'
                    PN NN PN' NN' Pnew Pold' (normal_named N new) H' Ey)
          as (_ & E & _). apply Hdiff. exact E.
      * pose proof (normal_named N new) as HN. rewrite E1 in HN.
        apply (named_still N new a (x ++ b :: l) o PN Pnew HN x (b :: l) eq_refl);
          [discriminate|].
        rewrite Ey. eapply named_start_of; eauto.
  - rewrite (Ho l y E2) in MQ. discriminate.
Qed.

Lemma named_no_new_match s :
  (forall x y, s = x ++ y -> matches_at Q y -> matches_at K y) ->
  clean Q (re_sub K T s).
Proof.
  apply (no_new_match_gen K T named_start).
  - apply named_nil. exact PN.
  - intros s0 ps rest. apply named_grows. exact PN.
  - intros s0 ps rest X _. unfold K, T. rewrite named_expand.
    eapply named_start_of. apply normal_named.
  - apply named_nil. exact PN'.
  - intros s0 qs rest a M MQ C rest'.
    destruct (named_sound N' old' _ _ _ PN' MQ) as (m' & H' & _ & Ec).
    rewrite C in Ec. subst m'.
    eapply named_still; eauto.
  - intros s0 qs rest. apply named_grows. exact PN'.
  - apply named_exp_clean.
Qed.

End NamedPass.

Lemma named_pass_clean N old new s :
  plain N = true -> N <> [] -> path_text old = true -> path_text new = true ->
  new <> old ->
  clean (FixRemainingImports.pattern N old)
        (re_sub (FixRemainingImports.pattern N old)
                (FixRemainingImports.replacement N new) s).
Proof.
  intros PN NN Po Pn D. apply named_no_new_match; auto.
Qed.

Lemma named_clean_preserved N old new N' old' s :
  plain N = true -> N <> [] -> plain N' = true -> N' <> [] ->
  path_text new = true -> path_text old' = true -> new <> old' ->
  clean (FixRemainingImports.pattern N' old') s ->
  clean (FixRemainingImports.pattern N' old')
        (re_sub (FixRemainingImports.pattern N old)
                (FixRemainingImports.replacement N new) s).
Proof.
  intros PN NN PN' NN' Pn Po' D H. apply named_no_new_match; auto.
  intros x y E M. exfalso. apply M. apply (H x y E).
Qed.

Lemma fr_fix_entry c e :
  FixRemainingImports.fix_entry c e = re_sub (named_pattern e) (named_template e) c.
Proof.
  unfold FixRemainingImports.fix_entry, named_pattern, named_template, binding_of.
  cbv zeta. destruct (chars_eqb _ c) eqn:E; auto.
  apply chars_eqb_eq in E. symmetry. exact E.
Qed.

Lemma named_table_entries table :
  named_table_ok table = true ->
  (forall e, In e table ->
     plain (binding_of e) = true /\ binding_of e <> []
     /\ path_text (cs (fst e)) = true /\ path_text (cs (snd e)) = true)
  /\ (forall e e', In e table -> In e' table -> cs (snd e) <> cs (fst e')).
Proof.
  unfold named_table_ok, no_chain. intros H.
  apply andb_true_iff in H as [H1 H2].
  rewrite forallb_forall in H1, H2. split.
  - intros e I. specialize (H1 e I).
    apply andb_true_iff in H1 as [H1 P2]. apply andb_true_iff in H1 as [H1 P1].
    apply andb_true_iff in H1 as [P0 NE].
    repeat split; auto.
    intros E. rewrite E in NE. discriminate.
  - intros e e' I I' E. specialize (H2 e I).
    apply negb_true_iff in H2.
    assert (X : existsb (fun e'0 => String.eqb (snd e) (fst e'0)) table = true).
    { apply existsb_exists. exists e'. split; auto.
      apply String.eqb_eq. apply cs_inj. exact E. }
    congruence.
Qed.

(** Once a rule has run, its pattern matches nowhere, and the later
    rules keep it so. *)
Lemma fr_run_cleans (U : list (string * string)) (HU : named_table_ok U = true) :
  forall steps done c,
    incl steps U -> incl done U ->
    named_clean done c ->
    named_clean (done ++ steps) (FixRemainingImports.update_content steps c).
Proof.
  destruct (named_table_entries U HU) as [Hent Hdiff].
  unfold FixRemainingImports.update_content.
  induction steps as [|st steps IH]; intros done c Hs Hd Hc.
  - rewrite app_nil_r. exact Hc.
  - simpl. replace (done ++ st :: steps) with ((done ++ [st]) ++ steps)
      by (rewrite <- app_assoc; reflexivity).
    assert (Ist : In st U) by (apply Hs; left; auto).
    destruct (Hent st Ist) as (PN & NN & Po & Pn).
    apply IH.
    + intros x I. apply Hs. right; auto.
    + intros x I. apply in_app_or in I as [I|[<-|[]]]; auto.
    + intros x I. rewrite fr_fix_entry.
      unfold named_pattern, named_template.
      apply in_app_or in I as [I|[<-|[]]].
      * destruct (Hent x (Hd x I)) as (PN' & NN' & Po' & _).
        apply named_clean_preserved; auto. apply (Hc x I).
      * apply named_pass_clean; auto.
Qed.

Lemma fr_clean_id table : forall c,
  named_clean table c -> FixRemainingImports.update_content table c = c.
Proof.
  unfold FixRemainingImports.update_content.
  induction table as [|e table IH]; intros c H; simpl; auto.
  rewrite fr_fix_entry, re_sub_clean by (apply H; left; auto).
  apply IH. intros e' I. apply H. right; auto.
Qed.

Lemma fr_log_clean table : forall c out,
  named_clean table c ->
  fold_left FixRemainingImports.fix_entry_log table (c, out) = (c, out).
Proof.
  induction table as [|e table IH]; intros c out H; simpl; auto.
  assert (E : re_sub (FixRemainingImports.pattern
                        (pascal_case (last_segment (cs (fst e)))) (cs (fst e)))
                     (FixRemainingImports.replacement
                        (pascal_case (last_segment (cs (fst e)))) (cs (snd e))) c
              = c).
  { apply re_sub_clean. apply (H e). left; auto. }
  rewrite E, chars_eqb_refl.
  apply IH. intros e' I. apply H. right; auto.
Qed.

Lemma fr_log_content table : forall c out,
  fst (fold_left FixRemainingImports.fix_entry_log table (c, out))
  = FixRemainingImports.update_content table c.
Proof.
  unfold FixRemainingImports.update_content.
  induction table as [|e table IH]; intros c out; simpl; auto.
  unfold FixRemainingImports.fix_entry at 2. cbv zeta.
  destruct (chars_eqb _ c); apply IH.
Qed.

End Named.

(** ** fix-remaining-imports.py: the properties *)

Lemma fix_remaining_table_ok : named_table_ok FixRemainingImports.IMPORT_FIXES = true.
Proof. vm_compute. reflexivity. Qed.

Lemma named_import_is_normalised_text (e : string * string) (m rest : chars) :
  plain (binding_of e) = true -> binding_of e <> [] ->
  path_text (cs (fst e)) = true ->
  named_import (binding_of e) (cs (fst e)) m ->
  FixRemainingImports.fix_entry (m ++ rest) e
  = normal_import (binding_of e) (cs (snd e))
    ++ FixRemainingImports.fix_entry rest e.
Proof.
  intros PN NN Po H. rewrite !fr_fix_entry.
  pose proof (named_complete _ _ m rest PN H) as MC. unfold matches_at in MC.
  fold (named_pattern e) in MC.
  destruct (match_items (items (named_pattern e)) (m ++ rest)) as [[ps r]|] eqn:M;
    [|contradiction MC; reflexivity].
  destruct (named_sound _ _ _ _ _ PN M) as (m0 & H0 & E & _).
  destruct (named_same_start _ _ _ _ _ _ _ _ PN NN PN NN Po Po H H0 E)
    as (_ & _ & _ & <-).
  rewrite (re_sub_hit _ _ _ _ _ M (named_grows _ _ _ _ _ PN M)).
  unfold named_pattern, named_template. rewrite named_expand. reflexivity.
Qed.

(** X5: fix-remaining-imports.py brings a named import of a rule to one
    normal text.  For a rule whose binding name is a non-empty plain
    name, whose old path is a module path and whose new path holds no
    backslash (so that the replacement, which [re.sub] reads as a
    template, stands for itself): a statement [import { Name } from
    'old_path'] at the head of the content, whatever its white space
    (line breaks included) and whichever its quotes, is replaced by
    [import { Name } from 'new_path'] with single spaces and single
    quotes, and the text behind it is processed as if it stood
    alone. *)
Theorem named_import_is_normalised (e : string * string) (m rest : chars) :
  plain (binding_of e) = true -> binding_of e <> [] ->
  path_text (cs (fst e)) = true ->
  literal_text (cs (snd e)) = true ->
  named_import (binding_of e) (cs (fst e)) m ->
  FixRemainingImports.fix_entry (m ++ rest) e
  = normal_import (binding_of e) (cs (snd e))
    ++ FixRemainingImports.fix_entry rest e.
Proof. intros PN NN Po _. apply named_import_is_normalised_text; assumption. Qed.

Lemma named_import_is_normalised_witness :
  let e := ("@/components/add-comment-dialog", "@/components/forms") in
  let m := cs "import" ++ cs "  " ++ "{"%char :: [] ++ binding_of e ++ []
           ++ "}"%char :: cs "  " ++ cs "from" ++ cs " "
           ++ "034"%char :: cs (fst e) ++ ["'"%char] in
  FixRemainingImports.fix_entry (m ++ cs "; x") e
  = normal_import (binding_of e) (cs (snd e))
    ++ FixRemainingImports.fix_entry (cs "; x") e.
Proof.
  intros e m.
  refine (named_import_is_normalised e m (cs "; x") _ _ _ _ _).
  - vm_compute. reflexivity.
  - vm_compute. discriminate.
  - vm_compute. reflexivity.
  - vm_compute. reflexivity.
  - exact (named_import_intro (binding_of e) (cs (fst e))
             (cs "  ") [] [] (cs "  ") (cs " ") "034"%char "'"%char
             ltac:(discriminate) eq_refl eq_refl eq_refl
             ltac:(discriminate) eq_refl ltac:(discriminate) eq_refl
             eq_refl eq_refl).
Defined.

(** X6: a second run of fix-remaining-imports.py changes nothing.  For
    a table whose binding names are non-empty plain names, whose paths
    are module paths, and in which no new path is an old path (as
    [IMPORT_FIXES]): in the content a run computes, no pattern of the
    table matches anywhere; a second run computes the same content; and
    run on a file that holds it, [update_file] prints no [Fixed] line,
    writes nothing and answers [False]. *)
Theorem fix_remaining_second_run_changes_nothing
  (table : list (string * string)) (content : chars) :
  named_table_ok table = true ->
  let once := FixRemainingImports.update_content table content in
  named_clean table once
  /\ FixRemainingImports.update_content table once = once
  /\ forall p w,
       Fs.data (FixRemainingImports.disk w p) = Some once ->
       FixRemainingImports.update_file_with table p w = (false, w).
Proof.
  intros Hok once.
  assert (C : named_clean table once).
  { apply (fr_run_cleans table Hok table [] content).
    - apply incl_refl.
    - intros x [].
    - intros x []. }
  split; [exact C|]. split; [apply fr_clean_id; exact C|].
  intros p w D. unfold FixRemainingImports.update_file_with, Fs.read.
  cbn [Fs.disk]. rewrite D.
  rewrite (fr_log_clean table once _ C), chars_eqb_refl.
  destruct w; reflexivity.
Qed.

Lemma fix_remaining_second_run_changes_nothing_witness :
  let c := cs "import {TextSelectionMenu} from '@/components/text-selection-menu'" in
  FixRemainingImports.update_content FixRemainingImports.IMPORT_FIXES
    (FixRemainingImports.update_content FixRemainingImports.IMPORT_FIXES c)
  = FixRemainingImports.update_content FixRemainingImports.IMPORT_FIXES c.
Proof.
  intros c.
  exact (proj1 (proj2 (fix_remaining_second_run_changes_nothing
                         FixRemainingImports.IMPORT_FIXES c
                         fix_remaining_table_ok))).
Defined.

(** ** fix-moved-imports.py and fix-all-remaining-imports.py: one
    statement *)

Section Statements.

Variables (old rest : chars) (w4 w5 : chars) (q q' : ascii).
Hypothesis N4 : w4 <> [].
Hypothesis S4 : spaces w4 = true.
Hypothesis N5 : w5 <> [].
Hypothesis S5 : spaces w5 = true.
Hypothesis Q1 : is_quote q = true.
Hypothesis Q2 : is_quote q' = true.

(** The end of the three patterns: [from], spaces, a quote, the path
    through [re.escape], a quote; and, before it, optional spaces, the
    closing brace and spaces. *)
Let from_items : list item :=
  lits (cs "from") ++ [Plus Space; One Quote] ++ lits old ++ [One Quote].

Let from_text : chars := cs "from" ++ w5 ++ q :: old ++ q' :: rest.

Let from_pieces : list chars :=
  map (fun a => [a]) (cs "from") ++ [w5; [q]] ++ map (fun a => [a]) old ++ [[q']].

Lemma from_match : match_items from_items from_text = Some (from_pieces, rest).
Proof.
  unfold from_items, from_text, from_pieces.
  apply match_lits. cbn [app].
  apply match_plus; auto; [apply stops_space_quote; exact Q1|].
  apply match_one; [exact Q1|].
  apply (match_lits old [One Quote] (q' :: rest) [[q']] rest).
  apply match_one; [exact Q2|reflexivity].
Qed.

Let close_items : list item := [Star Space; One (Lit "}"); Plus Space] ++ from_items.

Let close_text : chars := "}"%char :: w4 ++ from_text.

Let close_pieces : list chars := [[]; ["}"%char]; w4] ++ from_pieces.

Lemma close_match : match_items close_items close_text = Some (close_pieces, rest).
Proof.
  unfold close_items, close_text, close_pieces. cbn [app].
  apply (match_star Space [] _ ("}"%char :: w4 ++ from_text)); [reflexivity|reflexivity|].
  apply match_one; [reflexivity|].
  apply match_plus; auto; [reflexivity|apply from_match].
Qed.

(** The pattern of the relative branch of fix-all-remaining-imports.py
    on a statement: the group is the whole binding list. *)
Lemma relative_match w1 w2 g :
  w1 <> [] -> spaces w1 = true -> spaces w2 = true -> binding_list g = true ->
  exists ps,
    match_items (items (FixAllRemainingImports.relative_pattern old))
      (cs "import" ++ w1 ++ "{"%char :: w2 ++ g ++ close_text)
    = Some (ps, rest)
    /\ group_text ps (9, 1) = g /\ concat ps <> [].
Proof.
  intros N1 S1 S2 Hg. unfold binding_list in Hg.
  apply andb_true_iff in Hg as [Gb Gs].
  destruct g as [|g0 g]; [discriminate|].
  exists (map (fun a => [a]) (cs "import")
          ++ [w1; ["{"%char]; w2; g0 :: g] ++ close_pieces).
  split; [|split; [unfold group_text; simpl; rewrite app_nil_r; reflexivity|discriminate]].
  unfold FixAllRemainingImports.relative_pattern. cbn [items].
  apply match_lits. cbn [app].
  apply match_plus; auto; [reflexivity|].
  apply match_one; [reflexivity|].
  apply match_star; auto.
  { simpl. apply negb_true_iff in Gs. exact Gs. }
  apply (match_plus NotRBrace (g0 :: g) _ close_text); auto;
    [discriminate|reflexivity|].
  apply close_match.
Qed.

(** The default-import pattern of fix-moved-imports.py on a
    statement. *)
Lemma default_match N w1 :
  plain N = true -> N <> [] -> w1 <> [] -> spaces w1 = true ->
  exists ps,
    match_items (items (FixMovedImports.pattern2 N old))
      (cs "import" ++ w1 ++ N ++ w4 ++ from_text)
    = Some (ps, rest)
    /\ concat ps <> [].
Proof.
  intros PN NN N1 S1.
  exists (map (fun a => [a]) (cs "import") ++ [w1] ++ map (fun a => [a]) N
          ++ [w4] ++ from_pieces).
  split; [|discriminate].
  unfold FixMovedImports.pattern2. cbn [items].
  rewrite (name_items_plain N PN).
  apply match_lits. cbn [app].
  apply match_plus; auto.
  { destruct N as [|n N]; [contradiction NN; reflexivity|].
    simpl in PN. apply andb_true_iff in PN as [Pn _].
    apply stops_space_plain. exact Pn. }
  apply match_lits. cbn [app].
  apply match_plus; auto; [reflexivity|apply from_match].
Qed.

(** The middle of the named-import pattern of fix-moved-imports.py,
    from the binding name on. *)
Let name_on (N : chars) : list item := lits N ++ [Star NotRBrace] ++ close_items.

Lemma name_on_match N z :
  forallb (fun a => negb (Ascii.eqb a "}")) z = true ->
  match_items (name_on N) (N ++ z ++ close_text)
  = Some (map (fun a => [a]) N ++ [z] ++ close_pieces, rest).
Proof.
  intros Hz. unfold name_on. apply match_lits. cbn [app].
  apply match_star; auto; [reflexivity|apply close_match].
Qed.

Lemma moved_items N :
  plain N = true ->
  items (FixMovedImports.pattern N old)
  = lits (cs "import")
    ++ Plus Space :: One (Lit "{") :: Star Space :: Star NotRBrace :: name_on N.
Proof.
  intros PN. unfold FixMovedImports.pattern, name_on, close_items, from_items.
  cbn [items]. rewrite (name_items_plain N PN).
  repeat (rewrite <- ?app_assoc, <- ?app_comm_cons). reflexivity.
Qed.

Lemma plain_no_rbrace N :
  plain N = true -> forallb (fun a => negb (Ascii.eqb a "}")) N = true.
Proof.
  intros PN. eapply forallb_weaken; [|exact PN]. intros a Ha.
  apply plain_path_char, path_char_facts in Ha as (_ & _ & _ & ->). reflexivity.
Qed.

(** The greedy group of the named-import pattern: wherever the engine
    settles the binding name, the three items of the group take the
    whole binding list between them. *)
Lemma group_match N g1 g2 :
  plain N = true ->
  forallb (fun a => negb (Ascii.eqb a "}")) (g1 ++ N ++ g2) = true ->
  exists a z,
    match_items (Star NotRBrace :: name_on N) ((g1 ++ N ++ g2) ++ close_text)
    = Some (a :: map (fun a => [a]) N ++ [z] ++ close_pieces, rest)
    /\ a ++ N ++ z = g1 ++ N ++ g2.
Proof.
  intros PN Hg. set (g := g1 ++ N ++ g2) in *.
  assert (R : run NotRBrace (g ++ close_text) = length g).
  { apply run_exact; [exact Hg|reflexivity]. }
  cbn [match_items]. rewrite R.
  assert (Hg2 : forallb (fun a => negb (Ascii.eqb a "}")) g2 = true).
  { unfold g in Hg. rewrite !forallb_app in Hg.
    apply andb_true_iff in Hg as [_ Hg]. apply andb_true_iff in Hg as [_ Hg].
    exact Hg. }
  assert (C : backtrack (match_items (name_on N)) (g ++ close_text) 0 (length g)
              <> None).
  { apply backtrack_complete with (m := length g1).
    - lia.
    - unfold g. rewrite !length_app. lia.
    - unfold g. rewrite <- app_assoc, skipn_length_app, <- app_assoc.
      rewrite name_on_match by exact Hg2. discriminate. }
  destruct (backtrack (match_items (name_on N)) (g ++ close_text) 0 (length g))
    as [[ps0 r]|] eqn:B; [|contradiction C; reflexivity].
  apply backtrack_sound in B as (m & ps' & _ & Lm & -> & K).
  assert (F : firstn m (g ++ close_text) = firstn m g).
  { rewrite firstn_app. replace (m - length g) with 0 by lia.
    simpl. apply app_nil_r. }
  assert (Sk : skipn m (g ++ close_text) = skipn m g ++ close_text).
  { rewrite skipn_app. replace (m - length g) with 0 by lia. reflexivity. }
  rewrite Sk in K. rewrite F.
  assert (Ec : exists z, skipn m g = N ++ z).
  { destruct (match_sound _ _ _ _ K) as [Fi Es].
    unfold name_on in Fi.
    apply Forall2_app_inv_l in Fi as (pN & p2 & FN & _ & ->).
    apply fits_lits in FN. rewrite concat_app, FN, <- app_assoc in Es.
    unfold close_text in Es. symmetry in Es.
    apply (prefix_before (fun a => negb (Ascii.eqb a "}")) N (skipn m g) "}"%char
             (w4 ++ from_text) (concat p2 ++ r)); auto.
    apply plain_no_rbrace. exact PN. }
  destruct Ec as (z & Ez).
  assert (Hz : forallb (fun a => negb (Ascii.eqb a "}")) z = true).
  { rewrite <- (firstn_skipn m g), Ez, !forallb_app in Hg.
    apply andb_true_iff in Hg as [_ Hg]. apply andb_true_iff in Hg as [_ Hg].
    exact Hg. }
  rewrite Ez, <- app_assoc, (name_on_match N z Hz) in K.
  inversion K; subst ps' r.
  exists (firstn m g), z. split; [reflexivity|].
  rewrite <- Ez. apply firstn_skipn.
Qed.

(** The named-import pattern of fix-moved-imports.py on a statement:
    the group is the whole binding list. *)
Lemma moved_match N w1 w2 g1 g2 :
  plain N = true -> N <> [] ->
  w1 <> [] -> spaces w1 = true -> spaces w2 = true ->
  binding_list (g1 ++ N ++ g2) = true ->
  exists ps,
    match_items (items (FixMovedImports.pattern N old))
      (cs "import" ++ w1 ++ "{"%char :: w2 ++ (g1 ++ N ++ g2) ++ close_text)
    = Some (ps, rest)
    /\ group_text ps (9, length N + 2) = g1 ++ N ++ g2 /\ concat ps <> [].
Proof.
  intros PN NN N1 S1 S2 Hg. unfold binding_list in Hg.
  apply andb_true_iff in Hg as [Gb Gs].
  destruct (group_match N g1 g2 PN Gb) as (a & z & M & E).
  exists (map (fun a => [a]) (cs "import")
          ++ w1 :: ["{"%char] :: w2 :: a :: map (fun a => [a]) N ++ [z] ++ close_pieces).
  split; [|split; [|discriminate]].
  - rewrite (moved_items N PN). apply match_lits.
    apply match_plus; auto; [reflexivity|].
    apply match_one; [reflexivity|].
    apply match_star; auto.
    destruct (g1 ++ N ++ g2) as [|g0 g]; [discriminate|].
    simpl. apply negb_true_iff in Gs. exact Gs.
  - unfold group_text. cbn [fst snd]. simpl skipn.
    replace (length N + 2) with (S (length (map (fun a : ascii => [a]) N) + 1))
      by (rewrite length_map; lia).
    cbn [firstn]. rewrite firstn_app_2. cbn [app firstn].
    cbn [concat]. rewrite concat_app, concat_singletons. cbn [concat].
    rewrite app_nil_r. exact E.
Qed.

End Statements.

(** ** fix-moved-imports.py and fix-all-remaining-imports.py: the
    properties *)

Lemma list_template_expand r new ps g :
  groups r = [g] ->
  expand r [TLit (cs "import { "); TGroup 1; TLit (cs " } from '" ++ new ++ cs "'")] ps
  = normal_import (group_text ps g) new.
Proof.
  intros G. unfold expand, normal_import. cbn [flat_map expand_part].
  rewrite G. cbn [nth_error]. rewrite app_nil_r. reflexivity.
Qed.

Lemma list_import_text old g w1 w2 w4 w5 q q' rest :
  (cs "import" ++ w1 ++ "{"%char :: w2 ++ g ++ "}"%char :: w4
   ++ cs "from" ++ w5 ++ q :: old ++ [q']) ++ rest
  = cs "import" ++ w1 ++ "{"%char :: w2 ++ g
    ++ "}"%char :: w4 ++ cs "from" ++ w5 ++ q :: old ++ q' :: rest.
Proof.
  repeat (rewrite <- ?app_assoc, <- ?app_comm_cons). reflexivity.
Qed.

(** X7: fix-moved-imports.py keeps the binding list of the statement it
    retargets exactly as written.  For a rule whose binding name is a
    non-empty plain name and whose new path holds no backslash (so that
    it stands for itself in the template [re.sub] reads): a statement
    [import { list } from 'old_path']
    at the head of the content, whose list holds the binding name, is
    replaced by [import { ], the list, [ } from 'new_path']: every
    binding of the list goes to the new path, the white space between
    the list and the closing brace is kept as part of the list (so a
    list written with a space before the brace is followed by two
    spaces), quotes become single quotes, and the text behind the
    statement is processed as if it stood alone. *)
Theorem binding_list_is_kept (e : string * string) (g1 g2 m rest : chars) :
  plain (binding_of e) = true -> binding_of e <> [] ->
  literal_text (cs (snd e)) = true ->
  binding_list (g1 ++ binding_of e ++ g2) = true ->
  list_import (cs (fst e)) (g1 ++ binding_of e ++ g2) m ->
  re_sub (FixMovedImports.pattern (binding_of e) (cs (fst e)))
         (FixMovedImports.replacement (cs (snd e))) (m ++ rest)
  = normal_import (g1 ++ binding_of e ++ g2) (cs (snd e))
    ++ re_sub (FixMovedImports.pattern (binding_of e) (cs (fst e)))
              (FixMovedImports.replacement (cs (snd e))) rest.
Proof.
  intros PN NN _ Hg H.
  destruct H as [w1 w2 w4 w5 q q' N1 S1 S2 N4 S4 N5 S5 Q1 Q2].
  rewrite list_import_text.
  destruct (moved_match (cs (fst e)) rest w4 w5 q q' N4 S4 N5 S5 Q1 Q2
              (binding_of e) w1 w2 g1 g2 PN NN N1 S1 S2 Hg)
    as (ps & M & G & C).
  rewrite (re_sub_hit _ _ _ _ _ M C).
  unfold FixMovedImports.replacement at 1.
  rewrite (list_template_expand
             (FixMovedImports.pattern (binding_of e) (cs (fst e))) (cs (snd e)) ps
             (9, length (binding_of e) + 2) eq_refl), G.
  reflexivity.
Qed.

Lemma binding_list_is_kept_witness :
  let e := ("@/components/challenge-card", "@/components/challenges") in
  let m := cs "import" ++ cs " " ++ "{"%char :: cs " "
           ++ (cs "A, " ++ binding_of e ++ cs " ")
           ++ "}"%char :: cs " " ++ cs "from" ++ cs " "
           ++ "'"%char :: cs (fst e) ++ ["'"%char] in
  re_sub (FixMovedImports.pattern (binding_of e) (cs (fst e)))
         (FixMovedImports.replacement (cs (snd e))) (m ++ cs ";")
  = normal_import (cs "A, " ++ binding_of e ++ cs " ") (cs (snd e))
    ++ re_sub (FixMovedImports.pattern (binding_of e) (cs (fst e)))
              (FixMovedImports.replacement (cs (snd e))) (cs ";").
Proof.
  intros e m.
  refine (binding_list_is_kept e (cs "A, ") (cs " ") m (cs ";") _ _ _ _ _).
  - vm_compute. reflexivity.
  - vm_compute. discriminate.
  - vm_compute. reflexivity.
  - vm_compute. reflexivity.
  - exact (list_import_intro (cs (fst e)) (cs "A, " ++ binding_of e ++ cs " ")
             (cs " ") (cs " ") (cs " ") (cs " ") "'"%char "'"%char
             ltac:(discriminate) eq_refl eq_refl
             ltac:(discriminate) eq_refl ltac:(discriminate) eq_refl
             eq_refl eq_refl).
Defined.

Lemma default_import_text N old w1 w4 w5 q q' rest :
  (cs "import" ++ w1 ++ N ++ w4 ++ cs "from" ++ w5 ++ q :: old ++ [q']) ++ rest
  = cs "import" ++ w1 ++ N ++ w4 ++ cs "from" ++ w5 ++ q :: old ++ q' :: rest.
Proof.
  repeat (rewrite <- ?app_assoc, <- ?app_comm_cons). reflexivity.
Qed.

(** X8: fix-moved-imports.py brings a default import of a rule to one
    normal text.  For a rule whose binding name is a non-empty plain
    name and whose new path holds no backslash (so that the
    replacement, which [re.sub] reads as a template, stands for
    itself): a statement [import Name from 'old_path'] at the head of
    the content, whatever its white space and whichever its quotes, is
    replaced by [import Name from 'new_path'] with single spaces and
    single quotes, and the text behind it is processed as if it stood
    alone. *)
Theorem default_import_is_normalised (e : string * string) (m rest : chars) :
  plain (binding_of e) = true -> binding_of e <> [] ->
  literal_text (cs (snd e)) = true ->
  default_import (binding_of e) (cs (fst e)) m ->
  re_sub (FixMovedImports.pattern2 (binding_of e) (cs (fst e)))
         (FixMovedImports.replacement2 (binding_of e) (cs (snd e))) (m ++ rest)
  = normal_default (binding_of e) (cs (snd e))
    ++ re_sub (FixMovedImports.pattern2 (binding_of e) (cs (fst e)))
              (FixMovedImports.replacement2 (binding_of e) (cs (snd e))) rest.
Proof.
  intros PN NN _ H.
  destruct H as [w1 w4 w5 q q' N1 S1 N4 S4 N5 S5 Q1 Q2].
  rewrite default_import_text.
  destruct (default_match (cs (fst e)) rest w4 w5 q q' N4 S4 N5 S5 Q1 Q2
              (binding_of e) w1 PN NN N1 S1)
    as (ps & M & C).
  rewrite (re_sub_hit _ _ _ _ _ M C).
  unfold FixMovedImports.replacement2 at 1, expand, normal_default.
  cbn [flat_map expand_part]. rewrite app_nil_r. reflexivity.
Qed.

Lemma default_import_is_normalised_witness :
  let e := ("@/components/providers", "@/components/layout/providers") in
  let m := cs "import" ++ cs "  " ++ binding_of e ++ cs " " ++ cs "from"
           ++ cs " " ++ "034"%char :: cs (fst e) ++ ["034"%char] in
  re_sub (FixMovedImports.pattern2 (binding_of e) (cs (fst e)))
         (FixMovedImports.replacement2 (binding_of e) (cs (snd e))) (m ++ cs ";")
  = normal_default (binding_of e) (cs (snd e))
    ++ re_sub (FixMovedImports.pattern2 (binding_of e) (cs (fst e)))
              (FixMovedImports.replacement2 (binding_of e) (cs (snd e))) (cs ";").
Proof.
  intros e m.
  refine (default_import_is_normalised e m (cs ";") _ _ _ _).
  - vm_compute. reflexivity.
  - vm_compute. discriminate.
  - vm_compute. reflexivity.
  - exact (default_import_intro (binding_of e) (cs (fst e))
             (cs "  ") (cs " ") (cs " ") "034"%char "034"%char
             ltac:(discriminate) eq_refl ltac:(discriminate) eq_refl
             ltac:(discriminate) eq_refl eq_refl eq_refl).
Defined.

(** X9: the two branches of fix-all-remaining-imports.py on one
    statement, for a rule whose new path holds no backslash (so that it
    stands for itself in the replacement [re.sub] reads as a
    template).  A rule whose old path starts with [@/components/] does
    what the rule of fix-remaining-imports.py does: the named import of
    the one binding derived from the path is brought to its normal
    text.  Any other rule retargets a named import of its old path
    whatever the bindings: the list between the braces, its trailing
    white space included, is kept as written. *)
Theorem fix_all_branches (e : string * string) (rest : chars) :
  literal_text (cs (snd e)) = true ->
  (starts_with (cs "@/components/") (cs (fst e)) = true ->
   forall m,
     plain (binding_of e) = true -> binding_of e <> [] ->
     path_text (cs (fst e)) = true ->
     named_import (binding_of e) (cs (fst e)) m ->
     FixAllRemainingImports.fix_entry (m ++ rest) e
     = normal_import (binding_of e) (cs (snd e))
       ++ FixAllRemainingImports.fix_entry rest e)
  /\ (starts_with (cs "@/components/") (cs (fst e)) = false ->
      forall g m,
        binding_list g = true -> list_import (cs (fst e)) g m ->
        FixAllRemainingImports.fix_entry (m ++ rest) e
        = normal_import g (cs (snd e))
          ++ FixAllRemainingImports.fix_entry rest e).
Proof.
  intros _. split; intros B.
  - intros m PN NN Po H.
    assert (E : forall c, FixAllRemainingImports.fix_entry c e
                          = FixRemainingImports.fix_entry c e).
    { intros c. rewrite fr_fix_entry.
      unfold FixAllRemainingImports.fix_entry. rewrite B. reflexivity. }
    rewrite !E. apply named_import_is_normalised_text; auto.
  - intros g m Hg H.
    unfold FixAllRemainingImports.fix_entry. rewrite B.
    destruct H as [w1 w2 w4 w5 q q' N1 S1 S2 N4 S4 N5 S5 Q1 Q2].
    rewrite list_import_text.
    destruct (relative_match (cs (fst e)) rest w4 w5 q q' N4 S4 N5 S5 Q1 Q2
                w1 w2 g N1 S1 S2 Hg)
      as (ps & M & G & C).
    rewrite (re_sub_hit _ _ _ _ _ M C).
    unfold FixAllRemainingImports.relative_replacement at 1.
    rewrite (list_template_expand
               (FixAllRemainingImports.relative_pattern (cs (fst e))) (cs (snd e)) ps
               (9, 1) eq_refl), G.
    reflexivity.
Qed.

Lemma fix_all_branches_witness :
  let e := ("./create-node-relationship-dialog",
            "../forms/create-node-relationship-dialog") in
  let m := cs "import" ++ cs " " ++ "{"%char :: cs " " ++ cs "A, B "
           ++ "}"%char :: cs " " ++ cs "from" ++ cs " "
           ++ "'"%char :: cs (fst e) ++ ["'"%char] in
  FixAllRemainingImports.fix_entry (m ++ cs ";") e
  = normal_import (cs "A, B ") (cs (snd e))
    ++ FixAllRemainingImports.fix_entry (cs ";") e.
Proof.
  intros e m.
  refine (proj2 (fix_all_branches e (cs ";") _) _ (cs "A, B ") m _ _).
  - vm_compute. reflexivity.
  - vm_compute. reflexivity.
  - vm_compute. reflexivity.
  - exact (list_import_intro (cs (fst e)) (cs "A, B ")
             (cs " ") (cs " ") (cs " ") (cs " ") "'"%char "'"%char
             ltac:(discriminate) eq_refl eq_refl
             ltac:(discriminate) eq_refl ltac:(discriminate) eq_refl
             eq_refl eq_refl).
Defined.

(** ** remove-inline-styles.py *)

Section Deleting.

Variable r : regex.

(** A substitution by the empty text only leaves characters out. *)
Lemma sub_scan_subseq : forall s skip, subseq (sub_scan r [] s skip) s.
Proof.
  induction s as [|a s IH]; intros skip.
  - cbn [sub_scan]. destruct skip; [|constructor].
    destruct (match_items (items r) []) as [[ps ?]|]; constructor.
  - cbn [sub_scan]. destruct skip as [|k].
    + destruct (match_items (items r) (a :: s)) as [[ps rest]|].
      * destruct (length (concat ps)).
        -- change (expand r [] ps) with (@nil ascii). simpl.
           constructor. apply IH.
        -- change (expand r [] ps) with (@nil ascii). simpl.
           constructor. apply IH.
      * constructor. apply IH.
    + constructor. apply IH.
Qed.

Lemma subseq_length s t : subseq s t -> length s <= length t.
Proof. induction 1; simpl; lia. Qed.

End Deleting.

Section Words.

Lemma count_word_suffix w : forall x y, count_word w y <= count_word w (x ++ y).
Proof.
  induction x as [|a x IH]; intros y; simpl; [lia|].
  specialize (IH y). lia.
Qed.

Lemma count_word_here w rest : 1 <= count_word w (w ++ rest).
Proof.
  destruct w as [|a w]; simpl.
  - destruct rest; simpl; lia.
  - rewrite Ascii.eqb_refl, starts_with_app. simpl. lia.
Qed.

(** A pattern that holds a literal word matches only a text in which
    the word occurs. *)
Lemma word_match_start p1 w p2 y ps rest :
  match_items (p1 ++ lits w ++ p2) y = Some (ps, rest) ->
  1 <= count_word w y.
Proof.
  intros M. apply match_sound in M as [F ->].
  apply Forall2_app_inv_l in F as (q1 & q2 & _ & F & ->).
  apply Forall2_app_inv_l in F as (qw & q3 & Fw & _ & ->).
  apply fits_lits in Fw.
  rewrite !concat_app, Fw. rewrite <- !app_assoc.
  eapply Nat.le_trans; [|apply count_word_suffix].
  apply count_word_here.
Qed.

Lemma absent_clean r p1 w p2 c :
  items r = p1 ++ lits w ++ p2 ->
  absent w c = true -> clean r c.
Proof.
  intros E H x y Exy. rewrite E.
  destruct (match_items _ y) as [[ps rest]|] eqn:M; auto.
  apply word_match_start in M. subst c.
  unfold absent in H. apply Nat.eqb_eq in H.
  pose proof (count_word_suffix w x y). lia.
Qed.

End Words.

Lemma border_match w0 w1 w2 w3 q q' rest :
  spaces w0 = true -> spaces w1 = true -> spaces w2 = true -> spaces w3 = true ->
  is_quote q = true -> is_quote q' = true ->
  exists ps,
    match_items (items RemoveInlineStyles.border_width_pattern)
      (w0 ++ cs "style={{" ++ w1 ++ cs "borderWidth:" ++ w2
       ++ q :: cs "1px" ++ q' :: w3 ++ cs "}}" ++ rest)
    = Some (ps, rest)
    /\ concat ps <> [].
Proof.
  intros S0 S1 S2 S3 Q1 Q2.
  exists (w0 :: map (fun a => [a]) (cs "style={{") ++ w1
          :: map (fun a => [a]) (cs "borderWidth:") ++ w2 :: [q]
          :: map (fun a => [a]) (cs "1px") ++ [q'] :: w3
          :: map (fun a => [a]) (cs "}}")).
  split.
  - unfold RemoveInlineStyles.border_width_pattern. cbn [items].
    change ([Star Space] ++ lits (cs "style={{") ++ [Star Space]
            ++ lits (cs "borderWidth:") ++ [Star Space; One Quote]
            ++ lits (cs "1px") ++ [One Quote; Star Space] ++ lits (cs "}}"))
      with (Star Space :: lits (cs "style={{") ++ Star Space
            :: lits (cs "borderWidth:") ++ Star Space :: One Quote
            :: lits (cs "1px") ++ One Quote :: Star Space :: lits (cs "}}") ++ []).
    apply match_star; [exact S0|reflexivity|].
    apply match_lits.
    apply match_star; [exact S1|reflexivity|].
    apply match_lits.
    apply match_star; [exact S2|apply stops_space_quote; exact Q1|].
    apply match_one; [exact Q1|].
    apply match_lits.
    apply match_one; [exact Q2|].
    apply match_star; [exact S3|reflexivity|].
    rewrite <- (app_nil_r (map (fun a => [a]) (cs "}}"))).
    apply match_lits. reflexivity.
  - destruct w0; discriminate.
Qed.

(** X10: remove-inline-styles.py only takes the attribute out.
    [remove_border_width_styles] leaves characters out and adds none
    (its result is the content with some characters removed, so never
    longer); a content in which [style={{], [borderWidth:] or [1px]
    does not occur is returned as it is; and an attribute
    [style={{ borderWidth: '1px' }}] at the head of the content,
    whatever its inner white space and whichever its quotes, goes with
    the white space before it, the text behind it being processed as if
    it stood alone. *)
Theorem border_width_attribute_removed (content : chars) :
  subseq (RemoveInlineStyles.remove_border_width_styles content) content
  /\ length (RemoveInlineStyles.remove_border_width_styles content)
     <= length content
  /\ (absent (cs "style={{") content = true
      \/ absent (cs "borderWidth:") content = true
      \/ absent (cs "1px") content = true ->
      RemoveInlineStyles.remove_border_width_styles content = content)
  /\ (forall attr rest,
        border_attr attr -> content = attr ++ rest ->
        RemoveInlineStyles.remove_border_width_styles content
        = RemoveInlineStyles.remove_border_width_styles rest).
Proof.
  unfold RemoveInlineStyles.remove_border_width_styles, re_sub.
  split; [apply sub_scan_subseq|].
  split; [apply subseq_length; apply sub_scan_subseq|].
  split.
  - intros H. apply re_sub_clean.
    destruct H as [H|[H|H]].
    + apply (absent_clean _ [Star Space] (cs "style={{")
               ([Star Space] ++ lits (cs "borderWidth:") ++ [Star Space; One Quote]
                ++ lits (cs "1px") ++ [One Quote; Star Space] ++ lits (cs "}}")));
        [reflexivity|exact H].
    + apply (absent_clean _
               ([Star Space] ++ lits (cs "style={{") ++ [Star Space])
               (cs "borderWidth:")
               ([Star Space; One Quote]
                ++ lits (cs "1px") ++ [One Quote; Star Space] ++ lits (cs "}}")));
        [reflexivity|exact H].
    + apply (absent_clean _
               ([Star Space] ++ lits (cs "style={{") ++ [Star Space]
                ++ lits (cs "borderWidth:") ++ [Star Space; One Quote])
               (cs "1px")
               ([One Quote; Star Space] ++ lits (cs "}}")));
        [reflexivity|exact H].
  - intros attr rest H ->.
    destruct H as [w0 w1 w2 w3 q q' S0 S1 S2 S3 Q1 Q2].
    destruct (border_match w0 w1 w2 w3 q q' rest S0 S1 S2 S3 Q1 Q2)
      as (ps & M & C).
    assert (E : (w0 ++ cs "style={{" ++ w1 ++ cs "borderWidth:" ++ w2
                 ++ q :: cs "1px" ++ q' :: w3 ++ cs "}}") ++ rest
                = w0 ++ cs "style={{" ++ w1 ++ cs "borderWidth:" ++ w2
                  ++ q :: cs "1px" ++ q' :: w3 ++ cs "}}" ++ rest).
    { repeat (rewrite <- ?app_assoc, <- ?app_comm_cons). reflexivity. }
    rewrite E.
    change (sub_scan RemoveInlineStyles.border_width_pattern [] ?s 0)
      with (re_sub RemoveInlineStyles.border_width_pattern [] s).
    rewrite (re_sub_hit _ _ _ _ _ M C). reflexivity.
Qed.

Lemma border_width_attribute_removed_witness :
  RemoveInlineStyles.remove_border_width_styles
    ((cs " " ++ cs "style={{" ++ cs " " ++ cs "borderWidth:" ++ cs " "
      ++ "'"%char :: cs "1px" ++ "'"%char :: cs " " ++ cs "}}") ++ cs ">")
  = RemoveInlineStyles.remove_border_width_styles (cs ">").
Proof.
  refine (proj2 (proj2 (proj2 (border_width_attribute_removed _))) _ (cs ">") _ eq_refl).
  exact (border_attr_intro (cs " ") (cs " ") (cs " ") (cs " ") "'"%char "'"%char
           eq_refl eq_refl eq_refl eq_refl eq_refl eq_refl).
Defined.

(** The tag keeps its other attributes; and a removal can bring the
    two halves of a further attribute together, which only a second
    run removes. *)
Example border_width_in_a_tag :
  RemoveInlineStyles.remove_border_width_styles
    (cs "<div className='border' style={{ borderWidth: '1px' }}>")
  = cs "<div className='border'>".
Proof. vm_compute. reflexivity. Qed.

Example removal_can_uncover_an_attribute :
  let c := cs "<a style={{ border style={{borderWidth:'1px'}}Width: '1px' }}>" in
  RemoveInlineStyles.remove_border_width_styles c
  = cs "<a style={{ borderWidth: '1px' }}>"
  /\ RemoveInlineStyles.remove_border_width_styles
       (RemoveInlineStyles.remove_border_width_styles c)
     = cs "<a>".
Proof. vm_compute. split; reflexivity. Qed.

(** ** fix-barrel-exports.py *)

Lemma replace_scan_skip old new x : forall rest,
  replace_scan old new (x ++ rest) (length x) = replace_scan old new rest 0.
Proof.
  induction x as [|a x IH]; intros rest; simpl; auto.
Qed.

Lemma count_scan_str_skip old x : forall rest,
  count_scan_str old (x ++ rest) (length x) = count_scan_str old rest 0.
Proof.
  induction x as [|a x IH]; intros rest; simpl; auto.
Qed.

Section Replace.

Variables old new : chars.

Hypothesis old_nonempty : old <> [].

Lemma starts_with_split : forall w s,
  starts_with w s = true -> exists rest, s = w ++ rest.
Proof.
  induction w as [|a w IH]; intros s H.
  - exists s. reflexivity.
  - destruct s as [|b s]; [discriminate|]. simpl in H.
    apply andb_true_iff in H as [E H]. apply Ascii.eqb_eq in E. subst b.
    destruct (IH s H) as (rest & ->). exists rest. reflexivity.
Qed.

(** An occurrence at the head is replaced, and the text behind it is
    processed as if it stood alone. *)
Lemma replace_hit rest :
  str_replace old new (old ++ rest) = new ++ str_replace old new rest.
Proof.
  unfold str_replace. destruct old as [|a o] eqn:E; [contradiction old_nonempty; reflexivity|].
  change ((a :: o) ++ rest) with (a :: (o ++ rest)).
  cbn [replace_scan].
  change (a :: (o ++ rest)) with ((a :: o) ++ rest).
  rewrite starts_with_app. f_equal.
  replace (length (a :: o) - 1) with (length o) by (simpl; lia).
  apply replace_scan_skip.
Qed.

Lemma replace_miss a s :
  starts_with old (a :: s) = false ->
  str_replace old new (a :: s) = a :: str_replace old new s.
Proof.
  intros H. unfold str_replace.
  destruct old as [|b o] eqn:E; [contradiction old_nonempty; reflexivity|].
  cbn [replace_scan]. rewrite H. reflexivity.
Qed.

Lemma count_hit_str rest : str_count old (old ++ rest) = S (str_count old rest).
Proof.
  unfold str_count. destruct old as [|a o] eqn:E; [contradiction old_nonempty; reflexivity|].
  change ((a :: o) ++ rest) with (a :: (o ++ rest)).
  cbn [count_scan_str].
  change (a :: (o ++ rest)) with ((a :: o) ++ rest).
  rewrite starts_with_app. f_equal.
  replace (length (a :: o) - 1) with (length o) by (simpl; lia).
  apply count_scan_str_skip.
Qed.

Lemma count_miss_str a s :
  starts_with old (a :: s) = false -> str_count old (a :: s) = str_count old s.
Proof.
  intros H. unfold str_count. cbn [count_scan_str]. rewrite H. reflexivity.
Qed.

Lemma replace_nil : str_replace old new [] = [].
Proof.
  unfold str_replace. destruct old; [contradiction old_nonempty; reflexivity|].
  reflexivity.
Qed.

(** The length of the result, from the count of the occurrences. *)
Lemma replace_length : forall s,
  length (str_replace old new s) + str_count old s * length old
  = length s + str_count old s * length new.
Proof.
  intros s. remember (length s) as n eqn:En. revert s En.
  induction n as [n IH] using lt_wf_ind. intros s En.
  destruct s as [|a s]; [subst n; rewrite replace_nil; reflexivity|].
  destruct (starts_with old (a :: s)) eqn:H.
  - destruct (starts_with_split _ _ H) as (rest & E).
    assert (L : length rest < n).
    { rewrite En, E, length_app. destruct old; [contradiction old_nonempty; reflexivity|].
      simpl. lia. }
    specialize (IH (length rest) L rest eq_refl).
    rewrite En, E, replace_hit, count_hit_str.
    rewrite !length_app. lia.
  - assert (L : length s < n) by (rewrite En; simpl; lia).
    specialize (IH (length s) L s eq_refl).
    rewrite En, replace_miss, count_miss_str by exact H.
    simpl length. lia.
Qed.

Lemma count_word_zero_head a s :
  count_word old (a :: s) = 0 ->
  starts_with old (a :: s) = false /\ count_word old s = 0.
Proof.
  cbn [count_word]. destruct (starts_with old (a :: s)); [lia|].
  intros H. split; [reflexivity|exact H].
Qed.

(** A text in which the old word does not occur is returned as it
    is. *)
Lemma replace_absent : forall s,
  absent old s = true -> str_replace old new s = s /\ str_count old s = 0.
Proof.
  unfold absent. induction s as [|a s IH]; intros H.
  - rewrite replace_nil. split; reflexivity.
  - apply Nat.eqb_eq in H. apply count_word_zero_head in H as [H0 H1].
    rewrite replace_miss, count_miss_str by exact H0.
    destruct IH as [-> ->]; [apply Nat.eqb_eq; exact H1|].
    split; reflexivity.
Qed.

End Replace.

Lemma from_nonempty old : cs "from '" ++ old <> [].
Proof. discriminate. Qed.

(** X11: what fix-barrel-exports.py replaces.  For every replacement
    (old path, new path) of the table: a text [from 'old_path] at the
    head of the content becomes [from 'new_path] and the text behind it
    is processed as if it stood alone; a content in which [from
    'old_path] does not occur (an export written with double quotes,
    for one) is returned as it is; and the result is as long as the
    content, less the old path and plus the new path once for every
    occurrence [str.count] counts. *)
Theorem barrel_replacement (r : string * string) (content : chars) :
  (forall rest,
     content = cs "from '" ++ cs (fst r) ++ rest ->
     FixBarrelExports.fix_one content r
     = cs "from '" ++ cs (snd r) ++ FixBarrelExports.fix_one rest r)
  /\ (absent (cs "from '" ++ cs (fst r)) content = true ->
      FixBarrelExports.fix_one content r = content)
  /\ length (FixBarrelExports.fix_one content r)
     + str_count (cs "from '" ++ cs (fst r)) content * length (cs (fst r))
     = length content
       + str_count (cs "from '" ++ cs (fst r)) content * length (cs (snd r)).
Proof.
  unfold FixBarrelExports.fix_one. repeat split.
  - intros rest ->.
    rewrite (app_assoc (cs "from '") (cs (fst r)) rest).
    rewrite replace_hit by apply from_nonempty.
    rewrite <- app_assoc. reflexivity.
  - intros H. apply replace_absent; [apply from_nonempty|exact H].
  - pose proof (replace_length (cs "from '" ++ cs (fst r)) (cs "from '" ++ cs (snd r))
                  (from_nonempty _) content) as L.
    rewrite !length_app in L. nia.
Qed.

Lemma barrel_replacement_witness :
  FixBarrelExports.fix_one (cs "export * from " ++ "034"%char :: cs "./media/x" ++ ["034"%char]) ("./media/", "./")
  = cs "export * from " ++ "034"%char :: cs "./media/x" ++ ["034"%char].
Proof.
  apply (proj1 (proj2 (barrel_replacement ("./media/", "./") _))).
  vm_compute. reflexivity.
Defined.

(** A nested directory loses one level per run. *)
Example barrel_path_nested :
  FixBarrelExports.fix_content [("./media/", "./")]
    (cs "export * from './media/media/x'")
  = cs "export * from './media/x'"
  /\ FixBarrelExports.fix_content [("./media/", "./")]
       (cs "export * from './media/x'")
     = cs "export * from './x'".
Proof. vm_compute. split; reflexivity. Qed.

(** ** The search for files *)

Section Trees.

Lemma node_induction (P : Tree.node -> Prop) :
  P Tree.File ->
  (forall es, Forall (fun e => P (snd e)) es -> P (Tree.Dir es)) ->
  forall n, P n.
Proof.
  intros HF HD. fix IH 1. intros [|es].
  - exact HF.
  - apply HD. induction es as [|e es IHes]; constructor.
    + apply IH.
    + exact IHes.
Qed.

Lemma cs_append a b : cs (a ++ b)%string = cs a ++ cs b.
Proof.
  unfold cs. induction a as [|c a IH]; simpl; auto. rewrite IH. reflexivity.
Qed.

Lemma cs_nonempty s : s <> ""%string -> cs s <> [].
Proof. destruct s; [intros H; contradiction H; reflexivity|discriminate]. Qed.

Lemma name_ok_facts name :
  name_ok name = true ->
  cs name <> [] /\ forallb (fun a => negb (Ascii.eqb a "/")) (cs name) = true.
Proof.
  unfold name_ok. intros H. apply andb_true_iff in H as [H1 H2].
  split; auto. apply cs_nonempty. intros E. subst. discriminate.
Qed.

Lemma ends_with_slash_last s a :
  Ascii.eqb a "/" = false -> starts_with (cs "/") (rev (s ++ [a])) = false.
Proof.
  intros H. rewrite rev_app_distr. simpl. rewrite H. reflexivity.
Qed.

Lemma path_join_ok top name :
  proper top = true -> name_ok name = true ->
  Tree.path_join top name = (top ++ "/" ++ name)%string
  /\ proper (top ++ "/" ++ name)%string = true.
Proof.
  intros Ht Hn. destruct (name_ok_facts name Hn) as [Ne Ns].
  unfold proper in Ht. apply andb_true_iff in Ht as [T1 T2].
  apply negb_true_iff in T1, T2.
  split.
  - unfold Tree.path_join.
    assert (S : starts_with (cs "/") (cs name) = false).
    { destruct (cs name) as [|a l]; [reflexivity|]. simpl in Ns.
      apply andb_true_iff in Ns as [Na _]. apply negb_true_iff in Na.
      simpl. rewrite Na. reflexivity. }
    rewrite S, T1, T2. reflexivity.
  - unfold proper. apply andb_true_iff. split.
    + apply negb_true_iff. apply String.eqb_neq. intros E.
      apply (f_equal cs) in E. rewrite cs_append in E.
      destruct (cs top) eqn:C; [|discriminate E].
      apply String.eqb_neq in T1. apply T1. apply cs_inj. rewrite C. reflexivity.
    + apply negb_true_iff. unfold ends_with. rewrite !cs_append.
      destruct (exists_last Ne) as (l & a & El). rewrite El.
      change (cs "/" ++ l ++ [a]) with (("/"%char :: l) ++ [a]).
      rewrite app_assoc. apply ends_with_slash_last.
      rewrite El, forallb_app in Ns. apply andb_true_iff in Ns as [_ Ns].
      simpl in Ns. rewrite andb_true_r in Ns. apply negb_true_iff in Ns. exact Ns.
Qed.

Lemma path_of_cons top d names :
  path_of top (d :: names) = path_of (top ++ "/" ++ d)%string names.
Proof. reflexivity. Qed.

Lemma map_flat_map {A B C : Type} (f : B -> C) (g : A -> list B) l :
  map f (flat_map g l) = flat_map (fun x => map f (g x)) l.
Proof.
  induction l as [|x l IH]; simpl; auto. rewrite map_app, IH. reflexivity.
Qed.

Lemma flat_map_ext_in {A B : Type} (f g : A -> list B) l :
  (forall x, In x l -> f x = g x) -> flat_map f l = flat_map g l.
Proof.
  induction l as [|x l IH]; intros H; simpl; auto.
  rewrite (H x (or_introl eq_refl)), IH; auto.
  intros y I. apply H. right; auto.
Qed.

(** [os.walk] on a directory: its own files, then the kept directories
    in turn. *)
Lemma walk_enter (prune : list string -> list string) top kept
  (F : string * list string * list string -> list Fs.path) :
  forall es,
    flat_map F
      ((fix enter (es : list (string * Tree.node)) :=
          match es with
          | [] => []
          | (name, sub) :: es' =>
              (if Tree.is_dir sub && existsb (String.eqb name) kept
               then Tree.walk prune (Tree.path_join top name) sub
               else [])
              ++ enter es'
          end) es)
    = flat_map (fun e =>
                  if Tree.is_dir (snd e) && existsb (String.eqb (fst e)) kept
                  then flat_map F (Tree.walk prune (Tree.path_join top (fst e)) (snd e))
                  else []) es.
Proof.
  induction es as [|[name sub] es IH]; [reflexivity|].
  rewrite flat_map_app, IH. cbn [flat_map fst snd].
  destruct (Tree.is_dir sub && existsb (String.eqb name) kept); reflexivity.
Qed.

Lemma walk_ts_files_dir top es :
  Tree.walk_ts_files top (Tree.Dir es)
  = map (Tree.path_join top) (filter Tree.ts_file (Tree.files_of es))
    ++ flat_map (fun e =>
                   if Tree.is_dir (snd e)
                      && existsb (String.eqb (fst e))
                           (Tree.prune_node_modules (Tree.dirs_of es))
                   then Tree.walk_ts_files (Tree.path_join top (fst e)) (snd e)
                   else []) es.
Proof.
  unfold Tree.walk_ts_files at 1. cbn [Tree.walk]. cbv zeta.
  cbn [flat_map]. f_equal. apply walk_enter.
Qed.

Lemma names_distinct_NoDup l : names_distinct l = true -> NoDup l.
Proof.
  induction l as [|x l IH]; simpl; intros H; constructor.
  - apply andb_true_iff in H as [H _]. apply negb_true_iff in H.
    intros I.
    assert (X : existsb (String.eqb x) l = true).
    { apply existsb_exists. exists x. split; auto. apply String.eqb_refl. }
    congruence.
  - apply andb_true_iff in H as [_ H]. auto.
Qed.

Lemma existsb_eqb_In x l : existsb (String.eqb x) l = true <-> In x l.
Proof.
  rewrite existsb_exists. split.
  - intros (y & I & E). apply String.eqb_eq in E. subst. exact I.
  - intros I. exists x. split; auto. apply String.eqb_refl.
Qed.

Lemma remove_first_In x y l :
  NoDup l -> (In x (Tree.remove_first y l) <-> In x l /\ x <> y).
Proof.
  induction l as [|z l IH]; intros ND; simpl.
  - tauto.
  - inversion ND as [|? ? Hz ND']; subst.
    destruct (String.eqb_spec z y) as [->|Nzy].
    + split.
      * intros I. split; [right; exact I|]. intros ->. contradiction.
      * intros [[->|I] N]; [contradiction N; reflexivity|exact I].
    + simpl. rewrite (IH ND'). split.
      * intros [->|[I N]]; [split; [left; reflexivity|exact Nzy]|].
        split; [right; exact I|exact N].
      * intros [[->|I] N]; [left; reflexivity|right; split; auto].
Qed.

Lemma prune_In x l :
  NoDup l ->
  (In x (Tree.prune_node_modules l) <-> In x l /\ x <> "node_modules"%string).
Proof.
  intros ND. unfold Tree.prune_node_modules.
  destruct (existsb (String.eqb "node_modules") l) eqn:E.
  - apply remove_first_In. exact ND.
  - split; [|tauto]. intros I. split; auto. intros ->.
    apply existsb_eqb_In in I. congruence.
Qed.

Lemma NoDup_filter_map (es : list (string * Tree.node)) f :
  NoDup (map fst es) -> NoDup (map fst (filter f es)).
Proof.
  induction es as [|e es IH]; simpl; intros ND; [constructor|].
  inversion ND as [|? ? He ND']; subst.
  destruct (f e); simpl; auto. constructor; auto.
  intros I. apply He. apply in_map_iff in I as (e' & E & I).
  apply filter_In in I as [I _]. apply in_map_iff. exists e'. auto.
Qed.

(** On a directory with distinct names, a directory is entered exactly
    when it is not [node_modules]. *)
Lemma kept_dir es e :
  NoDup (map fst es) -> In e es -> Tree.is_dir (snd e) = true ->
  existsb (String.eqb (fst e)) (Tree.prune_node_modules (Tree.dirs_of es))
  = negb (String.eqb (fst e) "node_modules").
Proof.
  intros ND I D.
  assert (NDd : NoDup (Tree.dirs_of es)) by (apply NoDup_filter_map; exact ND).
  assert (Id : In (fst e) (Tree.dirs_of es)).
  { unfold Tree.dirs_of. apply in_map. apply filter_In. auto. }
  destruct (String.eqb_spec (fst e) "node_modules") as [E|N]; simpl.
  - destruct (existsb _ _) eqn:X; auto.
    apply existsb_eqb_In in X. apply (prune_In _ _ NDd) in X as [_ X].
    contradiction.
  - apply existsb_eqb_In. apply (prune_In _ _ NDd). auto.
Qed.

Lemma wf_dir es :
  wf (Tree.Dir es) = true ->
  NoDup (map fst es)
  /\ (forall e, In e es -> name_ok (fst e) = true /\ wf (snd e) = true).
Proof.
  cbn [wf]. intros H. apply andb_true_iff in H as [H W].
  apply andb_true_iff in H as [D N].
  split; [apply names_distinct_NoDup; exact D|].
  intros e I. rewrite forallb_forall in N, W. split.
  - apply N. apply in_map. exact I.
  - apply W. exact I.
Qed.

(** The files handed over, as paths of lists of names. *)
Lemma walk_paths : forall t top,
  wf t = true -> proper top = true ->
  Tree.walk_ts_files top t = map (path_of top) (walk_names t).
Proof.
  induction t as [|es IH] using node_induction; intros top W P.
  - reflexivity.
  - destruct (wf_dir es W) as [ND Hes].
    rewrite walk_ts_files_dir. cbn [walk_names]. rewrite map_app. f_equal.
    + rewrite map_map. apply map_ext_in. intros name I.
      apply filter_In in I as [I _]. unfold Tree.files_of in I.
      apply in_map_iff in I as (e & <- & I). apply filter_In in I as [I _].
      destruct (Hes e I) as [Hn _].
      destruct (path_join_ok top (fst e) P Hn) as [-> _]. reflexivity.
    + rewrite map_flat_map. apply flat_map_ext_in. intros e I.
      destruct (Hes e I) as [Hn He].
      destruct (Tree.is_dir (snd e)) eqn:D; [|reflexivity].
      rewrite (kept_dir es e ND I D). cbn [andb].
      destruct (negb (String.eqb (fst e) "node_modules")); [|reflexivity].
      destruct (path_join_ok top (fst e) P Hn) as [-> P'].
      rewrite Forall_forall in IH. rewrite (IH e I _ He P').
      rewrite map_map. reflexivity.
Qed.

Lemma find_entry_In es e :
  NoDup (map fst es) -> In e es -> find_entry (fst e) es = Some (snd e).
Proof.
  induction es as [|[n sub] es IH]; intros ND I; [destruct I|].
  simpl in ND. inversion ND as [|? ? Hn ND']; subst.
  cbn [find_entry]. destruct I as [<-|I].
  - cbn [fst snd]. rewrite String.eqb_refl. reflexivity.
  - destruct (String.eqb_spec n (fst e)) as [E|N]; [|apply IH; auto].
    exfalso. apply Hn. rewrite E. apply in_map. exact I.
Qed.

Lemma find_entry_Some name es sub :
  find_entry name es = Some sub -> In (name, sub) es.
Proof.
  induction es as [|[n s0] es IH]; [discriminate|].
  cbn [find_entry]. destruct (String.eqb_spec n name) as [->|N].
  - intros E. inversion E; subst. left. reflexivity.
  - intros E. right. apply IH. exact E.
Qed.

Lemma not_dir_file n : Tree.is_dir n = false -> n = Tree.File.
Proof. destruct n; [reflexivity|discriminate]. Qed.

Lemma resolve_file names : names <> [] -> resolve Tree.File names = None.
Proof. destruct names; [intros H; contradiction H; reflexivity|reflexivity]. Qed.

(** The files handed over are the files with the extension that are
    reached through directories other than [node_modules]. *)
Lemma walk_names_spec : forall t,
  wf t = true ->
  forall c,
    In c (walk_names t)
    <-> exists dirs name,
          c = dirs ++ [name] /\ resolve t c = Some Tree.File
          /\ Tree.ts_file name = true /\ ~ In "node_modules"%string dirs.
Proof.
  induction t as [|es IH] using node_induction; intros W c.
  - split; [intros []|].
    intros (dirs & name & -> & R & _). rewrite resolve_file in R; [discriminate|].
    destruct dirs; discriminate.
  - destruct (wf_dir es W) as [ND Hes]. rewrite Forall_forall in IH.
    cbn [walk_names]. rewrite in_app_iff. split.
    + intros [I|I].
      * apply in_map_iff in I as (name & <- & I).
        apply filter_In in I as [I T]. unfold Tree.files_of in I.
        apply in_map_iff in I as (e & <- & I). apply filter_In in I as [I D].
        apply negb_true_iff in D. apply not_dir_file in D.
        exists [], (fst e). repeat split; auto.
        cbn [app resolve]. rewrite (find_entry_In es e ND I), D. reflexivity.
      * apply in_flat_map in I as (e & Ie & I).
        destruct (Tree.is_dir (snd e)) eqn:D; [|destruct I].
        destruct (String.eqb_spec (fst e) "node_modules") as [E|N]; [destruct I|].
        cbn [andb negb] in I. apply in_map_iff in I as (c' & <- & I).
        destruct (Hes e Ie) as [_ We].
        apply (IH e Ie We) in I as (dirs & name & -> & R & T & Nn).
        exists (fst e :: dirs), name. repeat split; auto.
        -- cbn [resolve]. rewrite (find_entry_In es e ND Ie). exact R.
        -- intros [E|I']; [apply N; exact E|contradiction].
    + intros (dirs & name & -> & R & T & Nn). destruct dirs as [|d dirs].
      * left. cbn [app resolve] in R.
        destruct (find_entry name es) as [sub|] eqn:F; [|discriminate].
        inversion R; subst sub. apply find_entry_Some in F.
        apply in_map_iff. exists name. split; auto.
        apply filter_In. split; auto. unfold Tree.files_of.
        apply in_map_iff. exists (name, Tree.File). split; auto.
        apply filter_In. split; auto.
      * right. cbn [app resolve] in R.
        destruct (find_entry d es) as [sub|] eqn:F; [|discriminate].
        apply find_entry_Some in F.
        apply in_flat_map. exists (d, sub). split; auto. cbn [fst snd].
        assert (D : Tree.is_dir sub = true).
        { destruct sub; [|reflexivity].
          rewrite resolve_file in R; [discriminate|]. destruct dirs; discriminate. }
        rewrite D.
        destruct (String.eqb_spec d "node_modules") as [E|N].
        { exfalso. apply Nn. left. exact E. }
        cbn [andb negb]. apply in_map_iff. exists (dirs ++ [name]).
        split; [reflexivity|].
        destruct (Hes (d, sub) F) as [_ We].
        apply (IH (d, sub) F We). exists dirs, name. repeat split; auto.
        intros I. apply Nn. right. exact I.
Qed.

Lemma NoDup_flat_map_fst (es : list (string * Tree.node))
  (g : string * Tree.node -> list (list string)) :
  NoDup (map fst es) ->
  (forall e, In e es -> NoDup (g e)) ->
  (forall e c, In e es -> In c (g e) -> exists c', c = fst e :: c') ->
  NoDup (flat_map g es).
Proof.
  induction es as [|e es IH]; intros ND Hg Hc; simpl; [constructor|].
  inversion ND as [|? ? He ND']; subst.
  apply NoDup_app.
  - apply Hg. left; reflexivity.
  - apply IH; auto.
    + intros e' I. apply Hg. right; auto.
    + intros e' c I. apply Hc. right; auto.
  - intros c I1 I2.
    destruct (Hc e c (or_introl eq_refl) I1) as (c1 & E1).
    apply in_flat_map in I2 as (e' & Ie' & I2).
    destruct (Hc e' c (or_intror Ie') I2) as (c2 & E2).
    apply He. rewrite E1 in E2. inversion E2 as [[Ef Ec]]. rewrite Ef.
    apply in_map. exact Ie'.
Qed.

Lemma NoDup_map_inj {A B : Type} (f : A -> B) l :
  (forall x y, In x l -> In y l -> f x = f y -> x = y) ->
  NoDup l -> NoDup (map f l).
Proof.
  induction l as [|a l IH]; intros Hf ND; simpl; [constructor|].
  inversion ND as [|? ? Ha ND']; subst. constructor.
  - intros I. apply in_map_iff in I as (y & E & I).
    apply Ha. rewrite (Hf a y); auto; [left; reflexivity|right; exact I].
  - apply IH; auto. intros x y Ix Iy. apply Hf; right; auto.
Qed.

Lemma walk_names_NoDup : forall t, wf t = true -> NoDup (walk_names t).
Proof.
  induction t as [|es IH] using node_induction; intros W.
  - constructor.
  - destruct (wf_dir es W) as [ND Hes]. rewrite Forall_forall in IH.
    cbn [walk_names]. apply NoDup_app.
    + apply NoDup_map_inj; [intros x y _ _ E; inversion E; reflexivity|].
      apply NoDup_filter. unfold Tree.files_of.
      apply NoDup_filter_map. exact ND.
    + apply NoDup_flat_map_fst; auto.
      * intros e I. destruct (_ && _); [|constructor].
        apply NoDup_map_inj; [intros x y _ _ E; inversion E; reflexivity|].
        apply IH; auto. apply (Hes e I).
      * intros e c I Ic. destruct (_ && _); [|destruct Ic].
        apply in_map_iff in Ic as (c' & <- & _). exists c'. reflexivity.
    + intros c I1 I2.
      apply in_map_iff in I1 as (name & <- & _).
      apply in_flat_map in I2 as (e & Ie & I2).
      destruct (Tree.is_dir (snd e) && _) eqn:C; [|destruct I2].
      apply in_map_iff in I2 as (c' & E & I2). inversion E; subst c'.
      destruct (Hes e Ie) as [_ We].
      apply (walk_names_spec (snd e) We) in I2 as (dirs & n & E2 & _).
      destruct dirs; discriminate E2.
Qed.

Lemma walk_names_ok : forall t,
  wf t = true -> forall c, In c (walk_names t) -> forallb name_ok c = true.
Proof.
  induction t as [|es IH] using node_induction; intros W c I.
  - destruct I.
  - destruct (wf_dir es W) as [ND Hes]. rewrite Forall_forall in IH.
    cbn [walk_names] in I. apply in_app_or in I as [I|I].
    + apply in_map_iff in I as (name & <- & I).
      apply filter_In in I as [I _]. unfold Tree.files_of in I.
      apply in_map_iff in I as (e & <- & I). apply filter_In in I as [I _].
      cbn [forallb]. rewrite (proj1 (Hes e I)). reflexivity.
    + apply in_flat_map in I as (e & Ie & I).
      destruct (_ && _); [|destruct I].
      apply in_map_iff in I as (c' & <- & I).
      cbn [forallb]. rewrite (proj1 (Hes e Ie)).
      apply (IH e Ie (proj2 (Hes e Ie)) c' I).
Qed.

(** Paths of lists of file names are different for different lists. *)
Lemma cs_path_of : forall names top,
  cs (path_of top names)
  = cs top ++ concat (map (fun c => "/"%char :: cs c) names).
Proof.
  induction names as [|d names IH]; intros top.
  - simpl. rewrite app_nil_r. reflexivity.
  - rewrite path_of_cons, IH, !cs_append. cbn [map concat].
    rewrite <- app_assoc. reflexivity.
Qed.

Lemma run_then_slash : forall A A' R R' : chars,
  forallb (fun a => negb (Ascii.eqb a "/")) A = true ->
  forallb (fun a => negb (Ascii.eqb a "/")) A' = true ->
  (R = [] \/ exists r, R = "/"%char :: r) ->
  (R' = [] \/ exists r, R' = "/"%char :: r) ->
  A ++ R = A' ++ R' -> A = A' /\ R = R'.
Proof.
  induction A as [|a A IH]; intros [|a' A'] R R' HA HA' HR HR' E; simpl in *.
  - auto.
  - apply andb_true_iff in HA' as [X _]. exfalso.
    destruct HR as [->|(r & ->)]; [discriminate|].
    inversion E; subst. discriminate X.
  - apply andb_true_iff in HA as [X _]. exfalso.
    destruct HR' as [->|(r & ->)]; [discriminate|].
    inversion E; subst. discriminate X.
  - inversion E; subst.
    apply andb_true_iff in HA as [_ HA]. apply andb_true_iff in HA' as [_ HA'].
    destruct (IH A' R R' HA HA' HR HR' H1) as [-> ->]. auto.
Qed.

Lemma segments_shape (l : list string) :
  concat (map (fun c => "/"%char :: cs c) l) = []
  \/ exists r, concat (map (fun c => "/"%char :: cs c) l) = "/"%char :: r.
Proof. destruct l; [left; reflexivity|right; eexists; reflexivity]. Qed.

Lemma segments_inj : forall l l',
  forallb name_ok l = true -> forallb name_ok l' = true ->
  concat (map (fun c => "/"%char :: cs c) l)
  = concat (map (fun c => "/"%char :: cs c) l') ->
  l = l'.
Proof.
  induction l as [|d l IH]; intros [|d' l'] H H' E; try discriminate E; auto.
  cbn [forallb] in H, H'. apply andb_true_iff in H as [Hd H].
  apply andb_true_iff in H' as [Hd' H'].
  cbn [map concat] in E. inversion E as [E1].
  destruct (run_then_slash _ _ _ _ (proj2 (name_ok_facts d Hd))
              (proj2 (name_ok_facts d' Hd'))
              (segments_shape l) (segments_shape l') E1) as [Ed El].
  apply cs_inj in Ed. subst d'. rewrite (IH l' H H' El). reflexivity.
Qed.

Lemma path_of_inj top l l' :
  forallb name_ok l = true -> forallb name_ok l' = true ->
  path_of top l = path_of top l' -> l = l'.
Proof.
  intros H H' E. apply (f_equal cs) in E. rewrite !cs_path_of in E.
  apply app_inv_head in E. apply segments_inj; auto.
Qed.

(** [rglob] on a directory: its own entries with the suffix, then the
    directories in turn. *)
Lemma rglob_enter suffix top :
  forall es,
    (fix enter (es : list (string * Tree.node)) :=
       match es with
       | [] => []
       | (name, sub) :: es' =>
           (if Tree.is_dir sub
            then Tree.rglob suffix (Tree.path_join top name) sub
            else [])
           ++ enter es'
       end) es
    = flat_map (fun e =>
                  if Tree.is_dir (snd e)
                  then Tree.rglob suffix (Tree.path_join top (fst e)) (snd e)
                  else []) es.
Proof.
  induction es as [|[name sub] es IH]; [reflexivity|].
  rewrite IH. reflexivity.
Qed.

Lemma rglob_dir suffix top es :
  Tree.rglob suffix top (Tree.Dir es)
  = map (fun e => Tree.path_join top (fst e))
        (filter (fun e => ends_with suffix (fst e)) es)
    ++ flat_map (fun e =>
                   if Tree.is_dir (snd e)
                   then Tree.rglob suffix (Tree.path_join top (fst e)) (snd e)
                   else []) es.
Proof.
  cbn [Tree.rglob]. f_equal. apply rglob_enter.
Qed.

Lemma rglob_paths suffix : forall t top,
  wf t = true -> proper top = true ->
  Tree.rglob suffix top t = map (path_of top) (rglob_names suffix t).
Proof.
  induction t as [|es IH] using node_induction; intros top W P.
  - reflexivity.
  - destruct (wf_dir es W) as [ND Hes].
    rewrite rglob_dir. cbn [rglob_names]. rewrite map_app. f_equal.
    + rewrite map_map. apply map_ext_in. intros e I.
      apply filter_In in I as [I _].
      destruct (Hes e I) as [Hn _].
      destruct (path_join_ok top (fst e) P Hn) as [-> _]. reflexivity.
    + rewrite map_flat_map. apply flat_map_ext_in. intros e I.
      destruct (Hes e I) as [Hn He].
      destruct (Tree.is_dir (snd e)) eqn:D; [|reflexivity].
      destruct (path_join_ok top (fst e) P Hn) as [-> P'].
      rewrite Forall_forall in IH. rewrite (IH e I _ He P').
      rewrite map_map. reflexivity.
Qed.

Lemma rglob_names_spec suffix : forall t,
  wf t = true ->
  forall c,
    In c (rglob_names suffix t)
    <-> exists dirs name node,
          c = dirs ++ [name] /\ resolve t c = Some node
          /\ ends_with suffix name = true.
Proof.
  induction t as [|es IH] using node_induction; intros W c.
  - split; [intros []|].
    intros (dirs & name & node & -> & R & _).
    rewrite resolve_file in R; [discriminate|]. destruct dirs; discriminate.
  - destruct (wf_dir es W) as [ND Hes]. rewrite Forall_forall in IH.
    cbn [rglob_names]. rewrite in_app_iff. split.
    + intros [I|I].
      * apply in_map_iff in I as (e & <- & I). apply filter_In in I as [I T].
        exists [], (fst e), (snd e). repeat split; auto.
        cbn [app resolve]. rewrite (find_entry_In es e ND I). reflexivity.
      * apply in_flat_map in I as (e & Ie & I).
        destruct (Tree.is_dir (snd e)) eqn:D; [|destruct I].
        apply in_map_iff in I as (c' & <- & I).
        destruct (Hes e Ie) as [_ We].
        apply (IH e Ie We) in I as (dirs & name & node & -> & R & T).
        exists (fst e :: dirs), name, node. repeat split; auto.
        cbn [resolve]. rewrite (find_entry_In es e ND Ie). exact R.
    + intros (dirs & name & node & -> & R & T). destruct dirs as [|d dirs].
      * left. cbn [app resolve] in R.
        destruct (find_entry name es) as [sub|] eqn:F; [|discriminate].
        apply find_entry_Some in F.
        apply in_map_iff. exists (name, sub). split; auto.
        apply filter_In. split; auto.
      * right. cbn [app resolve] in R.
        destruct (find_entry d es) as [sub|] eqn:F; [|discriminate].
        apply find_entry_Some in F.
        apply in_flat_map. exists (d, sub). split; auto. cbn [fst snd].
        assert (D : Tree.is_dir sub = true).
        { destruct sub; [|reflexivity].
          rewrite resolve_file in R; [discriminate|]. destruct dirs; discriminate. }
        rewrite D. apply in_map_iff. exists (dirs ++ [name]).
        split; [reflexivity|].
        destruct (Hes (d, sub) F) as [_ We].
        apply (IH (d, sub) F We). exists dirs, name, node. auto.
Qed.

Lemma rglob_names_NoDup suffix : forall t,
  wf t = true -> NoDup (rglob_names suffix t).
Proof.
  induction t as [|es IH] using node_induction; intros W.
  - constructor.
  - destruct (wf_dir es W) as [ND Hes]. rewrite Forall_forall in IH.
    cbn [rglob_names]. apply NoDup_app.
    + rewrite <- (map_map fst (fun n => [n])).
      apply NoDup_map_inj; [intros x y _ _ E; inversion E; reflexivity|].
      apply NoDup_filter_map. exact ND.
    + apply NoDup_flat_map_fst; auto.
      * intros e I. destruct (Tree.is_dir (snd e)); [|constructor].
        apply NoDup_map_inj; [intros x y _ _ E; inversion E; reflexivity|].
        apply IH; auto. apply (Hes e I).
      * intros e c I Ic. destruct (Tree.is_dir (snd e)); [|destruct Ic].
        apply in_map_iff in Ic as (c' & <- & _). exists c'. reflexivity.
    + intros c I1 I2.
      apply in_map_iff in I1 as (e0 & <- & _).
      apply in_flat_map in I2 as (e & Ie & I2).
      destruct (Tree.is_dir (snd e)) eqn:C; [|destruct I2].
      apply in_map_iff in I2 as (c' & E & I2). inversion E; subst c'.
      destruct (Hes e Ie) as [_ We].
      apply (rglob_names_spec suffix (snd e) We) in I2 as (dirs & n & nd & E2 & _).
      destruct dirs; discriminate E2.
Qed.

Lemma rglob_names_ok suffix : forall t,
  wf t = true -> forall c, In c (rglob_names suffix t) -> forallb name_ok c = true.
Proof.
  induction t as [|es IH] using node_induction; intros W c I.
  - destruct I.
  - destruct (wf_dir es W) as [ND Hes]. rewrite Forall_forall in IH.
    cbn [rglob_names] in I. apply in_app_or in I as [I|I].
    + apply in_map_iff in I as (e & <- & I). apply filter_In in I as [I _].
      cbn [forallb]. rewrite (proj1 (Hes e I)). reflexivity.
    + apply in_flat_map in I as (e & Ie & I).
      destruct (Tree.is_dir (snd e)); [|destruct I].
      apply in_map_iff in I as (c' & <- & I).
      cbn [forallb]. rewrite (proj1 (Hes e Ie)).
      apply (IH e Ie (proj2 (Hes e Ie)) c' I).
Qed.

Lemma starts_with_comparable : forall a b s,
  starts_with a s = true -> starts_with b s = true ->
  starts_with a b = true \/ starts_with b a = true.
Proof.
  induction a as [|x a IH]; intros [|y b] s Ha Hb; simpl; auto.
  destruct s as [|z s]; [discriminate|]. simpl in Ha, Hb.
  apply andb_true_iff in Ha as [E1 Ha]. apply andb_true_iff in Hb as [E2 Hb].
  apply Ascii.eqb_eq in E1, E2. subst x y. rewrite Ascii.eqb_refl. simpl.
  apply (IH b s); auto.
Qed.

(** No name ends with two of the four extensions. *)
Lemma one_extension s1 s2 name :
  In s1 Tree.extensions -> In s2 Tree.extensions -> s1 <> s2 ->
  ends_with s1 name = true -> ends_with s2 name = true -> False.
Proof.
  intros I1 I2 N E1 E2. unfold ends_with in *.
  destruct (starts_with_comparable _ _ _ E1 E2) as [C|C]; revert C;
    simpl in I1, I2;
    destruct I1 as [<-|[<-|[<-|[<-|[]]]]]; destruct I2 as [<-|[<-|[<-|[<-|[]]]]];
    try (contradiction N; reflexivity); vm_compute; discriminate.
Qed.

Lemma rglob_disjoint s1 s2 t top p :
  wf t = true -> proper top = true ->
  In s1 Tree.extensions -> In s2 Tree.extensions -> s1 <> s2 ->
  In p (Tree.rglob s1 top t) -> In p (Tree.rglob s2 top t) -> False.
Proof.
  intros W P I1 I2 N H1 H2.
  rewrite (rglob_paths s1 t top W P) in H1. rewrite (rglob_paths s2 t top W P) in H2.
  apply in_map_iff in H1 as (c1 & E1 & H1). apply in_map_iff in H2 as (c2 & E2 & H2).
  assert (E : c1 = c2).
  { apply (path_of_inj top).
    - apply (rglob_names_ok s1 t W c1 H1).
    - apply (rglob_names_ok s2 t W c2 H2).
    - congruence. }
  subst c2.
  apply (rglob_names_spec s1 t W) in H1 as (d1 & n1 & nd1 & Ec1 & _ & T1).
  apply (rglob_names_spec s2 t W) in H2 as (d2 & n2 & nd2 & Ec2 & _ & T2).
  rewrite Ec1 in Ec2. apply app_inj_tail in Ec2 as [_ ->].
  apply (one_extension s1 s2 n2 I1 I2 N T1 T2).
Qed.

Lemma rglob_NoDup s t top :
  wf t = true -> proper top = true -> NoDup (Tree.rglob s top t).
Proof.
  intros W P. rewrite (rglob_paths s t top W P).
  apply NoDup_map_inj; [|apply rglob_names_NoDup; exact W].
  intros x y Ix Iy. apply path_of_inj.
  - apply (rglob_names_ok s t W x Ix).
  - apply (rglob_names_ok s t W y Iy).
Qed.

Lemma files_to_check_NoDup t : wf t = true -> NoDup (Tree.files_to_check t).
Proof.
  intros W. unfold Tree.files_to_check, Tree.extensions. cbn [flat_map].
  assert (P : proper "src" = true) by reflexivity.
  repeat apply NoDup_app; try (apply rglob_NoDup; assumption); try constructor;
    intros p I1 I2;
    repeat (apply in_app_or in I2 as [I2|I2]);
    try (destruct I2; fail);
    (eapply (rglob_disjoint _ _ t "src" p W P); [| | |exact I1|exact I2];
     [simpl; tauto|simpl; tauto|discriminate]).
Qed.

End Trees.

(** ** The [main] functions *)

Section MoreFiles.

Ltac disk_of_update :=
  unfold effect, file_after, changed_to, Fs.read, Fs.write;
  match goal with
  | |- context [Fs.data (Fs.disk ?w ?p)] =>
      let D := fresh "D" in
      destruct (Fs.data (Fs.disk w p)) as [c|] eqn:D;
      [ match goal with
        | |- context [chars_eqb ?c' c] =>
            destruct (chars_eqb c' c);
            [ simpl; match goal with
                     | |- context [String.eqb ?q p] =>
                         destruct (String.eqb_spec q p); subst; auto
                     end
            | let W := fresh "W" in
              destruct (Fs.wmode (Fs.disk w p)) eqn:W; simpl; unfold Fs.set_data;
              match goal with
              | |- context [String.eqb ?q p] =>
                  destruct (String.eqb_spec q p); subst; auto; rewrite ?W; auto
              end ]
        end
      | simpl; match goal with
               | |- context [String.eqb ?q p] =>
                   destruct (String.eqb_spec q p); subst; auto
               end ]
  end.

Lemma fmi_update_disk table p w q :
  Fs.disk (snd (FixMovedImports.update_file_with table p w)) q
  = effect (fmi_decide table) p (Fs.disk w) q.
Proof. unfold FixMovedImports.update_file_with, fmi_decide. disk_of_update. Qed.

Lemma fari_update_disk table p w q :
  Fs.disk (snd (FixAllRemainingImports.update_file_with table p w)) q
  = effect (fari_decide table) p (Fs.disk w) q.
Proof. unfold FixAllRemainingImports.update_file_with, fari_decide. disk_of_update. Qed.

Lemma barrel_update_disk reps p w q :
  Fs.disk (snd (FixBarrelExports.fix_file p reps w)) q
  = effect (barrel_decide reps) p (Fs.disk w) q.
Proof. unfold FixBarrelExports.fix_file, barrel_decide. disk_of_update. Qed.

Lemma styles_update_disk p w q :
  Fs.disk (snd (RemoveInlineStyles.update_file p w)) q
  = effect styles_decide p (Fs.disk w) q.
Proof. unfold RemoveInlineStyles.update_file, styles_decide. disk_of_update. Qed.

Lemma fri_update_disk table p w q :
  FixRemainingImports.disk (snd (FixRemainingImports.update_file_with table p w)) q
  = effect (fri_decide table) p (FixRemainingImports.disk w) q.
Proof.
  unfold FixRemainingImports.update_file_with, fri_decide, FixRemainingImports.print.
  unfold effect, file_after, changed_to, Fs.read, Fs.write. cbn [Fs.disk].
  destruct (Fs.data (FixRemainingImports.disk w p)) as [c|] eqn:D.
  - pose proof (fr_log_content table c (FixRemainingImports.console w)) as L.
    destruct (fold_left FixRemainingImports.fix_entry_log table
                (c, FixRemainingImports.console w)) as [c' out].
    simpl in L. subst c'.
    destruct (chars_eqb _ c).
    + simpl. destruct (String.eqb_spec q p); subst; auto.
    + destruct (Fs.wmode (FixRemainingImports.disk w p)) eqn:W; simpl;
        unfold Fs.set_data; cbn [Fs.disk];
        destruct (String.eqb_spec q p); subst; auto; rewrite ?W; auto.
  - simpl. destruct (String.eqb_spec q p); subst; auto.
Qed.

Lemma fmi_loop_disk table files : forall n w q,
  Fs.disk (snd (FixMovedImports.main_loop table files n w)) q
  = effects (fmi_decide table) files (Fs.disk w) q.
Proof.
  induction files as [|p files IH]; intros n w q; simpl; auto.
  destruct (FixMovedImports.update_file_with table p w) as [b w'] eqn:E.
  assert (H : forall q, Fs.disk w' q = effect (fmi_decide table) p (Fs.disk w) q).
  { intros q'. rewrite <- fmi_update_disk, E. reflexivity. }
  destruct b; rewrite IH; apply effects_ext; auto.
Qed.

Lemma fari_loop_disk table files : forall n w q,
  Fs.disk (snd (FixAllRemainingImports.main_loop table files n w)) q
  = effects (fari_decide table) files (Fs.disk w) q.
Proof.
  induction files as [|p files IH]; intros n w q; simpl; auto.
  destruct (FixAllRemainingImports.update_file_with table p w) as [b w'] eqn:E.
  assert (H : forall q, Fs.disk w' q = effect (fari_decide table) p (Fs.disk w) q).
  { intros q'. rewrite <- fari_update_disk, E. reflexivity. }
  destruct b; rewrite IH; apply effects_ext; auto.
Qed.

Lemma fri_loop_disk table files : forall n w q,
  FixRemainingImports.disk (snd (FixRemainingImports.main_loop table files n w)) q
  = effects (fri_decide table) files (FixRemainingImports.disk w) q.
Proof.
  induction files as [|p files IH]; intros n w q; simpl; auto.
  destruct (FixRemainingImports.update_file_with table p w) as [b w'] eqn:E.
  assert (H : forall q, FixRemainingImports.disk w' q
                        = effect (fri_decide table) p (FixRemainingImports.disk w) q).
  { intros q'. rewrite <- fri_update_disk, E. reflexivity. }
  destruct b; rewrite IH; apply effects_ext; auto.
Qed.

Lemma fmi_main_disk files w q :
  Fs.disk (snd (FixMovedImports.main files w)) q
  = effects (fmi_decide FixMovedImports.IMPORT_FIXES) files (Fs.disk w) q.
Proof.
  unfold FixMovedImports.main.
  pose proof (fmi_loop_disk FixMovedImports.IMPORT_FIXES files 0 w q) as H.
  destruct (FixMovedImports.main_loop _ files 0 w) as [n w']. exact H.
Qed.

Lemma fari_main_disk files w q :
  Fs.disk (snd (FixAllRemainingImports.main files w)) q
  = effects (fari_decide FixAllRemainingImports.FIXES) files (Fs.disk w) q.
Proof.
  unfold FixAllRemainingImports.main.
  pose proof (fari_loop_disk FixAllRemainingImports.FIXES files 0 w q) as H.
  destruct (FixAllRemainingImports.main_loop _ files 0 w) as [n w']. exact H.
Qed.

Lemma fri_main_disk files w q :
  FixRemainingImports.disk (snd (FixRemainingImports.main files w)) q
  = effects (fri_decide FixRemainingImports.IMPORT_FIXES) files
      (FixRemainingImports.disk w) q.
Proof.
  unfold FixRemainingImports.main.
  pose proof (fri_loop_disk FixRemainingImports.IMPORT_FIXES files 0 w q) as H.
  destruct (FixRemainingImports.main_loop _ files 0 w) as [n w']. exact H.
Qed.

End MoreFiles.

(** X12: the files the loops over [os.walk("src")] hand to
    [update_file] (update-feature-imports.py, fix-moved-imports.py,
    fix-remaining-imports.py, fix-all-remaining-imports.py).  On a
    directory tree whose directories hold pairwise different file
    names: a path is handed over if and only if it is the path of a
    file (not a directory) whose name ends with [.ts] or [.tsx] and
    that is reached from [src] through directories none of which is
    named [node_modules]; and no path is handed over twice. *)
Theorem walk_hands_over_each_ts_file_once (src : Tree.node) :
  wf src = true ->
  NoDup (Tree.walk_ts_files "src" src)
  /\ forall p,
       In p (Tree.walk_ts_files "src" src)
       <-> exists dirs name,
             resolve src (dirs ++ [name]) = Some Tree.File
             /\ Tree.ts_file name = true
             /\ ~ In "node_modules"%string dirs
             /\ p = path_of "src" (dirs ++ [name]).
Proof.
  intros W. rewrite (walk_paths src "src" W eq_refl). split.
  - apply NoDup_map_inj; [|apply walk_names_NoDup; exact W].
    intros x y Ix Iy. apply path_of_inj.
    + apply (walk_names_ok src W x Ix).
    + apply (walk_names_ok src W y Iy).
  - intros p. rewrite in_map_iff. split.
    + intros (c & <- & I).
      apply (walk_names_spec src W) in I as (dirs & name & -> & R & T & N).
      exists dirs, name. auto.
    + intros (dirs & name & R & T & N & ->).
      exists (dirs ++ [name]). split; auto.
      apply (walk_names_spec src W). exists dirs, name. auto.
Qed.

Lemma walk_hands_over_each_ts_file_once_witness :
  let src := Tree.Dir [ ("a.ts"%string, Tree.File);
                        ("node_modules"%string,
                         Tree.Dir [("b.ts"%string, Tree.File)]);
                        ("lib"%string,
                         Tree.Dir [("c.tsx"%string, Tree.File);
                                   ("d.css"%string, Tree.File)]) ] in
  NoDup (Tree.walk_ts_files "src" src).
Proof.
  intros src. exact (proj1 (walk_hands_over_each_ts_file_once src eq_refl)).
Defined.

Example walk_of_a_small_tree :
  Tree.walk_ts_files "src"
    (Tree.Dir [ ("a.ts"%string, Tree.File);
                ("node_modules"%string, Tree.Dir [("b.ts"%string, Tree.File)]);
                ("lib"%string,
                 Tree.Dir [("c.tsx"%string, Tree.File);
                           ("d.css"%string, Tree.File)]) ])
  = ["src/a.ts"%string; "src/lib/c.tsx"%string].
Proof. vm_compute. reflexivity. Qed.

(** X13: the files update-imports.py checks.  On a directory tree whose
    directories hold pairwise different file names: a path is in
    [files_to_check] if and only if it is the path of an entry below
    [src], file or directory, whose name ends with [.ts], [.tsx], [.js]
    or [.jsx], directories named [node_modules] being searched like any
    other; and no path is in the list twice, so that [total_count] is
    the number of these entries. *)
Theorem files_to_check_holds_each_source_once (src : Tree.node) :
  wf src = true ->
  NoDup (Tree.files_to_check src)
  /\ forall p,
       In p (Tree.files_to_check src)
       <-> exists dirs name node,
             resolve src (dirs ++ [name]) = Some node
             /\ existsb (fun ext => ends_with ext name) Tree.extensions = true
             /\ p = path_of "src" (dirs ++ [name]).
Proof.
  intros W. split; [apply files_to_check_NoDup; exact W|].
  intros p. unfold Tree.files_to_check. rewrite in_flat_map. split.
  - intros (ext & Ie & I).
    rewrite (rglob_paths ext src "src" W eq_refl) in I.
    apply in_map_iff in I as (c & <- & I).
    apply (rglob_names_spec ext src W) in I as (dirs & name & node & -> & R & T).
    exists dirs, name, node. repeat split; auto.
    apply existsb_exists. exists ext. auto.
  - intros (dirs & name & node & R & T & ->).
    apply existsb_exists in T as (ext & Ie & T).
    exists ext. split; auto.
    rewrite (rglob_paths ext src "src" W eq_refl).
    apply in_map_iff. exists (dirs ++ [name]). split; auto.
    apply (rglob_names_spec ext src W). exists dirs, name, node. auto.
Qed.

Lemma files_to_check_holds_each_source_once_witness :
  let src := Tree.Dir [ ("a.ts"%string, Tree.File);
                        ("node_modules"%string,
                         Tree.Dir [("b.js"%string, Tree.File)]);
                        ("x.jsx"%string, Tree.Dir []) ] in
  NoDup (Tree.files_to_check src).
Proof.
  intros src. exact (proj1 (files_to_check_holds_each_source_once src eq_refl)).
Defined.

Example files_to_check_of_a_small_tree :
  Tree.files_to_check
    (Tree.Dir [ ("a.ts"%string, Tree.File);
                ("node_modules"%string, Tree.Dir [("b.js"%string, Tree.File)]);
                ("x.jsx"%string, Tree.Dir []) ])
  = ["src/a.ts"%string; "src/node_modules/b.js"%string; "src/x.jsx"%string].
Proof. vm_compute. reflexivity. Qed.

Lemma walk_NoDup src : wf src = true -> NoDup (Tree.walk_ts_files "src" src).
Proof.
  intros W. rewrite (walk_paths src "src" W eq_refl).
  apply NoDup_map_inj; [|apply walk_names_NoDup; exact W].
  intros x y Ix Iy. apply path_of_inj.
  - apply (walk_names_ok src W x Ix).
  - apply (walk_names_ok src W y Iy).
Qed.

(** X14: a run over a directory tree treats every file it finds once,
    and nothing else.  On a directory tree whose directories hold
    pairwise different file names, for [main] of update-imports.py (on
    [files_to_check]) and of update-feature-imports.py,
    fix-moved-imports.py, fix-remaining-imports.py and
    fix-all-remaining-imports.py (on the files [os.walk] hands over):
    every file found ends exactly as if [update_file] had been run on
    it alone, whatever happened to the files before it, and every other
    file of the disk is left as it was. *)
Theorem tree_run_treats_each_file_once (src : Tree.node) :
  wf src = true ->
  (forall w p,
     (In p (Tree.files_to_check src) ->
      Fs.disk (snd (OnTree.update_imports_main src w)) p
      = Fs.disk (snd (UpdateImports.update_file p w)) p)
     /\ (~ In p (Tree.files_to_check src) ->
         Fs.disk (snd (OnTree.update_imports_main src w)) p = Fs.disk w p))
  /\ (forall w p,
        (In p (Tree.walk_ts_files "src" src) ->
         Fs.disk (snd (OnTree.update_feature_imports_main src w)) p
         = Fs.disk (snd (UpdateFeatureImports.update_file p w)) p
         /\ Fs.disk (snd (OnTree.fix_moved_imports_main src w)) p
            = Fs.disk (snd (FixMovedImports.update_file p w)) p
         /\ Fs.disk (snd (OnTree.fix_all_remaining_imports_main src w)) p
            = Fs.disk (snd (FixAllRemainingImports.update_file p w)) p)
        /\ (~ In p (Tree.walk_ts_files "src" src) ->
            Fs.disk (snd (OnTree.update_feature_imports_main src w)) p = Fs.disk w p
            /\ Fs.disk (snd (OnTree.fix_moved_imports_main src w)) p = Fs.disk w p
            /\ Fs.disk (snd (OnTree.fix_all_remaining_imports_main src w)) p
               = Fs.disk w p))
  /\ (forall w p,
        (In p (Tree.walk_ts_files "src" src) ->
         FixRemainingImports.disk (snd (OnTree.fix_remaining_imports_main src w)) p
         = FixRemainingImports.disk (snd (FixRemainingImports.update_file p w)) p)
        /\ (~ In p (Tree.walk_ts_files "src" src) ->
            FixRemainingImports.disk
              (snd (OnTree.fix_remaining_imports_main src w)) p
            = FixRemainingImports.disk w p)).
Proof.
  intros W.
  pose proof (walk_NoDup src W) as NDw.
  pose proof (files_to_check_NoDup src W) as NDf.
  unfold OnTree.update_imports_main, OnTree.update_feature_imports_main,
    OnTree.fix_moved_imports_main, OnTree.fix_remaining_imports_main,
    OnTree.fix_all_remaining_imports_main,
    UpdateImports.main, UpdateImports.update_file,
    UpdateFeatureImports.main, UpdateFeatureImports.update_file,
    FixMovedImports.update_file, FixAllRemainingImports.update_file,
    FixRemainingImports.update_file.
  split; [|split]; intros w p; split; intros I.
  - rewrite ui_main_disk, ui_update_disk, effect_same. apply effects_each; auto.
  - rewrite ui_main_disk. apply effects_frame; auto.
  - repeat split.
    + rewrite ufi_main_disk, ufi_update_disk, effect_same. apply effects_each; auto.
    + rewrite fmi_main_disk, fmi_update_disk, effect_same. apply effects_each; auto.
    + rewrite fari_main_disk, fari_update_disk, effect_same. apply effects_each; auto.
  - repeat split.
    + rewrite ufi_main_disk. apply effects_frame; auto.
    + rewrite fmi_main_disk. apply effects_frame; auto.
    + rewrite fari_main_disk. apply effects_frame; auto.
  - rewrite fri_main_disk, fri_update_disk, effect_same. apply effects_each; auto.
  - rewrite fri_main_disk. apply effects_frame; auto.
Qed.

Lemma tree_run_treats_each_file_once_witness :
  let src := Tree.Dir [ ("a.ts"%string, Tree.File);
                        ("node_modules"%string,
                         Tree.Dir [("b.ts"%string, Tree.File)]) ] in
  let w := Fs.World
             (fun _ => Fs.File (Some (cs "import a from './logo'")) Fs.WriteOk) [] in
  Fs.disk (snd (OnTree.update_feature_imports_main src w)) "src/node_modules/b.ts"
  = Fs.disk w "src/node_modules/b.ts".
Proof.
  intros src w.
  refine (proj1 (proj2 (proj1 (proj2 (tree_run_treats_each_file_once src eq_refl))
                          w "src/node_modules/b.ts"%string) _)).
  vm_compute. intros [H|[]]. discriminate H.
Defined.

Section FixedLists.

Variable present : Fs.path -> bool.

Lemma effects_present_frame todo : forall d q,
  ~ In q (map fst todo) -> effects_present present todo d q = d q.
Proof.
  unfold effects_present.
  induction todo as [|[p dec] todo IH]; intros d q H; simpl; auto.
  rewrite IH by (intros I; apply H; right; exact I).
  destruct (present p); auto.
  apply effect_other. intros ->. apply H. left; reflexivity.
Qed.

Lemma effects_present_absent todo : forall d q,
  present q = false -> effects_present present todo d q = d q.
Proof.
  unfold effects_present.
  induction todo as [|[p dec] todo IH]; intros d q H; simpl; auto.
  rewrite IH by exact H.
  destruct (present p) eqn:E; auto.
  apply effect_other. intros ->. congruence.
Qed.

Lemma effects_present_each todo : forall d p dec,
  NoDup (map fst todo) -> In (p, dec) todo -> present p = true ->
  effects_present present todo d p = file_after dec (d p).
Proof.
  unfold effects_present.
  induction todo as [|[p0 dec0] todo IH]; intros d p dec ND I Pp; [destruct I|].
  simpl in ND. inversion ND as [|? ? Hq ND']; subst. simpl.
  destruct I as [E|I].
  - inversion E; subst. rewrite Pp.
    fold (effects_present present todo (effect dec p d) p).
    rewrite effects_present_frame by assumption. apply effect_same.
  - rewrite (IH _ p dec ND' I Pp).
    assert (N : p <> p0).
    { intros ->. apply Hq. apply in_map_iff. exists (p0, dec). auto. }
    destruct (present p0); auto. rewrite effect_other; auto.
Qed.

Lemma effects_present_ext todo : forall d1 d2,
  (forall q, d1 q = d2 q) ->
  forall q, effects_present present todo d1 q = effects_present present todo d2 q.
Proof.
  unfold effects_present.
  induction todo as [|[p dec] todo IH]; intros d1 d2 H q; simpl; auto.
  apply IH. intros q'. destruct (present p); auto. apply effect_ext. exact H.
Qed.

Lemma barrel_loop_disk todo : forall n w q,
  Fs.disk (snd (FixBarrelExports.main_loop present todo n w)) q
  = effects_present present
      (map (fun pr => (fst pr, barrel_decide (snd pr))) todo) (Fs.disk w) q.
Proof.
  induction todo as [|[p reps] todo IH]; intros n w q; [reflexivity|].
  cbn [FixBarrelExports.main_loop map fst snd]. unfold effects_present. cbn [fold_left fst snd].
  fold (effects_present present (map (fun pr => (fst pr, barrel_decide (snd pr))) todo)).
  destruct (present p); [|apply IH].
  destruct (FixBarrelExports.fix_file p reps w) as [b w'] eqn:E.
  assert (H : forall q, Fs.disk w' q = effect (barrel_decide reps) p (Fs.disk w) q).
  { intros q'. rewrite <- barrel_update_disk, E. reflexivity. }
  destruct b; rewrite IH; apply effects_present_ext; auto.
Qed.

Lemma styles_loop_disk files : forall n w q,
  Fs.disk (snd (RemoveInlineStyles.main_loop present files n w)) q
  = effects_present present (map (fun p => (p, styles_decide)) files) (Fs.disk w) q.
Proof.
  induction files as [|p files IH]; intros n w q; [reflexivity|].
  cbn [RemoveInlineStyles.main_loop map]. unfold effects_present. cbn [fold_left fst snd].
  fold (effects_present present (map (fun p => (p, styles_decide)) files)).
  destruct (present p); [|apply IH].
  destruct (RemoveInlineStyles.update_file p w) as [b w'] eqn:E.
  assert (H : forall q, Fs.disk w' q = effect styles_decide p (Fs.disk w) q).
  { intros q'. rewrite <- styles_update_disk, E. reflexivity. }
  destruct b; rewrite IH; apply effects_present_ext; auto.
Qed.

Lemma barrel_loop_count todo : forall n w,
  fst (FixBarrelExports.main_loop present todo n w) <= n + length todo.
Proof.
  induction todo as [|[p reps] todo IH]; intros n w; simpl; [lia|].
  destruct (present p).
  - destruct (FixBarrelExports.fix_file p reps w) as [[|] w'].
    + eapply Nat.le_trans; [apply IH|]. lia.
    + eapply Nat.le_trans; [apply IH|]. lia.
  - eapply Nat.le_trans; [apply IH|]. lia.
Qed.

Lemma styles_loop_count files : forall n w,
  fst (RemoveInlineStyles.main_loop present files n w) <= n + length files.
Proof.
  induction files as [|p files IH]; intros n w; simpl; [lia|].
  destruct (present p).
  - destruct (RemoveInlineStyles.update_file p w) as [[|] w'].
    + eapply Nat.le_trans; [apply IH|]. lia.
    + eapply Nat.le_trans; [apply IH|]. lia.
  - eapply Nat.le_trans; [apply IH|]. lia.
Qed.

Lemma barrel_main_disk w q :
  Fs.disk (snd (FixBarrelExports.main present w)) q
  = effects_present present barrel_todo (Fs.disk w) q.
Proof.
  unfold FixBarrelExports.main, barrel_todo.
  pose proof (barrel_loop_disk FixBarrelExports.FILES_TO_FIX 0 w q) as H.
  destruct (FixBarrelExports.main_loop present _ 0 w) as [n w']. exact H.
Qed.

Lemma styles_main_disk w q :
  Fs.disk (snd (RemoveInlineStyles.main present w)) q
  = effects_present present styles_todo (Fs.disk w) q.
Proof.
  unfold RemoveInlineStyles.main, styles_todo.
  pose proof (styles_loop_disk RemoveInlineStyles.target_files 0 w q) as H.
  destruct (RemoveInlineStyles.main_loop present _ 0 w) as [n w']. exact H.
Qed.

End FixedLists.

(** X15: fix-barrel-exports.py and remove-inline-styles.py touch only
    the files of their lists.  Whatever [os.path.exists] answers: a
    file that is not in the list of the script ([FILES_TO_FIX], resp.
    [target_files]), or for which [os.path.exists] answers [False], is
    left as it was; a file of the list for which it answers [True] ends
    exactly as if [fix_file], resp. [update_file], had been run on it
    alone; and the number of files reported is at most the length of
    the list, five and four. *)
Theorem fixed_list_runs_touch_only_their_files
  (present : Fs.path -> bool) (w : Fs.world) (q : Fs.path) :
  (~ In q (map fst FixBarrelExports.FILES_TO_FIX) \/ present q = false ->
   Fs.disk (snd (FixBarrelExports.main present w)) q = Fs.disk w q)
  /\ (forall reps,
        In (q, reps) FixBarrelExports.FILES_TO_FIX -> present q = true ->
        Fs.disk (snd (FixBarrelExports.main present w)) q
        = Fs.disk (snd (FixBarrelExports.fix_file q reps w)) q)
  /\ fst (FixBarrelExports.main present w) <= 5
  /\ (~ In q RemoveInlineStyles.target_files \/ present q = false ->
      Fs.disk (snd (RemoveInlineStyles.main present w)) q = Fs.disk w q)
  /\ (In q RemoveInlineStyles.target_files -> present q = true ->
      Fs.disk (snd (RemoveInlineStyles.main present w)) q
      = Fs.disk (snd (RemoveInlineStyles.update_file q w)) q)
  /\ fst (RemoveInlineStyles.main present w) <= 4.
Proof.
  assert (NDb : NoDup (map fst barrel_todo)).
  { apply names_distinct_NoDup. vm_compute. reflexivity. }
  assert (NDs : NoDup (map fst styles_todo)).
  { apply names_distinct_NoDup. vm_compute. reflexivity. }
  assert (Eb : map fst barrel_todo = map fst FixBarrelExports.FILES_TO_FIX)
    by reflexivity.
  assert (Es : map fst styles_todo = RemoveInlineStyles.target_files)
    by reflexivity.
  repeat split.
  - intros [H|H]; rewrite barrel_main_disk.
    + apply effects_present_frame. rewrite Eb. exact H.
    + apply effects_present_absent. exact H.
  - intros reps I P. rewrite barrel_main_disk, barrel_update_disk, effect_same.
    apply effects_present_each; auto.
    unfold barrel_todo. apply in_map_iff. exists (q, reps). auto.
  - unfold FixBarrelExports.main.
    pose proof (barrel_loop_count present FixBarrelExports.FILES_TO_FIX 0 w) as H.
    destruct (FixBarrelExports.main_loop present _ 0 w) as [n w']. exact H.
  - intros [H|H]; rewrite styles_main_disk.
    + apply effects_present_frame. rewrite Es. exact H.
    + apply effects_present_absent. exact H.
  - intros I P. rewrite styles_main_disk, styles_update_disk, effect_same.
    apply effects_present_each; auto.
    unfold styles_todo. apply in_map_iff. exists q. auto.
  - unfold RemoveInlineStyles.main.
    pose proof (styles_loop_count present RemoveInlineStyles.target_files 0 w) as H.
    destruct (RemoveInlineStyles.main_loop present _ 0 w) as [n w']. exact H.
Qed.

Lemma fixed_list_runs_touch_only_their_files_witness :
  let w := Fs.World
             (fun _ => Fs.File (Some (cs "export * from './media/x'")) Fs.WriteOk) [] in
  Fs.disk (snd (FixBarrelExports.main (fun _ => true) w)) "src/index.ts"
  = Fs.disk w "src/index.ts".
Proof.
  intros w.
  refine (proj1 (fixed_list_runs_touch_only_their_files
                   (fun _ => true) w "src/index.ts"%string) _).
  left. vm_compute. intuition discriminate.
Defined.

(** ** The summary and the lines of a run *)

Lemma updated_lines_app a b :
  updated_lines (a ++ b) = updated_lines a ++ updated_lines b.
Proof. unfold updated_lines. apply flat_map_app. Qed.

Lemma ui_update_lines table p w :
  exists errs,
    Fs.console (snd (UpdateImports.update_file_with table p w))
    = Fs.console w ++ errs
    /\ updated_lines errs = [].
Proof.
  unfold UpdateImports.update_file_with, Fs.read, Fs.write, Fs.print.
  destruct (Fs.data (Fs.disk w p)) as [c|]; simpl.
  - destruct (UpdateImports.update_content table c) as [c' [|]]; simpl.
    + destruct (Fs.wmode (Fs.disk w p)); simpl;
        solve [ exists []; rewrite app_nil_r; auto
              | eexists; split; [reflexivity|reflexivity] ].
    + exists []. rewrite app_nil_r. auto.
  - eexists; split; reflexivity.
Qed.

Lemma ufi_update_lines table p w :
  exists errs,
    Fs.console (snd (UpdateFeatureImports.update_file_with table p w))
    = Fs.console w ++ errs
    /\ updated_lines errs = [].
Proof.
  unfold UpdateFeatureImports.update_file_with, Fs.read, Fs.write, Fs.print.
  destruct (Fs.data (Fs.disk w p)) as [c|]; simpl.
  - destruct (UpdateFeatureImports.run_table table c) as [c' k]; simpl.
    destruct (chars_eqb c' c); simpl.
    + exists []. rewrite app_nil_r. auto.
    + destruct (Fs.wmode (Fs.disk w p)); simpl;
        solve [ exists []; rewrite app_nil_r; auto
              | eexists; split; [reflexivity|reflexivity] ].
  - eexists; split; reflexivity.
Qed.

Lemma ui_loop_lines table files : forall n w,
  exists out,
    Fs.console (snd (UpdateImports.main_loop table files n w))
    = Fs.console w ++ out
    /\ fst (UpdateImports.main_loop table files n w)
       = n + length (updated_lines out)
    /\ length (updated_lines out) <= length files
    /\ incl (map fst (updated_lines out)) files.
Proof.
  induction files as [|p files IH]; intros n w.
  - exists []. simpl. rewrite app_nil_r. repeat split; auto. intros x [].
  - cbn [UpdateImports.main_loop].
    destruct (ui_update_lines table p w) as (errs & Ec & Eu).
    destruct (UpdateImports.update_file_with table p w) as [b w'].
    cbn [snd] in Ec. destruct b.
    + destruct (IH (S n) (Fs.print (Fs.UpdatedLine p None) w'))
        as (out & E1 & E2 & E3 & E4).
      exists (errs ++ Fs.UpdatedLine p None :: out).
      rewrite E1, E2. unfold Fs.print. cbn [Fs.console]. rewrite Ec.
      rewrite updated_lines_app, Eu. cbn [app].
      change (updated_lines (Fs.UpdatedLine p None :: out))
        with ((p, None) :: updated_lines out).
      repeat split.
      * rewrite <- !app_assoc. reflexivity.
      * simpl. lia.
      * simpl. lia.
      * simpl. intros x [<-|I]; [left; reflexivity|right; apply E4; exact I].
    + destruct (IH n w') as (out & E1 & E2 & E3 & E4).
      exists (errs ++ out).
      rewrite E1, E2, Ec, updated_lines_app, Eu. cbn [app].
      repeat split.
      * rewrite <- app_assoc. reflexivity.
      * simpl. lia.
      * intros x I. right. apply E4. exact I.
Qed.

Lemma ufi_loop_lines table files : forall n t w,
  exists out,
    Fs.console (snd (UpdateFeatureImports.main_loop table files n t w))
    = Fs.console w ++ out
    /\ fst (fst (UpdateFeatureImports.main_loop table files n t w))
       = n + length (updated_lines out)
    /\ snd (fst (UpdateFeatureImports.main_loop table files n t w))
       = t + list_sum (map count_of (updated_lines out))
    /\ Forall (fun pc => 1 <= count_of pc) (updated_lines out)
    /\ length (updated_lines out) <= length files
    /\ incl (map fst (updated_lines out)) files.
Proof.
  induction files as [|p files IH]; intros n t w.
  - exists []. simpl. rewrite app_nil_r. repeat split; auto. intros x [].
  - cbn [UpdateFeatureImports.main_loop].
    destruct (ufi_update_lines table p w) as (errs & Ec & Eu).
    destruct (UpdateFeatureImports.update_file_with table p w) as [k w'].
    cbn [snd] in Ec. destruct (0 <? k) eqn:K.
    + apply Nat.ltb_lt in K.
      destruct (IH (S n) (t + k) (Fs.print (Fs.UpdatedLine p (Some k)) w'))
        as (out & E1 & E2 & E3 & E4 & E5 & E6).
      exists (errs ++ Fs.UpdatedLine p (Some k) :: out).
      rewrite E1, E2, E3. unfold Fs.print. cbn [Fs.console]. rewrite Ec.
      rewrite updated_lines_app, Eu. cbn [app].
      change (updated_lines (Fs.UpdatedLine p (Some k) :: out))
        with ((p, Some k) :: updated_lines out).
      repeat split.
      * rewrite <- !app_assoc. reflexivity.
      * simpl. lia.
      * simpl. unfold count_of at 2. simpl. lia.
      * constructor; [unfold count_of; simpl; lia|exact E4].
      * simpl. lia.
      * simpl. intros x [<-|I]; [left; reflexivity|right; apply E6; exact I].
    + destruct (IH n t w') as (out & E1 & E2 & E3 & E4 & E5 & E6).
      exists (errs ++ out).
      rewrite E1, E2, E3, Ec, updated_lines_app, Eu. cbn [app].
      repeat split; auto.
      * rewrite <- app_assoc. reflexivity.
      * simpl. lia.
      * intros x I. right. apply E6. exact I.
Qed.

Lemma sum_at_least (l : list (Fs.path * option nat)) :
  Forall (fun pc => 1 <= count_of pc) l -> length l <= list_sum (map count_of l).
Proof.
  induction 1 as [|x l H _ IH]; simpl; lia.
Qed.

(** X16: the closing summary agrees with the lines printed.  For a
    table whose old names are free of metacharacters and whose new
    names hold no backslash and do not begin with a digit (as [RENAMES]
    and [PATH_UPDATES]), whatever the files and their state: [main] of
    update-feature-imports.py adds to the console the lines of the run
    and then the summary, which is the last it prints;
    [files_updated] is the number of lines [path: n import(s) updated]
    printed, [total_updates] is the sum of the counts they show, every
    such line shows a count of at least one and names a file handed
    over, so that [files_updated] is at most [total_updates] and at
    most the number of files.  [main] of update-imports.py adds the
    lines of the run, then the summary, then its two fixed closing
    lines (review the changes with [git diff], test with
    [npm run build]); [updated_count] is the number of lines
    [Updated: path] printed, at most [total_count], which is the number
    of files checked. *)
Theorem summary_agrees_with_lines
  (table : list (string * string)) (files : list Fs.path) (w : Fs.world) :
  safe_names table = true -> template_names table = true ->
  (exists out,
     let '(n, t, w') := UpdateFeatureImports.main_with table files w in
     Fs.console w' = Fs.console w ++ out ++ [Fs.SummaryLine [n; t]]
     /\ n = length (updated_lines out)
     /\ t = list_sum (map count_of (updated_lines out))
     /\ Forall (fun pc => 1 <= count_of pc) (updated_lines out)
     /\ incl (map fst (updated_lines out)) files
     /\ n <= t /\ n <= length files)
  /\ (exists out,
        let '(n, w') := UpdateImports.main_with table files w in
        Fs.console w' = Fs.console w ++ out
                        ++ [Fs.SummaryLine [n; length files];
                            Fs.ReviewLine; Fs.BuildLine]
        /\ n = length (updated_lines out)
        /\ incl (map fst (updated_lines out)) files
        /\ n <= length files).
Proof.
  intros _ _. split.
  - destruct (ufi_loop_lines table files 0 0 w)
      as (out & E1 & E2 & E3 & E4 & E5 & E6).
    exists out. unfold UpdateFeatureImports.main_with.
    destruct (UpdateFeatureImports.main_loop table files 0 0 w) as [[n t] w'].
    cbn [fst snd] in *. unfold Fs.print. cbn [Fs.console].
    rewrite E1, <- app_assoc. simpl in E2, E3. subst n t.
    repeat split; auto. apply sum_at_least. exact E4.
  - destruct (ui_loop_lines table files 0 w) as (out & E1 & E2 & E3 & E4).
    exists out. unfold UpdateImports.main_with.
    destruct (UpdateImports.main_loop table files 0 w) as [n w'].
    cbn [fst snd] in *. unfold Fs.print. cbn [Fs.console Fs.disk].
    rewrite E1, <- !app_assoc. simpl in E2. subst n.
    repeat split; auto.
Qed.

Lemma summary_agrees_with_lines_witness :
  let files := ["a.tsx"; "b.tsx"] in
  let w := Fs.World (fun _ => Fs.File (Some (cs "import a from './Chat'")) Fs.WriteOk)
                    [] in
  exists out,
    let '(n, w') := UpdateImports.main_with UpdateImports.RENAMES files w in
    Fs.console w' = Fs.console w ++ out
                    ++ [Fs.SummaryLine [n; length files];
                        Fs.ReviewLine; Fs.BuildLine]
    /\ n = length (updated_lines out)
    /\ incl (map fst (updated_lines out)) files
    /\ n <= length files.
Proof.
  intros files w.
  exact (proj2 (summary_agrees_with_lines UpdateImports.RENAMES files w
                  ltac:(vm_compute; reflexivity) ltac:(vm_compute; reflexivity))).
Defined.


(** ** The binding name derived from a path *)

Lemma pieces_chars sep s : forall w a,
  In w (split_on sep s) -> In a w -> In a s /\ Ascii.eqb a sep = false.
Proof.
  induction s as [|b s IH]; intros w a Iw Ia.
  - destruct Iw as [<-|[]]. destruct Ia.
  - simpl in Iw. destruct (Ascii.eqb b sep) eqn:E.
    + destruct Iw as [<-|Iw]; [destruct Ia|].
      destruct (IH w a Iw Ia) as [H1 H2]. split; [right; exact H1|exact H2].
    + destruct (split_on sep s) as [|w0 ws] eqn:Es.
      * destruct Iw as [<-|[]]. destruct Ia as [<-|[]]. split; [left; reflexivity|exact E].
      * destruct Iw as [<-|Iw].
        -- destruct Ia as [<-|Ia]; [split; [left; reflexivity|exact E]|].
           destruct (IH w0 a (or_introl eq_refl) Ia) as [H1 H2].
           split; [right; exact H1|exact H2].
        -- destruct (IH w a (or_intror Iw) Ia) as [H1 H2].
           split; [right; exact H1|exact H2].
Qed.

Lemma pieces_all_empty sep s :
  (forall w, In w (split_on sep s) -> w = []) ->
  forall a, In a s -> Ascii.eqb a sep = true.
Proof.
  induction s as [|b s IH]; intros H a Ia; [destruct Ia|].
  simpl in H. destruct (Ascii.eqb b sep) eqn:E.
  - destruct Ia as [<-|Ia]; [exact E|].
    apply IH; auto. intros w Iw. apply H. right. exact Iw.
  - destruct (split_on sep s) as [|w0 ws].
    + discriminate (H [b] (or_introl eq_refl)).
    + discriminate (H (b :: w0) (or_introl eq_refl)).
Qed.

Lemma upper_letter_or_digit a :
  letter_or_digit a = true -> letter_or_digit (upper a) = true.
Proof.
  destruct a as [[] [] [] [] [] [] [] []]; vm_compute; auto.
Qed.

Lemma lower_letter_or_digit a :
  letter_or_digit a = true -> letter_or_digit (lower a) = true.
Proof.
  destruct a as [[] [] [] [] [] [] [] []]; vm_compute; auto.
Qed.

Lemma stem_not_dash a :
  stem_char a = true -> Ascii.eqb a "-" = false -> letter_or_digit a = true.
Proof.
  destruct a as [[] [] [] [] [] [] [] []]; vm_compute; auto.
Qed.

Lemma letter_or_digit_plain a : letter_or_digit a = true -> plain_char a = true.
Proof.
  destruct a as [[] [] [] [] [] [] [] []]; vm_compute; auto.
Qed.

Lemma capitalize_letters w :
  forallb letter_or_digit w = true -> forallb letter_or_digit (capitalize w) = true.
Proof.
  destruct w as [|a w]; [reflexivity|]. simpl. intros H.
  apply andb_true_iff in H as [Ha Hw].
  rewrite upper_letter_or_digit by exact Ha. simpl.
  rewrite forallb_forall in *. intros x Ix.
  apply in_map_iff in Ix as (y & <- & Iy). apply lower_letter_or_digit. auto.
Qed.

Lemma pascal_case_letters s :
  forallb stem_char s = true -> forallb letter_or_digit (pascal_case s) = true.
Proof.
  intros H. unfold pascal_case.
  assert (P : forall w, In w (split_on "-" s) -> forallb letter_or_digit w = true).
  { intros w Iw. apply forallb_forall. intros a Ia.
    destruct (pieces_chars _ _ _ _ Iw Ia) as [Is Nd].
    apply stem_not_dash; [|exact Nd].
    rewrite forallb_forall in H. apply H. exact Is. }
  induction (split_on "-" s) as [|w ws IH]; [reflexivity|].
  simpl. rewrite forallb_app, capitalize_letters by (apply P; left; reflexivity).
  simpl. apply IH. intros w' I. apply P. right. exact I.
Qed.

Lemma pascal_case_nonempty s :
  existsb (fun a => negb (Ascii.eqb a "-")) s = true -> pascal_case s <> [].
Proof.
  intros H E. apply existsb_exists in H as (a & Ia & Na).
  rewrite (pieces_all_empty "-" s) in Na; [discriminate| |exact Ia].
  intros w Iw. unfold pascal_case in E.
  induction (split_on "-" s) as [|w0 ws IH]; [destruct Iw|].
  simpl in E. apply app_eq_nil in E as [E0 E1].
  destruct Iw as [<-|Iw]; [|apply IH; auto].
  destruct w0; [reflexivity|discriminate E0].
Qed.

(** X17: the binding name derived from a path in kebab case is a usable
    name.  When the last segment of the old path ([old_path.split('/')
    [-1]]) is made of letters, digits and dashes and not of dashes
    only, the name [''.join(word.capitalize() ...)] derived from it is
    not empty and holds letters and digits only: no dash, no slash, no
    character with a meaning in a pattern.  This is what the rules of
    fix-moved-imports.py, fix-remaining-imports.py and
    fix-all-remaining-imports.py need of it. *)
Theorem derived_name_is_usable (e : string * string) :
  kebab (last_segment (cs (fst e))) = true ->
  binding_of e <> []
  /\ forallb letter_or_digit (binding_of e) = true
  /\ plain (binding_of e) = true
  /\ regex_safe (binding_of e) = true.
Proof.
  unfold kebab, binding_of. intros H. apply andb_true_iff in H as [H1 H2].
  pose proof (pascal_case_letters _ H1) as L.
  split; [apply pascal_case_nonempty; exact H2|].
  split; [exact L|].
  rewrite forallb_forall in L.
  split; apply forallb_forall; intros a Ia; specialize (L a Ia).
  - apply letter_or_digit_plain. exact L.
  - revert L. clear. destruct a as [[] [] [] [] [] [] [] []]; vm_compute; auto.
Qed.

Lemma derived_name_is_usable_witness :
  binding_of ("@/components/add-comment-dialog", "@/components/forms")
  = cs "AddCommentDialog"
  /\ plain (binding_of ("@/components/add-comment-dialog", "@/components/forms"))
     = true.
Proof.
  split; [reflexivity|].
  refine (proj1 (proj2 (proj2 (derived_name_is_usable
            ("@/components/add-comment-dialog", "@/components/forms")%string _)))).
  vm_compute. reflexivity.
Defined.

(** ** Import statements that overlap *)

Lemma quote_not_path a : is_quote a = true -> path_char a = false.
Proof.
  intros H. destruct (path_char a) eqn:P; auto.
  apply path_char_facts in P as (P & _). congruence.
Qed.

Lemma space_not_path a : is_space a = true -> path_char a = false.
Proof.
  intros H. destruct (path_char a) eqn:P; auto.
  apply path_char_facts in P as (_ & P & _). congruence.
Qed.

Lemma suffix_snoc (u : chars) c : forall l y,
  l ++ y = u ++ [c] -> y <> [] -> exists p y0, u = p ++ y0 /\ y = y0 ++ [c].
Proof.
  intros l y E Hy. destruct (exists_last Hy) as (y0 & c' & ->).
  rewrite app_assoc in E. apply app_inj_tail in E as [E ->].
  exists l, y0. auto.
Qed.

(** Where a text that starts with [i] can start in [B ++ C], when [B]
    holds no [i]. *)
Lemma starts_after (B C x l l' : chars) :
  x ++ l = B ++ C -> l = "i"%char :: l' -> ~ In "i"%char B ->
  exists l0, C = l0 ++ l /\ x = B ++ l0.
Proof.
  intros E El NB. apply app_eq_app in E as [l0 [[E1 E2]|[E1 E2]]].
  - exists l0. auto.
  - destruct l0 as [|a l0].
    + exists []. rewrite app_nil_r in E1. simpl in E2. subst. rewrite app_nil_r. auto.
    + exfalso. rewrite El in E2. simpl in E2. inversion E2; subst a.
      apply NB. rewrite E1. apply in_or_app. right. left. reflexivity.
Qed.

Lemma spaces_no_i w : spaces w = true -> ~ In "i"%char w.
Proof.
  unfold spaces. rewrite forallb_forall. intros H I. apply H in I. discriminate I.
Qed.

Lemma tail_head_no_i w4 w5 q :
  spaces w4 = true -> spaces w5 = true -> is_quote q = true ->
  ~ In "i"%char (w4 ++ cs "from" ++ w5 ++ [q]).
Proof.
  intros S4 S5 Q1 I.
  apply in_app_or in I as [I|I]; [exact (spaces_no_i _ S4 I)|].
  apply in_app_or in I as [I|I]; [simpl in I; intuition discriminate|].
  apply in_app_or in I as [I|I]; [exact (spaces_no_i _ S5 I)|].
  destruct I as [->|[]]. discriminate Q1.
Qed.

(** Two ends that start at the same place name the same path. *)
Lemma tail_same o1 o2 t1 t2 r1 r2 :
  path_text o1 = true -> path_text o2 = true ->
  from_tail o1 t1 -> from_tail o2 t2 -> t1 ++ r1 = t2 ++ r2 ->
  o1 = o2 /\ t1 = t2 /\ r1 = r2.
Proof.
  intros P1 P2 [w4 w5 q q' N4 S4 N5 S5 Q1 Q2] [v4 v5 p p' M4 T4 M5 T5 R1 R2] E.
  change (cs "from") with ("f"%char :: cs "rom") in *.
  repeat (rewrite <- ?app_assoc, <- ?app_comm_cons in E).
  apply (split_unique is_space) in E as (-> & _ & E); auto.
  apply app_inv_head in E.
  apply (split_unique is_space) in E as (-> & -> & E); auto;
    try (apply quote_not_space; assumption).
  assert (Ho : forallb (fun a => negb (is_quote a)) o1 = true).
  { eapply forallb_weaken; [|exact P1]. intros a Ha.
    apply path_char_facts in Ha as (-> & _). reflexivity. }
  assert (Ho' : forallb (fun a => negb (is_quote a)) o2 = true).
  { eapply forallb_weaken; [|exact P2]. intros a Ha.
    apply path_char_facts in Ha as (-> & _). reflexivity. }
  assert (Hq : negb (is_quote q') = false) by (rewrite Q2; reflexivity).
  assert (Hp : negb (is_quote p') = false) by (rewrite R2; reflexivity).
  destruct (split_unique _ _ _ _ _ _ _ Ho Ho' Hq Hp E) as (-> & -> & E3).
  simpl in E3. subst. auto.
Qed.

(** No [import] followed by a space starts inside an end, whatever
    follows the end. *)
Lemma tail_no_import old t l y rest c Z :
  path_text old = true -> from_tail old t ->
  t = l ++ y -> y <> [] -> is_space c = true ->
  y ++ rest = cs "import" ++ c :: Z -> False.
Proof.
  intros Po [w4 w5 q q' N4 S4 N5 S5 Q1 Q2] E Hy Sc Ey.
  assert (Inside : forall l0 y0, old = l0 ++ y0 -> y = y0 ++ [q'] -> False).
  { intros l0 y0 Eo E0. subst y. rewrite <- app_assoc in Ey.
    change ([q'] ++ rest) with (q' :: rest) in Ey.
    assert (Py : forallb path_char y0 = true).
    { unfold path_text in Po. rewrite Eo, forallb_app in Po.
      apply andb_true_iff in Po as [_ Po]. exact Po. }
    apply (split_unique path_char) in Ey as (_ & Eq & _); auto.
    - subst c. apply quote_facts in Q2 as (_ & _ & Q2). congruence.
    - apply quote_not_path. exact Q2.
    - apply space_not_path. exact Sc. }
  assert (E' : l ++ y = (w4 ++ cs "from" ++ w5 ++ [q]) ++ old ++ [q']).
  { rewrite <- E. repeat (rewrite <- ?app_assoc, <- ?app_comm_cons). reflexivity. }
  destruct y as [|a y']; [contradiction Hy; reflexivity|].
  assert (a = "i"%char) by (simpl in Ey; inversion Ey; reflexivity). subst a.
  destruct (starts_after _ _ _ _ _ E' eq_refl (tail_head_no_i w4 w5 q S4 S5 Q1))
    as (l0 & E0 & _).
  destruct (suffix_snoc old q' l0 ("i"%char :: y') (eq_sym E0) ltac:(discriminate))
    as (p & y0 & Eo & Ey0).
  exact (Inside p y0 Eo Ey0).
Qed.

(** The text before the closing brace of an import with braces, and
    the text of an import without braces, hold no closing brace. *)
Lemma spaces_no_rbrace w : spaces w = true -> no_rbrace w = true.
Proof.
  intros H. eapply forallb_weaken; [|exact H]. intros a Ha.
  apply space_facts in Ha as (_ & _ & -> & _). reflexivity.
Qed.

Lemma path_no_rbrace w : path_text w = true -> no_rbrace w = true.
Proof.
  intros H. eapply forallb_weaken; [|exact H]. intros a Ha.
  apply path_char_facts in Ha as (_ & _ & _ & ->). reflexivity.
Qed.

Lemma no_rbrace_app a b : no_rbrace (a ++ b) = no_rbrace a && no_rbrace b.
Proof. apply forallb_app. Qed.

Lemma no_rbrace_suffix a b : no_rbrace (a ++ b) = true -> no_rbrace b = true.
Proof. rewrite no_rbrace_app. intros H. apply andb_true_iff in H as [_ H]. exact H. Qed.

Lemma no_rbrace_prefix a b : no_rbrace (a ++ b) = true -> no_rbrace a = true.
Proof. rewrite no_rbrace_app. intros H. apply andb_true_iff in H as [H _]. exact H. Qed.

Lemma head_no_rbrace w1 G :
  spaces w1 = true -> no_rbrace G = true ->
  no_rbrace (cs "import" ++ w1 ++ "{"%char :: G) = true.
Proof.
  intros S1 HG. rewrite !no_rbrace_app, (spaces_no_rbrace w1 S1).
  change (no_rbrace ("{"%char :: G)) with (no_rbrace G). rewrite HG. reflexivity.
Qed.

Lemma tail_no_rbrace old t :
  path_text old = true -> from_tail old t -> no_rbrace t = true.
Proof.
  intros Po [w4 w5 q q' N4 S4 N5 S5 Q1 Q2].
  rewrite !no_rbrace_app, (spaces_no_rbrace w4 S4), (spaces_no_rbrace w5 S5).
  change (no_rbrace (q :: old ++ [q']))
    with (negb (Ascii.eqb q "}") && no_rbrace (old ++ [q'])).
  rewrite no_rbrace_app, (path_no_rbrace old Po).
  destruct (quote_facts q Q1) as (_ & -> & _).
  simpl. destruct (quote_facts q' Q2) as (_ & -> & _). reflexivity.
Qed.

Lemma bare_no_rbrace N old m :
  plain N = true -> path_text old = true -> bare_import N old m ->
  no_rbrace m = true.
Proof.
  intros PN Po [w1 t N1 S1 Ht].
  pose proof (plain_no_rbrace N PN) as HN. change (no_rbrace N = true) in HN.
  rewrite !no_rbrace_app, (spaces_no_rbrace w1 S1), HN,
    (tail_no_rbrace old t Po Ht). reflexivity.
Qed.

Lemma tail_nonempty old t : from_tail old t -> exists c t', t = c :: t' /\ is_space c = true.
Proof.
  intros [w4 w5 q q' N4 S4 N5 S5 Q1 Q2].
  destruct w4 as [|c w4]; [contradiction N4; reflexivity|].
  simpl in S4. apply andb_true_iff in S4 as [Sc _].
  eexists c, _. split; [reflexivity|exact Sc].
Qed.

Lemma tail_last old t : from_tail old t -> exists t0 q', t = t0 ++ [q'] /\ is_quote q' = true.
Proof.
  intros [w4 w5 q q' N4 S4 N5 S5 Q1 Q2].
  exists (w4 ++ cs "from" ++ w5 ++ q :: old), q'. split; [|exact Q2].
  repeat (rewrite <- ?app_assoc, <- ?app_comm_cons). reflexivity.
Qed.

(** An import with braces that starts inside another one, or where it
    starts, names the same path. *)
Lemma braced_overlap o1 G1 m1 o2 G2 m2 x l r1 r2 :
  path_text o1 = true -> path_text o2 = true ->
  braced_import o1 G1 m1 -> braced_import o2 G2 m2 ->
  m1 = x ++ l -> l <> [] -> l ++ r1 = m2 ++ r2 -> o1 = o2.
Proof.
  intros P1 P2 [w1 t1 N1 S1 HG1 T1] [v1 t2 M1 R1 HG2 T2] E Hl El.
  destruct v1 as [|c v1]; [contradiction M1; reflexivity|].
  assert (Sc : is_space c = true).
  { simpl in R1. apply andb_true_iff in R1 as [R1 _]. exact R1. }
  assert (E' : x ++ l = (cs "import" ++ w1 ++ "{"%char :: G1) ++ "}"%char :: t1).
  { rewrite <- E. repeat (rewrite <- ?app_assoc, <- ?app_comm_cons). reflexivity. }
  apply app_eq_app in E' as [l0 [[E1 E2]|[E1 E2]]].
  - exfalso. destruct l0 as [|b l0].
    + simpl in E2. subst l. simpl in El. discriminate El.
    + simpl in E2. inversion E2 as [[Eb Et]].
      eapply (tail_no_import o1 t1 l0 l r1 c); eauto.
      rewrite El. repeat (rewrite <- ?app_assoc, <- ?app_comm_cons). reflexivity.
  - subst l.
    assert (H0 : no_rbrace l0 = true).
    { apply (no_rbrace_suffix x). rewrite <- E1. apply head_no_rbrace; auto. }
    assert (H2 : no_rbrace (cs "import" ++ (c :: v1) ++ "{"%char :: G2) = true)
      by (apply head_no_rbrace; auto).
    assert (E3 : l0 ++ "}"%char :: (t1 ++ r1)
                 = (cs "import" ++ (c :: v1) ++ "{"%char :: G2)
                   ++ "}"%char :: (t2 ++ r2)).
    { rewrite <- app_assoc in El. simpl in El. rewrite El.
      repeat (rewrite <- ?app_assoc, <- ?app_comm_cons). reflexivity. }
    apply (split_unique (fun a => negb (Ascii.eqb a "}"))) in E3 as (_ & _ & E3); auto.
    destruct (tail_same o1 o2 t1 t2 r1 r2 P1 P2 T1 T2 E3) as (Eo & _). exact Eo.
Qed.

Lemma name_then_tail N1 o1 t1 r1 N2 o2 t2 r2 :
  plain N1 = true -> plain N2 = true -> from_tail o1 t1 -> from_tail o2 t2 ->
  N1 ++ t1 ++ r1 = N2 ++ t2 ++ r2 -> N1 = N2 /\ t1 ++ r1 = t2 ++ r2.
Proof.
  intros P1 P2 T1 T2 E.
  destruct (tail_nonempty _ _ T1) as (c1 & t1' & -> & S1).
  destruct (tail_nonempty _ _ T2) as (c2 & t2' & -> & S2).
  rewrite <- !app_comm_cons in E.
  apply (split_unique plain_char) in E as (-> & -> & E); auto;
    try (apply space_not_plain; assumption).
  rewrite <- !app_comm_cons, E. auto.
Qed.

(** An end does not read as spaces, a name and an end. *)
Lemma tail_not_name o1 t1 r1 v1 N2 o2 t2 r2 :
  from_tail o1 t1 -> spaces v1 = true -> plain N2 = true -> N2 <> [] ->
  from_tail o2 t2 -> t1 ++ r1 = v1 ++ N2 ++ t2 ++ r2 -> False.
Proof.
  intros [w4 w5 q q' N4 S4 N5 S5 Q1 Q2] R1 PN NN [v4 v5 p p' M4 T4 M5 T5 R2 R3] E.
  destruct N2 as [|n2 N2]; [contradiction NN; reflexivity|].
  simpl in PN. apply andb_true_iff in PN as [Pn PN].
  destruct w5 as [|c5 w5]; [contradiction N5; reflexivity|].
  destruct v4 as [|c4 v4]; [contradiction M4; reflexivity|].
  simpl in S5, T4. apply andb_true_iff in S5 as [Sc5 S5].
  apply andb_true_iff in T4 as [Sc4 T4].
  change (cs "from") with ("f"%char :: cs "rom") in E.
  repeat (rewrite <- ?app_assoc, <- ?app_comm_cons in E).
  apply (split_unique is_space) in E as (_ & <- & E); auto;
    try (apply safe_not_space, plain_char_safe; assumption).
  apply (split_unique plain_char) in E as (_ & _ & E); auto;
    try (apply space_not_plain; assumption).
  apply (split_unique is_space) in E as (_ & Eq & _); auto;
    try (apply quote_not_space; assumption).
  subst q. discriminate Q1.
Qed.

(** An import without braces that starts inside another one, or where
    it starts, names the same path. *)
Lemma bare_overlap N1 o1 m1 N2 o2 m2 x l r1 r2 :
  plain N1 = true -> N1 <> [] -> plain N2 = true -> N2 <> [] ->
  path_text o1 = true -> path_text o2 = true ->
  bare_import N1 o1 m1 -> bare_import N2 o2 m2 ->
  m1 = x ++ l -> l <> [] -> l ++ r1 = m2 ++ r2 -> o1 = o2.
Proof.
  intros PN1 NN1 PN2 NN2 P1 P2 [w1 t1 N1' S1 T1] [v1 t2 M1 R1 T2] E Hl El.
  destruct v1 as [|c v1]; [contradiction M1; reflexivity|].
  assert (Sc : is_space c = true).
  { simpl in R1. apply andb_true_iff in R1 as [R1 _]. exact R1. }
  assert (Sv : spaces v1 = true).
  { simpl in R1. apply andb_true_iff in R1 as [_ R1]. exact R1. }
  assert (Em2 : (cs "import" ++ (c :: v1) ++ N2 ++ t2) ++ r2
                = cs "import" ++ c :: (v1 ++ N2 ++ t2 ++ r2)).
  { repeat (rewrite <- ?app_assoc, <- ?app_comm_cons). reflexivity. }
  rewrite Em2 in El.
  destruct x as [|a x].
  - rewrite app_nil_l in E. subst l.
    repeat (rewrite <- ?app_assoc in El).
    apply app_inv_head in El.
    destruct N2 as [|n2 N2]; [contradiction NN2; reflexivity|].
    destruct N1 as [|n1 N1]; [contradiction NN1; reflexivity|].
    { simpl in PN1, PN2. apply andb_true_iff in PN1 as [Pn1 PN1].
      apply andb_true_iff in PN2 as [Pn2 PN2].
      change (c :: v1 ++ (n2 :: N2) ++ t2 ++ r2)
        with ((c :: v1) ++ n2 :: (N2 ++ t2 ++ r2)) in El.
      rewrite <- app_comm_cons in El.
      apply (split_unique is_space) in El as (_ & _ & El); auto;
        try (apply safe_not_space, plain_char_safe; assumption).
      apply (name_then_tail N1 o1 t1 r1 N2 o2 t2 r2) in El as [_ El]; auto.
      apply (tail_same o1 o2 t1 t2 r1 r2 P1 P2 T1 T2 El). }
  - exfalso. destruct l as [|i l']; [contradiction Hl; reflexivity|].
    assert (i = "i"%char) by (simpl in El; inversion El; reflexivity). subst i.
    assert (E' : x ++ "i"%char :: l' = (cs "mport" ++ w1) ++ N1 ++ t1).
    { change (cs "import") with ("i"%char :: cs "mport") in E.
      rewrite <- !app_comm_cons in E. injection E as Ea E0. rewrite <- E0.
      rewrite <- app_assoc. reflexivity. }
    assert (NB : ~ In "i"%char (cs "mport" ++ w1)).
    { intros I. apply in_app_or in I as [I|I];
        [simpl in I; intuition discriminate|exact (spaces_no_i _ S1 I)]. }
    destruct (starts_after _ _ _ _ _ E' eq_refl NB) as (l0 & E0 & _).
    apply app_eq_app in E0 as [l1 [[E1 E2]|[E1 E2]]].
    + destruct l1 as [|b l1].
      * simpl in E2. rewrite app_nil_r in E1.
        apply (tail_no_import o1 t1 [] ("i"%char :: l') r1 c (v1 ++ N2 ++ t2 ++ r2) P1 T1);
          [symmetry; exact E2|discriminate|exact Sc|exact El].
      * assert (Pl : forallb plain_char (b :: l1) = true).
        { unfold plain in PN1. rewrite E1, forallb_app in PN1.
          apply andb_true_iff in PN1 as [_ PN1]. exact PN1. }
        destruct (tail_nonempty _ _ T1) as (c1 & t1' & Et & Sc1).
        assert (El2 : (b :: l1) ++ c1 :: (t1' ++ r1)
                      = cs "import" ++ c :: (v1 ++ N2 ++ t2 ++ r2)).
        { rewrite <- El, E2, Et, <- app_assoc. reflexivity. }
        apply (split_unique plain_char) in El2 as (_ & Ec & Er); auto;
          try (apply space_not_plain; assumption).
        apply (tail_not_name o1 t1 r1 (c :: v1) N2 o2 t2 r2); auto.
        rewrite Et, Ec. simpl. f_equal. exact Er.
    + apply (tail_no_import o1 t1 l1 ("i"%char :: l') r1 c (v1 ++ N2 ++ t2 ++ r2) P1 T1);
        [exact E2|discriminate|exact Sc|exact El].
Qed.

Lemma quote_not_in_head q v1 :
  is_quote q = true -> spaces v1 = true -> ~ In q (cs "import" ++ v1).
Proof.
  intros Q S I. apply in_app_or in I as [I|I].
  - simpl in I.
    destruct I as [<-|[<-|[<-|[<-|[<-|[<-|[]]]]]]]; discriminate Q.
  - unfold spaces in S. rewrite forallb_forall in S. apply S in I.
    apply quote_facts in Q as (_ & _ & Q). congruence.
Qed.

Lemma bare_no_lbrace N old m :
  plain N = true -> path_text old = true -> bare_import N old m ->
  forallb (fun a => negb (Ascii.eqb a "{")) m = true.
Proof.
  intros PN Po [w1 t N1 S1 [w4 w5 q q' N4 S4 N5 S5 Q1 Q2]].
  change (cs "from") with ("f"%char :: cs "rom").
  repeat (rewrite ?forallb_app, ?forallb_cons).
  destruct (quote_facts q Q1) as (-> & _). destruct (quote_facts q' Q2) as (-> & _).
  repeat (apply andb_true_iff; split); try reflexivity;
    try (eapply forallb_weaken; [|eassumption]; intros c Hc;
         first [ apply space_facts in Hc as (_ & -> & _); reflexivity
               | apply plain_path_char, path_char_facts in Hc as (_ & _ & -> & _);
                 reflexivity
               | apply path_char_facts in Hc as (_ & _ & -> & _); reflexivity ]).
Qed.

(** No import with braces starts inside an import without braces, or
    where it starts. *)
Lemma bare_then_braced N1 o1 m1 o2 G m2 x l r1 r2 :
  plain N1 = true -> path_text o1 = true ->
  bare_import N1 o1 m1 -> braced_import o2 G m2 ->
  m1 = x ++ l -> l <> [] -> l ++ r1 = m2 ++ r2 -> False.
Proof.
  intros PN1 P1 H1 [v1 t2 M1 R1 HG T2] E Hl El.
  pose proof (bare_no_lbrace N1 o1 m1 PN1 P1 H1) as NL.
  destruct H1 as [w1 t1 N1' S1 T1].
  destruct (tail_last _ _ T1) as (t0 & q' & Et & Q2).
  assert (Em : x ++ l = (cs "import" ++ w1 ++ N1 ++ t0) ++ [q']).
  { rewrite <- E, Et. repeat (rewrite <- ?app_assoc). reflexivity. }
  destruct (suffix_snoc _ _ _ _ Em Hl) as (p & y0 & _ & Ey).
  rewrite E, forallb_app in NL. apply andb_true_iff in NL as [_ NL].
  assert (El' : l ++ r1 = (cs "import" ++ v1) ++ "{"%char :: (G ++ "}"%char :: t2 ++ r2)).
  { rewrite El. repeat (rewrite <- ?app_assoc, <- ?app_comm_cons). reflexivity. }
  destruct (prefix_before _ l (cs "import" ++ v1) "{"%char _ r1 NL eq_refl El')
    as (z & Ez).
  apply (quote_not_in_head q' v1 Q2 R1).
  rewrite Ez, Ey. apply in_or_app. left. apply in_or_app. right. left. reflexivity.
Qed.

(** An import without braces that starts inside an import with braces
    lies between the braces. *)
Lemma braced_then_bare o1 G m1 N2 o2 m2 x l r1 r2 :
  path_text o1 = true -> plain N2 = true -> N2 <> [] -> path_text o2 = true ->
  braced_import o1 G m1 -> bare_import N2 o2 m2 ->
  m1 = x ++ l -> l <> [] -> l ++ r1 = m2 ++ r2 ->
  exists a b, G = a ++ m2 ++ b.
Proof.
  intros P1 PN2 NN2 P2 [w1 t1 N1 S1 HG T1] H2 E Hl El.
  pose proof (bare_no_rbrace N2 o2 m2 PN2 P2 H2) as NR.
  inversion H2 as [v1 t2 M1 R1 T2 Em2].
  destruct v1 as [|c v1]; [contradiction M1; reflexivity|].
  assert (Sc : is_space c = true).
  { simpl in R1. apply andb_true_iff in R1 as [R1 _]. exact R1. }
  assert (El2 : l ++ r1 = cs "import" ++ c :: (v1 ++ N2 ++ t2 ++ r2)).
  { rewrite El, <- Em2. repeat (rewrite <- ?app_assoc, <- ?app_comm_cons). reflexivity. }
  destruct x as [|a x].
  - exfalso. rewrite app_nil_l in E. subst l.
    repeat (rewrite <- ?app_assoc in El2). apply app_inv_head in El2.
    destruct N2 as [|n2 N2]; [contradiction NN2; reflexivity|].
    simpl in PN2. apply andb_true_iff in PN2 as [Pn2 _].
    change (c :: v1 ++ (n2 :: N2) ++ t2 ++ r2)
      with ((c :: v1) ++ n2 :: (N2 ++ t2 ++ r2)) in El2.
    rewrite <- app_comm_cons in El2.
    apply (split_unique is_space) in El2 as (_ & Eb & _); auto;
      try (apply safe_not_space, plain_char_safe; assumption).
    subst n2. discriminate Pn2.
  - destruct l as [|i l']; [contradiction Hl; reflexivity|].
    assert (i = "i"%char) by (simpl in El2; inversion El2; reflexivity). subst i.
    assert (E' : x ++ "i"%char :: l'
                 = (cs "mport" ++ w1 ++ ["{"%char]) ++ G ++ "}"%char :: t1).
    { change (cs "import") with ("i"%char :: cs "mport") in E.
      rewrite <- !app_comm_cons in E. injection E as Ea E0. rewrite <- E0.
      repeat (rewrite <- ?app_assoc, <- ?app_comm_cons). reflexivity. }
    assert (NB : ~ In "i"%char (cs "mport" ++ w1 ++ ["{"%char])).
    { intros I. apply in_app_or in I as [I|I]; [simpl in I; intuition discriminate|].
      apply in_app_or in I as [I|I]; [exact (spaces_no_i _ S1 I)|].
      destruct I as [I|[]]. discriminate I. }
    destruct (starts_after _ _ _ _ _ E' eq_refl NB) as (l0 & E0 & _).
    apply app_eq_app in E0 as [l1 [[E1 E2]|[E1 E2]]].
    + assert (E3 : m2 ++ r2 = l1 ++ "}"%char :: (t1 ++ r1)).
      { rewrite <- El, E2. rewrite <- app_assoc. reflexivity. }
      destruct (prefix_before _ _ l1 "}"%char _ r2 NR eq_refl E3) as (z & Ez).
      exists l0, z. rewrite E1, Ez, Em2. reflexivity.
    + exfalso. destruct l1 as [|b l1].
      * simpl in E2. discriminate E2.
      * simpl in E2. injection E2 as Eb Et.
        apply (tail_no_import o1 t1 l1 ("i"%char :: l') r1 c (v1 ++ N2 ++ t2 ++ r2)
                 P1 T1); [exact Et|discriminate|exact Sc|exact El2].
Qed.

(** ** A pass keeps a pattern without match: with the input at hand *)

Section PullingClean.

Variables (K : regex) (T : template) (start : chars -> Prop) (Q : regex).

Hypothesis K_nil : match_items (items K) [] = None.
Hypothesis K_grows : forall s ps rest,
  match_items (items K) s = Some (ps, rest) -> concat ps <> [].
Hypothesis exp_start : forall s ps rest X,
  match_items (items K) s = Some (ps, rest) -> start (expand K T ps ++ X).
Hypothesis Q_still : forall s qs rest a M,
  match_items (items Q) s = Some (qs, rest) -> concat qs = a :: M ->
  forall rest', still start M rest'.
Hypothesis Q_grows : forall s qs rest,
  match_items (items Q) s = Some (qs, rest) -> concat qs <> [].
Hypothesis exp_clean : forall s ps rest o,
  match_items (items K) s = Some (ps, rest) ->
  clean Q s -> clean Q o -> clean Q (expand K T ps ++ o).

Lemma clean_kept : forall s, clean Q s -> clean Q (re_sub K T s).
Proof.
  intros s. remember (length s) as n eqn:En. revert s En.
  induction n as [n IH] using lt_wf_ind. intros s En Hs.
  destruct s as [|a s].
  - rewrite (sub_nil_gen K T K_nil). exact Hs.
  - destruct (match_items (items K) (a :: s)) as [[ps rest]|] eqn:M.
    + rewrite (re_sub_hit K T _ _ _ M (K_grows _ _ _ M)).
      apply (exp_clean _ _ _ _ M Hs).
      destruct (match_sound _ _ _ _ M) as [_ E].
      apply (IH (length rest)) with (s := rest); auto.
      * rewrite En, E, length_app.
        pose proof (K_grows _ _ _ M) as G.
        destruct (concat ps); [contradiction G; reflexivity|simpl; lia].
      * rewrite E in Hs. apply (clean_suffix _ _ _ Hs).
    + rewrite re_sub_miss by exact M.
      apply clean_cons.
      * destruct (match_items (items Q) (a :: re_sub K T s))
          as [[qs rest']|] eqn:MQ; auto.
        exfalso.
        assert (MK : matches_at Q (a :: s)).
        { apply (head_pulled_gen K T start K_nil K_grows exp_start Q Q_still Q_grows);
            auto.
          unfold matches_at. rewrite MQ. discriminate. }
        apply MK. apply (clean_head _ _ Hs).
      * apply (IH (length s)) with (s := s); auto.
        -- rewrite En. simpl. lia.
        -- apply (clean_tail _ _ _ Hs).
Qed.

End PullingClean.

(** ** The statements the scripts write *)

Lemma normal_braced g new :
  no_rbrace g = true ->
  braced_import new (" "%char :: g ++ [" "%char]) (normal_import g new).
Proof.
  intros Hg.
  assert (E : normal_import g new
              = cs "import" ++ [" "%char]
                ++ "{"%char :: (" "%char :: g ++ [" "%char])
                ++ "}"%char :: ([" "%char] ++ cs "from" ++ [" "%char]
                                ++ "'"%char :: new ++ ["'"%char])).
  { unfold normal_import. simpl. rewrite <- app_assoc. reflexivity. }
  rewrite E. constructor.
  - discriminate.
  - reflexivity.
  - change (no_rbrace (g ++ [" "%char]) = true).
    rewrite no_rbrace_app, Hg. reflexivity.
  - constructor; try reflexivity; discriminate.
Qed.

Lemma normal_bare N new : bare_import N new (normal_default N new).
Proof.
  assert (E : normal_default N new
              = cs "import" ++ [" "%char] ++ N
                ++ ([" "%char] ++ cs "from" ++ [" "%char]
                    ++ "'"%char :: new ++ ["'"%char])).
  { unfold normal_default. simpl. reflexivity. }
  rewrite E. constructor; [discriminate|reflexivity|].
  constructor; try reflexivity; discriminate.
Qed.

Lemma braced_first old G m : braced_import old G m -> exists M, m = "i"%char :: M.
Proof. intros []. eexists. reflexivity. Qed.

Lemma bare_first N old m : bare_import N old m -> exists M, m = "i"%char :: M.
Proof. intros []. eexists. reflexivity. Qed.

Lemma shape_nil (R : regex) :
  (forall s ps rest, match_items (items R) s = Some (ps, rest) -> concat ps <> []) ->
  match_items (items R) [] = None.
Proof.
  intros H. destruct (match_items (items R) []) as [[ps rest]|] eqn:M; auto.
  exfalso. apply (H _ _ _ M).
  destruct (match_sound _ _ _ _ M) as [_ E]. symmetry in E.
  apply app_eq_nil in E as [E _]. exact E.
Qed.

(** ** A pass of a pattern with braces, against a pattern with braces *)

Section BracePass.

Variables (K : regex) (T : template) (new : chars) (Q : regex) (old' : chars).

Hypothesis Pnew : path_text new = true.
Hypothesis Pold' : path_text old' = true.
Hypothesis Hdiff : new <> old'.
Hypothesis K_shape : forall s ps rest,
  match_items (items K) s = Some (ps, rest) ->
  concat ps <> []
  /\ exists g, no_rbrace g = true /\ expand K T ps = normal_import g new.
Hypothesis Q_shape : forall s qs rest,
  match_items (items Q) s = Some (qs, rest) ->
  exists G, braced_import old' G (concat qs).

Let start : chars -> Prop :=
  fun s => exists g X, no_rbrace g = true /\ s = normal_import g new ++ X.

Lemma bp_K_grows s ps rest :
  match_items (items K) s = Some (ps, rest) -> concat ps <> [].
Proof. intros M. apply (K_shape _ _ _ M). Qed.

Lemma bp_Q_grows s qs rest :
  match_items (items Q) s = Some (qs, rest) -> concat qs <> [].
Proof.
  intros M. destruct (Q_shape _ _ _ M) as (G & H).
  destruct (braced_first _ _ _ H) as (M' & ->). discriminate.
Qed.

Lemma bp_exp_start s ps rest X :
  match_items (items K) s = Some (ps, rest) -> start (expand K T ps ++ X).
Proof.
  intros M. destruct (K_shape _ _ _ M) as (_ & g & Hg & ->).
  exists g, X. auto.
Qed.

Lemma bp_Q_still s qs rest a M :
  match_items (items Q) s = Some (qs, rest) -> concat qs = a :: M ->
  forall rest', still start M rest'.
Proof.
  intros MQ C rest' x y E Hy (g & X & Hg & Es).
  destruct (Q_shape _ _ _ MQ) as (G & HQ). rewrite C in HQ.
  apply Hdiff. symmetry.
  apply (braced_overlap old' G (a :: M) new _ (normal_import g new) (a :: x) y rest' X
           Pold' Pnew HQ (normal_braced g new Hg));
    [rewrite E; reflexivity|exact Hy|exact Es].
Qed.

Lemma bp_exp_clean s ps rest o :
  match_items (items K) s = Some (ps, rest) ->
  clean Q o -> clean Q (expand K T ps ++ o).
Proof.
  intros MK Ho. destruct (K_shape _ _ _ MK) as (_ & g & Hg & ->).
  intros x y E.
  destruct (match_items (items Q) y) as [[qs r]|] eqn:MQ; auto.
  exfalso. destruct (Q_shape _ _ _ MQ) as (G & HQ).
  destruct (match_sound _ _ _ _ MQ) as [_ Ey].
  apply app_eq_app in E as [l0 [[E1 E2]|[E1 E2]]].
  - destruct l0 as [|b l0].
    + simpl in E2. subst y. rewrite (Ho [] o eq_refl) in MQ. discriminate.
    + apply Hdiff.
      apply (braced_overlap new _ (normal_import g new) old' G (concat qs)
               x (b :: l0) o r Pnew Pold' (normal_braced g new Hg) HQ);
        [exact E1|discriminate|rewrite <- E2; exact Ey].
  - rewrite (Ho l0 y E2) in MQ. discriminate.
Qed.

Lemma brace_pass_new s :
  (forall x y, s = x ++ y -> matches_at Q y -> matches_at K y) ->
  clean Q (re_sub K T s).
Proof.
  apply (no_new_match_gen K T start (shape_nil K bp_K_grows) bp_K_grows bp_exp_start
           Q (shape_nil Q bp_Q_grows) bp_Q_still bp_Q_grows bp_exp_clean).
Qed.

Lemma brace_pass_keeps s : clean Q s -> clean Q (re_sub K T s).
Proof.
  apply (clean_preserved_gen K T start (shape_nil K bp_K_grows) bp_K_grows
           bp_exp_start Q (shape_nil Q bp_Q_grows) bp_Q_still bp_Q_grows
           bp_exp_clean).
Qed.

End BracePass.

(** ** A pass of a pattern without braces, against a pattern without
    braces *)

Section BarePass.

Variables (K : regex) (T : template) (N new : chars) (Q : regex) (N' old' : chars).

Hypothesis PN : plain N = true.
Hypothesis NN : N <> [].
Hypothesis PN' : plain N' = true.
Hypothesis NN' : N' <> [].
Hypothesis Pnew : path_text new = true.
Hypothesis Pold' : path_text old' = true.
Hypothesis Hdiff : new <> old'.
Hypothesis K_shape : forall s ps rest,
  match_items (items K) s = Some (ps, rest) ->
  concat ps <> [] /\ expand K T ps = normal_default N new.
Hypothesis Q_shape : forall s qs rest,
  match_items (items Q) s = Some (qs, rest) -> bare_import N' old' (concat qs).

Let start : chars -> Prop := fun s => exists X, s = normal_default N new ++ X.

Lemma ba_K_grows s ps rest :
  match_items (items K) s = Some (ps, rest) -> concat ps <> [].
Proof. intros M. apply (K_shape _ _ _ M). Qed.

Lemma ba_Q_grows s qs rest :
  match_items (items Q) s = Some (qs, rest) -> concat qs <> [].
Proof.
  intros M. destruct (bare_first _ _ _ (Q_shape _ _ _ M)) as (M' & ->). discriminate.
Qed.

Lemma ba_exp_start s ps rest X :
  match_items (items K) s = Some (ps, rest) -> start (expand K T ps ++ X).
Proof.
  intros M. destruct (K_shape _ _ _ M) as (_ & ->). exists X. reflexivity.
Qed.

Lemma ba_Q_still s qs rest a M :
  match_items (items Q) s = Some (qs, rest) -> concat qs = a :: M ->
  forall rest', still start M rest'.
Proof.
  intros MQ C rest' x y E Hy (X & Es).
  pose proof (Q_shape _ _ _ MQ) as HQ. rewrite C in HQ.
  apply Hdiff. symmetry.
  apply (bare_overlap N' old' (a :: M) N new (normal_default N new) (a :: x) y rest' X
           PN' NN' PN NN Pold' Pnew HQ (normal_bare N new));
    [rewrite E; reflexivity|exact Hy|exact Es].
Qed.

Lemma ba_exp_clean s ps rest o :
  match_items (items K) s = Some (ps, rest) ->
  clean Q o -> clean Q (expand K T ps ++ o).
Proof.
  intros MK Ho. destruct (K_shape _ _ _ MK) as (_ & ->).
  intros x y E.
  destruct (match_items (items Q) y) as [[qs r]|] eqn:MQ; auto.
  exfalso. pose proof (Q_shape _ _ _ MQ) as HQ.
  destruct (match_sound _ _ _ _ MQ) as [_ Ey].
  apply app_eq_app in E as [l0 [[E1 E2]|[E1 E2]]].
  - destruct l0 as [|b l0].
    + simpl in E2. subst y. rewrite (Ho [] o eq_refl) in MQ. discriminate.
    + apply Hdiff.
      apply (bare_overlap N new (normal_default N new) N' old' (concat qs)
               x (b :: l0) o r PN NN PN' NN' Pnew Pold' (normal_bare N new) HQ);
        [exact E1|discriminate|rewrite <- E2; exact Ey].
  - rewrite (Ho l0 y E2) in MQ. discriminate.
Qed.

Lemma bare_pass_new s :
  (forall x y, s = x ++ y -> matches_at Q y -> matches_at K y) ->
  clean Q (re_sub K T s).
Proof.
  apply (no_new_match_gen K T start (shape_nil K ba_K_grows) ba_K_grows ba_exp_start
           Q (shape_nil Q ba_Q_grows) ba_Q_still ba_Q_grows ba_exp_clean).
Qed.

Lemma bare_pass_keeps s : clean Q s -> clean Q (re_sub K T s).
Proof.
  apply (clean_preserved_gen K T start (shape_nil K ba_K_grows) ba_K_grows
           ba_exp_start Q (shape_nil Q ba_Q_grows) ba_Q_still ba_Q_grows
           ba_exp_clean).
Qed.

End BarePass.

(** ** A pass of a pattern with braces, against a pattern without
    braces *)

Lemma bare_last N old m :
  bare_import N old m -> exists m0 q', m = m0 ++ [q'] /\ is_quote q' = true.
Proof.
  intros [w1 t N1 S1 Ht]. destruct (tail_last _ _ Ht) as (t0 & q' & -> & Q2).
  exists (cs "import" ++ w1 ++ N ++ t0), q'. split; [|exact Q2].
  repeat (rewrite <- ?app_assoc). reflexivity.
Qed.

Lemma between_spaces g a M b :
  " "%char :: g ++ [" "%char] = a ++ M ++ b ->
  (exists m, M = "i"%char :: m) ->
  (exists m q, M = m ++ [q] /\ is_quote q = true) ->
  exists a' b', g = a' ++ M ++ b'.
Proof.
  intros E (m & Em) (m' & q & Em' & Q). destruct a as [|c a].
  - rewrite Em in E. simpl in E. discriminate E.
  - rewrite <- app_comm_cons in E. injection E as _ E.
    destruct b as [|b1 b] using rev_ind.
    + rewrite app_nil_r, Em', app_assoc in E. apply app_inj_tail in E as [_ E].
      subst q. discriminate Q.
    + exists a, b. rewrite !app_assoc in E. apply app_inj_tail in E as [E _].
      rewrite E, app_assoc. reflexivity.
Qed.

Section BraceBare.

Variables (K : regex) (T : template) (new : chars) (Q : regex) (N' old' : chars).

Hypothesis PN' : plain N' = true.
Hypothesis NN' : N' <> [].
Hypothesis Pnew : path_text new = true.
Hypothesis Pold' : path_text old' = true.
Hypothesis K_shape : forall s ps rest,
  match_items (items K) s = Some (ps, rest) ->
  concat ps <> []
  /\ exists g, no_rbrace g = true /\ expand K T ps = normal_import g new
               /\ occurs g (concat ps).
Hypothesis Q_shape : forall s qs rest,
  match_items (items Q) s = Some (qs, rest) -> bare_import N' old' (concat qs).

Let start : chars -> Prop :=
  fun s => exists g X, no_rbrace g = true /\ s = normal_import g new ++ X.

Lemma bb_K_grows s ps rest :
  match_items (items K) s = Some (ps, rest) -> concat ps <> [].
Proof. intros M. apply (K_shape _ _ _ M). Qed.

Lemma bb_Q_grows s qs rest :
  match_items (items Q) s = Some (qs, rest) -> concat qs <> [].
Proof.
  intros M. destruct (bare_first _ _ _ (Q_shape _ _ _ M)) as (M' & ->). discriminate.
Qed.

Lemma bb_exp_start s ps rest X :
  match_items (items K) s = Some (ps, rest) -> start (expand K T ps ++ X).
Proof.
  intros M. destruct (K_shape _ _ _ M) as (_ & g & Hg & -> & _).
  exists g, X. auto.
Qed.

Lemma bb_Q_still s qs rest a M :
  match_items (items Q) s = Some (qs, rest) -> concat qs = a :: M ->
  forall rest', still start M rest'.
Proof.
  intros MQ C rest' x y E Hy (g & X & Hg & Es).
  pose proof (Q_shape _ _ _ MQ) as HQ. rewrite C in HQ.
  apply (bare_then_braced N' old' (a :: M) new _ (normal_import g new) (a :: x) y
           rest' X PN' Pold' HQ (normal_braced g new Hg));
    [rewrite E; reflexivity|exact Hy|exact Es].
Qed.

Lemma bb_exp_clean s ps rest o :
  match_items (items K) s = Some (ps, rest) ->
  clean Q s -> clean Q o -> clean Q (expand K T ps ++ o).
Proof.
  intros MK Hs Ho. destruct (K_shape _ _ _ MK) as (_ & g & Hg & -> & (pre & post & Eg)).
  destruct (match_sound _ _ _ _ MK) as [_ Es].
  intros x y E.
  destruct (match_items (items Q) y) as [[qs r]|] eqn:MQ; auto.
  exfalso. pose proof (Q_shape _ _ _ MQ) as HQ.
  destruct (match_sound _ _ _ _ MQ) as [_ Ey].
  apply app_eq_app in E as [l0 [[E1 E2]|[E1 E2]]].
  - destruct l0 as [|b l0].
    + simpl in E2. subst y. rewrite (Ho [] o eq_refl) in MQ. discriminate.
    + destruct (braced_then_bare new _ (normal_import g new) N' old' (concat qs)
                  x (b :: l0) o r Pnew PN' NN' Pold' (normal_braced g new Hg) HQ
                  E1 ltac:(discriminate)) as (a0 & b0 & EG);
        [rewrite <- E2; exact Ey|].
      destruct (between_spaces g a0 (concat qs) b0 EG (bare_first _ _ _ HQ)
                  (bare_last _ _ _ HQ)) as (a' & b' & Eg').
      assert (Hm : matches_at Q (concat qs ++ b' ++ post ++ rest)).
      { apply (matches_at_prefix Q y qs r). exact MQ. }
      apply Hm. apply (Hs (pre ++ a') (concat qs ++ b' ++ post ++ rest)).
      rewrite Es, Eg, Eg'. repeat (rewrite <- ?app_assoc). reflexivity.
  - rewrite (Ho l0 y E2) in MQ. discriminate.
Qed.

Lemma brace_bare_keeps s : clean Q s -> clean Q (re_sub K T s).
Proof.
  apply (clean_kept K T start Q (shape_nil K bb_K_grows) bb_K_grows bb_exp_start
           bb_Q_still bb_Q_grows bb_exp_clean).
Qed.

End BraceBare.

(** ** The patterns of the fix scripts and the statements they read *)

Lemma group_of (pre pN post : list chars) :
  group_text (pre ++ pN ++ post) (length pre, length pN) = concat pN.
Proof.
  unfold group_text. cbn [fst snd].
  rewrite skipn_app, skipn_all, Nat.sub_diag. cbn [app skipn].
  rewrite firstn_app, firstn_all, Nat.sub_diag. cbn [firstn].
  rewrite app_nil_r. reflexivity.
Qed.

(** What the items of a pattern with braces take, whatever stands
    between the braces in the pattern. *)
Lemma braced_sound LN old ps :
  (forall pN, Forall2 fits LN pN -> no_rbrace (concat pN) = true) ->
  Forall2 fits
    (lits (cs "import") ++ [Plus Space; One (Lit "{"); Star Space] ++ LN
     ++ [Star Space; One (Lit "}"); Plus Space] ++ lits (cs "from")
     ++ [Plus Space; One Quote] ++ lits old ++ [One Quote]) ps ->
  exists pre pN post w2 w3,
    ps = pre ++ pN ++ post /\ length pre = 9 /\ Forall2 fits LN pN
    /\ spaces w2 = true /\ spaces w3 = true
    /\ braced_import old (w2 ++ concat pN ++ w3) (concat ps).
Proof.
  intros HLN F.
  apply named_shape in F
    as (p1 & w1 & w2 & pN & w3 & w4 & pf & w5 & q & po & q' & -> & F1 & FN & Ff & Fo
        & N1 & S1 & S2 & S3 & N4 & S4 & N5 & S5 & Q1 & Q2).
  exists (p1 ++ [w1; ["{"%char]; w2]), pN,
    (w3 :: ["}"%char] :: w4 :: pf ++ w5 :: [q] :: po ++ [[q']]), w2, w3.
  split; [rewrite <- app_assoc; reflexivity|].
  split.
  { assert (L : length p1 = 6) by (symmetry; exact (Forall2_length F1)).
    rewrite length_app, L. reflexivity. }
  split; [exact FN|]. split; [exact S2|]. split; [exact S3|].
  rewrite named_concat.
  apply fits_lits in F1, Ff, Fo. rewrite F1, Ff, Fo.
  replace (cs "import" ++ w1 ++ "{"%char :: w2 ++ concat pN ++ w3 ++ "}"%char :: w4
           ++ cs "from" ++ w5 ++ q :: old ++ [q'])
    with (cs "import" ++ w1 ++ "{"%char :: (w2 ++ concat pN ++ w3)
          ++ "}"%char :: (w4 ++ cs "from" ++ w5 ++ q :: old ++ [q']))
    by (repeat (rewrite <- ?app_assoc); reflexivity).
  constructor; auto.
  - rewrite !no_rbrace_app, (spaces_no_rbrace w2 S2), (spaces_no_rbrace w3 S3),
      (HLN pN FN). reflexivity.
  - constructor; auto.
Qed.

Lemma occurs_concat (pre pN post : list chars) :
  occurs (concat pN) (concat (pre ++ pN ++ post)).
Proof.
  exists (concat pre), (concat post). rewrite !concat_app. reflexivity.
Qed.

Lemma occurs_mid (w x g z : chars) : occurs w g -> occurs w (x ++ g ++ z).
Proof.
  intros (a & b & ->). exists (x ++ a), (b ++ z).
  repeat (rewrite <- ?app_assoc). reflexivity.
Qed.

(** *** The named-import pattern of fix-moved-imports.py *)

Lemma moved_group N pN :
  plain N = true ->
  Forall2 fits ([Star NotRBrace] ++ name_items N ++ [Star NotRBrace]) pN ->
  length pN = length N + 2 /\ no_rbrace (concat pN) = true
  /\ occurs N (concat pN).
Proof.
  intros PN F. rewrite (name_items_plain N PN) in F.
  cbn [app] in F. inversion F as [|? a ? r Ha F']; subst.
  apply Forall2_app_inv_l in F' as (pn & r2 & Fn & Fz & ->).
  inversion Fz as [|? z ? r3 Hz Fe]; subst. inversion Fe; subst.
  pose proof (Forall2_length Fn) as Ln. unfold lits in Ln. rewrite length_map in Ln.
  apply fits_lits in Fn.
  split; [cbn [length]; rewrite length_app, <- Ln; cbn [length]; lia|].
  cbn [concat]. rewrite concat_app, Fn. cbn [concat]. rewrite app_nil_r.
  split.
  - rewrite !no_rbrace_app. pose proof (plain_no_rbrace N PN) as HN.
    change (no_rbrace N = true) in HN. rewrite HN.
    unfold fits in Ha, Hz. cbn [fitsb] in Ha, Hz.
    change (no_rbrace a = true) in Ha. change (no_rbrace z = true) in Hz.
    rewrite Ha, Hz. reflexivity.
  - exists a, z. reflexivity.
Qed.

Lemma moved_shape N old new s ps rest :
  plain N = true ->
  match_items (items (FixMovedImports.pattern N old)) s = Some (ps, rest) ->
  (exists g, no_rbrace g = true
             /\ expand (FixMovedImports.pattern N old)
                       (FixMovedImports.replacement new) ps
                = normal_import g new
             /\ occurs g (concat ps))
  /\ exists G, braced_import old G (concat ps) /\ occurs N G.
Proof.
  intros PN M. apply match_sound in M as [F _].
  unfold FixMovedImports.pattern in F. cbn [items] in F.
  apply braced_sound in F
    as (pre & pN & post & w2 & w3 & -> & Lp & FN & S2 & S3 & HB).
  2:{ intros pN FN. apply (moved_group N pN PN FN). }
  destruct (moved_group N pN PN FN) as (LN & HN & ON).
  split.
  - exists (concat pN). split; [exact HN|]. split; [|apply occurs_concat].
    unfold FixMovedImports.replacement.
    rewrite (list_template_expand (FixMovedImports.pattern N old) new _
               (9, length N + 2) eq_refl).
    rewrite <- Lp, <- LN, group_of. reflexivity.
  - exists (w2 ++ concat pN ++ w3). split; [exact HB|].
    apply occurs_mid. exact ON.
Qed.

Lemma single_fits_space w : spaces w = true -> fits (Star Space) w.
Proof. intros H. exact H. Qed.

Lemma plus_fits_space w : w <> [] -> spaces w = true -> fits (Plus Space) w.
Proof.
  intros N S. unfold fits. simpl. destruct w; [contradiction N; reflexivity|exact S].
Qed.

Lemma moved_complete N old G m rest :
  plain N = true -> braced_import old G m -> occurs N G ->
  matches_at (FixMovedImports.pattern N old) (m ++ rest).
Proof.
  intros PN [w1 t N1 S1 HG [w4 w5 q q' N4 S4 N5 S5 Q1 Q2]] (x & z & ->).
  unfold matches_at, FixMovedImports.pattern. cbn [items].
  rewrite (name_items_plain N PN).
  assert (E : cs "import" ++ w1 ++ "{"%char :: (x ++ N ++ z) ++ "}"%char
              :: w4 ++ cs "from" ++ w5 ++ q :: old ++ [q']
              = concat (map (fun a => [a]) (cs "import") ++ w1 :: ["{"%char] :: []
                        :: ([x] ++ map (fun a => [a]) N ++ [z])
                        ++ [] :: ["}"%char] :: w4
                        :: map (fun a => [a]) (cs "from") ++ w5 :: [q]
                        :: map (fun a => [a]) old ++ [[q']])).
  { rewrite named_concat, !concat_app, !concat_singletons. cbn [concat app].
    rewrite app_nil_r. repeat (rewrite <- ?app_assoc). reflexivity. }
  rewrite E. apply match_complete.
  rewrite !no_rbrace_app in HG. apply andb_true_iff in HG as [Hx HG].
  apply andb_true_iff in HG as [_ Hz].
  apply Forall2_app; [apply lits_fit|]. cbn [app].
  constructor; [apply plus_fits_space; assumption|].
  constructor; [reflexivity|].
  constructor; [reflexivity|].
  constructor; [exact Hx|].
  apply Forall2_app.
  { apply Forall2_app; [apply lits_fit|]. constructor; [exact Hz|constructor]. }
  cbn [app].
  constructor; [reflexivity|].
  constructor; [reflexivity|].
  constructor; [apply plus_fits_space; assumption|].
  apply Forall2_app; [apply lits_fit|]. cbn [app].
  constructor; [apply plus_fits_space; assumption|].
  constructor; [exact Q1|].
  apply Forall2_app; [apply lits_fit|].
  constructor; [exact Q2|constructor].
Qed.

(** *** The default-import pattern of fix-moved-imports.py *)

Lemma bare_shape (Li LN Lf Lo : list item) ps :
  Forall2 fits
    (Li ++ [Plus Space] ++ LN ++ [Plus Space] ++ Lf
     ++ [Plus Space; One Quote] ++ Lo ++ [One Quote]) ps ->
  exists p1 w1 pN w4 pf w5 q po q',
    ps = p1 ++ w1 :: pN ++ w4 :: pf ++ w5 :: [q] :: po ++ [[q']]
    /\ Forall2 fits Li p1 /\ Forall2 fits LN pN
    /\ Forall2 fits Lf pf /\ Forall2 fits Lo po
    /\ w1 <> [] /\ spaces w1 = true /\ w4 <> [] /\ spaces w4 = true
    /\ w5 <> [] /\ spaces w5 = true
    /\ is_quote q = true /\ is_quote q' = true.
Proof.
  intros F.
  apply Forall2_app_inv_l in F as (p1 & r1 & F1 & F & ->).
  cbn [app] in F. inversion F as [|? w1 ? r2 H1 F']; subst. clear F.
  apply Forall2_app_inv_l in F' as (pN & r3 & Fn & F & ->).
  cbn [app] in F. inversion F as [|? w4 ? r4 H4 F']; subst. clear F.
  apply Forall2_app_inv_l in F' as (pf & r5 & Ff & F & ->).
  cbn [app] in F. inversion F as [|? w5 ? r6 H5 F']; subst. clear F.
  inversion F' as [|? q1 ? r7 Hq1 F]; subst. clear F'.
  apply Forall2_app_inv_l in F as (po & r8 & Fo & F & ->).
  inversion F as [|? q2 ? r9 Hq2 F']; subst. inversion F'; subst. clear F F'.
  apply fits_plus_space in H1 as [N1 S1]. apply fits_plus_space in H4 as [N4 S4].
  apply fits_plus_space in H5 as [N5 S5].
  apply fits_one_q in Hq1 as (q & -> & Q1). apply fits_one_q in Hq2 as (q' & -> & Q2).
  exists p1, w1, pN, w4, pf, w5, q, po, q'. repeat split; auto.
Qed.

Lemma default_shape N old new s ps rest :
  plain N = true ->
  match_items (items (FixMovedImports.pattern2 N old)) s = Some (ps, rest) ->
  concat ps <> []
  /\ expand (FixMovedImports.pattern2 N old) (FixMovedImports.replacement2 N new) ps
     = normal_default N new
  /\ bare_import N old (concat ps).
Proof.
  intros PN M. apply match_sound in M as [F _].
  unfold FixMovedImports.pattern2 in F. cbn [items] in F.
  rewrite (name_items_plain N PN) in F.
  apply bare_shape in F
    as (p1 & w1 & pn & w4 & pf & w5 & q & po & q' & -> & F1 & Fn & Ff & Fo
        & N1 & S1 & N4 & S4 & N5 & S5 & Q1 & Q2).
  apply fits_lits in F1, Fn, Ff, Fo.
  assert (E : concat (p1 ++ w1 :: pn ++ w4 :: pf ++ w5 :: [q] :: po ++ [[q']])
              = cs "import" ++ w1 ++ N ++ (w4 ++ cs "from" ++ w5 ++ q :: old ++ [q'])).
  { rewrite concat_app, F1. cbn [concat]. rewrite concat_app, Fn. cbn [concat].
    rewrite concat_app, Ff. cbn [concat]. rewrite concat_app, Fo. cbn [concat].
    rewrite app_nil_r. repeat (rewrite <- ?app_assoc). reflexivity. }
  rewrite E. split; [discriminate|]. split.
  - unfold expand, FixMovedImports.replacement2, normal_default.
    cbn [flat_map expand_part]. apply app_nil_r.
  - constructor; auto. constructor; auto.
Qed.

Lemma default_complete N old m rest :
  plain N = true -> bare_import N old m ->
  matches_at (FixMovedImports.pattern2 N old) (m ++ rest).
Proof.
  intros PN [w1 t N1 S1 [w4 w5 q q' N4 S4 N5 S5 Q1 Q2]].
  unfold matches_at, FixMovedImports.pattern2. cbn [items].
  rewrite (name_items_plain N PN).
  assert (E : cs "import" ++ w1 ++ N ++ w4 ++ cs "from" ++ w5 ++ q :: old ++ [q']
              = concat (map (fun a => [a]) (cs "import") ++ w1
                        :: map (fun a => [a]) N ++ w4
                        :: map (fun a => [a]) (cs "from") ++ w5 :: [q]
                        :: map (fun a => [a]) old ++ [[q']])).
  { rewrite concat_app, concat_singletons. cbn [concat].
    rewrite concat_app, concat_singletons. cbn [concat].
    rewrite concat_app, concat_singletons. cbn [concat].
    rewrite concat_app, concat_singletons. cbn [concat].
    rewrite app_nil_r. repeat (rewrite <- ?app_assoc). reflexivity. }
  rewrite E. apply match_complete.
  apply Forall2_app; [apply lits_fit|]. cbn [app].
  constructor; [apply plus_fits_space; assumption|].
  apply Forall2_app; [apply lits_fit|]. cbn [app].
  constructor; [apply plus_fits_space; assumption|].
  apply Forall2_app; [apply lits_fit|]. cbn [app].
  constructor; [apply plus_fits_space; assumption|].
  constructor; [exact Q1|].
  apply Forall2_app; [apply lits_fit|].
  constructor; [exact Q2|constructor].
Qed.

(** *** The pattern of fix-remaining-imports.py, and the relative
    pattern of fix-all-remaining-imports.py *)

Lemma named_braced N old m :
  plain N = true -> named_import N old m ->
  exists G, braced_import old G m.
Proof.
  intros PN [w1 w2 w3 w4 w5 q q' N1 S1 S2 S3 N4 S4 N5 S5 Q1 Q2].
  exists (w2 ++ N ++ w3).
  replace (cs "import" ++ w1 ++ "{"%char :: w2 ++ N ++ w3 ++ "}"%char :: w4
           ++ cs "from" ++ w5 ++ q :: old ++ [q'])
    with (cs "import" ++ w1 ++ "{"%char :: (w2 ++ N ++ w3)
          ++ "}"%char :: (w4 ++ cs "from" ++ w5 ++ q :: old ++ [q']))
    by (repeat (rewrite <- ?app_assoc); reflexivity).
  constructor; auto.
  - pose proof (plain_no_rbrace N PN) as HN. change (no_rbrace N = true) in HN.
    rewrite !no_rbrace_app, (spaces_no_rbrace w2 S2), (spaces_no_rbrace w3 S3), HN.
    reflexivity.
  - constructor; auto.
Qed.

Lemma named_pattern_shape N old new s ps rest :
  plain N = true ->
  match_items (items (FixRemainingImports.pattern N old)) s = Some (ps, rest) ->
  (concat ps <> []
   /\ exists g, no_rbrace g = true
                /\ expand (FixRemainingImports.pattern N old)
                          (FixRemainingImports.replacement N new) ps
                   = normal_import g new)
  /\ exists G, braced_import old G (concat ps).
Proof.
  intros PN M. pose proof (named_grows N old s ps rest PN M) as Gr.
  destruct (named_sound N old s ps rest PN M) as (m & H & _ & <-).
  split; [split; [exact Gr|]|apply (named_braced N old _ PN H)].
  exists N. split; [apply (plain_no_rbrace N PN)|apply named_expand].
Qed.

Lemma relative_shape old new s ps rest :
  match_items (items (FixAllRemainingImports.relative_pattern old)) s
  = Some (ps, rest) ->
  (concat ps <> []
   /\ exists g, no_rbrace g = true
                /\ expand (FixAllRemainingImports.relative_pattern old)
                          (FixAllRemainingImports.relative_replacement new) ps
                   = normal_import g new)
  /\ exists G, braced_import old G (concat ps).
Proof.
  intros M. apply match_sound in M as [F _].
  unfold FixAllRemainingImports.relative_pattern in F. cbn [items] in F.
  change (lits (cs "import")
          ++ [Plus Space; One (Lit "{"); Star Space; Plus NotRBrace;
              Star Space; One (Lit "}"); Plus Space]
          ++ lits (cs "from") ++ [Plus Space; One Quote] ++ lits old ++ [One Quote])
    with (lits (cs "import") ++ [Plus Space; One (Lit "{"); Star Space]
          ++ [Plus NotRBrace]
          ++ [Star Space; One (Lit "}"); Plus Space] ++ lits (cs "from")
          ++ [Plus Space; One Quote] ++ lits old ++ [One Quote]) in F.
  assert (HLN : forall pN, Forall2 fits [Plus NotRBrace] pN ->
                           length pN = 1 /\ no_rbrace (concat pN) = true).
  { intros pN FN. inversion FN as [|? g ? r Hg Fe]; subst. inversion Fe; subst.
    split; [reflexivity|]. cbn [concat]. rewrite app_nil_r.
    unfold fits in Hg. cbn [fitsb] in Hg. destruct g; [discriminate|exact Hg]. }
  apply braced_sound in F
    as (pre & pN & post & w2 & w3 & -> & Lp & FN & S2 & S3 & HB).
  2:{ intros pN FN. apply (HLN pN FN). }
  destruct (HLN pN FN) as (LN & HN).
  split; [split|].
  - destruct (braced_first _ _ _ HB) as (M' & ->). discriminate.
  - exists (concat pN). split; [exact HN|].
    unfold FixAllRemainingImports.relative_replacement.
    rewrite (list_template_expand (FixAllRemainingImports.relative_pattern old) new _
               (9, 1) eq_refl).
    rewrite <- Lp, <- LN, group_of. reflexivity.
  - exists (w2 ++ concat pN ++ w3). exact HB.
Qed.

(** ** A pass of a pattern without braces, against a pattern with
    braces *)

Lemma bare_same_start N o m1 m2 r1 r2 :
  plain N = true -> N <> [] -> path_text o = true ->
  bare_import N o m1 -> bare_import N o m2 -> m1 ++ r1 = m2 ++ r2 ->
  m1 = m2 /\ r1 = r2.
Proof.
  intros PN NN Po [w1 t1 N1 S1 T1] [v1 t2 M1 R1 T2] E.
  repeat (rewrite <- ?app_assoc in E). apply app_inv_head in E.
  destruct N as [|n N]; [contradiction NN; reflexivity|].
  simpl in PN. apply andb_true_iff in PN as [Pn PN].
  rewrite <- !app_comm_cons in E.
  apply (split_unique is_space) in E as (-> & _ & E); auto;
    try (apply safe_not_space, plain_char_safe; assumption).
  apply app_inv_head in E.
  destruct (tail_same o o t1 t2 r1 r2 Po Po T1 T2 E) as (_ & -> & ->). auto.
Qed.

Lemma cut_after (O R u' v' : chars) b :
  O ++ R = u' ++ b :: v' -> ~ In b O ->
  exists u'', u' = O ++ u'' /\ R = u'' ++ b :: v'.
Proof.
  intros E NI. apply app_eq_app in E as [l [[E1 E2]|[E1 E2]]].
  - destruct l as [|c l].
    + exists []. rewrite app_nil_r in E1. simpl in E2. subst. rewrite app_nil_r. auto.
    + exfalso. simpl in E2. injection E2 as Ec _. apply NI.
      rewrite E1, Ec. apply in_or_app. right. left. reflexivity.
  - exists l. auto.
Qed.

Lemma upper_in_middle (A N B x l' : chars) n' :
  A ++ N ++ B = x ++ n' :: l' ->
  no_upper A = true -> no_upper B = true -> is_upper n' = true ->
  exists Na Nb, N = Na ++ n' :: Nb /\ l' = Nb ++ B.
Proof.
  intros E UA UB Un.
  assert (Out : forall W, no_upper W = true -> ~ In n' W).
  { intros W UW I. unfold no_upper in UW. rewrite forallb_forall in UW.
    apply UW in I. rewrite Un in I. discriminate I. }
  assert (E2 : exists l0, N ++ B = l0 ++ n' :: l').
  { apply app_eq_app in E as [l0 [[E1 E2]|[E1 E2]]].
    - destruct l0 as [|c l0].
      + exists []. simpl in E2. symmetry. exact E2.
      + exfalso. simpl in E2. injection E2 as Ec _.
        apply (Out A UA). rewrite E1, Ec. apply in_or_app. right. left. reflexivity.
    - exists l0. exact E2. }
  destruct E2 as (l0 & E2).
  apply app_eq_app in E2 as [l1 [[E1 E3]|[E1 E3]]].
  - destruct l1 as [|c l1].
    + exfalso. simpl in E3. apply (Out B UB). rewrite <- E3. left. reflexivity.
    + simpl in E3. injection E3 as Ec E3. subst c.
      exists l0, l1. auto.
  - exfalso. apply (Out B UB). rewrite E3. apply in_or_app. right. left. reflexivity.
Qed.

Lemma normal_default_quote N new :
  forallb (fun a => negb (is_quote a)) (normal_default N new) = false.
Proof.
  destruct (forallb _ (normal_default N new)) eqn:E; auto.
  rewrite forallb_forall in E. specialize (E "'"%char).
  assert (I : In "'"%char (normal_default N new)).
  { unfold normal_default. apply in_or_app. right. apply in_or_app. right.
    apply in_or_app. right. apply in_or_app. right. left. reflexivity. }
  specialize (E I). discriminate E.
Qed.

Section BareBrace.

Variables (K : regex) (T : template) (N old new : chars)
  (Q : regex) (N' old' : chars).

Hypothesis PN : plain N = true.
Hypothesis NN : N <> [].
Hypothesis Pold : path_text old = true.
Hypothesis Pnew : path_text new = true.
Hypothesis Unew : no_upper new = true.
Hypothesis Pold' : path_text old' = true.
Hypothesis LN' : name_like N' = true.
Hypothesis K_shape : forall s ps rest,
  match_items (items K) s = Some (ps, rest) ->
  expand K T ps = normal_default N new /\ bare_import N old (concat ps).
Hypothesis Q_shape : forall s qs rest,
  match_items (items Q) s = Some (qs, rest) ->
  exists G, braced_import old' G (concat qs) /\ occurs N' G.
Hypothesis Q_complete : forall G m rest,
  braced_import old' G m -> occurs N' G -> matches_at Q (m ++ rest).

Let start : chars -> Prop := fun s => exists X, s = normal_default N new ++ X.

Lemma kb_grows s ps rest :
  match_items (items K) s = Some (ps, rest) -> concat ps <> [].
Proof.
  intros M. destruct (K_shape _ _ _ M) as (_ & H).
  destruct (bare_first _ _ _ H) as (M' & ->). discriminate.
Qed.

Lemma kb_nil : match_items (items K) [] = None.
Proof. apply shape_nil. exact kb_grows. Qed.

Lemma kb_start s ps rest X :
  match_items (items K) s = Some (ps, rest) -> start (expand K T ps ++ X).
Proof.
  intros M. destruct (K_shape _ _ _ M) as (-> & _). exists X. reflexivity.
Qed.

Lemma kb_hit s ps rest u0 :
  match_items (items K) s = Some (ps, rest) ->
  re_sub K T (concat ps ++ u0) = normal_default N new ++ re_sub K T u0.
Proof.
  intros M. pose proof (matches_at_prefix K s ps rest u0 M) as Hm.
  destruct (match_items (items K) (concat ps ++ u0)) as [[ps' r']|] eqn:M';
    [|contradiction Hm; reflexivity].
  destruct (K_shape _ _ _ M) as (_ & H). destruct (K_shape _ _ _ M') as (Ex & H').
  destruct (match_sound _ _ _ _ M') as [_ E].
  destruct (bare_same_start N old _ _ _ _ PN NN Pold H H' E) as (Ec & Er).
  subst r'.
  rewrite (re_sub_hit K T _ _ _ M' (kb_grows _ _ _ M')), Ex. reflexivity.
Qed.

Lemma kb_sub_hit s ps rest :
  match_items (items K) s = Some (ps, rest) ->
  re_sub K T s = normal_default N new ++ re_sub K T rest.
Proof.
  intros M. rewrite (re_sub_hit K T _ _ _ M (kb_grows _ _ _ M)).
  destruct (K_shape _ _ _ M) as (-> & _). reflexivity.
Qed.

Lemma kb_miss a u0 rest :
  match_items (items K) (a :: u0 ++ rest) = None ->
  match_items (items K) (a :: u0) = None.
Proof.
  intros M. destruct (match_items (items K) (a :: u0)) as [[ps r]|] eqn:M'; auto.
  exfalso. apply (matches_at_prefix K _ ps r (r ++ rest) M').
  destruct (match_sound _ _ _ _ M') as [_ E].
  rewrite app_assoc, <- E. exact M.
Qed.

Lemma normal_no_brace b :
  b = "{"%char \/ b = "}"%char -> ~ In b (normal_default N new).
Proof.
  intros Hb I.
  pose proof (bare_no_lbrace N new _ PN Pnew (normal_bare N new)) as L.
  pose proof (bare_no_rbrace N new _ PN Pnew (normal_bare N new)) as R.
  unfold no_rbrace in R. rewrite forallb_forall in L, R.
  destruct Hb as [-> | ->]; [apply L in I|apply R in I]; discriminate I.
Qed.

(** A brace of the output is a brace of the input, and the pass works
    on each side of it on its own. *)
Lemma kb_split : forall s u' b v',
  re_sub K T s = u' ++ b :: v' -> b = "{"%char \/ b = "}"%char ->
  exists u v, s = u ++ b :: v /\ re_sub K T u = u' /\ re_sub K T v = v'.
Proof.
  intros s. remember (length s) as n eqn:En. revert s En.
  induction n as [n IH] using lt_wf_ind. intros s En u' b v' E Hb.
  destruct s as [|a s].
  - rewrite (sub_nil_gen K T kb_nil) in E. destruct u'; discriminate E.
  - destruct (match_items (items K) (a :: s)) as [[ps rest]|] eqn:M.
    + rewrite (kb_sub_hit _ _ _ M) in E.
      destruct (cut_after _ _ _ _ _ E (normal_no_brace b Hb)) as (u'' & -> & E').
      destruct (match_sound _ _ _ _ M) as [_ Es].
      assert (Ln : length rest < n).
      { rewrite En, Es, length_app. pose proof (kb_grows _ _ _ M) as G.
        destruct (concat ps); [contradiction G; reflexivity|simpl; lia]. }
      destruct (IH (length rest) Ln rest eq_refl u'' b v' E' Hb) as (u0 & v & -> & Eu & Ev).
      exists (concat ps ++ u0), v. split; [|split].
      * rewrite Es, <- app_assoc. reflexivity.
      * rewrite (kb_hit _ _ _ u0 M), Eu. reflexivity.
      * exact Ev.
    + rewrite re_sub_miss in E by exact M.
      destruct u' as [|c u'].
      * simpl in E. injection E as Ea Ev. subst a.
        exists [], s. split; [reflexivity|]. split; [apply (sub_nil_gen K T kb_nil)|exact Ev].
      * simpl in E. injection E as Ea E. subst c.
        assert (Ln : length s < n) by (rewrite En; simpl; lia).
        destruct (IH (length s) Ln s eq_refl u' b v' E Hb) as (u0 & v & -> & Eu & Ev).
        exists (a :: u0), v. split; [reflexivity|]. split; [|exact Ev].
        rewrite re_sub_miss; [rewrite Eu; reflexivity|].
        apply (kb_miss a u0 (b :: v)). exact M.
Qed.

Lemma kb_no_rbrace : forall s,
  no_rbrace (re_sub K T s) = true -> no_rbrace s = true.
Proof.
  intros s. remember (length s) as n eqn:En. revert s En.
  induction n as [n IH] using lt_wf_ind. intros s En H.
  destruct s as [|a s]; [reflexivity|].
  destruct (match_items (items K) (a :: s)) as [[ps rest]|] eqn:M.
  - rewrite (kb_sub_hit _ _ _ M) in H. apply no_rbrace_suffix in H.
    destruct (match_sound _ _ _ _ M) as [_ Es].
    destruct (K_shape _ _ _ M) as (_ & HB).
    rewrite Es, no_rbrace_app, (bare_no_rbrace N old _ PN Pold HB).
    apply (IH (length rest)) with (s := rest); auto.
    rewrite En, Es, length_app. pose proof (kb_grows _ _ _ M) as G.
    destruct (concat ps); [contradiction G; reflexivity|simpl; lia].
  - rewrite re_sub_miss in H by exact M.
    change (negb (Ascii.eqb a "}") && no_rbrace (re_sub K T s) = true) in H.
    apply andb_true_iff in H as [Ha H].
    change (negb (Ascii.eqb a "}") && no_rbrace s = true).
    rewrite Ha. apply (IH (length s)) with (s := s); auto.
    rewrite En. simpl. lia.
Qed.

(** The end of a statement at the head of the output was at the head
    of the input. *)
Lemma kb_tail V t Y' :
  from_tail old' t -> re_sub K T V = t ++ Y' -> exists Y, V = t ++ Y.
Proof.
  intros Ht E.
  apply (pull_back_gen K T start kb_nil kb_grows kb_start t V Y' E).
  intros x y Exy Hy (X & Es).
  apply (tail_no_import old' t x y Y' " "%char
           (N ++ cs " from '" ++ new ++ cs "'" ++ X) Pold' Ht Exy Hy eq_refl).
  rewrite Es. unfold normal_default.
  repeat (rewrite <- ?app_assoc). reflexivity.
Qed.

(** An output without quote is the input. *)
Lemma kb_quote_free : forall s,
  forallb (fun a => negb (is_quote a)) (re_sub K T s) = true -> re_sub K T s = s.
Proof.
  induction s as [|a s IH]; intros H; [apply (sub_nil_gen K T kb_nil)|].
  destruct (match_items (items K) (a :: s)) as [[ps rest]|] eqn:M.
  - rewrite (kb_sub_hit _ _ _ M), forallb_app, normal_default_quote in H.
    discriminate H.
  - rewrite re_sub_miss in * by exact M.
    simpl in H. apply andb_true_iff in H as [_ H]. rewrite (IH H). reflexivity.
Qed.

(** The end of the output, when it holds no quote, is the end of the
    input. *)
Lemma kb_suffix w : forallb (fun a => negb (is_quote a)) w = true ->
  forall s o, re_sub K T s = o ++ w -> exists pre, s = pre ++ w.
Proof.
  intros Hw s. remember (length s) as n eqn:En. revert s En.
  induction n as [n IH] using lt_wf_ind. intros s En o E.
  destruct s as [|a s].
  - rewrite (sub_nil_gen K T kb_nil) in E. symmetry in E.
    apply app_eq_nil in E as [_ ->]. exists []. reflexivity.
  - destruct (match_items (items K) (a :: s)) as [[ps rest]|] eqn:M.
    + rewrite (kb_sub_hit _ _ _ M) in E.
      destruct (match_sound _ _ _ _ M) as [_ Es].
      assert (Ln : length rest < n).
      { rewrite En, Es, length_app. pose proof (kb_grows _ _ _ M) as G.
        destruct (concat ps); [contradiction G; reflexivity|simpl; lia]. }
      assert (Done : forall o', re_sub K T rest = o' ++ w ->
                                exists pre, a :: s = pre ++ w).
      { intros o' E'. destruct (IH (length rest) Ln rest eq_refl o' E') as (pre & Ep).
        exists (concat ps ++ pre). rewrite Es, Ep, app_assoc. reflexivity. }
      apply app_eq_app in E as [l [[E1 E2]|[E1 E2]]].
      * destruct l as [|c l].
        -- apply (Done []). simpl in E2. symmetry. exact E2.
        -- exfalso.
           destruct (bare_last _ _ _ (normal_bare N new)) as (m0 & q' & Em & Q2).
           rewrite Em in E1.
           destruct (suffix_snoc m0 q' o (c :: l) (eq_sym E1) ltac:(discriminate))
             as (p & y0 & _ & Ey).
           rewrite E2, Ey, !forallb_app in Hw.
           apply andb_true_iff in Hw as [Hw _]. apply andb_true_iff in Hw as [_ Hw].
           simpl in Hw. rewrite Q2 in Hw. discriminate Hw.
      * apply (Done l). exact E2.
    + rewrite re_sub_miss in E by exact M.
      destruct o as [|c o].
      * simpl in E. exists []. simpl. rewrite <- E. f_equal.
        symmetry. apply kb_quote_free.
        rewrite <- E in Hw. simpl in Hw. apply andb_true_iff in Hw as [_ Hw]. exact Hw.
      * simpl in E. injection E as Ea E. subst c.
        assert (Ln : length s < n) by (rewrite En; simpl; lia).
        destruct (IH (length s) Ln s eq_refl o E) as (pre & ->).
        exists (a :: pre). reflexivity.
Qed.

(** A word of letters and digits at the head of the output is at the
    head of the input. *)
Lemma kb_prefix : forall s w z,
  forallb letter_or_digit w = true -> re_sub K T s = w ++ z ->
  exists z0, s = w ++ z0.
Proof.
  induction s as [|a s IH]; intros w z Hw E.
  - rewrite (sub_nil_gen K T kb_nil) in E. symmetry in E.
    apply app_eq_nil in E as [-> _]. exists []. reflexivity.
  - destruct w as [|c w]; [exists (a :: s); reflexivity|].
    destruct (match_items (items K) (a :: s)) as [[ps rest]|] eqn:M.
    + rewrite (kb_sub_hit _ _ _ M) in E.
      destruct (match_sound _ _ _ _ M) as [_ Es].
      destruct (K_shape _ _ _ M) as (_ & HB).
      destruct HB as [w1 t N1 S1 Ht].
      assert (E' : (c :: w) ++ z
                   = cs "import" ++ " "%char
                     :: (N ++ cs " from '" ++ new ++ cs "'" ++ re_sub K T rest)).
      { rewrite <- E. unfold normal_default.
        repeat (rewrite <- ?app_assoc). reflexivity. }
      destruct (prefix_before letter_or_digit (c :: w) (cs "import") " "%char _ z
                  Hw eq_refl E') as (z' & Ez).
      exists (z' ++ w1 ++ N ++ t ++ rest).
      rewrite Es, Ez. repeat (rewrite <- ?app_assoc). reflexivity.
    + rewrite re_sub_miss in E by exact M.
      simpl in E. injection E as Ea E. subst c.
      simpl in Hw. apply andb_true_iff in Hw as [_ Hw].
      destruct (IH w z Hw E) as (z0 & ->). exists z0. reflexivity.
Qed.

Lemma occurs_cons (w s : chars) a : occurs w s -> occurs w (a :: s).
Proof. intros (x & z & ->). exists (a :: x), z. reflexivity. Qed.

Lemma occurs_app_r (w s p : chars) : occurs w s -> occurs w (p ++ s).
Proof.
  intros (x & z & ->). exists (p ++ x), z. rewrite <- app_assoc. reflexivity.
Qed.

Lemma occurs_app_l (w s p : chars) : occurs w s -> occurs w (s ++ p).
Proof.
  intros (x & z & ->). exists x, (z ++ p).
  repeat (rewrite <- ?app_assoc). reflexivity.
Qed.

(** The name of the other rule, when it stands in the output, stands
    in the input. *)
Lemma kb_word : forall s, occurs N' (re_sub K T s) -> occurs N' s.
Proof.
  unfold name_like in LN'. apply andb_true_iff in LN' as [LN UN].
  destruct N' as [|n' N'']; [discriminate UN|].
  intros s. remember (length s) as n eqn:En. revert s En.
  induction n as [n IH] using lt_wf_ind. intros s En (x & z & E).
  destruct s as [|a s].
  - rewrite (sub_nil_gen K T kb_nil) in E. destruct x; discriminate E.
  - destruct (match_items (items K) (a :: s)) as [[ps rest]|] eqn:M.
    + rewrite (kb_sub_hit _ _ _ M) in E.
      destruct (match_sound _ _ _ _ M) as [_ Es].
      assert (Ln : length rest < n).
      { rewrite En, Es, length_app. pose proof (kb_grows _ _ _ M) as G.
        destruct (concat ps); [contradiction G; reflexivity|simpl; lia]. }
      assert (Done : occurs (n' :: N'') (re_sub K T rest) ->
                     occurs (n' :: N'') (a :: s)).
      { intros H. rewrite Es. apply occurs_app_r.
        apply (IH (length rest) Ln rest eq_refl H). }
      symmetry in E. apply app_eq_app in E as [l [[E1 E2]|[E1 E2]]].
      * apply Done. exists l, z. exact E2.
      * destruct l as [|b l].
        -- apply Done. exists [], z. simpl in E2. symmetry. exact E2.
        -- simpl in E2. injection E2 as Eb E2. subst b.
           assert (EO : cs "import " ++ N ++ (cs " from '" ++ new ++ cs "'")
                        = x ++ n' :: l).
           { rewrite <- E1. reflexivity. }
           assert (UB : no_upper (cs " from '" ++ new ++ cs "'") = true).
           { unfold no_upper in *. rewrite !forallb_app, Unew. reflexivity. }
           destruct (upper_in_middle _ _ _ _ _ _ EO eq_refl UB UN)
             as (Na & Nb & EN & El).
           assert (E3 : (n' :: N'') ++ z
                        = (n' :: Nb) ++ " "%char
                          :: (cs "from '" ++ new ++ cs "'" ++ re_sub K T rest)).
           { simpl. f_equal. rewrite E2, El.
             repeat (rewrite <- ?app_assoc). reflexivity. }
           destruct (prefix_before letter_or_digit (n' :: N'') (n' :: Nb) " "%char _ z
                       LN eq_refl E3) as (z' & Ez).
           rewrite Es. apply occurs_app_l.
           destruct (K_shape _ _ _ M) as (_ & HB).
           destruct HB as [w1 t N1 S1 Ht].
           exists (cs "import" ++ w1 ++ Na), (z' ++ t).
           rewrite EN, Ez. repeat (rewrite <- ?app_assoc). reflexivity.
    + rewrite re_sub_miss in E by exact M.
      destruct x as [|c x].
      * simpl in E. injection E as Ea E. subst a.
        simpl in LN. apply andb_true_iff in LN as [_ LN].
        destruct (kb_prefix s N'' z LN E) as (z0 & ->).
        exists [], z0. reflexivity.
      * simpl in E. injection E as Ea E. subst c.
        apply occurs_cons.
        assert (Ln : length s < n) by (rewrite En; simpl; lia).
        apply (IH (length s) Ln s eq_refl). exists x, z. exact E.
Qed.

Lemma bare_brace_keeps s : clean Q s -> clean Q (re_sub K T s).
Proof.
  intros Hs x' y' E'.
  destruct (match_items (items Q) y') as [[qs r']|] eqn:MQ; auto.
  exfalso. destruct (Q_shape _ _ _ MQ) as (G' & HB & ON).
  destruct (match_sound _ _ _ _ MQ) as [_ Ey].
  destruct HB as [w1 t N1 S1 HG Ht].
  assert (E1 : re_sub K T s
               = (x' ++ cs "import" ++ w1 ++ "{"%char :: G') ++ "}"%char :: (t ++ r')).
  { rewrite E', Ey. repeat (rewrite <- ?app_assoc, <- ?app_comm_cons). reflexivity. }
  destruct (kb_split _ _ _ _ E1 (or_intror eq_refl)) as (U & V & Es & EU & EV).
  assert (E2 : re_sub K T U = (x' ++ cs "import" ++ w1) ++ "{"%char :: G').
  { rewrite EU. repeat (rewrite <- ?app_assoc, <- ?app_comm_cons). reflexivity. }
  destruct (kb_split _ _ _ _ E2 (or_introl eq_refl)) as (U1 & G0 & EU1 & EU2 & EG).
  destruct (kb_tail V t r' Ht EV) as (Y & ->).
  assert (Hw : forallb (fun a => negb (is_quote a)) (cs "import" ++ w1) = true).
  { rewrite forallb_app. apply andb_true_iff. split; [reflexivity|].
    eapply forallb_weaken; [|exact S1]. intros c Hc.
    apply space_facts in Hc as (-> & _). reflexivity. }
  destruct (kb_suffix _ Hw U1 x' EU2) as (X & ->).
  assert (HG0 : no_rbrace G0 = true) by (apply kb_no_rbrace; rewrite EG; exact HG).
  assert (ON0 : occurs N' G0) by (apply kb_word; rewrite EG; exact ON).
  assert (HB0 : braced_import old' G0
                  (cs "import" ++ w1 ++ "{"%char :: G0 ++ "}"%char :: t))
    by (constructor; assumption).
  apply (Q_complete G0 _ Y HB0 ON0).
  apply (Hs X). rewrite Es, EU1.
  repeat (rewrite <- ?app_assoc, <- ?app_comm_cons). reflexivity.
Qed.

End BareBrace.

(** ** Runs of passes that keep one another's work *)

Section Passes.

Variable U : list pass.

Hypothesis self : forall p s, In p U -> clean (fst p) (re_sub (fst p) (snd p) s).
Hypothesis keep : forall p q s,
  In p U -> In q U -> clean (fst q) s -> clean (fst q) (re_sub (fst p) (snd p) s).

(** Once a pass has run, its pattern matches nowhere, and the later
    passes keep it so. *)
Lemma passes_run_cleans : forall steps done c,
  incl steps U -> incl done U -> passes_clean done c ->
  passes_clean (done ++ steps) (run_passes steps c).
Proof.
  unfold run_passes.
  induction steps as [|st steps IH]; intros done c Hs Hd Hc.
  - rewrite app_nil_r. exact Hc.
  - simpl. replace (done ++ st :: steps) with ((done ++ [st]) ++ steps)
      by (rewrite <- app_assoc; reflexivity).
    assert (Ist : In st U) by (apply Hs; left; auto).
    apply IH.
    + intros x I. apply Hs. right; auto.
    + intros x I. apply in_app_or in I as [I|[<-|[]]]; auto.
    + intros x I. apply in_app_or in I as [I|[<-|[]]].
      * apply keep; [exact Ist|apply Hd; exact I|apply (Hc x I)].
      * apply self. exact Ist.
Qed.

Lemma passes_all_clean c : passes_clean U (run_passes U c).
Proof.
  apply (passes_run_cleans U [] c); [apply incl_refl|intros x []|intros x []].
Qed.

End Passes.

Lemma passes_clean_id l : forall c, passes_clean l c -> run_passes l c = c.
Proof.
  unfold run_passes.
  induction l as [|p l IH]; intros c H; simpl; auto.
  rewrite re_sub_clean by (apply H; left; auto).
  apply IH. intros q I. apply H. right; auto.
Qed.

Lemma no_chain_entries table :
  no_chain table = true ->
  forall e e', In e table -> In e' table -> cs (snd e) <> cs (fst e').
Proof.
  unfold no_chain. intros H2 e e' I I' E.
  rewrite forallb_forall in H2. specialize (H2 e I).
  apply negb_true_iff in H2.
  assert (X : existsb (fun e'0 => String.eqb (snd e) (fst e'0)) table = true).
  { apply existsb_exists. exists e'. split; auto.
    apply String.eqb_eq. apply cs_inj. exact E. }
  congruence.
Qed.

(** ** fix-moved-imports.py: a second run *)

Lemma name_like_plain N : name_like N = true -> plain N = true /\ N <> [].
Proof.
  unfold name_like. intros H. apply andb_true_iff in H as [L U]. split.
  - eapply forallb_weaken; [|exact L]. apply letter_or_digit_plain.
  - intros ->. discriminate U.
Qed.

Lemma moved_table_entries table :
  moved_table_ok table = true ->
  (forall e, In e table ->
     name_like (binding_of e) = true
     /\ path_text (cs (fst e)) = true /\ path_text (cs (snd e)) = true
     /\ no_upper (cs (snd e)) = true)
  /\ (forall e e', In e table -> In e' table -> cs (snd e) <> cs (fst e')).
Proof.
  unfold moved_table_ok. intros H.
  apply andb_true_iff in H as [H1 H2]. rewrite forallb_forall in H1. split.
  - intros e I. specialize (H1 e I).
    apply andb_true_iff in H1 as [H1 P3]. apply andb_true_iff in H1 as [H1 P2].
    apply andb_true_iff in H1 as [P0 P1]. auto.
  - apply no_chain_entries. exact H2.
Qed.

Lemma moved_content table : forall c,
  FixMovedImports.update_content table c = run_passes (moved_passes table) c.
Proof.
  unfold FixMovedImports.update_content, run_passes.
  induction table as [|e table IH]; intros c; simpl; auto.
Qed.

Section MovedPasses.

Variables (N old new N' old' : chars).
Hypothesis LN : name_like N = true.
Hypothesis Pold : path_text old = true.
Hypothesis Pnew : path_text new = true.
Hypothesis Unew : no_upper new = true.
Hypothesis LN' : name_like N' = true.
Hypothesis Pold' : path_text old' = true.
Hypothesis Hdiff : new <> old'.

Let P1 := FixMovedImports.pattern N old.
Let T1 := FixMovedImports.replacement new.
Let P2 := FixMovedImports.pattern2 N old.
Let T2 := FixMovedImports.replacement2 N new.
Let Q1 := FixMovedImports.pattern N' old'.
Let Q2 := FixMovedImports.pattern2 N' old'.

Let PN : plain N = true := proj1 (name_like_plain N LN).
Let NN : N <> [] := proj2 (name_like_plain N LN).
Let PN' : plain N' = true := proj1 (name_like_plain N' LN').
Let NN' : N' <> [] := proj2 (name_like_plain N' LN').

Lemma moved_K1 s ps rest :
  match_items (items P1) s = Some (ps, rest) ->
  concat ps <> []
  /\ exists g, no_rbrace g = true /\ expand P1 T1 ps = normal_import g new
               /\ occurs g (concat ps).
Proof.
  intros M. destruct (moved_shape N old new s ps rest PN M) as [Hk (G & HB & _)].
  split; [|exact Hk].
  destruct (braced_first _ _ _ HB) as (M' & ->). discriminate.
Qed.

Lemma moved_K1' s ps rest :
  match_items (items P1) s = Some (ps, rest) ->
  concat ps <> []
  /\ exists g, no_rbrace g = true /\ expand P1 T1 ps = normal_import g new.
Proof.
  intros M. destruct (moved_K1 s ps rest M) as (Hc & g & Hg & He & _).
  split; [exact Hc|]. exists g. auto.
Qed.

Lemma moved_Q1 s qs rest :
  match_items (items Q1) s = Some (qs, rest) ->
  exists G, braced_import old' G (concat qs) /\ occurs N' G.
Proof.
  intros M. destruct (moved_shape N' old' new s qs rest PN' M) as [_ H]. exact H.
Qed.

Lemma moved_Q1' s qs rest :
  match_items (items Q1) s = Some (qs, rest) ->
  exists G, braced_import old' G (concat qs).
Proof.
  intros M. destruct (moved_Q1 s qs rest M) as (G & H & _). exists G. exact H.
Qed.

Lemma moved_K2 s ps rest :
  match_items (items P2) s = Some (ps, rest) ->
  concat ps <> [] /\ expand P2 T2 ps = normal_default N new.
Proof.
  intros M. destruct (default_shape N old new s ps rest PN M) as (H1 & H2 & _). auto.
Qed.

Lemma moved_K2' s ps rest :
  match_items (items P2) s = Some (ps, rest) ->
  expand P2 T2 ps = normal_default N new /\ bare_import N old (concat ps).
Proof.
  intros M. destruct (default_shape N old new s ps rest PN M) as (_ & H2 & H3). auto.
Qed.

Lemma moved_Q2 s qs rest :
  match_items (items Q2) s = Some (qs, rest) -> bare_import N' old' (concat qs).
Proof.
  intros M. destruct (default_shape N' old' new s qs rest PN' M) as (_ & _ & H). exact H.
Qed.

Lemma moved_keep11 s : clean Q1 s -> clean Q1 (re_sub P1 T1 s).
Proof.
  apply (brace_pass_keeps P1 T1 new Q1 old' Pnew Pold' Hdiff moved_K1' moved_Q1').
Qed.

Lemma moved_keep12 s : clean Q2 s -> clean Q2 (re_sub P1 T1 s).
Proof.
  apply (brace_bare_keeps P1 T1 new Q2 N' old' PN' NN' Pnew Pold' moved_K1 moved_Q2).
Qed.

Lemma moved_keep21 s : clean Q1 s -> clean Q1 (re_sub P2 T2 s).
Proof.
  apply (bare_brace_keeps P2 T2 N old new Q1 N' old' PN NN Pold Pnew Unew Pold' LN'
           moved_K2' moved_Q1).
  intros G m rest HB ON. apply (moved_complete N' old' G m rest PN' HB ON).
Qed.

Lemma moved_keep22 s : clean Q2 s -> clean Q2 (re_sub P2 T2 s).
Proof.
  apply (bare_pass_keeps P2 T2 N new Q2 N' old' PN NN PN' NN' Pnew Pold' Hdiff
           moved_K2 moved_Q2).
Qed.

End MovedPasses.

Lemma moved_self1 N old new s :
  name_like N = true -> path_text old = true -> path_text new = true ->
  new <> old ->
  clean (FixMovedImports.pattern N old)
    (re_sub (FixMovedImports.pattern N old) (FixMovedImports.replacement new) s).
Proof.
  intros LN Po Pn D.
  apply (brace_pass_new _ _ new _ old Pn Po D
           (moved_K1' N old new LN) (moved_Q1' new N old LN)).
  intros x y _ H. exact H.
Qed.

Lemma moved_self2 N old new s :
  name_like N = true -> path_text old = true -> path_text new = true ->
  new <> old ->
  clean (FixMovedImports.pattern2 N old)
    (re_sub (FixMovedImports.pattern2 N old) (FixMovedImports.replacement2 N new) s).
Proof.
  intros LN Po Pn D. destruct (name_like_plain N LN) as [PN NN].
  apply (bare_pass_new _ _ N new _ N old PN NN PN NN Pn Po D
           (moved_K2 N old new LN) (moved_Q2 new N old LN)).
  intros x y _ H. exact H.
Qed.

Lemma moved_passes_in table p :
  In p (moved_passes table) ->
  exists e, In e table /\ (p = moved_pass1 e \/ p = moved_pass2 e).
Proof.
  unfold moved_passes. intros I. apply in_flat_map in I as (e & Ie & [<-|[<-|[]]]);
    exists e; auto.
Qed.

Lemma moved_passes_self table p s :
  moved_table_ok table = true -> In p (moved_passes table) ->
  clean (fst p) (re_sub (fst p) (snd p) s).
Proof.
  intros Hok I. destruct (moved_table_entries table Hok) as [Hent Hdiff].
  destruct (moved_passes_in table p I) as (e & Ie & [-> | ->]);
    destruct (Hent e Ie) as (LN & Po & Pn & Un).
  - apply moved_self1; auto.
  - apply moved_self2; auto.
Qed.

Lemma moved_passes_keep table p q s :
  moved_table_ok table = true ->
  In p (moved_passes table) -> In q (moved_passes table) ->
  clean (fst q) s -> clean (fst q) (re_sub (fst p) (snd p) s).
Proof.
  intros Hok Ip Iq. destruct (moved_table_entries table Hok) as [Hent Hdiff].
  destruct (moved_passes_in table p Ip) as (e & Ie & Ep).
  destruct (moved_passes_in table q Iq) as (e' & Ie' & Eq).
  destruct (Hent e Ie) as (LN & Po & Pn & Un).
  destruct (Hent e' Ie') as (LN' & Po' & _ & _).
  pose proof (Hdiff e e' Ie Ie') as D.
  destruct Ep as [-> | ->]; destruct Eq as [-> | ->]; cbn [fst snd moved_pass1 moved_pass2].
  - apply moved_keep11; auto.
  - apply moved_keep12; auto.
  - apply moved_keep21; auto.
  - apply moved_keep22; auto.
Qed.

Lemma fix_moved_table_ok : moved_table_ok FixMovedImports.IMPORT_FIXES = true.
Proof. vm_compute. reflexivity. Qed.

(** X18: a second run of fix-moved-imports.py changes nothing.  For a
    table whose binding names are component names (letters and digits,
    the first an upper-case letter), whose paths are module paths, whose
    new paths hold no upper-case letter and in which no new path is an
    old path (as [IMPORT_FIXES]): in the content a run computes,
    neither pattern of any rule matches anywhere; a second run computes
    the same content; and run on a file that holds it, [update_file]
    writes nothing, prints nothing and answers [False]. *)
Theorem fix_moved_second_run_changes_nothing
  (table : list (string * string)) (content : chars) :
  moved_table_ok table = true ->
  let once := FixMovedImports.update_content table content in
  (forall e, In e table ->
     clean (FixMovedImports.pattern (binding_of e) (cs (fst e))) once
     /\ clean (FixMovedImports.pattern2 (binding_of e) (cs (fst e))) once)
  /\ FixMovedImports.update_content table once = once
  /\ forall p w,
       Fs.data (Fs.disk w p) = Some once ->
       FixMovedImports.update_file_with table p w = (false, w).
Proof.
  intros Hok once.
  assert (C : passes_clean (moved_passes table) once).
  { unfold once. rewrite moved_content.
    apply passes_all_clean.
    - intros p s I. apply (moved_passes_self table p s Hok I).
    - intros p q s Ip Iq. apply (moved_passes_keep table p q s Hok Ip Iq). }
  assert (Id : FixMovedImports.update_content table once = once).
  { rewrite moved_content. apply passes_clean_id. exact C. }
  split; [|split; [exact Id|]].
  - intros e I. split.
    + apply (C (moved_pass1 e)). unfold moved_passes. apply in_flat_map.
      exists e. split; [exact I|left; reflexivity].
    + apply (C (moved_pass2 e)). unfold moved_passes. apply in_flat_map.
      exists e. split; [exact I|right; left; reflexivity].
  - intros p w D. unfold FixMovedImports.update_file_with, Fs.read.
    rewrite D, Id, chars_eqb_refl. reflexivity.
Qed.

Lemma fix_moved_second_run_changes_nothing_witness :
  let c := cs "import { GraphSidebar, X } from '@/components/graph-sidebar'" in
  FixMovedImports.update_content FixMovedImports.IMPORT_FIXES
    (FixMovedImports.update_content FixMovedImports.IMPORT_FIXES c)
  = FixMovedImports.update_content FixMovedImports.IMPORT_FIXES c.
Proof.
  intros c.
  exact (proj1 (proj2 (fix_moved_second_run_changes_nothing
                         FixMovedImports.IMPORT_FIXES c fix_moved_table_ok))).
Defined.

(** ** fix-all-remaining-imports.py: a second run *)

Lemma fix_all_entry c e :
  FixAllRemainingImports.fix_entry c e
  = re_sub (fst (fix_all_pass e)) (snd (fix_all_pass e)) c.
Proof.
  unfold FixAllRemainingImports.fix_entry, fix_all_pass, binding_of. cbv zeta.
  destruct (starts_with (cs "@/components/") (cs (fst e))); reflexivity.
Qed.

Lemma fix_all_content table : forall c,
  FixAllRemainingImports.update_content table c = run_passes (fix_all_passes table) c.
Proof.
  unfold FixAllRemainingImports.update_content, run_passes, fix_all_passes.
  induction table as [|e table IH]; intros c; simpl; auto.
  rewrite fix_all_entry. apply IH.
Qed.

Lemma fix_all_table_entries table :
  fix_all_table_ok table = true ->
  (forall e, In e table ->
     (starts_with (cs "@/components/") (cs (fst e)) = true ->
      plain (binding_of e) = true)
     /\ path_text (cs (fst e)) = true /\ path_text (cs (snd e)) = true)
  /\ (forall e e', In e table -> In e' table -> cs (snd e) <> cs (fst e')).
Proof.
  unfold fix_all_table_ok. intros H.
  apply andb_true_iff in H as [H1 H2]. rewrite forallb_forall in H1. split.
  - intros e I. specialize (H1 e I).
    apply andb_true_iff in H1 as [H1 P2]. apply andb_true_iff in H1 as [H1 P1].
    repeat split; auto.
    intros S. rewrite S in H1. simpl in H1.
    apply andb_true_iff in H1 as [H1 _]. exact H1.
  - apply no_chain_entries. exact H2.
Qed.

Lemma fix_all_shape e s ps rest :
  (starts_with (cs "@/components/") (cs (fst e)) = true ->
   plain (binding_of e) = true) ->
  match_items (items (fst (fix_all_pass e))) s = Some (ps, rest) ->
  (concat ps <> []
   /\ exists g, no_rbrace g = true
                /\ expand (fst (fix_all_pass e)) (snd (fix_all_pass e)) ps
                   = normal_import g (cs (snd e)))
  /\ exists G, braced_import (cs (fst e)) G (concat ps).
Proof.
  unfold fix_all_pass. intros HP M.
  destruct (starts_with (cs "@/components/") (cs (fst e))); cbn [fst snd] in *.
  - apply (named_pattern_shape (binding_of e) (cs (fst e)) (cs (snd e)) s ps rest
             (HP eq_refl) M).
  - apply (relative_shape (cs (fst e)) (cs (snd e)) s ps rest M).
Qed.

Lemma fix_all_passes_self table p s :
  fix_all_table_ok table = true -> In p (fix_all_passes table) ->
  clean (fst p) (re_sub (fst p) (snd p) s).
Proof.
  intros Hok I. destruct (fix_all_table_entries table Hok) as [Hent Hdiff].
  apply in_map_iff in I as (e & <- & Ie).
  destruct (Hent e Ie) as (HP & Po & Pn).
  apply (brace_pass_new _ _ (cs (snd e)) _ (cs (fst e)) Pn Po (Hdiff e e Ie Ie)).
  - intros s0 ps rest M. apply (fix_all_shape e s0 ps rest HP M).
  - intros s0 qs rest M. apply (fix_all_shape e s0 qs rest HP M).
  - intros x y _ H. exact H.
Qed.

Lemma fix_all_passes_keep table p q s :
  fix_all_table_ok table = true ->
  In p (fix_all_passes table) -> In q (fix_all_passes table) ->
  clean (fst q) s -> clean (fst q) (re_sub (fst p) (snd p) s).
Proof.
  intros Hok Ip Iq. destruct (fix_all_table_entries table Hok) as [Hent Hdiff].
  apply in_map_iff in Ip as (e & <- & Ie). apply in_map_iff in Iq as (e' & <- & Ie').
  destruct (Hent e Ie) as (HP & Po & Pn). destruct (Hent e' Ie') as (HP' & Po' & _).
  apply (brace_pass_keeps _ _ (cs (snd e)) _ (cs (fst e')) Pn Po' (Hdiff e e' Ie Ie')).
  - intros s0 ps rest M. apply (fix_all_shape e s0 ps rest HP M).
  - intros s0 qs rest M. apply (fix_all_shape e' s0 qs rest HP' M).
Qed.

Lemma fix_all_fixes_ok : fix_all_table_ok FixAllRemainingImports.FIXES = true.
Proof. vm_compute. reflexivity. Qed.

(** X19: a second run of fix-all-remaining-imports.py changes nothing.
    For a table in which the binding name derived for every rule of the
    first branch is a non-empty plain name, whose paths are module
    paths and in which no new path is an old path (as [FIXES]): in the
    content a run computes, the pattern of no rule matches anywhere; a
    second run computes the same content; and run on a file that holds
    it, [update_file] writes nothing, prints nothing and answers
    [False]. *)
Theorem fix_all_second_run_changes_nothing
  (table : list (string * string)) (content : chars) :
  fix_all_table_ok table = true ->
  let once := FixAllRemainingImports.update_content table content in
  (forall e, In e table -> clean (fst (fix_all_pass e)) once)
  /\ FixAllRemainingImports.update_content table once = once
  /\ forall p w,
       Fs.data (Fs.disk w p) = Some once ->
       FixAllRemainingImports.update_file_with table p w = (false, w).
Proof.
  intros Hok once.
  assert (C : passes_clean (fix_all_passes table) once).
  { unfold once. rewrite fix_all_content.
    apply passes_all_clean.
    - intros p s I. apply (fix_all_passes_self table p s Hok I).
    - intros p q s Ip Iq. apply (fix_all_passes_keep table p q s Hok Ip Iq). }
  assert (Id : FixAllRemainingImports.update_content table once = once).
  { rewrite fix_all_content. apply passes_clean_id. exact C. }
  split; [|split; [exact Id|]].
  - intros e I. apply (C (fix_all_pass e)). unfold fix_all_passes.
    apply in_map. exact I.
  - intros p w D. unfold FixAllRemainingImports.update_file_with, Fs.read.
    rewrite D, Id, chars_eqb_refl. reflexivity.
Qed.

Lemma fix_all_second_run_changes_nothing_witness :
  let c := cs "import { A, B } from './create-node-relationship-dialog'" in
  FixAllRemainingImports.update_content FixAllRemainingImports.FIXES
    (FixAllRemainingImports.update_content FixAllRemainingImports.FIXES c)
  = FixAllRemainingImports.update_content FixAllRemainingImports.FIXES c.
Proof.
  intros c.
  exact (proj1 (proj2 (fix_all_second_run_changes_nothing
                         FixAllRemainingImports.FIXES c fix_all_fixes_ok))).
Defined.

Example fix_moved_run_on_a_list :
  FixMovedImports.update_content FixMovedImports.IMPORT_FIXES
    (cs "import { GraphSidebar, X } from '@/components/graph-sidebar'")
  = cs "import { GraphSidebar, X  } from '@/components/panels'".
Proof. vm_compute. reflexivity. Qed.

Example fix_all_run_on_a_list :
  FixAllRemainingImports.update_content FixAllRemainingImports.FIXES
    (cs "import { A, B } from './create-node-relationship-dialog'")
  = cs "import { A, B  } from '../forms/create-node-relationship-dialog'".
Proof. vm_compute. reflexivity. Qed.

(** ** fix-barrel-exports.py: a second run *)

Lemma replace_copy old new d : forall rest,
  ~ In "f"%char d ->
  str_replace (cs "from '" ++ old) new (d ++ rest)
  = d ++ str_replace (cs "from '" ++ old) new rest.
Proof.
  induction d as [|a d IH]; intros rest H; [reflexivity|].
  rewrite <- app_comm_cons, replace_miss.
  - rewrite <- app_comm_cons. f_equal. apply IH. intros I. apply H. right. exact I.
  - apply from_nonempty.
  - change (cs "from '" ++ old) with ("f"%char :: (cs "rom '" ++ old)).
    cbn [starts_with].
    destruct (Ascii.eqb a "f") eqn:E; [|reflexivity].
    exfalso. apply H. left. apply Ascii.eqb_eq in E. auto.
Qed.

Lemma replace_shorter old new s :
  old <> [] -> length new <= length old ->
  length (str_replace old new s) <= length s.
Proof.
  intros Ho L. pose proof (replace_length old new Ho s) as E. nia.
Qed.

(** X20: fix-barrel-exports.py goes on at a second run.  For a
    replacement whose old path is the new path followed by a directory
    [d] (as [./media/] and [./]): an export from a path nested twice,
    [from 'new_path d d ...], comes out of the first run as [from
    'new_path d ...], which starts with [from 'old_path] again, and a
    second run takes another level off: the result of the second run
    differs from the result of the first.  ([d] holds no letter [f], so
    that no [from] starts inside it.) *)
Theorem barrel_second_run_goes_on (r : string * string) (d rest : chars) :
  cs (fst r) = cs (snd r) ++ d -> d <> [] -> ~ In "f"%char d ->
  let c := cs "from '" ++ cs (fst r) ++ d ++ rest in
  FixBarrelExports.fix_one c r
  = cs "from '" ++ cs (fst r) ++ FixBarrelExports.fix_one rest r
  /\ FixBarrelExports.fix_one (FixBarrelExports.fix_one c r) r
     = cs "from '" ++ cs (snd r)
       ++ FixBarrelExports.fix_one (FixBarrelExports.fix_one rest r) r
  /\ FixBarrelExports.fix_one (FixBarrelExports.fix_one c r) r
     <> FixBarrelExports.fix_one c r.
Proof.
  intros Eo Hd Hf c. unfold FixBarrelExports.fix_one in *.
  set (O := cs "from '" ++ cs (fst r)). set (Nw := cs "from '" ++ cs (snd r)).
  assert (HO : O <> []) by apply from_nonempty.
  assert (E1 : str_replace O Nw c = O ++ str_replace O Nw rest).
  { unfold c, O. rewrite (app_assoc (cs "from '") (cs (fst r))).
    rewrite (replace_hit _ Nw (from_nonempty _)),
      (replace_copy (cs (fst r)) Nw d rest Hf).
    unfold Nw. rewrite Eo. repeat (rewrite <- ?app_assoc). reflexivity. }
  assert (E2 : str_replace O Nw (str_replace O Nw c)
               = Nw ++ str_replace O Nw (str_replace O Nw rest)).
  { rewrite E1. apply (replace_hit O Nw HO). }
  split; [rewrite E1; unfold O; rewrite <- app_assoc; reflexivity|].
  split; [rewrite E2; unfold Nw; rewrite <- app_assoc; reflexivity|].
  rewrite E2, E1. intros E. apply (f_equal (@length ascii)) in E.
  rewrite !length_app in E.
  assert (L : length Nw < length O).
  { unfold O, Nw. rewrite !length_app, Eo, length_app.
    destruct d; [contradiction Hd; reflexivity|simpl; lia]. }
  pose proof (replace_shorter O Nw (str_replace O Nw rest) HO ltac:(lia)) as S.
  lia.
Qed.

Lemma barrel_second_run_goes_on_witness :
  FixBarrelExports.fix_one
    (FixBarrelExports.fix_one (cs "from './media/media/x'") ("./media/", "./"))
    ("./media/", "./")
  <> FixBarrelExports.fix_one (cs "from './media/media/x'") ("./media/", "./").
Proof.
  refine (proj2 (proj2 (barrel_second_run_goes_on ("./media/", "./")%string
                          (cs "media/") (cs "x'") _ _ _))).
  - reflexivity.
  - discriminate.
  - vm_compute. intuition discriminate.
Defined.
